(** * Graph search algorithms: DFS, BFS, cycle detection, Dijkstra

    A shallow embedding of the Python sources
    - [directed_graph_search_algos.py]   (class [DirectedGraph], adjacency matrix),
    - [undirected_graph_search_algos.py] (class [UndirectedGraph], recursive searches),
    - [ud_graph.py]                      (class [UndirectedGraph], explicit-stack searches),
    - [maze_solving_algo.py]             (function [solve_puzzle]),
    and the properties of them that the specification states.

    Conventions.
    - Python integers are [Z]; a vertex count and a [range] index are [nat].
    - A Python call either returns or raises; [res A] records both, and a
      third outcome [OutOfFuel] stands for a loop or a recursion that has
      not finished within the fuel given to the model.
    - [float('inf')] is the constructor [Inf] of [dist]. *)

From Stdlib Require Import ZArith Lia.
From stdpp Require Import base list strings gmap sorting.

Local Open Scope Z_scope.
Set Warnings "-clear-no-such-hyp".

(** ** Outcomes of a call *)

Inductive exn : Set := KeyError | IndexError | ValueError.

Inductive res (A : Type) : Type :=
| Ok (a : A)
| Raise (e : exn)
| OutOfFuel.
Arguments Ok {A} a.
Arguments Raise {A} e.
Arguments OutOfFuel {A}.

Definition res_bind {A B} (f : A -> res B) (m : res A) : res B :=
  match m with
  | Ok a => f a
  | Raise e => Raise e
  | OutOfFuel => OutOfFuel
  end.

#[global] Instance res_mbind : MBind res := @res_bind.
#[global] Instance res_mret : MRet res := @Ok.
#[global] Instance res_fmap : FMap res :=
  fun A B f m => res_bind (fun a => Ok (f a)) m.

Lemma res_bind_ok {A B} (f : A -> res B) (m : res A) (b : B) :
  (m ≫= f) = Ok b -> exists a, m = Ok a /\ f a = Ok b.
Proof. destruct m; simpl; intros H; try discriminate. eauto. Qed.

(** ** Python sequences *)

Module Py.

(** [l[i]]: negative indices count from the end, anything else outside
    the list raises [IndexError]. *)
Definition index {A} (l : list A) (i : Z) : res A :=
  let n := Z.of_nat (length l) in
  let j := if i <? 0 then n + i else i in
  if (0 <=? j) && (j <? n)
  then match l !! Z.to_nat j with Some a => Ok a | None => Raise IndexError end
  else Raise IndexError.

(** [l[i] = x] *)
Definition setitem {A} (l : list A) (i : Z) (x : A) : res (list A) :=
  let n := Z.of_nat (length l) in
  let j := if i <? 0 then n + i else i in
  if (0 <=? j) && (j <? n)
  then Ok (<[Z.to_nat j := x]> l)
  else Raise IndexError.

(** [range(n)] as integers *)
Definition range (n : nat) : list Z := Z.of_nat <$> seq 0 n.

(** [x in l] *)
Definition mem `{EqDecision A} (x : A) (l : list A) : bool :=
  bool_decide (x ∈ l).

(** [l.remove(x)]: drops the first occurrence, [ValueError] without one. *)
Fixpoint remove `{EqDecision A} (x : A) (l : list A) : res (list A) :=
  match l with
  | [] => Raise ValueError
  | y :: l' => if decide (x = y) then Ok l' else (r ← remove x l'; Ok (y :: r))
  end.

End Py.

(** ** The [heapq] priority queue

    [heapq] keeps its entries in an array laid out as a binary heap.  The
    sources only push, pop and take the length, so what they observe is the
    bag of entries and, at each pop, a least entry of it.  The entries pushed
    here are tuples and lists of integers, ordered lexicographically: two
    entries that compare equal are the same value, and the least entry is
    unique as a value.  The queue is therefore modelled by the list of its
    entries, [heappop] taking a least one out. *)

Module Heapq.
Section Heap.
Context {A : Type} (leb : A -> A -> bool).

Definition heappush (h : list A) (x : A) : list A := x :: h.

(** [extract x l]: a least element of [x :: l] and the others. *)
Fixpoint extract (x : A) (l : list A) : A * list A :=
  match l with
  | [] => (x, [])
  | y :: l' =>
      if leb x y
      then let '(m, r) := extract x l' in (m, y :: r)
      else let '(m, r) := extract y l' in (m, x :: r)
  end.

Definition heappop (h : list A) : option (A * list A) :=
  match h with
  | [] => None
  | x :: l => Some (extract x l)
  end.

Lemma extract_perm x l m r : extract x l = (m, r) -> x :: l ≡ₚ m :: r.
Proof.
  revert x m r. induction l as [|y l IH]; intros x m r; simpl.
  - intros [= <- <-]. done.
  - destruct (leb x y).
    + destruct (extract x l) as [m' r'] eqn:E. intros [= <- <-].
      apply IH in E. rewrite (Permutation_swap y x l), E. apply Permutation_swap.
    + destruct (extract y l) as [m' r'] eqn:E. intros [= <- <-].
      apply IH in E. rewrite E. apply Permutation_swap.
Qed.

Lemma heappop_perm h m r : heappop h = Some (m, r) -> h ≡ₚ m :: r.
Proof. destruct h as [|x l]; simpl; [done|]. intros [= H]. by apply extract_perm. Qed.

Lemma heappop_length h m r : heappop h = Some (m, r) -> length h = S (length r).
Proof. intros H. apply heappop_perm in H. by rewrite H. Qed.

(** The popped entry is least for every key the order refines. *)
Lemma extract_least (key : A -> Z) x l m r :
  (forall a b, leb a b = true -> key a <= key b) ->
  (forall a b, leb a b = false -> key b <= key a) ->
  extract x l = (m, r) -> forall z, z ∈ x :: l -> key m <= key z.
Proof.
  intros Ht Hf. revert x m r. induction l as [|y l IH]; intros x m r; simpl.
  - intros [= <- <-] z Hz. apply list_elem_of_singleton in Hz. subst. lia.
  - destruct (leb x y) eqn:Exy.
    + destruct (extract x l) as [m' r'] eqn:E. intros [= <- <-] z Hz.
      pose proof (IH _ _ _ E) as IH'.
      apply elem_of_cons in Hz as [->|Hz].
      * apply IH'. left.
      * apply elem_of_cons in Hz as [->|Hz].
        -- specialize (IH' x (list_elem_of_here _ _)). apply Ht in Exy. lia.
        -- apply IH'. by right.
    + destruct (extract y l) as [m' r'] eqn:E. intros [= <- <-] z Hz.
      pose proof (IH _ _ _ E) as IH'.
      apply elem_of_cons in Hz as [->|Hz].
      * specialize (IH' y (list_elem_of_here _ _)). apply Hf in Exy. lia.
      * apply IH'. done.
Qed.

Lemma heappop_least (key : A -> Z) h m r :
  (forall a b, leb a b = true -> key a <= key b) ->
  (forall a b, leb a b = false -> key b <= key a) ->
  heappop h = Some (m, r) -> forall z, z ∈ h -> key m <= key z.
Proof.
  intros Ht Hf. destruct h as [|x l]; simpl; [done|]. intros [= H].
  by apply extract_least with (r := r).
Qed.
End Heap.
End Heapq.

(** ** Distances: an integer or [float('inf')] *)

Inductive dist : Set := Inf | Fin (d : Z).

#[global] Instance dist_eq_dec : EqDecision dist.
Proof. solve_decision. Defined.

(** [d < x] for an integer [d] *)
Definition lt_dist (d : Z) (x : dist) : bool :=
  match x with
  | Inf => true
  | Fin y => d <? y
  end.

(** ** [directed_graph_search_algos.py]: class [DirectedGraph] *)

Module Directed.

Record DirectedGraph : Type := mkGraph {
  v_count : nat;
  adj_matrix : list (list Z)
}.

(** [DirectedGraph()] without start edges *)
Definition empty : DirectedGraph := mkGraph 0 [].

(** [add_vertex]: a new row of [v_count] zeros, then one more column. *)
Definition add_vertex (g : DirectedGraph) : DirectedGraph :=
  let rows := adj_matrix g ++ [replicate (v_count g) 0] in
  mkGraph (S (v_count g)) ((fun row => row ++ [0]) <$> rows).

Definition in_range (g : DirectedGraph) (v : Z) : bool :=
  (0 <=? v) && (v <? Z.of_nat (v_count g)).

(** [self.adj_matrix[src][dst] = weight] *)
Definition set_cell (g : DirectedGraph) (src dst weight : Z) : res DirectedGraph :=
  row ← Py.index (adj_matrix g) src;
  row' ← Py.setitem row dst weight;
  m ← Py.setitem (adj_matrix g) src row';
  Ok (mkGraph (v_count g) m).

Definition add_edge (g : DirectedGraph) (src dst weight : Z) : res DirectedGraph :=
  if negb (in_range g src) || negb (in_range g dst) then Ok g
  else if src =? dst then Ok g
  else if weight <? 0 then Ok g
  else set_cell g src dst weight.

Definition remove_edge (g : DirectedGraph) (src dst : Z) : res DirectedGraph :=
  if negb (in_range g src) || negb (in_range g dst) then Ok g
  else if src =? dst then Ok g
  else set_cell g src dst 0.

Fixpoint add_edges (g : DirectedGraph) (es : list (Z * Z * Z)) : res DirectedGraph :=
  match es with
  | [] => Ok g
  | (u, v, w) :: es' => g' ← add_edge g u v w; add_edges g' es'
  end.

(** [DirectedGraph(start_edges)]: vertices up to the largest id, then the
    edges in order. *)
Definition init (start_edges : list (Z * Z * Z)) : res DirectedGraph :=
  let top := fold_left (fun m '(u, v, _) => Z.max (Z.max m u) v) start_edges 0 in
  add_edges (Nat.iter (Z.to_nat (top + 1)) add_vertex empty) start_edges.

Definition get_vertices (g : DirectedGraph) : list Z := Py.range (v_count g).

(** [self.adj_matrix[src][dst]] *)
Definition cell (g : DirectedGraph) (src dst : Z) : res Z :=
  row ← Py.index (adj_matrix g) src; Py.index row dst.

(** The rows of [get_edges], cell by cell in row-major order. *)
Definition get_edges (g : DirectedGraph) : res (list (Z * Z * Z)) :=
  foldl (fun acc src =>
    foldl (fun acc dst =>
      r ← acc; w ← cell g src dst;
      Ok (if w =? 0 then r else r ++ [(src, dst, w)]))
      acc (Py.range (v_count g)))
    (Ok []) (Py.range (v_count g)).

(** The [for i in range(2, size)] loop of [is_valid_path], [rest] being
    [path[2:]]; the test after the loop is the last line. *)
Fixpoint valid_steps (g : DirectedGraph) (src dst : Z) (rest : list Z) : res bool :=
  w ← cell g src dst;
  if w =? 0 then Ok false
  else match rest with
       | [] => Ok true
       | next :: rest' => valid_steps g dst next rest'
       end.

Definition is_valid_path (g : DirectedGraph) (path : list Z) : res bool :=
  match path with
  | [] => Ok true
  | [x] => Ok (x <? Z.of_nat (v_count g))
  | src :: dst :: rest => valid_steps g src dst rest
  end.

(** [if v_end:] is Python truthiness: [None] and [0] are both false. *)
Definition truthy (v_end : option Z) : bool :=
  match v_end with
  | None => false
  | Some e => negb (e =? 0)
  end.

(** [v_end in visited], for a [v_end] that is not [None] *)
Definition end_seen (v_end : option Z) (visited : list Z) : bool :=
  match v_end with
  | None => false
  | Some e => Py.mem e visited
  end.

(** The inner function [rec_dfs] of [dfs].  [fuel] bounds the depth of the
    recursion; the [for adj in range(len(row))] loop is the inner [fix]. *)
Fixpoint rec_dfs (fuel : nat) (g : DirectedGraph) (visited : list Z) (v : Z)
    (v_end : option Z) : res (list Z) :=
  match fuel with
  | O => OutOfFuel
  | S fuel' =>
      let visited1 :=
        if truthy v_end then
          (if end_seen v_end visited then visited else visited ++ [v])
        else match v_end with
             | None => visited ++ [v]
             | Some _ => visited
             end in
      row ← Py.index (adj_matrix g) v;
      (fix loop (adjs : list Z) (visited : list Z) {struct adjs} : res (list Z) :=
         match adjs with
         | [] => Ok visited
         | adj :: adjs' =>
             if truthy v_end && end_seen v_end visited then Ok visited
             else
               w ← cell g v adj;
               if negb (w =? 0) && negb (Py.mem adj visited)
               then visited' ← rec_dfs fuel' g visited adj v_end; loop adjs' visited'
               else loop adjs' visited
         end) (Py.range (length row)) visited1
  end.

Definition dfs (fuel : nat) (g : DirectedGraph) (v_start : Z) (v_end : option Z)
    : res (list Z) :=
  if negb (Py.mem v_start (get_vertices g)) then Ok []
  else rec_dfs fuel g [] v_start v_end.

(** The [for dst in range(len(edges))] loop of [bfs] *)
Fixpoint bfs_enqueue (g : DirectedGraph) (vertex : Z) (visited : list Z)
    (dsts : list Z) (queue : list Z) : res (list Z) :=
  match dsts with
  | [] => Ok queue
  | dst :: dsts' =>
      w ← cell g vertex dst;
      bfs_enqueue g vertex visited dsts'
        (if negb (w =? 0) && negb (Py.mem dst visited) then queue ++ [dst] else queue)
  end.

(** The [while len(next_vertex) != 0] loop of [bfs] *)
Fixpoint bfs_loop (fuel : nat) (g : DirectedGraph) (v_end : option Z)
    (queue visited : list Z) : res (list Z) :=
  match fuel with
  | O => OutOfFuel
  | S fuel' =>
      match queue with
      | [] => Ok visited
      | vertex :: queue' =>
          edges ← Py.index (adj_matrix g) vertex;
          let visited' := if Py.mem vertex visited then visited else visited ++ [vertex] in
          if bool_decide (Some vertex = v_end) then Ok visited'
          else
            queue'' ← bfs_enqueue g vertex visited' (Py.range (length edges)) queue';
            bfs_loop fuel' g v_end queue'' visited'
      end
  end.

Definition bfs (fuel : nat) (g : DirectedGraph) (v_start : Z) (v_end : option Z)
    : res (list Z) :=
  if negb (Py.mem v_start (get_vertices g)) then Ok []
  else bfs_loop fuel g v_end [v_start] [].

(** The inner function [rec_dfs] of [has_cycle]: [visited] and [path] are
    the two lists of flags it updates in place, returned with its answer. *)
Fixpoint cycle_dfs (fuel : nat) (g : DirectedGraph) (visited path : list bool) (v : Z)
    : res (bool * (list bool * list bool)) :=
  match fuel with
  | O => OutOfFuel
  | S fuel' =>
      visited ← Py.setitem visited v true;
      path ← Py.setitem path v true;
      row ← Py.index (adj_matrix g) v;
      (fix loop (adjs : list Z) (visited path : list bool) {struct adjs}
           : res (bool * (list bool * list bool)) :=
         match adjs with
         | [] => path ← Py.setitem path v false; Ok (false, (visited, path))
         | adj :: adjs' =>
             w ← cell g v adj;
             if negb (w =? 0) then
               seen ← Py.index visited adj;
               if negb seen then
                 r ← cycle_dfs fuel' g visited path adj;
                 let '(found, (visited', path')) := (r : bool * (list bool * list bool)) in
                 if found then Ok (true, (visited', path')) else loop adjs' visited' path'
               else
                 on_path ← Py.index path adj;
                 if (on_path : bool) then Ok (true, (visited, path)) else loop adjs' visited path
             else loop adjs' visited path
         end) (Py.range (length row)) visited path
  end.

(** The [for vertex in vertices] loop of [has_cycle].  The flag [empty] it
    computes is never read; only the row access it makes is kept. *)
Fixpoint cycle_roots (fuel : nat) (g : DirectedGraph) (visited path : list bool)
    (vertices : list Z) : res bool :=
  match vertices with
  | [] => Ok false
  | vertex :: vertices' =>
      seen ← Py.index visited vertex;
      if (seen : bool) then cycle_roots fuel g visited path vertices'
      else
        _ ← Py.index (adj_matrix g) vertex;
        r ← cycle_dfs fuel g visited path vertex;
        let '(found, (visited', path')) := (r : bool * (list bool * list bool)) in
        if found then Ok true else cycle_roots fuel g visited' path' vertices'
  end.

Definition has_cycle (fuel : nat) (g : DirectedGraph) : res bool :=
  let vertices := get_vertices g in
  cycle_roots fuel g (replicate (length vertices) false)
    (replicate (length vertices) false) vertices.

(** *** [dijkstra] *)

(** Queue entries are the lists [[priority, task]], compared as Python
    compares lists: by priority, then by task. *)
Definition entry_leb (a b : Z * Z) : bool :=
  (a.1 <? b.1) || ((a.1 =? b.1) && (a.2 <=? b.2)).

(** [visited] is the dictionary [{0: inf, ..., v_count-1: inf}]: its keys
    are never added to or removed, so it is the list of its values in key
    order, and a key outside [0..v_count-1] is a [KeyError]. *)
Definition dict_get (visited : list dist) (k : Z) : res dist :=
  if (0 <=? k) && (k <? Z.of_nat (length visited))
  then match visited !! Z.to_nat k with Some d => Ok d | None => Raise KeyError end
  else Raise KeyError.

Definition dict_set (visited : list dist) (k : Z) (d : dist) : list dist :=
  <[Z.to_nat k := d]> visited.

(** The [for c in range(len(row))] loop: [row] is what is left of the
    row from column [c] on. *)
Fixpoint relax (distance : Z) (row : list Z) (c : Z) (pq : list (Z * Z))
    : list (Z * Z) :=
  match row with
  | [] => pq
  | w :: row' =>
      relax distance row' (c + 1)
        (if w =? 0 then pq else Heapq.heappush pq (distance + w, c))
  end.

(** The [while len(pq) > 0] loop.  [pop_task] cannot raise inside it. *)
Fixpoint dijkstra_loop (fuel : nat) (g : DirectedGraph) (pq : list (Z * Z))
    (visited : list dist) : res (list dist) :=
  match fuel with
  | O => OutOfFuel
  | S fuel' =>
      match Heapq.heappop entry_leb pq with
      | None => Ok visited
      | Some ((distance, vertex), pq') =>
          best ← dict_get visited vertex;
          if lt_dist distance best then
            row ← Py.index (adj_matrix g) vertex;
            dijkstra_loop fuel' g (relax distance row 0 pq')
              (dict_set visited vertex (Fin distance))
          else dijkstra_loop fuel' g pq' visited
      end
  end.

Definition dijkstra (fuel : nat) (g : DirectedGraph) (src : Z) : res (list dist) :=
  dijkstra_loop fuel g (Heapq.heappush [] (0, src)) (replicate (v_count g) Inf).

(** *** Directed paths and their weights *)

(** The weight stored for the edge [u -> c]; 0 stands for no edge. *)
Definition weight (g : DirectedGraph) (u c : nat) : Z :=
  default 0 (row ← adj_matrix g !! u; row !! c).

(** [walk g src v d]: some directed path from [src] to [v] has total
    weight [d]. *)
Inductive walk (g : DirectedGraph) (src : nat) : nat -> Z -> Prop :=
| walk_here : walk g src src 0
| walk_step u c d :
    walk g src u d -> weight g u c <> 0 -> walk g src c (d + weight g u c).

(** The shape every graph has: a square matrix of [v_count] rows, and no
    negative weight in it, so that every edge has a positive weight. *)
Definition wf_graph (g : DirectedGraph) : Prop :=
  length (adj_matrix g) = v_count g /\
  Forall (fun row => length row = v_count g /\ Forall (fun w => 0 <= w) row)
         (adj_matrix g).

(** The graph of the examples in the file's [__main__] block *)
Definition example_edges : list (Z * Z * Z) :=
  [(0, 1, 10); (4, 0, 12); (1, 4, 15); (4, 3, 3); (3, 1, 5); (2, 1, 23); (3, 2, 7)].

Definition example_graph : DirectedGraph :=
  mkGraph 5 [ [0; 10; 0; 0; 0];
              [0; 0; 0; 0; 15];
              [0; 23; 0; 0; 0];
              [0; 5; 7; 0; 0];
              [12; 0; 0; 3; 0] ].

End Directed.

(** ** The undirected graphs: the adjacency dictionary

    [adj_list] is a Python [dict] from vertex names to lists of names.  A
    [dict] keeps its keys in insertion order, and [get_vertices] exposes
    that order, so the dictionary is an association list with one entry
    per key. *)

Module Dict.
Section Dict.
Context {V : Type}.
Abbreviation t := (list (string * V)).

(** [k in d] *)
Definition has (d : t) (k : string) : bool :=
  bool_decide (k ∈ d.*1).

Fixpoint get_opt (d : t) (k : string) : option V :=
  match d with
  | [] => None
  | (k', v) :: d' => if decide (k = k') then Some v else get_opt d' k
  end.

(** [d[k]] *)
Definition get (d : t) (k : string) : res V :=
  match get_opt d k with
  | Some v => Ok v
  | None => Raise KeyError
  end.

(** [d[k] = v]: in place for a key of [d], at the end for a new one. *)
Fixpoint set (d : t) (k : string) (v : V) : t :=
  match d with
  | [] => [(k, v)]
  | (k', v') :: d' => if decide (k = k') then (k, v) :: d' else (k', v') :: set d' k v
  end.

(** [d.pop(k)], without the value *)
Fixpoint del (d : t) (k : string) : t :=
  match d with
  | [] => []
  | (k', v') :: d' => if decide (k = k') then d' else (k', v') :: del d' k
  end.

(** [[*d]] *)
Definition keys (d : t) : list string := d.*1.
End Dict.
End Dict.

(** [l.sort()] on a list of names.  Python orders strings by code point
    and its sort is stable; names that compare equal are equal, so the
    result is the one sorted arrangement of [l]. *)
Definition str_leb (a b : string) : bool := String.leb a b.

Fixpoint sort_insert (x : string) (l : list string) : list string :=
  match l with
  | [] => [x]
  | y :: l' => if str_leb x y then x :: l else y :: sort_insert x l'
  end.

Definition py_sort (l : list string) : list string :=
  foldr sort_insert [] l.

(** What both undirected classes share: the state and its mutators, which
    are the same text in the two files. *)

Module Undirected.

Abbreviation adj := (list (string * list string)).

Definition empty : adj := [].

Definition add_vertex (g : adj) (v : string) : adj :=
  if Dict.has g v then g else Dict.set g v [].

Definition add_edge (g : adj) (u v : string) : res adj :=
  if decide (u = v) then Ok g
  else
    let g := if negb (Dict.has g u) then add_vertex g u else g in
    let g := if negb (Dict.has g v) then add_vertex g v else g in
    lv ← Dict.get g v;
    let g := if negb (Py.mem u lv) then Dict.set g v (lv ++ [u]) else g in
    lu ← Dict.get g u;
    Ok (if negb (Py.mem v lu) then Dict.set g u (lu ++ [v]) else g).

(** [remove_edge(v, u)], with the parameters in the order of the source *)
Definition remove_edge (g : adj) (v u : string) : res adj :=
  if decide (u = v) then Ok g
  else
    g ← (if Dict.has g u then
           lu ← Dict.get g u;
           if Py.mem v lu then lu' ← Py.remove v lu; Ok (Dict.set g u lu') else Ok g
         else Ok g);
    if Dict.has g v then
      lv ← Dict.get g v;
      if Py.mem u lv then lv' ← Py.remove u lv; Ok (Dict.set g v lv') else Ok g
    else Ok g.

(** One of the two symmetric halves of [remove_edge] *)
Definition drop_neighbor (g : adj) (a b : string) : res adj :=
  if Dict.has g a then
    la ← Dict.get g a;
    if Py.mem b la then la' ← Py.remove b la; Ok (Dict.set g a la') else Ok g
  else Ok g.

(** The [for edge in edges] loop of [remove_vertex] *)
Fixpoint unlink (g : adj) (v : string) (edges : list string) : res adj :=
  match edges with
  | [] => Ok g
  | edge :: edges' =>
      l ← Dict.get g edge;
      l' ← Py.remove v l;
      unlink (Dict.set g edge l') v edges'
  end.

Definition remove_vertex (g : adj) (v : string) : res adj :=
  if Dict.has g v then
    edges ← Dict.get g v;
    unlink (Dict.del g v) v edges
  else Ok g.

(** [UndirectedGraph(start_edges)] *)
Fixpoint init (g : adj) (start_edges : list (string * string)) : res adj :=
  match start_edges with
  | [] => Ok g
  | (u, v) :: es => g' ← add_edge g u v; init g' es
  end.

Definition get_vertices (g : adj) : list string := Dict.keys g.

(** The [for edge in self.adj_list[vertex]] loop of [get_edges] *)
Definition get_edges_row (vertex : string) (edges : list string)
    (result : list (string * string)) : list (string * string) :=
  foldl (fun result edge =>
           if negb (Py.mem (edge, vertex) result) then result ++ [(vertex, edge)]
           else result)
        result edges.

Definition get_edges (g : adj) : res (list (string * string)) :=
  foldl (fun acc vertex =>
           result ← acc; edges ← Dict.get g vertex;
           Ok (get_edges_row vertex edges result))
        (Ok []) (Dict.keys g).

(** The [for i in range(path_size-1)] loop of [is_valid_path]; [path] is
    [path[i:]] and [result] the flag so far. *)
Fixpoint valid_loop (g : adj) (path : list string) (result : bool) : res bool :=
  match path with
  | a :: ((b :: _) as rest) =>
      if negb (Dict.has g a) then Ok false
      else
        la ← Dict.get g a;
        valid_loop g rest (if negb (Py.mem b la) then false else result)
  | _ => Ok result
  end.

Definition is_valid_path (g : adj) (path : list string) : res bool :=
  match path with
  | [] => Ok true
  | p0 :: _ =>
      let result :=
        if (length path =? 1)%nat && negb (Dict.has g p0) then false else true in
      valid_loop g path result
  end.

(** [count_connected_components] is the same text in the two files and
    differs by the [dfs] it calls, which is the parameter [dfs] here. *)

(** The [for component in connection] loop *)
Fixpoint remove_all (vertices connection : list string) : res (list string) :=
  match connection with
  | [] => Ok vertices
  | c :: connection' => vs ← Py.remove c vertices; remove_all vs connection'
  end.

(** The [while len(vertices) > 0] loop.  [fuel] bounds both the number of
    rounds and what each [dfs] may use. *)
Fixpoint count_loop
    (dfs : nat -> adj -> string -> option string -> res (adj * list string))
    (fuel : nat) (g : adj) (vertices : list string) (count : Z) : res (adj * Z) :=
  match fuel with
  | O => OutOfFuel
  | S fuel' =>
      match vertices with
      | [] => Ok (g, count)
      | vertex :: _ =>
          lv ← Dict.get g vertex;
          if (length lv =? 0)%nat then
            vs ← Py.remove vertex vertices;
            count_loop dfs fuel' g vs (count + 1)
          else
            r ← dfs fuel g vertex None;
            vs ← remove_all vertices (r : adj * list string).2;
            count_loop dfs fuel' r.1 vs (count + 1)
      end
  end.

(** The neighbour list of [u]; a name that is not a vertex has none. *)
Definition neighbors (g : adj) (u : string) : list string :=
  default [] (Dict.get_opt g u).

(** A call of one of the four mutators, and a sequence of calls *)
Inductive op : Type :=
| AddVertex (v : string)
| AddEdge (u v : string)
| RemoveEdge (u v : string)
| RemoveVertex (v : string).

Definition run_op (g : adj) (o : op) : res adj :=
  match o with
  | AddVertex v => Ok (add_vertex g v)
  | AddEdge u v => add_edge g u v
  | RemoveEdge u v => remove_edge g u v
  | RemoveVertex v => remove_vertex g v
  end.

Fixpoint run_ops (g : adj) (os : list op) : res adj :=
  match os with
  | [] => Ok g
  | o :: os' => g' ← run_op g o; run_ops g' os'
  end.

Definition symmetric (g : adj) : Prop :=
  forall u v, v ∈ neighbors g u <-> u ∈ neighbors g v.

(** What the mutators keep true of the neighbour lists: no repetition,
    symmetry, no loop. *)
Definition wf_rel (N : string -> list string) : Prop :=
  (forall u, NoDup (N u)) /\
  (forall u v, v ∈ N u -> u ∈ N v) /\
  (forall u, u ∉ N u).

Definition wf (g : adj) : Prop :=
  NoDup (Dict.keys g) /\ wf_rel (neighbors g).

(** [reach g u v]: a path of edges leads from [u] to [v]. *)
Inductive reach (g : adj) (u : string) : string -> Prop :=
| reach_here : reach g u u
| reach_step x y : reach g u x -> y ∈ neighbors g x -> reach g u y.

(** [n] is the number of connected components of [g]: some [n] vertices,
    no two of them connected, are such that every vertex is connected to
    one of them. *)
Definition component_count (g : adj) (n : Z) : Prop :=
  exists reps,
    Z.of_nat (length reps) = n /\ NoDup reps /\
    (forall r, r ∈ reps -> r ∈ Dict.keys g) /\
    (forall v, v ∈ Dict.keys g -> exists r, r ∈ reps /\ reach g r v) /\
    (forall r r', r ∈ reps -> r' ∈ reps -> reach g r r' -> r = r').

(** Python truthiness of [v_end]: [None] and the empty string are false. *)
Definition truthy (v_end : option string) : bool :=
  match v_end with
  | None => false
  | Some e => negb (bool_decide (e = ""%string))
  end.

Definition end_seen (v_end : option string) (visited : list string) : bool :=
  match v_end with
  | None => false
  | Some e => Py.mem e visited
  end.

(** [bfs] is the same text in the two files.  The [while len(next_vertex)
    != 0] loop: [next_vertex] is the queue, its front at the head of the
    list. *)
Fixpoint bfs_loop (fuel : nat) (g : adj) (v_end : option string)
    (next_vertex visited : list string) : res (adj * list string) :=
  match fuel with
  | O => OutOfFuel
  | S fuel' =>
      match next_vertex with
      | [] => Ok (g, visited)
      | vertex :: next_vertex' =>
          edges ← Dict.get g vertex;
          let visited :=
            if negb (Py.mem vertex visited) then visited ++ [vertex] else visited in
          if bool_decide (Some vertex = v_end) then Ok (g, visited)
          else
            let edges := py_sort edges in
            let g := Dict.set g vertex edges in
            bfs_loop fuel' g v_end
              (next_vertex' ++ filter (fun item => item ∉ visited) edges) visited
      end
  end.

Definition bfs (fuel : nat) (g : adj) (v_start : string) (v_end : option string)
    : res (adj * list string) :=
  if negb (Dict.has g v_start) then Ok (g, [])
  else bfs_loop fuel g v_end [v_start] [].

End Undirected.

(** ** [undirected_graph_search_algos.py]: the recursive searches

    The searches sort adjacency lists in place, so each returns the
    dictionary it leaves behind together with its answer. *)

Module UndirectedRec.
Import Undirected.

(** The [for adj in self.adj_list[v]] loop of [rec_dfs], over the names
    still to come; [rec] is the recursive call.  The loop runs over the
    list just sorted; the calls below it only sort lists, which leaves a
    sorted list as it is. *)
Fixpoint rec_dfs_loop (rec : adj -> list string -> string -> res (adj * list string))
    (v_end : option string) (adjs : list string) (g : adj) (visited : list string)
    : res (adj * list string) :=
  match adjs with
  | [] => Ok (g, visited)
  | a :: adjs' =>
      if truthy v_end && end_seen v_end visited then Ok (g, visited)
      else if negb (Py.mem a visited)
      then r ← rec g visited a;
           rec_dfs_loop rec v_end adjs' (r : adj * list string).1 r.2
      else rec_dfs_loop rec v_end adjs' g visited
  end.

(** The inner function [rec_dfs] of [dfs].  [fuel] bounds the depth of the
    recursion. *)
Fixpoint rec_dfs (fuel : nat) (g : adj) (visited : list string) (v : string)
    (v_end : option string) : res (adj * list string) :=
  match fuel with
  | O => OutOfFuel
  | S fuel' =>
      let visited1 :=
        if truthy v_end then
          (if end_seen v_end visited then visited else visited ++ [v])
        else match v_end with
             | None => visited ++ [v]
             | Some _ => visited
             end in
      lv ← Dict.get g v;
      let sorted := py_sort lv in
      rec_dfs_loop (fun g visited a => rec_dfs fuel' g visited a v_end) v_end
        sorted (Dict.set g v sorted) visited1
  end.

Definition dfs (fuel : nat) (g : adj) (v_start : string) (v_end : option string)
    : res (adj * list string) :=
  if negb (Py.mem v_start (get_vertices g)) then Ok (g, [])
  else rec_dfs fuel g [] v_start v_end.

(** [count_connected_components], with the [dfs] of this class *)
Definition count_connected_components (fuel : nat) (g : adj) : res (adj * Z) :=
  count_loop dfs fuel g (get_vertices g) 0.

(** The inner function [rec_dfs] of [has_cycle]; [visited] is the
    dictionary of flags, [parent] is [None] at a root. *)
Fixpoint cycle_dfs (fuel : nat) (g : adj) (visited : list (string * bool))
    (parent : option string) (v : string) : res (bool * list (string * bool)) :=
  match fuel with
  | O => OutOfFuel
  | S fuel' =>
      let visited := Dict.set visited v true in
      lv ← Dict.get g v;
      (fix loop (adjs : list string) (visited : list (string * bool)) {struct adjs}
           : res (bool * list (string * bool)) :=
         match adjs with
         | [] => Ok (false, visited)
         | a :: adjs' =>
             seen ← Dict.get visited a;
             if negb seen then
               r ← cycle_dfs fuel' g visited (Some v) a;
               if (r : bool * list (string * bool)).1 then Ok (true, r.2)
               else loop adjs' r.2
             else if negb (bool_decide (Some a = parent)) then Ok (true, visited)
             else loop adjs' visited
         end) lv visited
  end.

(** The [for vertex in vertices] loop of [has_cycle] *)
Fixpoint cycle_roots (fuel : nat) (g : adj) (visited : list (string * bool))
    (vertices : list string) : res bool :=
  match vertices with
  | [] => Ok false
  | vertex :: vertices' =>
      lv ← Dict.get g vertex;
      if (length lv =? 0)%nat then cycle_roots fuel g visited vertices'
      else
        seen ← Dict.get visited vertex;
        if (seen : bool) then cycle_roots fuel g visited vertices'
        else
          r ← cycle_dfs fuel g visited None vertex;
          if (r : bool * list (string * bool)).1 then Ok true
          else cycle_roots fuel g r.2 vertices'
  end.

Definition has_cycle (fuel : nat) (g : adj) : res bool :=
  let vertices := get_vertices g in
  cycle_roots fuel g ((fun v => (v, false)) <$> vertices) vertices.

End UndirectedRec.

(** ** [ud_graph.py]: the searches with an explicit stack *)

Module UndirectedIter.
Import Undirected.

(** The [for edge in edges] loop of [dfs]: the first name not yet in
    [result], where the loop breaks. *)
Definition first_new (edges result : list string) : option string :=
  List.find (fun edge => negb (Py.mem edge result)) edges.

(** The [while len(next_vertex) != 0] loop of [dfs].  [next_vertex] is the
    stack, its top at the head of the list. *)
Fixpoint dfs_loop (fuel : nat) (g : adj) (v_end : option string)
    (next_vertex : list string) (vertex : string) (result : list string)
    : res (adj * list string) :=
  match fuel with
  | O => OutOfFuel
  | S fuel' =>
      match next_vertex with
      | [] => Ok (g, result)
      | top :: below =>
          edges ← Dict.get g vertex;
          let result := if negb (Py.mem vertex result) then result ++ [vertex] else result in
          if bool_decide (Some vertex = v_end) then Ok (g, result)
          else
            let edges := py_sort edges in
            let g := Dict.set g vertex edges in
            let old_vertex := vertex in
            let '(next_vertex, vertex) :=
              match first_new edges result with
              | Some edge => (vertex :: next_vertex, edge)
              | None => (next_vertex, vertex)
              end in
            if decide (vertex = old_vertex) then
              match next_vertex with
              | [] => Raise IndexError
              | top' :: below' => dfs_loop fuel' g v_end below' top' result
              end
            else dfs_loop fuel' g v_end next_vertex vertex result
      end
  end.

Definition dfs (fuel : nat) (g : adj) (v_start : string) (v_end : option string)
    : res (adj * list string) :=
  if negb (Dict.has g v_start) then Ok (g, [])
  else dfs_loop fuel g v_end [v_start] v_start [].

(** [count_connected_components], with the [dfs] of this class *)
Definition count_connected_components (fuel : nat) (g : adj) : res (adj * Z) :=
  count_loop dfs fuel g (get_vertices g) 0.

(** The [while] loop of the inner function [cycle_dfs] of [has_cycle], which
    is [dfs] without [v_end] and with the two flags [cycle] and [backtrack]. *)
Fixpoint cycle_loop (fuel : nat) (g : adj) (next_vertex : list string)
    (vertex : string) (result : list string) (cycle backtrack : bool)
    : res (adj * (bool * list string)) :=
  match fuel with
  | O => OutOfFuel
  | S fuel' =>
      match next_vertex with
      | [] => Ok (g, (cycle, result))
      | _ :: _ =>
          edges ← Dict.get g vertex;
          st ← (if negb (Py.mem vertex result) then Ok (result ++ [vertex], cycle)
                else if negb backtrack then
                  last1 ← Py.index result (-1);
                  if negb (bool_decide (vertex = last1)) then
                    last2 ← Py.index result (-2);
                    Ok (result, if negb (bool_decide (vertex = last2)) then true else cycle)
                  else Ok (result, cycle)
                else Ok (result, cycle));
          let '(result, cycle) := (st : list string * bool) in
          let edges := py_sort edges in
          let g := Dict.set g vertex edges in
          let old_vertex := vertex in
          let '(next_vertex, vertex, backtrack) :=
            match first_new edges result with
            | Some edge => (vertex :: next_vertex, edge, false)
            | None => (next_vertex, vertex, backtrack)
            end in
          if decide (vertex = old_vertex) then
            match next_vertex with
            | [] => Raise IndexError
            | top' :: below' => cycle_loop fuel' g below' top' result cycle true
            end
          else cycle_loop fuel' g next_vertex vertex result cycle backtrack
      end
  end.

Definition cycle_dfs (fuel : nat) (g : adj) (v_start : string)
    : res (adj * (bool * list string)) :=
  if negb (Dict.has g v_start) then Ok (g, (false, []))
  else cycle_loop fuel g [v_start] v_start [] false false.

(** The [while len(vertices) > 0] loop of [has_cycle] *)
Fixpoint cycle_roots (fuel : nat) (g : adj) (vertices : list string) (cycle : bool)
    : res bool :=
  match fuel with
  | O => OutOfFuel
  | S fuel' =>
      match vertices with
      | [] => Ok cycle
      | vertex :: _ =>
          lv ← Dict.get g vertex;
          if (length lv =? 0)%nat then
            vs ← Py.remove vertex vertices;
            cycle_roots fuel' g vs cycle
          else
            r ← cycle_dfs fuel g vertex;
            let '(g', (contains, connection)) := (r : adj * (bool * list string)) in
            vs ← remove_all vertices connection;
            cycle_roots fuel' g' vs (if contains then true else cycle)
      end
  end.

Definition has_cycle (fuel : nat) (g : adj) : res bool :=
  cycle_roots fuel g (get_vertices g) false.

End UndirectedIter.

(** ** [maze_solving_algo.py]: [solve_puzzle] *)

Module Maze.

Abbreviation cell := (Z * Z)%type.
Abbreviation entry := (Z * cell * list cell)%type.

(** Python's order on the tuples [(r, c)] *)
Definition cell_cmp (a b : cell) : comparison :=
  match a.1 ?= b.1 with
  | Eq => a.2 ?= b.2
  | c => c
  end.

(** Python's order on lists of tuples *)
Fixpoint path_cmp (p q : list cell) : comparison :=
  match p, q with
  | [], [] => Eq
  | [], _ :: _ => Lt
  | _ :: _, [] => Gt
  | a :: p', b :: q' =>
      match cell_cmp a b with
      | Eq => path_cmp p' q'
      | c => c
      end
  end.

(** Python's order on the queue entries [(distance, (x, y), path)] *)
Definition entry_cmp (a b : entry) : comparison :=
  match a.1.1 ?= b.1.1 with
  | Eq => match cell_cmp a.1.2 b.1.2 with
          | Eq => path_cmp a.2 b.2
          | c => c
          end
  | c => c
  end.

Definition entry_leb (a b : entry) : bool :=
  match entry_cmp a b with
  | Gt => false
  | _ => true
  end.

(** The three variables the loop updates *)
Record state : Type := mkState {
  distances : gmap cell dist;
  priority_queue : list entry;
  shortest_path : option (list cell)
}.

(** [distances[c]] *)
Definition dict_get (d : gmap cell dist) (c : cell) : res dist :=
  match d !! c with
  | Some x => Ok x
  | None => Raise KeyError
  end.

(** [d > x] for an integer [d] *)
Definition gt_dist (d : Z) (x : dist) : bool :=
  match x with
  | Inf => false
  | Fin y => y <? d
  end.

Definition moves : list cell := [(0, 1); (1, 0); (-1, 0); (0, -1)].

(** The [for x_change, y_change in ...] loop, over the moves still to try *)
Fixpoint explore (board : list (list string)) (max_x max_y : Z) (destination : cell)
    (current_distance : Z) (xy : cell) (path : list cell) (todo : list cell)
    (st : state) : res state :=
  match todo with
  | [] => Ok st
  | (x_change, y_change) :: todo' =>
      let continue := explore board max_x max_y destination current_distance xy path todo' in
      let nx := xy.1 + x_change in
      let ny := xy.2 + y_change in
      if negb ((0 <=? nx) && (nx <? max_x)) || negb ((0 <=? ny) && (ny <? max_y))
      then continue st
      else
        row ← Py.index board nx;
        c ← Py.index row ny;
        if bool_decide (c = "#"%string) then continue st
        else
          let distance := current_distance + 1 in
          best ← dict_get (distances st) (nx, ny);
          if lt_dist distance best then
            continue
              (mkState (<[(nx, ny) := Fin distance]> (distances st))
                 (Heapq.heappush (priority_queue st) (distance, (nx, ny), path ++ [(nx, ny)]))
                 (if bool_decide ((nx, ny) = destination)
                  then Some (path ++ [destination]) else shortest_path st))
          else continue st
  end.

(** The [while len(priority_queue) > 0] loop *)
Fixpoint solve_loop (fuel : nat) (board : list (list string)) (max_x max_y : Z)
    (destination : cell) (st : state) : res (option (list cell)) :=
  match fuel with
  | O => OutOfFuel
  | S fuel' =>
      match Heapq.heappop entry_leb (priority_queue st) with
      | None => Ok (shortest_path st)
      | Some ((current_distance, xy, path), pq') =>
          let st := mkState (distances st) pq' (shortest_path st) in
          best ← dict_get (distances st) xy;
          if gt_dist current_distance best
          then solve_loop fuel' board max_x max_y destination st
          else
            st' ← explore board max_x max_y destination current_distance xy path moves st;
            solve_loop fuel' board max_x max_y destination st'
      end
  end.

(** [{(r, c): float('inf') for r in range(max_x) for c in range(max_y)}] *)
Definition all_cells (max_x max_y : nat) : list cell :=
  r ← Py.range max_x; c ← Py.range max_y; [(r, c)].

Definition init_distances (max_x max_y : nat) : gmap cell dist :=
  list_to_map ((fun c => (c, Inf)) <$> all_cells max_x max_y).

Definition solve_puzzle (fuel : nat) (board : list (list string))
    (source destination : cell) : res (option (list cell)) :=
  if bool_decide (source = destination) then Ok (Some [source])
  else
    let max_x := length board in
    row0 ← Py.index board 0;
    let max_y := length row0 in
    let distances := <[source := Fin 0]> (init_distances max_x max_y) in
    solve_loop fuel board (Z.of_nat max_x) (Z.of_nat max_y) destination
      (mkState distances [(0, source, [source])] None).

(** *** Paths in the maze *)

(** [len(board[0])] *)
Definition width (board : list (list string)) : nat :=
  length (default [] (head board)).

Definition rectangular (board : list (list string)) : Prop :=
  Forall (fun row => length row = width board) board.

Definition in_bounds (board : list (list string)) (c : cell) : Prop :=
  0 <= c.1 < Z.of_nat (length board) /\ 0 <= c.2 < Z.of_nat (width board).

Definition cell_at (board : list (list string)) (c : cell) : option string :=
  row ← board !! Z.to_nat c.1; row !! Z.to_nat c.2.

(** In bounds and not a wall *)
Definition is_open (board : list (list string)) (c : cell) : Prop :=
  in_bounds board c /\ exists s, cell_at board c = Some s /\ s <> "#"%string.

(** The neighbour of [c] in the direction [m] *)
Definition shift (c m : cell) : cell := (c.1 + m.1, c.2 + m.2).

(** [route board src c p]: [p] lists the cells of a path of orthogonal unit
    moves from [src] to [c], both included, all of them open. *)
Inductive route (board : list (list string)) (src : cell) : cell -> list cell -> Prop :=
| route_here : is_open board src -> route board src src [src]
| route_step c p m :
    route board src c p -> m ∈ moves -> is_open board (shift c m) ->
    route board src (shift c m) (p ++ [shift c m]).

(** What [solve_puzzle] is to return: [None] if no path joins [src] to
    [dst], and otherwise a path that no other is shorter than. *)
Definition shortest_route (board : list (list string)) (src dst : cell)
    (r : option (list cell)) : Prop :=
  match r with
  | None => forall q, ~ route board src dst q
  | Some p =>
      route board src dst p /\
      forall q, route board src dst q -> (length p <= length q)%nat
  end.

End Maze.

(** * Properties *)

Section DirectedExamples.
Import Directed.

Example example_graph_init : init example_edges = Ok example_graph.
Proof. reflexivity. Qed.

Example example_dfs : dfs 10 example_graph 0 None = Ok [0; 1; 4; 3; 2].
Proof. vm_compute. reflexivity. Qed.

Example example_bfs : bfs 30 example_graph 4 None = Ok [4; 0; 3; 1; 2].
Proof. vm_compute. reflexivity. Qed.

Example example_has_cycle : has_cycle 10 example_graph = Ok true.
Proof. vm_compute. reflexivity. Qed.

Example example_dijkstra :
  dijkstra 30 example_graph 4 = Ok [Fin 12; Fin 8; Fin 10; Fin 3; Fin 0].
Proof. vm_compute. reflexivity. Qed.
End DirectedExamples.

Section UndirectedExamples.
Import Undirected.
Local Open Scope string_scope.

Definition triangle : adj :=
  [("A", ["B"; "C"]); ("B", ["A"; "C"]); ("C", ["B"; "A"])].

Example triangle_init : init empty [("A", "B"); ("B", "C"); ("C", "A")] = Ok triangle.
Proof. vm_compute. reflexivity. Qed.

Example triangle_rec_cycle : UndirectedRec.has_cycle 10 triangle = Ok true.
Proof. vm_compute. reflexivity. Qed.

Example triangle_iter_cycle : UndirectedIter.has_cycle 20 triangle = Ok false.
Proof. vm_compute. reflexivity. Qed.

Example triangle_rec_dfs :
  snd <$> UndirectedRec.dfs 10 triangle "C" None = Ok ["C"; "A"; "B"].
Proof. vm_compute. reflexivity. Qed.

Example triangle_iter_dfs :
  snd <$> UndirectedIter.dfs 10 triangle "C" None = Ok ["C"; "A"; "B"].
Proof. vm_compute. reflexivity. Qed.
End UndirectedExamples.

Section MazeExamples.
Import Maze.
Local Open Scope string_scope.

Definition open3 : list (list string) :=
  [ ["-"; "-"; "-"]; ["-"; "-"; "-"]; ["-"; "-"; "-"] ].

Example open3_path :
  solve_puzzle 20 open3 (0, 0) (2, 2) = Ok (Some [(0, 0); (0, 1); (0, 2); (1, 2); (2, 2)]).
Proof. vm_compute. reflexivity. Qed.
End MazeExamples.

(** ** Searches from a start that is not a vertex *)

Section AbsentStart.
Import Directed.

Lemma mem_get_vertices g v : Py.mem v (get_vertices g) = in_range g v.
Proof.
  unfold Py.mem, get_vertices, Py.range, in_range.
  apply eq_true_iff_eq. rewrite bool_decide_eq_true, andb_true_iff.
  rewrite Z.leb_le, Z.ltb_lt, list_elem_of_fmap. split.
  - intros (n & -> & Hn). apply elem_of_seq in Hn. lia.
  - intros [H0 H1]. exists (Z.to_nat v). split; [lia|]. apply elem_of_seq. lia.
Qed.

Lemma dfs_absent_start fuel g v v_end :
  in_range g v = false -> dfs fuel g v v_end = Ok [].
Proof. intros H. unfold dfs. by rewrite mem_get_vertices, H. Qed.

Lemma bfs_absent_start fuel g v v_end :
  in_range g v = false -> bfs fuel g v v_end = Ok [].
Proof. intros H. unfold bfs. by rewrite mem_get_vertices, H. Qed.

(** [dijkstra] has no such guard: the first pop looks the start up in
    [visited] and the lookup fails. *)
Lemma dijkstra_absent_start fuel g src :
  in_range g src = false -> dijkstra (S fuel) g src = Raise KeyError.
Proof.
  intros H. unfold dijkstra. simpl. unfold dict_get.
  rewrite length_replicate. unfold in_range in H. by rewrite H.
Qed.
End AbsentStart.

(** C4. A start that is not a vertex: [dfs] and [bfs] return the empty
    list, but [dijkstra] raises [KeyError], on the empty graph and on the
    five-vertex example alike. *)
Theorem C4_dijkstra_absent_start_raises :
  forall fuel,
    Directed.dfs fuel Directed.example_graph 5 None = Ok [] /\
    Directed.bfs fuel Directed.example_graph 5 None = Ok [] /\
    Directed.dijkstra (S fuel) Directed.example_graph 5 = Raise KeyError /\
    Directed.dijkstra (S fuel) Directed.empty 0 = Raise KeyError.
Proof.
  intros fuel. split; [|split; [|split]].
  - by apply dfs_absent_start.
  - by apply bfs_absent_start.
  - by apply dijkstra_absent_start.
  - by apply dijkstra_absent_start.
Qed.

(** C5. With [end = 0] the test [if v_end:] is false and [v_end is None] is
    false too, so [rec_dfs] appends nothing: on the graph with the single
    edge 1 -> 0, [dfs(1)] is [[1, 0]] and [dfs(1, 0)] is the empty list. *)
Theorem C5_dfs_end_zero_appends_nothing :
  exists g, Directed.init [(1, 0, 1)] = Ok g /\
    forall fuel,
      Directed.dfs (2 + fuel) g 1 None = Ok [1; 0] /\
      Directed.dfs (2 + fuel) g 1 (Some 0) = Ok [].
Proof.
  eexists. split; [reflexivity|]. intros fuel. split; reflexivity.
Qed.

(** C6. A one-vertex path is only compared with [v_count] from above: on the
    five-vertex example [is_valid_path([-1])] is [True] although -1 is not a
    vertex. *)
Theorem C6_directed_negative_vertex_accepted :
  Directed.is_valid_path Directed.example_graph [-1] = Ok true /\
  Py.mem (-1) (Directed.get_vertices Directed.example_graph) = false.
Proof. split; reflexivity. Qed.

(** What does hold of [is_valid_path] on short paths. *)
Lemma directed_valid_path_nil g : Directed.is_valid_path g [] = Ok true.
Proof. reflexivity. Qed.

Lemma directed_valid_path_single g x :
  0 <= x ->
  Directed.is_valid_path g [x] = Ok (Py.mem x (Directed.get_vertices g)).
Proof.
  intros Hx. simpl. rewrite mem_get_vertices. unfold Directed.in_range.
  f_equal. destruct (0 <=? x) eqn:E; [done|]. apply Z.leb_gt in E. lia.
Qed.

Lemma undirected_valid_path_nil g : Undirected.is_valid_path g [] = Ok true.
Proof. reflexivity. Qed.

Lemma undirected_valid_path_single g x :
  Undirected.is_valid_path g [x] = Ok (Dict.has g x).
Proof. simpl. by destruct (Dict.has g x). Qed.

(** ** The explicit-stack [has_cycle] of [ud_graph.py] *)

Section IterativeCycle.
Import Undirected UndirectedIter.

Lemma first_new_fresh edges result e :
  first_new edges result = Some e -> Py.mem e result = false.
Proof.
  unfold first_new. intros H. apply find_some in H as [_ H].
  by apply negb_true_iff in H.
Qed.

(** The flag [cycle] is only set when the current vertex is already in
    [result] and [backtrack] is off.  A vertex reached through an edge is
    new, and one reached by a pop turns [backtrack] on: the flag stays
    [False]. *)
Lemma cycle_loop_false fuel :
  forall g next_vertex vertex result backtrack r,
    backtrack = true \/ Py.mem vertex result = false ->
    cycle_loop fuel g next_vertex vertex result false backtrack = Ok r ->
    r.2.1 = false.
Proof.
  induction fuel as [|fuel IH]; intros g nv vertex result backtrack r Hinv; simpl; [done|].
  destruct nv as [|top below]; [by intros [= <-]|].
  destruct (Dict.get g vertex) as [edges| |]; simpl; try done.
  assert (exists result',
    (if negb (Py.mem vertex result) then Ok (result ++ [vertex], false)
     else if negb backtrack then
       last1 ← Py.index result (-1);
       if negb (bool_decide (vertex = last1)) then
         last2 ← Py.index result (-2);
         Ok (result, if negb (bool_decide (vertex = last2)) then true else false)
       else Ok (result, false)
     else Ok (result, false)) = Ok (result', false)) as [result' ->].
  { destruct Hinv as [-> | ->]; simpl; [|by eauto].
    destruct (Py.mem vertex result); simpl; eauto. }
  simpl.
  destruct (first_new (py_sort edges) result') as [edge|] eqn:Efind.
  - destruct (decide (edge = vertex)) as [->|Hne].
    + apply IH. by left.
    + apply IH. right. by apply first_new_fresh in Efind.
  - destruct (decide (vertex = vertex)) as [_|]; [|done].
    apply IH. by left.
Qed.

Lemma cycle_dfs_false fuel g v r : cycle_dfs fuel g v = Ok r -> r.2.1 = false.
Proof.
  unfold cycle_dfs. destruct (negb (Dict.has g v)); [by intros [= <-]|].
  apply cycle_loop_false. by right.
Qed.

Local Arguments Py.remove : simpl never.
Local Arguments remove_all : simpl never.
Local Arguments cycle_dfs : simpl never.

Lemma cycle_roots_false fuel :
  forall g vertices b, cycle_roots fuel g vertices false = Ok b -> b = false.
Proof.
  induction fuel as [|fuel IH]; intros g vertices b; simpl; [done|].
  destruct vertices as [|vertex vs]; [by intros [= <-]|].
  destruct (Dict.get g vertex) as [lv| |]; simpl; try done.
  destruct (length lv =? 0)%nat.
  - destruct (Py.remove vertex (vertex :: vs)) as [vs'| |]; simpl; try done. apply IH.
  - destruct (cycle_dfs (S fuel) g vertex) as [[g' [contains connection]]| |] eqn:E;
      simpl; try done.
    apply cycle_dfs_false in E. simpl in E. subst contains.
    destruct (remove_all (vertex :: vs) connection) as [vs'| |]; simpl; try done.
    apply IH.
Qed.
End IterativeCycle.

(** C3. The triangle A-B, B-C, C-A has a cycle and the recursive [has_cycle]
    says so, but the explicit-stack [has_cycle] of [ud_graph.py] answers
    [False] on it, and answers [True] on no graph at all. *)
Theorem C3_ud_graph_has_cycle_never_true :
  UndirectedRec.has_cycle 10 triangle = Ok true /\
  UndirectedIter.has_cycle 20 triangle = Ok false /\
  forall fuel g, UndirectedIter.has_cycle fuel g <> Ok true.
Proof.
  split; [by vm_compute|]. split; [by vm_compute|].
  intros fuel g H. by apply cycle_roots_false in H.
Qed.

(** C10. With the empty string as [v_end], the recursive [dfs] appends
    nothing and the explicit-stack [dfs] appends as usual: on the graph
    with the one vertex "A" they return the empty list and [["A"]]. *)
Theorem C10_dfs_empty_string_end_differs :
  forall fuel,
    snd <$> UndirectedRec.dfs (2 + fuel) (Undirected.add_vertex Undirected.empty "A") "A" (Some "")
      = Ok [] /\
    snd <$> UndirectedIter.dfs (2 + fuel) (Undirected.add_vertex Undirected.empty "A") "A" (Some "")
      = Ok ["A"%string].
Proof. intros fuel. split; reflexivity. Qed.

(** ** [dijkstra] *)

Section DijkstraFuel.
Import Directed.

(** Fuel beyond what a run needs does not change its result. *)
Lemma dijkstra_loop_more_fuel fuel :
  forall fuel' g pq visited ds,
    (fuel <= fuel')%nat ->
    dijkstra_loop fuel g pq visited = Ok ds ->
    dijkstra_loop fuel' g pq visited = Ok ds.
Proof.
  induction fuel as [|fuel IH]; intros fuel' g pq visited ds Hle; simpl; [done|].
  destruct fuel' as [|fuel']; [lia|]. simpl.
  destruct (Heapq.heappop entry_leb pq) as [[[distance vertex] pq']|]; [|done].
  destruct (dict_get visited vertex) as [best| |]; simpl; try done.
  destruct (lt_dist distance best).
  - destruct (Py.index (adj_matrix g) vertex) as [row| |]; simpl; try done.
    apply IH. lia.
  - apply IH. lia.
Qed.

Lemma dijkstra_deterministic fuel fuel' g src ds ds' :
  dijkstra fuel g src = Ok ds -> dijkstra fuel' g src = Ok ds' -> ds = ds'.
Proof.
  unfold dijkstra. intros H H'.
  apply (dijkstra_loop_more_fuel _ (fuel `max` fuel')%nat) in H; [|lia].
  apply (dijkstra_loop_more_fuel _ (fuel `max` fuel')%nat) in H'; [|lia].
  congruence.
Qed.
End DijkstraFuel.

(** C1, as stated: distance 22 at vertex 1.  No run of [dijkstra(4)] on the
    example graph returns it. *)
Lemma C1_counterexample :
  ~ (exists g fuel ds,
       Directed.init Directed.example_edges = Ok g /\
       Directed.dijkstra fuel g 4 = Ok ds /\
       ds !! 4%nat = Some (Fin 0) /\ ds !! 0%nat = Some (Fin 12) /\
       ds !! 1%nat = Some (Fin 22)).
Proof.
  intros (g & fuel & ds & Hg & Hds & _ & _ & H1).
  rewrite example_graph_init in Hg. injection Hg as <-.
  pose proof (dijkstra_deterministic _ _ _ _ _ _ Hds example_dijkstra) as ->.
  discriminate H1.
Qed.

(** C1, amended: on the graph built from the example edges, [dijkstra(4)]
    returns [[12, 8, 10, 3, 0]]: distance 0 at vertex 4, 12 at vertex 0 and
    8 at vertex 1 (by 4 -> 3 -> 1). *)
Theorem C1_example_dijkstra_from_4 :
  exists g, Directed.init Directed.example_edges = Ok g /\
    forall fuel,
      exists ds, Directed.dijkstra (30 + fuel) g 4 = Ok ds /\
        ds = [Fin 12; Fin 8; Fin 10; Fin 3; Fin 0] /\
        ds !! 4%nat = Some (Fin 0) /\ ds !! 0%nat = Some (Fin 12) /\
        ds !! 1%nat = Some (Fin 8).
Proof.
  exists Directed.example_graph. split; [reflexivity|]. intros fuel.
  eexists. split.
  - apply (dijkstra_loop_more_fuel 30); [lia|]. by vm_compute.
  - done.
Qed.

(** ** The adjacency dictionary of the undirected graphs *)

Section DictFacts.
Context {V : Type}.
Implicit Types (d : list (string * V)) (k : string) (v : V).

Lemma get_opt_None d k : Dict.get_opt d k = None <-> k ∉ Dict.keys d.
Proof.
  unfold Dict.keys. induction d as [|[k' v'] d IH]; csimpl.
  - split; [intros _; apply not_elem_of_nil|done].
  - rewrite not_elem_of_cons. destruct (decide (k = k')) as [->|Hne].
    + split; [done|]. intros [? _]. done.
    + rewrite IH. tauto.
Qed.

Lemma get_opt_Some_key d k v : Dict.get_opt d k = Some v -> k ∈ Dict.keys d.
Proof.
  intros H. destruct (decide (k ∈ Dict.keys d)) as [|Hn]; [done|].
  apply get_opt_None in Hn. congruence.
Qed.

Lemma has_true d k : Dict.has d k = true <-> is_Some (Dict.get_opt d k).
Proof.
  unfold Dict.has. rewrite bool_decide_eq_true. split.
  - intros H. destruct (Dict.get_opt d k) eqn:E; [by eexists|].
    apply get_opt_None in E. done.
  - intros [v H]. by apply get_opt_Some_key in H.
Qed.

Lemma has_false d k : Dict.has d k = false <-> Dict.get_opt d k = None.
Proof.
  rewrite <- not_true_iff_false, has_true, <- eq_None_not_Some. done.
Qed.

Lemma get_Some d k v : Dict.get_opt d k = Some v -> Dict.get d k = Ok v.
Proof. unfold Dict.get. by intros ->. Qed.

Lemma get_opt_set d k v k' :
  Dict.get_opt (Dict.set d k v) k' = if decide (k' = k) then Some v else Dict.get_opt d k'.
Proof.
  induction d as [|[k0 v0] d IH]; csimpl.
  - destruct (decide (k' = k)); done.
  - destruct (decide (k = k0)) as [->|Hne]; csimpl.
    + destruct (decide (k' = k0)); done.
    + destruct (decide (k' = k0)) as [->|Hne'].
      * destruct (decide (k0 = k)); [congruence|done].
      * apply IH.
Qed.

Lemma keys_set d k v :
  Dict.keys (Dict.set d k v) = if Dict.has d k then Dict.keys d else Dict.keys d ++ [k].
Proof.
  unfold Dict.has, Dict.keys. induction d as [|[k0 v0] d IH]; csimpl; [done|].
  destruct (decide (k = k0)) as [->|Hne]; csimpl.
  - rewrite bool_decide_eq_true_2; [done|left].
  - rewrite IH. destruct (bool_decide (k ∈ d.*1)) eqn:E.
    + apply bool_decide_eq_true in E. rewrite bool_decide_eq_true_2; [done|by right].
    + apply bool_decide_eq_false in E. rewrite bool_decide_eq_false_2; [done|].
      rewrite not_elem_of_cons. done.
Qed.

Lemma keys_set_NoDup d k v : NoDup (Dict.keys d) -> NoDup (Dict.keys (Dict.set d k v)).
Proof.
  intros H. rewrite keys_set. destruct (Dict.has d k) eqn:E; [done|].
  apply NoDup_app. split; [done|]. split; [|apply NoDup_singleton].
  intros x Hx Hx'. apply list_elem_of_singleton in Hx' as ->.
  apply has_false, get_opt_None in E. done.
Qed.

Lemma get_opt_del d k k' :
  NoDup (Dict.keys d) ->
  Dict.get_opt (Dict.del d k) k' = if decide (k' = k) then None else Dict.get_opt d k'.
Proof.
  unfold Dict.keys. induction d as [|[k0 v0] d IH]; csimpl; intros Hnd.
  - destruct (decide (k' = k)); done.
  - apply NoDup_cons in Hnd as [Hk0 Hnd].
    destruct (decide (k = k0)) as [->|Hne]; csimpl.
    + destruct (decide (k' = k0)) as [->|]; [|done]. by apply get_opt_None.
    + destruct (decide (k' = k0)) as [->|Hne'].
      * destruct (decide (k0 = k)); [congruence|done].
      * by apply IH.
Qed.

Lemma keys_del_sublist d k : sublist (Dict.keys (Dict.del d k)) (Dict.keys d).
Proof.
  unfold Dict.keys. induction d as [|[k0 v0] d IH]; csimpl; [done|].
  destruct (decide (k = k0)); csimpl.
  - by apply sublist_cons.
  - by apply sublist_skip.
Qed.

Lemma keys_del_NoDup d k : NoDup (Dict.keys d) -> NoDup (Dict.keys (Dict.del d k)).
Proof. intros H. eapply sublist_NoDup; [apply H|apply keys_del_sublist]. Qed.
End DictFacts.

Section PyRemove.
Context `{EqDecision A}.
Implicit Types (x y : A) (l : list A).

Lemma filter_ne_id x l : x ∉ l -> filter (fun y => y <> x) l = l.
Proof.
  induction l as [|y l IH]; intros Hx; [done|].
  apply not_elem_of_cons in Hx as [Hne Hx].
  rewrite filter_cons_True by congruence. by rewrite IH.
Qed.

(** On a list without repetition, [l.remove(x)] leaves the others. *)
Lemma remove_filter x l :
  NoDup l -> x ∈ l -> Py.remove x l = Ok (filter (fun y => y <> x) l).
Proof.
  induction l as [|y l IH]; simpl; intros Hnd Hx; [by apply elem_of_nil in Hx|].
  apply NoDup_cons in Hnd as [Hy Hnd].
  destruct (decide (x = y)) as [->|Hne].
  - rewrite filter_cons_False by (intros ?; done).
    f_equal. symmetry. by apply filter_ne_id.
  - apply elem_of_cons in Hx as [->|Hx]; [done|].
    rewrite IH by done. simpl. rewrite filter_cons_True by congruence. done.
Qed.
End PyRemove.

(** ** The mutators of the undirected graphs keep the adjacency symmetric *)

Section UndirectedInvariant.
Import Undirected.
Implicit Types (g : adj) (u v x : string) (N : string -> list string).

Lemma neighbors_set g k l x :
  neighbors (Dict.set g k l) x = if decide (x = k) then l else neighbors g x.
Proof. unfold neighbors. rewrite get_opt_set. by destruct (decide (x = k)). Qed.

Lemma neighbors_del g k x :
  NoDup (Dict.keys g) ->
  neighbors (Dict.del g k) x = if decide (x = k) then [] else neighbors g x.
Proof. intros H. unfold neighbors. rewrite get_opt_del by done. by destruct (decide (x = k)). Qed.

Lemma neighbors_absent g x : Dict.has g x = false -> neighbors g x = [].
Proof. intros H. apply has_false in H. unfold neighbors. by rewrite H. Qed.

Lemma get_neighbors g x : Dict.has g x = true -> Dict.get g x = Ok (neighbors g x).
Proof. intros [l H]%has_true. unfold neighbors, Dict.get. by rewrite H. Qed.

Lemma has_set g k l x :
  Dict.has (Dict.set g k l) x = true <-> x = k \/ Dict.has g x = true.
Proof.
  rewrite !has_true, get_opt_set. destruct (decide (x = k)) as [->|Hne].
  - split; [by left|by eexists].
  - split; [by right|]. intros [?|?]; done.
Qed.

Lemma mem_true `{EqDecision A} (a : A) (l : list A) : Py.mem a l = true <-> a ∈ l.
Proof. unfold Py.mem. apply bool_decide_eq_true. Qed.

Lemma mem_false `{EqDecision A} (a : A) (l : list A) : Py.mem a l = false <-> a ∉ l.
Proof. unfold Py.mem. apply bool_decide_eq_false. Qed.

Lemma wf_rel_ext N N' : (forall x, N x = N' x) -> wf_rel N -> wf_rel N'.
Proof.
  intros E (Hnd & Hsym & Hirr). split; [|split].
  - intros u. rewrite <- E. apply Hnd.
  - intros u v. rewrite <- !E. apply Hsym.
  - intros u. rewrite <- E. apply Hirr.
Qed.

Lemma wf_rel_link N u v :
  wf_rel N -> u <> v -> u ∉ N v ->
  wf_rel (fun x => if decide (x = u) then N u ++ [v]
                   else if decide (x = v) then N v ++ [u] else N x).
Proof.
  intros (Hnd & Hsym & Hirr) Hne Hu.
  assert (v ∉ N u) as Hv by (intros H; by apply Hsym in H).
  split; [|split].
  - intros x. repeat case_decide; subst; try apply Hnd.
    + apply NoDup_app. split; [apply Hnd|]. split; [|apply NoDup_singleton].
      intros y Hy ->%list_elem_of_singleton. done.
    + apply NoDup_app. split; [apply Hnd|]. split; [|apply NoDup_singleton].
      intros y Hy ->%list_elem_of_singleton. done.
  - intros x y. pose proof (Hsym x y).
    destruct (decide (x = u)), (decide (x = v)), (decide (y = u)), (decide (y = v));
      subst; set_unfold; naive_solver.
  - intros x. pose proof (Hirr x).
    destruct (decide (x = u)), (decide (x = v)); subst; set_unfold; naive_solver.
Qed.

Lemma wf_rel_unlink N u v :
  wf_rel N ->
  wf_rel (fun x => if decide (x = v) then filter (fun y => y <> u) (N v)
                   else if decide (x = u) then filter (fun y => y <> v) (N u) else N x).
Proof.
  intros (Hnd & Hsym & Hirr). split; [|split].
  - intros x. repeat case_decide; subst; try apply NoDup_filter; apply Hnd.
  - intros x y. pose proof (Hsym x y).
    destruct (decide (x = u)), (decide (x = v)), (decide (y = u)), (decide (y = v));
      subst; rewrite ?list_elem_of_filter; naive_solver.
  - intros x. pose proof (Hirr x).
    destruct (decide (x = u)), (decide (x = v)); subst;
      rewrite ?list_elem_of_filter; naive_solver.
Qed.

Lemma wf_rel_remove N v :
  wf_rel N ->
  wf_rel (fun x => if decide (x = v) then [] else filter (fun y => y <> v) (N x)).
Proof.
  intros (Hnd & Hsym & Hirr). split; [|split].
  - intros x. case_decide; [apply NoDup_nil_2|]. apply NoDup_filter, Hnd.
  - intros x y. pose proof (Hsym x y).
    destruct (decide (x = v)), (decide (y = v)); subst;
      rewrite ?list_elem_of_filter, ?elem_of_nil; naive_solver.
  - intros x. pose proof (Hirr x).
    destruct (decide (x = v)); subst; rewrite ?list_elem_of_filter, ?elem_of_nil; naive_solver.
Qed.

Lemma wf_symmetric g : wf g -> symmetric g.
Proof. intros (_ & _ & Hsym & _) u v. split; apply Hsym. Qed.

Lemma wf_empty : wf empty.
Proof.
  split; [apply NoDup_nil_2|]. split; [|split].
  - intros u. apply NoDup_nil_2.
  - intros u v. cbn. by intros ?%elem_of_nil.
  - intros u. apply not_elem_of_nil.
Qed.

(** [add_vertex] adds a key and changes no neighbour list. *)
Lemma add_vertex_spec g v :
  NoDup (Dict.keys g) ->
  NoDup (Dict.keys (add_vertex g v)) /\
  Dict.has (add_vertex g v) v = true /\
  (forall k, Dict.has g k = true -> Dict.has (add_vertex g v) k = true) /\
  (forall x, neighbors (add_vertex g v) x = neighbors g x).
Proof.
  intros Hnd. unfold add_vertex. destruct (Dict.has g v) eqn:E; [done|].
  split; [by apply keys_set_NoDup|]. split; [apply has_set; by left|].
  split; [intros k Hk; apply has_set; by right|].
  intros x. rewrite neighbors_set. case_decide; [|done]. subst.
  by rewrite neighbors_absent.
Qed.

Lemma wf_add_vertex g v : wf g -> wf (add_vertex g v).
Proof.
  intros [Hnd Hrel]. destruct (add_vertex_spec g v Hnd) as (Hnd' & _ & _ & HN).
  split; [done|]. eapply wf_rel_ext; [|done]. intros x. by rewrite HN.
Qed.

Lemma wf_add_edge g u v : wf g -> exists g', add_edge g u v = Ok g' /\ wf g'.
Proof.
  intros Hwf. unfold add_edge. destruct (decide (u = v)) as [->|Hne]; [by eauto|].
  set (g1 := if negb (Dict.has g u) then add_vertex g u else g).
  assert (wf g1 /\ Dict.has g1 u = true) as [Hwf1 Hu1].
  { subst g1. destruct (Dict.has g u) eqn:E; simpl; [done|].
    split; [by apply wf_add_vertex|].
    by destruct (add_vertex_spec g u (proj1 Hwf)) as (_ & ? & _). }
  set (g2 := if negb (Dict.has g1 v) then add_vertex g1 v else g1).
  assert (wf g2 /\ Dict.has g2 u = true /\ Dict.has g2 v = true) as ([Hnd2 Hrel2] & Hu2 & Hv2).
  { subst g2. destruct (Dict.has g1 v) eqn:E; simpl; [done|].
    split; [by apply wf_add_vertex|].
    destruct (add_vertex_spec g1 v (proj1 Hwf1)) as (_ & ? & Hk & _). auto. }
  clearbody g2. clear g1 Hwf1 Hu1 Hwf.
  rewrite (get_neighbors g2 v Hv2). simpl.
  pose proof Hrel2 as (Hnd & Hsym & Hirr).
  destruct (Py.mem u (neighbors g2 v)) eqn:Euv; simpl.
  - rewrite (get_neighbors g2 u Hu2). simpl.
    apply mem_true, Hsym, mem_true in Euv. rewrite Euv. simpl.
    eexists. split; [done|]. by split.
  - apply mem_false in Euv.
    assert (v ∉ neighbors g2 u) as Evu by (intros H; by apply Hsym in H).
    rewrite get_neighbors by (apply has_set; by right).
    rewrite neighbors_set. destruct (decide (u = v)) as [|_]; [done|]. simpl.
    apply mem_false in Evu. rewrite Evu. simpl.
    eexists. split; [done|]. split; [by do 2 apply keys_set_NoDup|].
    eapply wf_rel_ext; [|by apply (wf_rel_link _ u v Hrel2)].
    intros x. cbn. rewrite !neighbors_set.
    destruct (decide (x = u)), (decide (x = v)); subst; done.
Qed.

Lemma drop_neighbor_spec g a b :
  NoDup (Dict.keys g) -> NoDup (neighbors g a) ->
  exists g', drop_neighbor g a b = Ok g' /\ NoDup (Dict.keys g') /\
    forall x, neighbors g' x =
      if decide (x = a) then filter (fun y => y <> b) (neighbors g a) else neighbors g x.
Proof.
  intros Hk Hnd. unfold drop_neighbor. destruct (Dict.has g a) eqn:Ea.
  - rewrite (get_neighbors g a Ea). simpl.
    destruct (Py.mem b (neighbors g a)) eqn:Eb.
    + apply mem_true in Eb. rewrite (remove_filter b _ Hnd Eb). simpl.
      eexists. split; [done|]. split; [by apply keys_set_NoDup|].
      intros x. apply neighbors_set.
    + apply mem_false in Eb. exists g. split; [done|]. split; [done|].
      intros x. case_decide; [|done]. subst. by rewrite filter_ne_id.
  - exists g. split; [done|]. split; [done|].
    intros x. case_decide; [|done]. subst. by rewrite neighbors_absent.
Qed.

Lemma remove_edge_drop g v u :
  remove_edge g v u =
  if decide (u = v) then Ok g else g' ← drop_neighbor g u v; drop_neighbor g' v u.
Proof. reflexivity. Qed.

Lemma wf_remove_edge g v u : wf g -> exists g', remove_edge g v u = Ok g' /\ wf g'.
Proof.
  intros [Hk Hrel]. rewrite remove_edge_drop.
  destruct (decide (u = v)) as [->|Hne]; [by exists g|].
  pose proof Hrel as (Hnd & _).
  destruct (drop_neighbor_spec g u v Hk (Hnd u)) as (g1 & -> & Hk1 & HN1). simpl.
  assert (NoDup (neighbors g1 v)) as Hnd1.
  { rewrite HN1. case_decide; [congruence|apply Hnd]. }
  destruct (drop_neighbor_spec g1 v u Hk1 Hnd1) as (g2 & -> & Hk2 & HN2).
  eexists. split; [done|]. split; [done|].
  eapply wf_rel_ext; [|by apply (wf_rel_unlink _ u v Hrel)].
  intros x. cbn. rewrite HN2, !HN1.
  destruct (decide (x = v)), (decide (x = u)), (decide (v = u)); subst; done.
Qed.

(** The loop of [remove_vertex]: every list it visits holds [v] once. *)
Lemma unlink_spec v edges :
  forall g,
    NoDup (Dict.keys g) -> NoDup edges ->
    (forall e, e ∈ edges ->
       Dict.has g e = true /\ v ∈ neighbors g e /\ NoDup (neighbors g e)) ->
    exists g', unlink g v edges = Ok g' /\ NoDup (Dict.keys g') /\
      (forall x, Dict.has g' x = true -> Dict.has g x = true) /\
      forall x, neighbors g' x =
        if decide (x ∈ edges) then filter (fun y => y <> v) (neighbors g x)
        else neighbors g x.
Proof.
  induction edges as [|e edges IH]; intros g Hk Hnd Hall; simpl.
  - exists g. split; [done|]. split; [done|]. split; [done|].
    intros x. destruct (decide (x ∈ [])) as [Hx|]; [by apply elem_of_nil in Hx|done].
  - apply NoDup_cons in Hnd as [He Hnd].
    destruct (Hall e) as (Hhas & Hv & Hnde); [left|].
    rewrite (get_neighbors g e Hhas). simpl.
    rewrite (remove_filter v _ Hnde Hv). simpl.
    destruct (IH (Dict.set g e (filter (fun y => y <> v) (neighbors g e))))
      as (g' & -> & Hk' & Hhas' & HN').
    + by apply keys_set_NoDup.
    + done.
    + intros e' He'. destruct (Hall e') as (? & ? & ?); [by right|].
      rewrite neighbors_set. case_decide; [by subst|].
      split; [apply has_set; by right|done].
    + exists g'. split; [done|]. split; [done|]. split.
      * intros x Hx. apply Hhas', has_set in Hx as [->|Hx]; done.
      * intros x. rewrite HN', neighbors_set.
        destruct (decide (x = e)) as [->|Hne].
        -- rewrite decide_False by done. rewrite decide_True by left. done.
        -- destruct (decide (x ∈ edges)) as [Hx|Hx].
           ++ rewrite decide_True by (by right). done.
           ++ rewrite decide_False; [done|]. rewrite not_elem_of_cons. done.
Qed.

Lemma wf_remove_vertex g v :
  wf g ->
  exists g', remove_vertex g v = Ok g' /\ wf g' /\
    Dict.has g' v = false /\ forall u, v ∉ neighbors g' u.
Proof.
  intros [Hk Hrel]. pose proof Hrel as (Hnd & Hsym & Hirr).
  unfold remove_vertex. destruct (Dict.has g v) eqn:Ev.
  - rewrite (get_neighbors g v Ev). simpl.
    destruct (unlink_spec v (neighbors g v) (Dict.del g v))
      as (g' & -> & Hk' & Hhas' & HN').
    + by apply keys_del_NoDup.
    + apply Hnd.
    + intros e He. assert (e <> v) as Hne by (intros ->; by apply Hirr in He).
      rewrite neighbors_del by done. rewrite decide_False by done.
      split; [|split; [by apply Hsym|apply Hnd]].
      apply has_true. rewrite get_opt_del by done. rewrite decide_False by done.
      apply has_true. destruct (Dict.has g e) eqn:Ee; [done|].
      apply Hsym in He. rewrite (neighbors_absent g e Ee) in He.
      by apply elem_of_nil in He.
    + assert (forall x, neighbors g' x =
                if decide (x = v) then [] else filter (fun y => y <> v) (neighbors g x)) as HN.
      { intros x. rewrite HN', neighbors_del by done.
        destruct (decide (x = v)) as [->|Hne].
        - case_decide; done.
        - case_decide as Hx; [done|]. rewrite filter_ne_id; [done|].
          intros Hv. by apply Hsym in Hv. }
      exists g'. split; [done|]. split; [|split].
      * split; [done|]. eapply wf_rel_ext; [|by apply (wf_rel_remove _ v Hrel)].
        intros x. cbn. by rewrite HN.
      * destruct (Dict.has g' v) eqn:E; [|done].
        apply Hhas', has_true in E. rewrite get_opt_del in E by done.
        rewrite decide_True in E by done. by destruct E.
      * intros u. rewrite HN. case_decide; [apply not_elem_of_nil|].
        rewrite list_elem_of_filter. intros [? _]. done.
  - exists g. split; [done|]. split; [done|]. split; [done|].
    intros u Hu. apply Hsym in Hu. rewrite (neighbors_absent g v Ev) in Hu.
    by apply elem_of_nil in Hu.
Qed.

Lemma wf_run_op g o : wf g -> exists g', run_op g o = Ok g' /\ wf g'.
Proof.
  intros Hwf. destruct o as [v|u v|u v|v]; simpl.
  - eexists. split; [done|]. by apply wf_add_vertex.
  - by apply wf_add_edge.
  - by apply wf_remove_edge.
  - destruct (wf_remove_vertex g v Hwf) as (g' & ? & ? & _). eauto.
Qed.

Lemma wf_run_ops os : forall g, wf g -> exists g', run_ops g os = Ok g' /\ wf g'.
Proof.
  induction os as [|o os IH]; intros g Hwf; simpl; [by eauto|].
  destruct (wf_run_op g o Hwf) as (g1 & -> & Hwf1). simpl. by apply IH.
Qed.

Lemma wf_init es : forall g, wf g -> exists g', init g es = Ok g' /\ wf g'.
Proof.
  induction es as [|[u v] es IH]; intros g Hwf; simpl; [by eauto|].
  destruct (wf_add_edge g u v Hwf) as (g1 & -> & Hwf1). simpl. by apply IH.
Qed.
End UndirectedInvariant.

(** C7. Start from [UndirectedGraph(start_edges)] and apply any sequence of
    [add_vertex], [add_edge], [remove_edge] and [remove_vertex]: every call
    returns, and in the graph reached [v] is a neighbour of [u] exactly when
    [u] is a neighbour of [v].  Removing any vertex from it returns as well,
    keeps the symmetry, and leaves the vertex neither a key nor a member of
    any neighbour list. *)
Theorem C7_adjacency_symmetric :
  forall start_edges ops,
    exists g0 g,
      Undirected.init Undirected.empty start_edges = Ok g0 /\
      Undirected.run_ops g0 ops = Ok g /\
      Undirected.symmetric g /\
      forall v, exists g',
        Undirected.remove_vertex g v = Ok g' /\
        Undirected.symmetric g' /\
        Dict.has g' v = false /\
        forall u, v ∉ Undirected.neighbors g' u.
Proof.
  intros start_edges ops.
  destruct (wf_init start_edges _ wf_empty) as (g0 & Hg0 & Hwf0).
  destruct (wf_run_ops ops g0 Hwf0) as (g & Hg & Hwf).
  exists g0, g. split; [done|]. split; [done|]. split; [by apply wf_symmetric|].
  intros v. destruct (wf_remove_vertex g v Hwf) as (g' & ? & ? & ? & ?).
  exists g'. split; [done|]. split; [by apply wf_symmetric|]. done.
Qed.

(** ** [dijkstra] computes least path weights *)

Section PySequences.
Context {A : Type}.
Implicit Types (l : list A).

Lemma index_of_nat l i x : l !! i = Some x -> Py.index l (Z.of_nat i) = Ok x.
Proof.
  intros H. pose proof (lookup_lt_Some _ _ _ H) as Hlt. unfold Py.index.
  destruct (Z.of_nat i <? 0) eqn:E; [apply Z.ltb_lt in E; lia|].
  rewrite (proj2 (Z.leb_le _ _)) by lia. rewrite (proj2 (Z.ltb_lt _ _)) by lia.
  simpl. by rewrite Nat2Z.id, H.
Qed.
End PySequences.

Section RelaxFacts.
Import Directed.

Lemma relax_elem d row : forall c pq e,
  e ∈ relax d row c pq <->
  e ∈ pq \/ exists i w, row !! i = Some w /\ w <> 0 /\ e = (d + w, c + Z.of_nat i).
Proof.
  induction row as [|w row IH]; intros c pq e; simpl.
  - split; [by left|]. intros [H|(i & w & H & _)]; [done|]. by rewrite lookup_nil in H.
  - rewrite IH. unfold Heapq.heappush. split.
    + intros [H|(i & w' & Hi & Hw & ->)].
      * destruct (w =? 0) eqn:E; [by left|]. apply Z.eqb_neq in E.
        apply elem_of_cons in H as [->|H]; [|by left].
        right. exists 0%nat, w. split; [done|]. split; [done|]. f_equal. lia.
      * right. exists (S i), w'. split; [done|]. split; [done|]. f_equal. lia.
    + intros [H|(i & w' & Hi & Hw & ->)].
      * left. destruct (w =? 0); [done|]. by right.
      * destruct i as [|i]; simpl in Hi.
        -- injection Hi as ->. left. apply Z.eqb_neq in Hw. rewrite Hw.
           replace (c + Z.of_nat 0) with c by lia. left.
        -- right. exists i, w'. split; [done|]. split; [done|]. f_equal. lia.
Qed.

Lemma relax_length d row : forall c pq,
  (length (relax d row c pq) <= length pq + length row)%nat.
Proof.
  induction row as [|w row IH]; intros c pq; simpl; [lia|].
  etrans; [apply IH|]. unfold Heapq.heappush. destruct (w =? 0); simpl; lia.
Qed.

Lemma entry_leb_true a b : entry_leb a b = true -> a.1 <= b.1.
Proof. unfold entry_leb. lia. Qed.

Lemma entry_leb_false a b : entry_leb a b = false -> b.1 <= a.1.
Proof. unfold entry_leb. lia. Qed.
End RelaxFacts.

Section DijkstraCorrect.
Import Directed.
Variable g : DirectedGraph.
Variable src : nat.
Hypothesis Hwf : wf_graph g.
Hypothesis Hsrc : (src < v_count g)%nat.

Lemma wf_row u row :
  adj_matrix g !! u = Some row ->
  length row = v_count g /\ forall i w, row !! i = Some w -> 0 <= w.
Proof.
  intros H. destruct Hwf as [_ Hrows].
  rewrite Forall_forall in Hrows. destruct (Hrows row) as [Hlen Hpos].
  { by eapply list_elem_of_lookup_2. }
  split; [done|]. intros i w Hi. rewrite Forall_forall in Hpos.
  apply Hpos. by eapply list_elem_of_lookup_2.
Qed.

Lemma weight_edge u c :
  weight g u c <> 0 ->
  exists row, adj_matrix g !! u = Some row /\ row !! c = Some (weight g u c) /\
    (u < v_count g)%nat /\ (c < v_count g)%nat /\ 0 < weight g u c.
Proof.
  unfold weight. intros H.
  destruct (adj_matrix g !! u) as [row|] eqn:Eu; simpl in *; [|done].
  destruct (row !! c) as [w|] eqn:Ec; simpl in *; [|done].
  destruct (wf_row u row Eu) as [Hlen Hpos].
  exists row. split; [done|]. split; [done|].
  apply lookup_lt_Some in Eu as Hu. apply lookup_lt_Some in Ec as Hc.
  destruct Hwf as [Hn _]. specialize (Hpos c w Ec). lia.
Qed.

Lemma weight_row u row c w :
  adj_matrix g !! u = Some row -> row !! c = Some w -> weight g u c = w.
Proof. intros Hu Hc. unfold weight. rewrite Hu. simpl. by rewrite Hc. Qed.

Lemma walk_nonneg v d : walk g src v d -> 0 <= d.
Proof.
  induction 1 as [|u c d _ IH Hw]; [lia|].
  apply weight_edge in Hw as (_ & _ & _ & _ & _ & ?). lia.
Qed.

Lemma walk_in_range v d : walk g src v d -> (v < v_count g)%nat.
Proof.
  destruct 1 as [|u c d _ Hw]; [done|].
  by apply weight_edge in Hw as (_ & _ & _ & _ & ? & _).
Qed.

(** [pend visited pq c b]: a distance of at most [b] is recorded for [c],
    or is waiting for it in the queue. *)
Definition pend (visited : list dist) (pq : list (Z * Z)) (c : nat) (b : Z) : Prop :=
  exists d, d <= b /\ (visited !! c = Some (Fin d) \/ (d, Z.of_nat c) ∈ pq).

(** The loop invariant; [k] is the last priority popped. *)
Definition dijkstra_inv (k : Z) (pq : list (Z * Z)) (visited : list dist) : Prop :=
  length visited = v_count g /\
  (forall d v, (d, v) ∈ pq ->
     k <= d /\ exists c, v = Z.of_nat c /\ walk g src c d) /\
  (forall c d, visited !! c = Some (Fin d) ->
     d <= k /\ walk g src c d /\
     forall c', weight g c c' <> 0 -> pend visited pq c' (d + weight g c c')) /\
  pend visited pq src 0.

(** What the fuel has to exceed *)
Definition count_inf (visited : list dist) : nat :=
  length (filter (fun x => x = Inf) visited).

Definition dijkstra_measure (pq : list (Z * Z)) (visited : list dist) : nat :=
  (length pq + v_count g * count_inf visited)%nat.

Lemma count_inf_set visited c d :
  visited !! c = Some Inf ->
  S (count_inf (<[c := Fin d]> visited)) = count_inf visited.
Proof.
  unfold count_inf. revert c. induction visited as [|x visited IH]; intros c; [done|].
  destruct c as [|c]; simpl.
  - intros [= ->]. rewrite (filter_cons_False _ (Fin d)) by done.
    rewrite (filter_cons_True _ Inf) by done. done.
  - intros H. rewrite !filter_cons. destruct (decide (x = Inf)); simpl; by rewrite IH.
Qed.

Lemma dict_get_of_nat (visited : list dist) c x :
  visited !! c = Some x -> dict_get visited (Z.of_nat c) = Ok x.
Proof.
  intros H. pose proof (lookup_lt_Some _ _ _ H). unfold dict_get.
  rewrite (proj2 (Z.leb_le _ _)) by lia. rewrite (proj2 (Z.ltb_lt _ _)) by lia.
  simpl. by rewrite Nat2Z.id, H.
Qed.

Lemma pend_skip visited pq pq' c b d0 c0 d1 :
  pq ≡ₚ (d0, Z.of_nat c0) :: pq' ->
  visited !! c0 = Some (Fin d1) -> d1 <= d0 ->
  pend visited pq c b -> pend visited pq' c b.
Proof.
  intros Hperm Hc0 Hle (d & Hd & [H|H]).
  - exists d. split; [done|]. by left.
  - rewrite Hperm in H. apply elem_of_cons in H as [[= -> Hc]|H].
    + apply Nat2Z.inj in Hc as ->. exists d1. split; [lia|]. by left.
    + exists d. split; [done|]. by right.
Qed.

Lemma pend_finalize visited pq pq' pq'' c b d0 c0 :
  pq ≡ₚ (d0, Z.of_nat c0) :: pq' ->
  (forall e, e ∈ pq' -> e ∈ pq'') ->
  visited !! c0 = Some Inf ->
  pend visited pq c b -> pend (<[c0 := Fin d0]> visited) pq'' c b.
Proof.
  intros Hperm Hsub Hc0 (d & Hd & [H|H]).
  - exists d. split; [done|]. left.
    rewrite list_lookup_insert_ne; [done|]. intros ->. congruence.
  - rewrite Hperm in H. apply elem_of_cons in H as [[= -> Hc]|H].
    + apply Nat2Z.inj in Hc as ->. exists d0. split; [done|]. left.
      apply list_lookup_insert_eq. by eapply lookup_lt_Some.
    + exists d. split; [done|]. right. by apply Hsub.
Qed.

Lemma popped_least pq d0 v0 pq' :
  Heapq.heappop entry_leb pq = Some ((d0, v0), pq') ->
  pq ≡ₚ (d0, v0) :: pq' /\ forall d v, (d, v) ∈ pq -> d0 <= d.
Proof.
  intros H. split; [by apply Heapq.heappop_perm in H|].
  intros d v Hin.
  apply (Heapq.heappop_least entry_leb fst pq (d0, v0) pq'
           entry_leb_true entry_leb_false H (d, v) Hin).
Qed.

Lemma inv_skip k pq visited d0 c0 pq' d1 :
  dijkstra_inv k pq visited ->
  Heapq.heappop entry_leb pq = Some ((d0, Z.of_nat c0), pq') ->
  visited !! c0 = Some (Fin d1) -> d1 <= d0 ->
  dijkstra_inv d0 pq' visited.
Proof.
  intros (Hlen & Hpq & Hvis & Hsrc0) [Hperm Hleast]%popped_least Hc0 Hle.
  assert (k <= d0) as Hk.
  { apply (Hpq d0 (Z.of_nat c0)). rewrite Hperm. left. }
  split; [done|]. split; [|split].
  - intros d v Hin. assert ((d, v) ∈ pq) as Hin' by (rewrite Hperm; by right).
    split; [by eapply Hleast|]. by apply Hpq.
  - intros c d Hc. destruct (Hvis c d Hc) as (Hd & Hwalk & Hclo).
    split; [lia|]. split; [done|].
    intros c' Hw. eapply pend_skip; eauto.
  - eapply pend_skip; eauto.
Qed.

Lemma inv_finalize k pq visited d0 c0 pq' row :
  dijkstra_inv k pq visited ->
  Heapq.heappop entry_leb pq = Some ((d0, Z.of_nat c0), pq') ->
  visited !! c0 = Some Inf ->
  adj_matrix g !! c0 = Some row ->
  dijkstra_inv d0 (relax d0 row 0 pq') (<[c0 := Fin d0]> visited).
Proof.
  intros (Hlen & Hpq & Hvis & Hsrc0) [Hperm Hleast]%popped_least Hc0 Hrow.
  assert ((d0, Z.of_nat c0) ∈ pq) as Hin0 by (rewrite Hperm; left).
  destruct (Hpq _ _ Hin0) as (Hk & c0' & Hc0' & Hwalk0).
  apply Nat2Z.inj in Hc0' as <-.
  assert (forall e, e ∈ pq' -> e ∈ relax d0 row 0 pq') as Hsub.
  { intros e He. apply relax_elem. by left. }
  split; [by rewrite length_insert|]. split; [|split].
  - intros d v [Hin|(i & w & Hi & Hw & [= -> ->])]%relax_elem.
    + assert ((d, v) ∈ pq) as Hin' by (rewrite Hperm; by right).
      split; [by eapply Hleast|]. by apply Hpq.
    + destruct (wf_row c0 row Hrow) as [_ Hpos]. specialize (Hpos i w Hi).
      split; [lia|]. exists i. split; [lia|].
      rewrite <- (weight_row c0 row i w Hrow Hi).
      apply walk_step; [done|]. by rewrite (weight_row c0 row i w Hrow Hi).
  - intros c d Hc. destruct (decide (c = c0)) as [->|Hne].
    + rewrite list_lookup_insert_eq in Hc by (by eapply lookup_lt_Some).
      injection Hc as <-. split; [lia|]. split; [done|].
      intros c' Hw. exists (d0 + weight g c0 c'). split; [lia|]. right.
      apply relax_elem. right.
      destruct (weight_edge c0 c' Hw) as (row' & Hrow' & Hc' & _).
      rewrite Hrow in Hrow'. injection Hrow' as <-.
      exists c', (weight g c0 c'). split; [done|]. split; [done|]. f_equal.
    + rewrite list_lookup_insert_ne in Hc by done.
      destruct (Hvis c d Hc) as (Hd & Hwalk & Hclo).
      split; [lia|]. split; [done|].
      intros c' Hw. eapply pend_finalize; eauto.
  - eapply pend_finalize; eauto.
Qed.

(** With fuel above the measure the loop returns, and the invariant holds
    of what it returns, the queue being empty. *)
Lemma dijkstra_loop_inv fuel :
  forall k pq visited,
    dijkstra_inv k pq visited ->
    (dijkstra_measure pq visited < fuel)%nat ->
    exists k' ds, dijkstra_loop fuel g pq visited = Ok ds /\ dijkstra_inv k' [] ds.
Proof.
  induction fuel as [|fuel IH]; intros k pq visited Hinv Hfuel; [lia|].
  simpl. destruct (Heapq.heappop entry_leb pq) as [[[d0 v0] pq']|] eqn:Epop.
  - pose proof Hinv as (Hlen & Hpq & Hvis & _).
    pose proof (popped_least _ _ _ _ Epop) as [Hperm _].
    assert ((d0, v0) ∈ pq) as Hin0 by (rewrite Hperm; left).
    destruct (Hpq _ _ Hin0) as (Hk & c0 & -> & Hwalk0).
    pose proof (walk_in_range _ _ Hwalk0) as Hc0.
    destruct (lookup_lt_is_Some_2 visited c0) as [best Hbest]; [lia|].
    rewrite (dict_get_of_nat _ _ _ Hbest). simpl.
    assert (length pq = S (length pq')) as Hlenpq by (by rewrite Hperm).
    destruct best as [|d1]; simpl.
    + destruct (lookup_lt_is_Some_2 (adj_matrix g) c0) as [row Hrow].
      { destruct Hwf as [-> _]. lia. }
      rewrite (index_of_nat _ _ _ Hrow). simpl.
      unfold dict_set. rewrite Nat2Z.id.
      eapply IH; [eapply inv_finalize; eassumption|].
      unfold dijkstra_measure in *.
      pose proof (relax_length d0 row 0 pq').
      destruct (wf_row c0 row Hrow) as [Hrowlen _].
      pose proof (count_inf_set visited c0 d0 Hbest). nia.
    + destruct (d0 <? d1) eqn:E.
      * apply Z.ltb_lt in E. destruct (Hvis c0 d1 Hbest) as (? & _). lia.
      * apply Z.ltb_ge in E. eapply IH; [eapply inv_skip; eassumption|].
        unfold dijkstra_measure in *. lia.
  - destruct pq; [|done]. exists k, visited. by split.
Qed.

Lemma dijkstra_inv_init :
  dijkstra_inv 0 (Heapq.heappush [] (0, Z.of_nat src)) (replicate (v_count g) Inf).
Proof.
  split; [apply length_replicate|]. split; [|split].
  - intros d v [= -> ->]%list_elem_of_singleton. split; [lia|].
    exists src. split; [done|]. constructor.
  - intros c d [? _]%lookup_replicate. done.
  - exists 0. split; [lia|]. right. left.
Qed.

(** Once the queue is empty the recorded distances are closed under the
    edges, so none of them exceeds the weight of a path. *)
Lemma final_le ds k v d :
  dijkstra_inv k [] ds -> walk g src v d ->
  exists m, ds !! v = Some (Fin m) /\ m <= d.
Proof.
  intros (_ & _ & Hvis & Hsrc0). induction 1 as [|u c d _ IH Hw].
  - destruct Hsrc0 as (m & Hm & [H|H]); [|by apply elem_of_nil in H]. eauto.
  - destruct IH as (m & Hu & Hm).
    destruct (Hvis u m Hu) as (_ & _ & Hclo).
    destruct (Hclo c Hw) as (m' & Hm' & [H|H]); [|by apply elem_of_nil in H].
    exists m'. split; [done|]. lia.
Qed.
End DijkstraCorrect.

(** Every graph the class can build has the shape [wf_graph]. *)
Section DirectedShape.
Import Directed.

Lemma setitem_ok {A} (l l' : list A) i x :
  Py.setitem l i x = Ok l' -> exists j, l' = <[j := x]> l.
Proof.
  unfold Py.setitem. destruct (_ && _); [|done]. intros [= <-]. eauto.
Qed.

Lemma index_ok {A} (l : list A) i x : Py.index l i = Ok x -> x ∈ l.
Proof.
  unfold Py.index. destruct (_ && _); [|done].
  destruct (l !! _) as [y|] eqn:E; [|done]. intros [= <-].
  by eapply list_elem_of_lookup_2.
Qed.

Lemma wf_graph_empty : wf_graph empty.
Proof. split; [done|]. constructor. Qed.

Lemma wf_graph_add_vertex g : wf_graph g -> wf_graph (add_vertex g).
Proof.
  intros [Hlen Hrows]. unfold add_vertex, wf_graph. simpl. split.
  - rewrite length_fmap, length_app. simpl. lia.
  - apply Forall_fmap, Forall_app. split.
    + eapply Forall_impl; [apply Hrows|]. intros row [Hl Hp]. simpl.
      split; [rewrite length_app; simpl; lia|].
      apply Forall_app. split; [done|]. by constructor.
    + constructor; [|constructor]. simpl. split.
      * rewrite length_app, length_replicate. simpl. lia.
      * apply Forall_app. split; [|by constructor].
        apply Forall_forall. intros w [-> _]%elem_of_replicate. done.
Qed.

Lemma wf_graph_set_cell g src dst w g' :
  0 <= w -> wf_graph g -> set_cell g src dst w = Ok g' -> wf_graph g'.
Proof.
  intros Hw [Hlen Hrows] H. unfold set_cell in H.
  apply res_bind_ok in H as (row & Hrow & H).
  apply res_bind_ok in H as (row' & Hrow' & H).
  apply res_bind_ok in H as (m & Hm & [= <-]).
  apply index_ok in Hrow. apply setitem_ok in Hrow' as [j ->].
  apply setitem_ok in Hm as [i ->].
  rewrite Forall_forall in Hrows. destruct (Hrows row Hrow) as [Hl Hp].
  split; simpl; [by rewrite length_insert|].
  apply Forall_insert; [by apply Forall_forall|].
  split; [by rewrite length_insert|]. by apply Forall_insert.
Qed.

Lemma wf_graph_add_edge g src dst w g' :
  wf_graph g -> add_edge g src dst w = Ok g' -> wf_graph g'.
Proof.
  intros Hwf. unfold add_edge.
  destruct (_ || _); [by intros [= <-]|].
  destruct (src =? dst); [by intros [= <-]|].
  destruct (w <? 0) eqn:E; [by intros [= <-]|].
  apply Z.ltb_ge in E. by apply wf_graph_set_cell.
Qed.

Lemma wf_graph_remove_edge g src dst g' :
  wf_graph g -> remove_edge g src dst = Ok g' -> wf_graph g'.
Proof.
  intros Hwf. unfold remove_edge.
  destruct (_ || _); [by intros [= <-]|].
  destruct (src =? dst); [by intros [= <-]|].
  by apply wf_graph_set_cell.
Qed.

Lemma wf_graph_add_edges es : forall g g',
  wf_graph g -> add_edges g es = Ok g' -> wf_graph g'.
Proof.
  induction es as [|[[u v] w] es IH]; intros g g' Hwf; simpl; [by intros [= <-]|].
  intros (g1 & Hg1 & H)%res_bind_ok. eapply IH; [|done].
  by eapply wf_graph_add_edge.
Qed.

Lemma wf_graph_init es g : init es = Ok g -> wf_graph g.
Proof.
  unfold init. apply wf_graph_add_edges.
  induction (Z.to_nat _) as [|n IH]; simpl; [apply wf_graph_empty|].
  by apply wf_graph_add_vertex.
Qed.
End DirectedShape.

(** C2. On a graph of the class (a square matrix without negative entries,
    so that every edge has a positive weight) and for a source [src] in
    range, [dijkstra(src)] returns, given fuel above [v_count * v_count + 1],
    a list of [v_count] entries in vertex order with 0 at [src], infinity at
    every vertex no directed path reaches, and at every other vertex the
    least total weight of a directed path from [src]. *)
Theorem C2_dijkstra_least_weights (g : Directed.DirectedGraph) (src fuel : nat) :
  Directed.wf_graph g ->
  (src < Directed.v_count g)%nat ->
  (Directed.v_count g * Directed.v_count g + 2 <= fuel)%nat ->
  exists ds,
    Directed.dijkstra fuel g (Z.of_nat src) = Ok ds /\
    length ds = Directed.v_count g /\
    ds !! src = Some (Fin 0) /\
    forall v, (v < Directed.v_count g)%nat ->
      ((forall d, ~ Directed.walk g src v d) -> ds !! v = Some Inf) /\
      (forall d, Directed.walk g src v d ->
         exists m, ds !! v = Some (Fin m) /\ Directed.walk g src v m /\
           forall d', Directed.walk g src v d' -> m <= d').
Proof.
  intros Hwf Hsrc Hfuel.
  destruct (dijkstra_loop_inv g src Hwf Hsrc fuel 0 _ _ (dijkstra_inv_init g src Hsrc))
    as (k & ds & Hrun & Hinv).
  { unfold dijkstra_measure, count_inf. simpl.
    pose proof (length_filter (fun x => x = Inf) (replicate (Directed.v_count g) Inf)).
    rewrite length_replicate in *. nia. }
  exists ds. split; [done|].
  pose proof Hinv as (Hlen & _ & Hvis & _).
  assert (forall v d, Directed.walk g src v d ->
            exists m, ds !! v = Some (Fin m) /\ Directed.walk g src v m /\
              forall d', Directed.walk g src v d' -> m <= d') as Hmin.
  { intros v d Hwalk. destruct (final_le g src Hsrc ds k v d Hinv Hwalk) as (m & Hm & _).
    exists m. split; [done|]. split; [by apply (Hvis v m Hm)|].
    intros d' Hwalk'. destruct (final_le g src Hsrc ds k v d' Hinv Hwalk') as (m' & Hm' & ?).
    congruence. }
  split; [done|]. split.
  - destruct (Hmin src 0) as (m & Hm & Hwalk & Hle); [constructor|].
    assert (0 <= m) by (eapply walk_nonneg; eauto). specialize (Hle 0 (Directed.walk_here g src)).
    rewrite Hm. do 2 f_equal. lia.
  - intros v Hv. split; [|by apply Hmin].
    intros Hnone. destruct (lookup_lt_is_Some_2 ds v) as [x Hx]; [lia|].
    destruct x as [|m]; [done|]. destruct (Hnone m). by apply (Hvis v m Hx).
Qed.

Lemma C2_dijkstra_least_weights_witness :
  exists ds,
    Directed.dijkstra 27 Directed.example_graph (Z.of_nat 4) = Ok ds /\
    length ds = Directed.v_count Directed.example_graph /\
    ds !! 4%nat = Some (Fin 0) /\
    forall v, (v < Directed.v_count Directed.example_graph)%nat ->
      ((forall d, ~ Directed.walk Directed.example_graph 4 v d) -> ds !! v = Some Inf) /\
      (forall d, Directed.walk Directed.example_graph 4 v d ->
         exists m, ds !! v = Some (Fin m) /\ Directed.walk Directed.example_graph 4 v m /\
           forall d', Directed.walk Directed.example_graph 4 v d' -> m <= d').
Proof.
  apply (C2_dijkstra_least_weights Directed.example_graph 4 27).
  - apply (wf_graph_init Directed.example_edges). reflexivity.
  - simpl. lia.
  - simpl. lia.
Defined.

(** ** [solve_puzzle] returns a shortest path *)

Section MazeFacts.
Import Maze.

Lemma range_elem n z : z ∈ Py.range n <-> 0 <= z < Z.of_nat n.
Proof.
  unfold Py.range. rewrite list_elem_of_fmap. split.
  - intros (i & -> & Hi). apply elem_of_seq in Hi. lia.
  - intros Hz. exists (Z.to_nat z). split; [lia|]. apply elem_of_seq. lia.
Qed.

Lemma range_length n : length (Py.range n) = n.
Proof. unfold Py.range. by rewrite length_fmap, length_seq. Qed.

Lemma all_cells_elem h w c :
  c ∈ all_cells h w <-> 0 <= c.1 < Z.of_nat h /\ 0 <= c.2 < Z.of_nat w.
Proof.
  unfold all_cells. rewrite list_elem_of_bind. split.
  - intros (r & Hc & Hr). apply list_elem_of_bind in Hc as (y & Hc & Hy).
    apply list_elem_of_singleton in Hc as ->. simpl.
    apply range_elem in Hr, Hy. done.
  - intros [Hr Hy]. exists c.1. split; [|by apply range_elem].
    apply list_elem_of_bind. exists c.2. split; [|by apply range_elem].
    destruct c. simpl. apply list_elem_of_singleton. done.
Qed.

Lemma bind_length {A B} (f : A -> list B) (l : list A) n :
  (forall y, length (f y) = n) -> length (l ≫= f) = (length l * n)%nat.
Proof.
  intros Hf. induction l as [|x l IH]; [done|].
  rewrite bind_cons, length_app, Hf, IH. simpl. lia.
Qed.

Lemma all_cells_length h w : length (all_cells h w) = (h * w)%nat.
Proof.
  unfold all_cells. rewrite (bind_length _ _ w), range_length; [done|].
  intros r. rewrite (bind_length _ _ 1%nat), range_length; [lia|done].
Qed.

Lemma init_distances_lookup h w c x :
  init_distances h w !! c = Some x -> x = Inf.
Proof.
  unfold init_distances. intros H%elem_of_list_to_map_2.
  apply list_elem_of_fmap in H as (c' & [= _ ->] & _). done.
Qed.

Lemma init_distances_in_bounds h w c :
  c ∈ all_cells h w -> init_distances h w !! c = Some Inf.
Proof.
  intros Hc. destruct (init_distances h w !! c) as [x|] eqn:E.
  - apply init_distances_lookup in E. by subst.
  - apply not_elem_of_list_to_map in E. destruct E.
    rewrite <- list_fmap_compose. apply list_elem_of_fmap. by exists c.
Qed.

Lemma entry_leb_true_key (a b : entry) : entry_leb a b = true -> a.1.1 <= b.1.1.
Proof.
  unfold entry_leb, entry_cmp. destruct (a.1.1 ?= b.1.1) eqn:E; try done.
  - apply Z.compare_eq in E. lia.
  - rewrite Z.compare_lt_iff in E. lia.
Qed.

Lemma entry_leb_false_key (a b : entry) : entry_leb a b = false -> b.1.1 <= a.1.1.
Proof.
  unfold entry_leb, entry_cmp. destruct (a.1.1 ?= b.1.1) eqn:E.
  - apply Z.compare_eq in E. lia.
  - done.
  - rewrite Z.compare_gt_iff in E. lia.
Qed.

(** The cells still at infinity, counted over the grid *)
Definition count_far (h w : nat) (d : gmap cell dist) : nat :=
  length (filter (fun c => d !! c = Some Inf) (all_cells h w)).

Lemma filter_length_lt {A} (P Q : A -> Prop) `{!forall x, Decision (P x)}
    `{!forall x, Decision (Q x)} (l : list A) c :
  (forall x, Q x -> P x) -> c ∈ l -> P c -> ~ Q c ->
  (length (filter Q l) < length (filter P l))%nat.
Proof.
  intros Himp. induction l as [|x l IH]; intros Hc HP HQ; [by apply elem_of_nil in Hc|].
  assert (length (filter Q l) <= length (filter P l))%nat as Hle.
  { clear -Himp. induction l as [|y l IH]; [done|].
    rewrite !filter_cons. destruct (decide (Q y)) as [Hy|Hy].
    - rewrite decide_True by auto. simpl. lia.
    - destruct (decide (P y)); simpl; lia. }
  apply elem_of_cons in Hc as [<-|Hc].
  - rewrite filter_cons_False by done. rewrite filter_cons_True by done. simpl. lia.
  - specialize (IH Hc HP HQ). rewrite !filter_cons.
    destruct (decide (Q x)) as [Hx|Hx].
    + rewrite decide_True by auto. simpl. lia.
    + destruct (decide (P x)); simpl; lia.
Qed.

Lemma count_far_insert (h w : nat) (d : gmap cell dist) (c : cell) (x : Z) :
  c ∈ all_cells h w -> d !! c = Some Inf ->
  (count_far h w (<[c := Fin x]> d) < count_far h w d)%nat.
Proof.
  intros Hc Hd. unfold count_far. apply (filter_length_lt _ _ _ c); try done.
  - intros c'. rewrite lookup_insert. case_decide; [done|]. done.
  - rewrite lookup_insert_eq. done.
Qed.
End MazeFacts.

Section MazeCorrect.
Import Maze.
Variable board : list (list string).
Variables source destination : cell.
Hypothesis Hrect : rectangular board.
Hypothesis Hsrc : is_open board source.

Lemma index_in_range {A} (l : list A) i :
  0 <= i < Z.of_nat (length l) ->
  exists x, l !! Z.to_nat i = Some x /\ Py.index l i = Ok x.
Proof.
  intros Hi. destruct (lookup_lt_is_Some_2 l (Z.to_nat i)) as [x Hx]; [lia|].
  exists x. split; [done|]. rewrite <- (Z2Nat.id i) at 1 by lia. by apply index_of_nat.
Qed.

(** The edge from [c], at distance [d], in the direction [m] is settled:
    its target, if open, has a distance of at most [d + 1]. *)
Definition edge_ok (D : gmap cell dist) (c : cell) (d : Z) (m : cell) : Prop :=
  is_open board (shift c m) ->
  exists d', D !! shift c m = Some (Fin d') /\ d' <= d + 1.

(** The invariant of the two loops.  [k] is the distance last popped,
    [cur] the cell being expanded and [todo] its moves still to try. *)
Definition maze_inv (k : Z) (cur : cell) (todo : list cell) (st : state) : Prop :=
  (forall c, in_bounds board c -> is_Some (distances st !! c)) /\
  (forall d c p, (d, c, p) ∈ priority_queue st ->
     route board source c p /\ Z.of_nat (length p) = d + 1 /\
     distances st !! c = Some (Fin d) /\ k <= d) /\
  (forall c d, distances st !! c = Some (Fin d) ->
     d <= k + 1 /\
     (exists p, route board source c p /\ Z.of_nat (length p) = d + 1) /\
     ((exists p, (d, c, p) ∈ priority_queue st) \/
      forall m, m ∈ moves -> edge_ok (distances st) c d m \/ (c = cur /\ m ∈ todo))) /\
  distances st !! source = Some (Fin 0) /\
  (destination <> source ->
   match distances st !! destination with
   | Some (Fin d) =>
       exists p, shortest_path st = Some p /\ route board source destination p /\
         Z.of_nat (length p) = d + 1
   | _ => shortest_path st = None
   end).

Definition maze_measure (st : state) : nat :=
  (length (priority_queue st) + count_far (length board) (width board) (distances st))%nat.

Lemma edge_ok_mono (D D' : gmap cell dist) c d m :
  (forall x y, D !! x = Some (Fin y) -> D' !! x = Some (Fin y)) ->
  edge_ok D c d m -> edge_ok D' c d m.
Proof. intros Hext Hok Hopen. destruct (Hok Hopen) as (d' & ? & ?). eauto. Qed.

(** A cell in bounds is open exactly when the board does not hold a wall
    there, and reading it does not raise. *)
Lemma read_cell c :
  in_bounds board c ->
  exists row s,
    Py.index board c.1 = Ok row /\ Py.index row c.2 = Ok s /\
    (s <> "#"%string <-> is_open board c).
Proof.
  intros [Hx Hy]. destruct (index_in_range board c.1 Hx) as (row & Hrow & Hirow).
  assert (length row = width board) as Hlen.
  { unfold rectangular in Hrect. rewrite Forall_forall in Hrect.
    apply Hrect. by eapply list_elem_of_lookup_2. }
  destruct (index_in_range row c.2) as (s & Hs & His); [lia|].
  exists row, s. split; [done|]. split; [done|].
  unfold is_open, cell_at. rewrite Hrow. simpl. rewrite Hs. split.
  - intros Hne. split; [done|]. by exists s.
  - intros [_ (s' & [= <-] & Hne)]. done.
Qed.

(** A move whose edge is settled leaves the list of moves to try. *)
Lemma inv_settle d0 c0 m todo st :
  maze_inv d0 c0 (m :: todo) st ->
  distances st !! c0 = Some (Fin d0) ->
  edge_ok (distances st) c0 d0 m ->
  maze_inv d0 c0 todo st.
Proof.
  intros (I1 & I2 & I3 & I4 & I5) Hc0 Hok.
  split; [done|]. split; [done|]. split; [|done].
  intros c d Hc. destruct (I3 c d Hc) as (Hd & Hreal & Hcov).
  split; [done|]. split; [done|].
  destruct Hcov as [?|Hcov]; [by left|]. right.
  intros m' Hm'. destruct (Hcov m' Hm') as [?|[-> Hin]]; [by left|].
  apply elem_of_cons in Hin as [->|Hin]; [|by right].
  left. rewrite Hc0 in Hc. by injection Hc as <-.
Qed.

(** A move onto an open cell still at infinity records its distance and
    queues it. *)
Lemma inv_push d0 c0 p0 m todo st :
  maze_inv d0 c0 (m :: todo) st ->
  distances st !! c0 = Some (Fin d0) ->
  route board source c0 p0 -> Z.of_nat (length p0) = d0 + 1 ->
  m ∈ moves -> is_open board (shift c0 m) ->
  distances st !! shift c0 m = Some Inf ->
  maze_inv d0 c0 todo
    (mkState (<[shift c0 m := Fin (d0 + 1)]> (distances st))
       (Heapq.heappush (priority_queue st) (d0 + 1, shift c0 m, p0 ++ [shift c0 m]))
       (if bool_decide (shift c0 m = destination)
        then Some (p0 ++ [destination]) else shortest_path st)).
Proof.
  intros (I1 & I2 & I3 & I4 & I5) Hc0 Hroute Hlen Hm Hopen Hfar.
  set (c' := shift c0 m) in *.
  assert (forall x y, distances st !! x = Some (Fin y) ->
            <[c' := Fin (d0 + 1)]> (distances st) !! x = Some (Fin y)) as Hext.
  { intros x y Hx. rewrite lookup_insert_ne; [done|]. intros <-. congruence. }
  assert (route board source c' (p0 ++ [c'])) as Hroute'.
  { subst c'. by apply route_step. }
  assert (Z.of_nat (length (p0 ++ [c'])) = d0 + 1 + 1) as Hlen'.
  { rewrite length_app. simpl. lia. }
  unfold maze_inv. simpl. split; [|split; [|split; [|split]]].
  - intros c Hc. rewrite lookup_insert_is_Some'. right. by apply I1.
  - intros d c p [[= -> -> ->]|Hin]%elem_of_cons.
    + split; [done|]. split; [done|]. split; [by rewrite lookup_insert_eq|lia].
    + destruct (I2 d c p Hin) as (? & ? & ? & ?). split; [done|]. split; [done|].
      split; [by apply Hext|done].
  - intros c d Hc. destruct (decide (c = c')) as [->|Hne].
    + rewrite lookup_insert_eq in Hc. injection Hc as <-.
      split; [lia|]. split; [by eexists|]. left. eexists. left.
    + rewrite lookup_insert_ne in Hc by done.
      destruct (I3 c d Hc) as (Hd & Hreal & Hcov).
      split; [done|]. split; [done|].
      destruct Hcov as [[p Hin]|Hcov]; [left; exists p; by right|]. right.
      intros m' Hm'. destruct (Hcov m' Hm') as [Hok|[-> Hin]].
      * left. by eapply edge_ok_mono.
      * apply elem_of_cons in Hin as [->|Hin]; [|by right].
        left. intros _. exists (d0 + 1). fold c'. rewrite lookup_insert_eq.
        rewrite Hc0 in Hc. injection Hc as <-. split; [done|lia].
  - apply Hext. done.
  - intros Hds. specialize (I5 Hds). case_bool_decide as Heq.
    + rewrite <- Heq, lookup_insert_eq. exists (p0 ++ [c']).
      split; [done|]. split; [done|]. done.
    + rewrite lookup_insert_ne by done. done.
Qed.

Lemma explore_step d0 c0 p0 m todo st :
  maze_inv d0 c0 (m :: todo) st ->
  distances st !! c0 = Some (Fin d0) ->
  route board source c0 p0 -> Z.of_nat (length p0) = d0 + 1 ->
  m ∈ moves ->
  exists st',
    explore board (Z.of_nat (length board)) (Z.of_nat (width board)) destination
      d0 c0 p0 (m :: todo) st =
    explore board (Z.of_nat (length board)) (Z.of_nat (width board)) destination
      d0 c0 p0 todo st' /\
    maze_inv d0 c0 todo st' /\
    distances st' !! c0 = Some (Fin d0) /\
    (maze_measure st' <= maze_measure st)%nat.
Proof.
  intros Hinv Hc0 Hroute Hlen Hm. destruct m as [dx dy]. cbn [explore].
  assert (shift c0 (dx, dy) = (c0.1 + dx, c0.2 + dy)) as Ec' by done.
  set (c' := shift c0 (dx, dy)) in *. cbn [fst snd].
  destruct (negb ((0 <=? c0.1 + dx) && (c0.1 + dx <? Z.of_nat (length board)))
            || negb ((0 <=? c0.2 + dy) && (c0.2 + dy <? Z.of_nat (width board)))) eqn:Eb.
  { exists st. split; [done|]. split; [|done].
    eapply inv_settle; [done..|]. intros [[? ?] _]. fold c' in H, H0.
    rewrite Ec' in H, H0. simpl in H, H0. lia. }
  assert (in_bounds board c') as Hin by (unfold in_bounds; rewrite Ec'; simpl; lia).
  destruct (read_cell c' Hin) as (row & s & Hrow & Hcell & Hs).
  rewrite Ec' in Hrow, Hcell. simpl in Hrow, Hcell.
  rewrite Hrow. cbn [mbind res_mbind res_bind]. rewrite Hcell. cbn [mbind res_mbind res_bind].
  rewrite <- Ec'.
  case_bool_decide as Hwall.
  { exists st. split; [done|]. split; [|done].
    eapply inv_settle; [done..|]. intros Hopen. apply Hs in Hopen. done. }
  apply Hs in Hwall.
  pose proof Hinv as (I1 & _ & I3 & _).
  destruct (I1 c' Hin) as [best Hbest].
  unfold dict_get. rewrite Hbest. cbn [mbind res_mbind res_bind].
  destruct best as [|d1]; cbn [lt_dist].
  - eexists. split; [done|]. split; [by apply inv_push|]. split.
    + simpl. rewrite lookup_insert_ne; [done|]. intros Heq.
      rewrite Heq in Hbest. congruence.
    + unfold maze_measure. simpl.
      assert (c' ∈ all_cells (length board) (width board)) as Hcell'.
      { apply all_cells_elem. apply Hin. }
      pose proof (count_far_insert _ _ _ _ (d0 + 1) Hcell' Hbest). lia.
  - destruct (I3 c' d1 Hbest) as (Hd1 & _).
    rewrite (proj2 (Z.ltb_ge _ _)) by lia.
    exists st. split; [done|]. split; [|done].
    eapply inv_settle; [done..|]. intros _. exists d1. split; [done|lia].
Qed.

Lemma explore_inv d0 c0 p0 todo :
  forall st,
    maze_inv d0 c0 todo st ->
    distances st !! c0 = Some (Fin d0) ->
    route board source c0 p0 -> Z.of_nat (length p0) = d0 + 1 ->
    (forall m, m ∈ todo -> m ∈ moves) ->
    exists st',
      explore board (Z.of_nat (length board)) (Z.of_nat (width board)) destination
        d0 c0 p0 todo st = Ok st' /\
      maze_inv d0 c0 [] st' /\
      (maze_measure st' <= maze_measure st)%nat.
Proof.
  induction todo as [|m todo IH]; intros st Hinv Hc0 Hroute Hlen Hsub.
  - exists st. by split.
  - destruct (explore_step d0 c0 p0 m todo st) as (st1 & -> & Hinv1 & Hc1 & Hle1);
      [done..|apply Hsub; left|].
    destruct (IH st1) as (st' & -> & Hinv' & Hle'); [done..| |].
    { intros m' Hm'. apply Hsub. by right. }
    exists st'. split; [done|]. split; [done|]. lia.
Qed.

Lemma maze_popped_least pq e pq' :
  Heapq.heappop entry_leb pq = Some (e, pq') ->
  pq ≡ₚ e :: pq' /\ forall e', e' ∈ pq -> e.1.1 <= e'.1.1.
Proof.
  intros H. split; [by apply Heapq.heappop_perm in H|].
  intros e' Hin.
  apply (Heapq.heappop_least entry_leb (fun x : entry => x.1.1) pq e pq'
           entry_leb_true_key entry_leb_false_key H e' Hin).
Qed.

(** Popping an entry starts the expansion of its cell. *)
Lemma inv_pop k cur st d0 c0 p0 pq' :
  maze_inv k cur [] st ->
  Heapq.heappop entry_leb (priority_queue st) = Some ((d0, c0, p0), pq') ->
  maze_inv d0 c0 moves (mkState (distances st) pq' (shortest_path st)) /\
  distances st !! c0 = Some (Fin d0) /\
  route board source c0 p0 /\ Z.of_nat (length p0) = d0 + 1 /\
  length (priority_queue st) = S (length pq').
Proof.
  intros (I1 & I2 & I3 & I4 & I5) [Hperm Hleast]%maze_popped_least.
  assert ((d0, c0, p0) ∈ priority_queue st) as Hin0 by (rewrite Hperm; left).
  destruct (I2 _ _ _ Hin0) as (Hroute0 & Hlen0 & Hc0 & Hk).
  split; [|split; [done|split; [done|split; [done|by rewrite Hperm]]]].
  unfold maze_inv. simpl. split; [done|]. split; [|split; [|done]].
  - intros d c p Hin. assert ((d, c, p) ∈ priority_queue st) as Hin'.
    { rewrite Hperm. by right. }
    destruct (I2 _ _ _ Hin') as (? & ? & ? & ?).
    split; [done|]. split; [done|]. split; [done|]. apply (Hleast _ Hin').
  - intros c d Hc. destruct (I3 c d Hc) as (Hd & Hreal & Hcov).
    split; [lia|]. split; [done|].
    destruct Hcov as [[p Hin]|Hcov].
    + rewrite Hperm in Hin. apply elem_of_cons in Hin as [[= -> -> ->]|Hin].
      * right. intros m Hm. by right.
      * left. by exists p.
    + right. intros m Hm. destruct (Hcov m Hm) as [?|[_ Hnil]]; [by left|].
      by apply elem_of_nil in Hnil.
Qed.

Lemma solve_loop_inv fuel :
  forall k cur st,
    maze_inv k cur [] st ->
    (maze_measure st < fuel)%nat ->
    exists sp k' cur' D',
      solve_loop fuel board (Z.of_nat (length board)) (Z.of_nat (width board))
        destination st = Ok sp /\
      maze_inv k' cur' [] (mkState D' [] sp).
Proof.
  induction fuel as [|fuel IH]; intros k cur st Hinv Hfuel; [lia|].
  cbn [solve_loop].
  destruct (Heapq.heappop entry_leb (priority_queue st)) as [[[[d0 c0] p0] pq']|] eqn:Epop.
  - destruct (inv_pop _ _ _ _ _ _ _ Hinv Epop) as (Hinv1 & Hc0 & Hroute0 & Hlen0 & Hlenq).
    cbn [distances]. unfold dict_get. rewrite Hc0. cbn [mbind res_mbind res_bind gt_dist].
    rewrite Z.ltb_irrefl.
    destruct (explore_inv d0 c0 p0 moves _ Hinv1) as (st' & -> & Hinv' & Hle);
      [done..|].
    cbn [mbind res_mbind res_bind]. eapply IH; [done|].
    unfold maze_measure in *. simpl in Hle. lia.
  - destruct st as [D pq sp]. simpl in *. destruct pq; [|done].
    exists sp, k, cur, D. by split.
Qed.

(** Once the queue is empty every edge is settled, so a recorded distance
    is at most the number of moves of any path. *)
Lemma final_bound k cur D sp c q :
  maze_inv k cur [] (mkState D [] sp) ->
  route board source c q ->
  exists d, D !! c = Some (Fin d) /\ d + 1 <= Z.of_nat (length q).
Proof.
  intros (_ & _ & I3 & I4 & _). simpl in *. induction 1 as [|c p m _ IH Hm Hopen].
  - exists 0. split; [done|]. simpl. lia.
  - destruct IH as (d & Hc & Hd).
    destruct (I3 c d Hc) as (_ & _ & [[? Hnil]|Hcov]); [by apply elem_of_nil in Hnil|].
    destruct (Hcov m Hm) as [Hok|[_ Hnil]]; [|by apply elem_of_nil in Hnil].
    destruct (Hok Hopen) as (d' & Hc' & Hd').
    exists d'. split; [done|]. rewrite length_app. simpl. lia.
Qed.

Lemma route_nonempty c q : route board source c q -> (1 <= length q)%nat.
Proof. destruct 1; [simpl; lia|]. rewrite length_app. simpl. lia. Qed.

Lemma maze_inv_init :
  destination <> source ->
  maze_inv 0 source []
    (mkState (<[source := Fin 0]> (init_distances (length board) (width board)))
       [(0, source, [source])] None).
Proof.
  intros Hne. unfold maze_inv. simpl. split; [|split; [|split; [|split]]].
  - intros c Hc. rewrite lookup_insert_is_Some'. right.
    rewrite init_distances_in_bounds; [done|]. apply all_cells_elem. apply Hc.
  - intros d c p [= -> -> ->]%list_elem_of_singleton.
    split; [by constructor|]. split; [done|]. split; [by rewrite lookup_insert_eq|lia].
  - intros c d Hc. destruct (decide (c = source)) as [->|Hc'].
    + rewrite lookup_insert_eq in Hc. injection Hc as <-.
      split; [lia|]. split; [exists [source]; split; [by constructor|done]|].
      left. exists [source]. left.
    + rewrite lookup_insert_ne in Hc by done. by apply init_distances_lookup in Hc.
  - by rewrite lookup_insert_eq.
  - intros _. rewrite lookup_insert_ne by done.
    destruct (init_distances _ _ !! destination) as [x|] eqn:E; [|done].
    apply init_distances_lookup in E. by subst.
Qed.

Lemma solve_puzzle_correct fuel :
  is_open board destination ->
  (length board * width board + 2 <= fuel)%nat ->
  exists r, solve_puzzle fuel board source destination = Ok r /\
    shortest_route board source destination r.
Proof.
  intros Hdst Hfuel. unfold solve_puzzle. case_bool_decide as Heq.
  - exists (Some [source]). split; [done|]. rewrite <- Heq. split; [by constructor|].
    intros q Hq. apply route_nonempty in Hq. simpl. lia.
  - pose proof Hsrc as [[Hx _] _].
    destruct (index_in_range board 0) as (row0 & Hrow0 & ->); [lia|].
    assert (width board = length row0) as Hw.
    { unfold width. rewrite head_lookup. change (Z.to_nat 0) with 0%nat in Hrow0.
      by rewrite Hrow0. }
    cbn [mbind res_mbind res_bind]. rewrite <- Hw.
    destruct (solve_loop_inv fuel 0 source _ (maze_inv_init (not_eq_sym Heq)))
      as (sp & k & cur & D & -> & Hinv).
    { unfold maze_measure, count_far. simpl.
      pose proof (length_filter
        (fun c => <[source := Fin 0]> (init_distances (length board) (width board)) !! c
                  = Some Inf) (all_cells (length board) (width board))).
      rewrite all_cells_length in *. lia. }
    exists sp. split; [done|].
    pose proof Hinv as (_ & _ & _ & _ & I5). simpl in I5. specialize (I5 (not_eq_sym Heq)).
    destruct (D !! destination) as [[|d]|] eqn:ED.
    + subst sp. intros q Hq. destruct (final_bound _ _ _ _ _ _ Hinv Hq) as (d & ? & _). congruence.
    + destruct I5 as (p & -> & Hp & Hlen). split; [done|].
      intros q Hq. destruct (final_bound _ _ _ _ _ _ Hinv Hq) as (d' & Hd' & Hle).
      rewrite ED in Hd'. injection Hd' as <-. lia.
    + subst sp. intros q Hq. destruct (final_bound _ _ _ _ _ _ Hinv Hq) as (d & ? & _). congruence.
Qed.

(** The destination need not be open for this: to a wall, or to a cell
    outside the board, there is no route. *)
Lemma solve_puzzle_any_destination fuel :
  (length board * width board + 2 <= fuel)%nat ->
  exists r, solve_puzzle fuel board source destination = Ok r /\
    shortest_route board source destination r.
Proof.
  intros Hfuel. unfold solve_puzzle. case_bool_decide as Heq.
  - exists (Some [source]). split; [done|]. rewrite <- Heq. split; [by constructor|].
    intros q Hq. apply route_nonempty in Hq. simpl. lia.
  - pose proof Hsrc as [[Hx _] _].
    destruct (index_in_range board 0) as (row0 & Hrow0 & ->); [lia|].
    assert (width board = length row0) as Hw.
    { unfold width. rewrite head_lookup. change (Z.to_nat 0) with 0%nat in Hrow0.
      by rewrite Hrow0. }
    cbn [mbind res_mbind res_bind]. rewrite <- Hw.
    destruct (solve_loop_inv fuel 0 source _ (maze_inv_init (not_eq_sym Heq)))
      as (sp & k & cur & D & -> & Hinv).
    { unfold maze_measure, count_far. simpl.
      pose proof (length_filter
        (fun c => <[source := Fin 0]> (init_distances (length board) (width board)) !! c
                  = Some Inf) (all_cells (length board) (width board))).
      rewrite all_cells_length in *. lia. }
    exists sp. split; [done|].
    pose proof Hinv as (_ & _ & _ & _ & I5). simpl in I5. specialize (I5 (not_eq_sym Heq)).
    destruct (D !! destination) as [[|d]|] eqn:ED.
    + subst sp. intros q Hq. destruct (final_bound _ _ _ _ _ _ Hinv Hq) as (d & ? & _). congruence.
    + destruct I5 as (p & -> & Hp & Hlen). split; [done|].
      intros q Hq. destruct (final_bound _ _ _ _ _ _ Hinv Hq) as (d' & Hd' & Hle).
      rewrite ED in Hd'. injection Hd' as <-. lia.
    + subst sp. intros q Hq. destruct (final_bound _ _ _ _ _ _ Hinv Hq) as (d & ? & _). congruence.
Qed.
End MazeCorrect.

(** C8. On a rectangular board, for a source and a destination that are in
    bounds and not walls, [solve_puzzle] returns once the fuel exceeds the
    number of cells by two; it returns [None] exactly when no path of
    orthogonal unit moves through open cells joins the two, and otherwise
    such a path, from source to destination inclusive, than which no other
    is shorter. *)
Theorem C8_solve_puzzle_shortest_path
    (board : list (list string)) (source destination : Maze.cell) (fuel : nat) :
  Maze.rectangular board ->
  Maze.is_open board source ->
  Maze.is_open board destination ->
  (length board * Maze.width board + 2 <= fuel)%nat ->
  exists r,
    Maze.solve_puzzle fuel board source destination = Ok r /\
    (r = None <-> forall q, ~ Maze.route board source destination q) /\
    Maze.shortest_route board source destination r.
Proof.
  intros Hrect Hsrc Hdst Hfuel.
  destruct (solve_puzzle_correct board source destination Hrect Hsrc fuel Hdst Hfuel)
    as (r & Hr & Hshort).
  exists r. split; [done|]. split; [|done].
  destruct r as [p|]; simpl in Hshort.
  - split; [done|]. intros Hnone. destruct Hshort as [Hp _]. by apply Hnone in Hp.
  - done.
Qed.

(** The grid of three rows and three columns without walls: the path from
    (0,0) to (2,2) has five cells. *)
Lemma C8_solve_puzzle_shortest_path_witness :
  exists p,
    Maze.solve_puzzle 11 open3 (0, 0) (2, 2) = Ok (Some p) /\
    Maze.shortest_route open3 (0, 0) (2, 2) (Some p) /\
    length p = 5%nat.
Proof.
  destruct (C8_solve_puzzle_shortest_path open3 (0, 0) (2, 2) 11) as (r & Hr & _ & Hs).
  - repeat constructor.
  - split; [unfold Maze.in_bounds, Maze.width, open3; simpl; lia|].
    eexists. split; [reflexivity|discriminate].
  - split; [unfold Maze.in_bounds, Maze.width, open3; simpl; lia|].
    eexists. split; [reflexivity|discriminate].
  - unfold Maze.width, open3. simpl. lia.
  - assert (r = Some [(0, 0); (0, 1); (0, 2); (1, 2); (2, 2)]) as Er.
    { pose proof Hr as Hr'. vm_compute in Hr'. by injection Hr' as <-. }
    rewrite Er in Hr, Hs. eexists. split; [exact Hr|]. split; [exact Hs|reflexivity].
Defined.

(** ** Depth-first search and the count of connected components *)

Section SortFacts.
Lemma sort_insert_perm x l : sort_insert x l ≡ₚ x :: l.
Proof.
  induction l as [|y l IH]; simpl; [done|].
  destruct (str_leb x y); [done|]. rewrite IH. apply Permutation_swap.
Qed.

Lemma py_sort_perm l : py_sort l ≡ₚ l.
Proof.
  unfold py_sort. induction l as [|x l IH]; simpl; [done|].
  by rewrite sort_insert_perm, IH.
Qed.

Lemma NoDup_incl_length (l k : list string) :
  NoDup l -> (forall x, x ∈ l -> x ∈ k) -> (length l <= length k)%nat.
Proof. intros Hnd Hsub. apply submseteq_length. by apply NoDup_submseteq. Qed.
End SortFacts.

Section Components.
Import Undirected.
Variable g0 : adj.
Hypothesis Hwf : wf g0.

(** The searches sort neighbour lists in place: the graph they work on has
    the keys and, up to order, the neighbour lists of [g0]. *)
Definition same_graph (g : adj) : Prop :=
  Dict.keys g = Dict.keys g0 /\ forall x, neighbors g x ≡ₚ neighbors g0 x.

Lemma same_graph_refl : same_graph g0.
Proof. by split. Qed.

Lemma same_graph_has g v : same_graph g -> v ∈ Dict.keys g0 -> Dict.has g v = true.
Proof. intros [Hk _] Hv. unfold Dict.has, Dict.keys in *. rewrite Hk. by apply bool_decide_eq_true. Qed.

Lemma same_graph_sorted g v :
  same_graph g -> v ∈ Dict.keys g0 ->
  same_graph (Dict.set g v (py_sort (neighbors g v))).
Proof.
  intros Hsame Hv. pose proof (same_graph_has g v Hsame Hv) as Hhas.
  destruct Hsame as [Hk HN]. split.
  - rewrite keys_set, Hhas. done.
  - intros x. rewrite neighbors_set. case_decide; [|done]. subst.
    by rewrite py_sort_perm.
Qed.

Lemma neighbor_key x y : y ∈ neighbors g0 x -> y ∈ Dict.keys g0.
Proof.
  intros Hy. destruct Hwf as (_ & _ & Hsym & _). apply Hsym in Hy.
  unfold neighbors in Hy. destruct (Dict.get_opt g0 y) as [l|] eqn:E.
  - by eapply get_opt_Some_key.
  - by apply elem_of_nil in Hy.
Qed.

Lemma reach_key u x : u ∈ Dict.keys g0 -> reach g0 u x -> x ∈ Dict.keys g0.
Proof. intros Hu. destruct 1; [done|]. by eapply neighbor_key. Qed.

Lemma reach_trans u v x : reach g0 u v -> reach g0 v x -> reach g0 u x.
Proof. intros Huv. induction 1; [done|]. by eapply reach_step. Qed.

Lemma reach_sym u v : reach g0 u v -> reach g0 v u.
Proof.
  destruct Hwf as (_ & _ & Hsym & _). induction 1 as [|x y _ IH Hy]; [constructor|].
  eapply reach_trans; [|done]. eapply reach_step; [constructor|]. by apply Hsym.
Qed.

(** A list that holds [v] and is closed under the edges holds every
    vertex reachable from [v]. *)
Lemma closed_reach (l : list string) v x :
  v ∈ l -> (forall a b, a ∈ l -> b ∈ neighbors g0 a -> b ∈ l) ->
  reach g0 v x -> x ∈ l.
Proof. intros Hv Hclosed. induction 1; eauto. Qed.
End Components.

Section RecursiveDfs.
Import Undirected UndirectedRec.
Variable g0 : adj.
Hypothesis Hwf : wf g0.

(** What a search from [v] adds to [visited]: vertices reachable from [v],
    each with all its neighbours in the list in the end. *)
Definition grows (v : string) (visited visited' : list string) : Prop :=
  NoDup visited' /\
  (forall x, x ∈ visited' -> x ∈ Dict.keys g0) /\
  exists new,
    visited' = visited ++ new /\
    (forall x, x ∈ new -> reach g0 v x) /\
    (forall x y, x ∈ new -> y ∈ neighbors g0 x -> y ∈ visited').

(** What a call of [rec_dfs] with fuel [fuel] does, for every state it can
    be called in. *)
Definition rec_ok (fuel : nat)
    (rec : adj -> list string -> string -> res (adj * list string)) : Prop :=
  forall g visited a,
    same_graph g0 g -> NoDup visited ->
    (forall x, x ∈ visited -> x ∈ Dict.keys g0) ->
    a ∈ Dict.keys g0 -> a ∉ visited ->
    (length (Dict.keys g0) <= fuel + length visited)%nat ->
    exists g' visited',
      rec g visited a = Ok (g', visited') /\
      same_graph g0 g' /\ grows a visited visited' /\ a ∈ visited'.

Lemma rec_dfs_loop_spec fuel rec v adjs :
  rec_ok fuel rec ->
  forall g visited,
    same_graph g0 g -> NoDup visited ->
    (forall x, x ∈ visited -> x ∈ Dict.keys g0) ->
    (forall a, a ∈ adjs -> a ∈ neighbors g0 v) ->
    (length (Dict.keys g0) <= fuel + length visited)%nat ->
    exists g' visited',
      rec_dfs_loop rec None adjs g visited = Ok (g', visited') /\
      same_graph g0 g' /\ grows v visited visited' /\
      (forall a, a ∈ adjs -> a ∈ visited').
Proof.
  intros Hrec. induction adjs as [|a adjs IH]; intros g visited Hsame Hnd Hsub Hadj Hfuel.
  - exists g, visited. split; [done|]. split; [done|]. split.
    + split; [done|]. split; [done|]. exists []. rewrite app_nil_r.
      split; [done|]. split; intros x; [|intros y]; by intros ?%elem_of_nil.
    + by intros a ?%elem_of_nil.
  - cbn [rec_dfs_loop truthy andb]. destruct (Py.mem a visited) eqn:Ea; cbn [negb].
    + apply mem_true in Ea.
      destruct (IH g visited) as (g' & visited' & Hrun & Hsame' & Hgrow & Hall); try done.
      { intros a' Ha'. apply Hadj. by right. }
      exists g', visited'. split; [done|]. split; [done|]. split; [done|].
      intros a' [->|Ha']%elem_of_cons; [|by apply Hall].
      destruct Hgrow as (_ & _ & new & -> & _). apply elem_of_app. by left.
    + apply mem_false in Ea.
      assert (a ∈ neighbors g0 v) as Hav by (apply Hadj; left).
      destruct (Hrec g visited a) as (g1 & visited1 & -> & Hsame1 & Hgrow1 & Ha1); try done.
      { by eapply neighbor_key. }
      cbn [mbind res_mbind res_bind fst snd].
      destruct Hgrow1 as (Hnd1 & Hsub1 & new1 & -> & Hreach1 & Hclosed1).
      destruct (IH g1 (visited ++ new1)) as (g' & visited' & Hrun & Hsame' & Hgrow & Hall);
        try done.
      { intros a' Ha'. apply Hadj. by right. }
      { rewrite length_app. lia. }
      exists g', visited'. split; [done|]. split; [done|].
      destruct Hgrow as (Hnd' & Hsub' & new2 & -> & Hreach2 & Hclosed2).
      split; [|intros a' [->|Ha']%elem_of_cons; [|by apply Hall]].
      * split; [done|]. split; [done|]. exists (new1 ++ new2).
        split; [by rewrite app_assoc|]. split.
        -- intros x [Hx|Hx]%elem_of_app; [|by apply Hreach2].
           eapply reach_trans; [|by apply Hreach1].
           eapply reach_step; [constructor|done].
        -- intros x y [Hx|Hx]%elem_of_app Hy; [|by eapply Hclosed2].
           apply elem_of_app. left. by eapply Hclosed1.
      * apply elem_of_app. by left.
Qed.

Lemma rec_dfs_spec fuel : rec_ok fuel (fun g visited a => rec_dfs fuel g visited a None).
Proof.
  induction fuel as [|fuel IH]; intros g visited v Hsame Hnd Hsub Hv Hnv Hfuel.
  - pose proof (NoDup_incl_length (visited ++ [v]) (Dict.keys g0)) as Hlen.
    rewrite length_app in Hlen. simpl in Hlen, Hfuel.
    assert (length visited + 1 <= length (Dict.keys g0))%nat; [|lia].
    apply Hlen.
    + apply NoDup_app. split; [done|]. split; [|apply NoDup_singleton].
      intros x Hx ->%list_elem_of_singleton. done.
    + intros x [Hx|Hx%list_elem_of_singleton]%elem_of_app; subst; auto.
  - cbn [rec_dfs truthy].
    rewrite (get_neighbors g v) by (by eapply same_graph_has).
    cbn [mbind res_mbind res_bind].
    destruct (rec_dfs_loop_spec fuel _ v (py_sort (neighbors g v)) IH
                (Dict.set g v (py_sort (neighbors g v))) (visited ++ [v]))
      as (g' & visited' & -> & Hsame' & Hgrow & Hall).
    + by apply same_graph_sorted.
    + apply NoDup_app. split; [done|]. split; [|apply NoDup_singleton].
      intros x Hx ->%list_elem_of_singleton. done.
    + intros x [Hx|Hx%list_elem_of_singleton]%elem_of_app; subst; auto.
    + intros a Ha. rewrite py_sort_perm in Ha. destruct Hsame as [_ HN].
      by rewrite <- HN.
    + rewrite length_app. simpl. lia.
    + exists g', visited'. split; [done|]. split; [done|].
      destruct Hgrow as (Hnd' & Hsub' & new & -> & Hreach & Hclosed).
      split; [|rewrite <- app_assoc; apply elem_of_app; right; left].
      split; [done|]. split; [done|]. exists ([v] ++ new).
      split; [by rewrite app_assoc|]. split.
      * intros x [Hx%list_elem_of_singleton|Hx]%elem_of_app; [subst; constructor|by apply Hreach].
      * intros x y [Hx%list_elem_of_singleton|Hx]%elem_of_app Hy; [subst x|by eapply Hclosed].
        apply Hall. rewrite py_sort_perm. destruct Hsame as [_ HN]. by rewrite HN.
Qed.

(** What [dfs(v)] is to return on a graph that is [g0] up to the order of
    its lists: the vertices reachable from [v], each once. *)
Definition dfs_ok (bound : nat)
    (dfs : nat -> adj -> string -> option string -> res (adj * list string)) : Prop :=
  forall fuel g v,
    same_graph g0 g -> v ∈ Dict.keys g0 -> (bound <= fuel)%nat ->
    exists g' l,
      dfs fuel g v None = Ok (g', l) /\ same_graph g0 g' /\ NoDup l /\
      forall x, x ∈ l <-> reach g0 v x.

Lemma rec_dfs_ok : dfs_ok (length (Dict.keys g0)) UndirectedRec.dfs.
Proof.
  intros fuel g v Hsame Hv Hfuel. unfold dfs, get_vertices.
  destruct Hsame as [Hk HN]. rewrite Hk.
  rewrite (proj2 (mem_true v (Dict.keys g0)) Hv). cbn [negb].
  destruct (rec_dfs_spec fuel g [] v) as (g' & l & -> & Hsame' & Hgrow & Hvl).
  - by split.
  - apply NoDup_nil_2.
  - by intros x ?%elem_of_nil.
  - done.
  - apply not_elem_of_nil.
  - simpl. lia.
  - exists g', l. split; [done|]. split; [done|].
    destruct Hgrow as (Hnd & _ & new & Hl & Hreach & Hclosed). simpl in Hl. subst new.
    split; [done|]. intros x. split; [apply Hreach|].
    apply closed_reach; [done|]. intros a b. apply Hclosed.
Qed.
End RecursiveDfs.

Section IterativeDfs.
Import Undirected UndirectedIter.
Variable g0 : adj.
Hypothesis Hwf : wf g0.
Variable s : string.

(** [result] once the current vertex has been appended to it *)
Definition visit (result : list string) (vertex : string) : list string :=
  if negb (Py.mem vertex result) then result ++ [vertex] else result.

Lemma visit_elem result vertex x :
  x ∈ visit result vertex <-> x ∈ result \/ x = vertex.
Proof.
  unfold visit. destruct (Py.mem vertex result) eqn:E; simpl.
  - apply mem_true in E. split; [by left|]. intros [?| ->]; done.
  - rewrite elem_of_app, list_elem_of_singleton. done.
Qed.

Lemma visit_seen result vertex : vertex ∈ result -> visit result vertex = result.
Proof. intros H. unfold visit. by rewrite (proj2 (mem_true _ _) H). Qed.

Lemma visit_new result vertex : vertex ∉ result -> visit result vertex = result ++ [vertex].
Proof. intros H. unfold visit. by rewrite (proj2 (mem_false _ _) H). Qed.

(** The invariant of the [while] loop.  The stack holds, above a first
    [s], the vertices on the way from [s] to the parent of the current
    one; every vertex of the result that is neither current nor on the
    stack has all its neighbours in the result. *)
Definition iter_inv (g : adj) (stack : list string) (vertex : string)
    (result : list string) : Prop :=
  same_graph g0 g /\
  NoDup (visit result vertex) /\
  (forall x, x ∈ visit result vertex -> x ∈ Dict.keys g0 /\ reach g0 s x) /\
  (forall x, x ∈ stack -> x ∈ visit result vertex) /\
  (forall x y, x ∈ visit result vertex -> x <> vertex \/ stack = [] -> x ∉ stack ->
     y ∈ neighbors g0 x -> y ∈ visit result vertex) /\
  (stack = [] -> vertex ∈ result /\ s ∈ result) /\
  (stack <> [] -> exists rest,
     stack = rest ++ [s] /\ (rest = [] -> vertex = s) /\ (rest <> [] -> last rest = Some s)).

Definition iter_measure (stack : list string) (vertex : string) (result : list string)
    : nat :=
  (2 * (length (Dict.keys g0) - length (visit result vertex)) + length stack)%nat.

Lemma visit_bound g stack vertex result :
  iter_inv g stack vertex result ->
  (length (visit result vertex) <= length (Dict.keys g0))%nat.
Proof.
  intros (_ & Hnd & Hsub & _). apply NoDup_incl_length; [done|].
  intros x Hx. by apply Hsub.
Qed.

(** Moving on to a neighbour [e] not yet in the result *)
Lemma iter_push g stack vertex result e :
  iter_inv g stack vertex result -> stack <> [] ->
  e ∈ neighbors g0 vertex -> e ∉ visit result vertex ->
  iter_inv (Dict.set g vertex (py_sort (neighbors g vertex))) (vertex :: stack) e
    (visit result vertex) /\
  (iter_measure (vertex :: stack) e (visit result vertex)
   < iter_measure stack vertex result)%nat.
Proof.
  intros Hinv Hne He Hnew. pose proof (visit_bound _ _ _ _ Hinv) as Hbound.
  destruct Hinv as (Hsame & Hnd & Hsub & Hstack & Hdone & _ & Hshape).
  assert (vertex ∈ visit result vertex) as Hv by (apply visit_elem; by right).
  assert (NoDup (visit (visit result vertex) e)) as Hnd'.
  { rewrite visit_new by done. apply NoDup_app. split; [done|].
    split; [|apply NoDup_singleton]. intros x Hx Hx'%list_elem_of_singleton. by subst. }
  assert (forall x, x ∈ visit (visit result vertex) e -> x ∈ Dict.keys g0 /\ reach g0 s x) as Hsub'.
  { intros x [Hx| ->]%visit_elem; [by apply Hsub|].
    split; [by eapply neighbor_key|]. eapply reach_step; [|done]. by apply Hsub. }
  split.
  - split; [apply same_graph_sorted; [done|by apply Hsub]|].
    split; [done|]. split; [done|]. split; [|split; [|split; [done|]]].
    + intros x [->|Hx]%elem_of_cons; apply visit_elem; left; auto.
    + intros x y Hx [Hxe|?] Hnot Hy; [|done].
      apply not_elem_of_cons in Hnot as [Hxv Hxs].
      apply visit_elem in Hx as [Hx|?]; [|done].
      apply visit_elem. left. eapply Hdone; eauto.
    + intros _. destruct (Hshape Hne) as (rest & -> & Hnil & Hlast).
      exists (vertex :: rest). split; [done|]. split; [done|]. intros _.
      destruct rest as [|r rest]; [by rewrite Hnil|]. rewrite last_cons.
      by rewrite Hlast.
  - unfold iter_measure.
    pose proof (NoDup_incl_length _ (Dict.keys g0) Hnd' (fun x Hx => proj1 (Hsub' x Hx))) as Hb'.
    rewrite visit_new in * by done. rewrite length_app in *. simpl in *. lia.
Qed.

(** Going back to the vertex on top of the stack, all the neighbours of the
    current one being in the result *)
Lemma iter_pop g top below vertex result :
  iter_inv g (top :: below) vertex result ->
  (forall y, y ∈ neighbors g0 vertex -> y ∈ visit result vertex) ->
  iter_inv (Dict.set g vertex (py_sort (neighbors g vertex))) below top
    (visit result vertex) /\
  (iter_measure below top (visit result vertex)
   < iter_measure (top :: below) vertex result)%nat.
Proof.
  intros (Hsame & Hnd & Hsub & Hstack & Hdone & _ & Hshape) Hall.
  assert (vertex ∈ visit result vertex) as Hv by (apply visit_elem; by right).
  assert (top ∈ visit result vertex) as Htop by (apply Hstack; left).
  destruct Hshape as (rest & Hrest & Hnil & Hlast); [done|].
  split.
  - unfold iter_inv. rewrite (visit_seen _ top Htop).
    split; [apply same_graph_sorted; [done|by apply Hsub]|].
    split; [done|]. split; [done|]. split; [|split; [|split]].
    + intros x Hx. apply Hstack. by right.
    + intros x y Hx Hor Hnot Hy. destruct (decide (x = vertex)) as [->|Hxv]; [by apply Hall|].
      eapply Hdone; eauto. apply not_elem_of_cons. split; [|done].
      destruct Hor as [?| ->]; [done|]. intros ->.
      destruct rest as [|r rest]; [|by destruct rest].
      injection Hrest as ->. by rewrite Hnil in Hxv.
    + intros ->. split; [done|].
      destruct rest as [|r rest]; [|by destruct rest]. by injection Hrest as <-.
    + intros Hne. destruct rest as [|r rest]; [simpl in Hrest; by injection Hrest|].
      injection Hrest as -> ->. exists rest. split; [done|]. split.
      * intros ->. specialize (Hlast ltac:(done)). by injection Hlast.
      * intros Hrne. specialize (Hlast ltac:(done)). destruct rest; [done|].
        exact Hlast.
  - unfold iter_measure. rewrite (visit_seen _ top Htop). simpl. lia.
Qed.

Lemma iter_loop_spec fuel :
  forall g stack vertex result,
    iter_inv g stack vertex result ->
    (iter_measure stack vertex result < fuel)%nat ->
    exists g' l,
      dfs_loop fuel g None stack vertex result = Ok (g', l) /\
      same_graph g0 g' /\ NoDup l /\ s ∈ l /\
      (forall x, x ∈ l -> reach g0 s x) /\
      (forall x y, x ∈ l -> y ∈ neighbors g0 x -> y ∈ l).
Proof.
  induction fuel as [|fuel IH]; intros g stack vertex result Hinv Hfuel; [lia|].
  cbn [dfs_loop]. destruct stack as [|top below].
  - destruct Hinv as (Hsame & Hnd & Hsub & _ & Hdone & Hexit & _).
    destruct Hexit as [Hv Hs]; [done|]. rewrite (visit_seen _ _ Hv) in *.
    exists g, result. split; [done|]. split; [done|]. split; [done|]. split; [done|].
    split; [intros x Hx; by apply Hsub|].
    intros x y Hx Hy. eapply Hdone; eauto. apply not_elem_of_nil.
  - pose proof Hinv as (Hsame & Hnd & Hsub & _).
    assert (vertex ∈ visit result vertex) as Hv by (apply visit_elem; by right).
    rewrite (get_neighbors g vertex) by (eapply same_graph_has; [done|by apply Hsub]).
    cbn [mbind res_mbind res_bind]. fold (visit result vertex).
    rewrite bool_decide_eq_false_2 by done.
    destruct (first_new (py_sort (neighbors g vertex)) (visit result vertex))
      as [e|] eqn:Efind.
    + unfold first_new in Efind. apply find_some in Efind as [He Hnew].
      apply list_elem_of_In in He. rewrite py_sort_perm in He.
      destruct Hsame as [_ HN]. rewrite HN in He.
      apply negb_true_iff, mem_false in Hnew.
      destruct (decide (e = vertex)) as [->|_]; [done|].
      destruct (iter_push g (top :: below) vertex result e) as [Hinv' Hlt]; try done.
      apply IH; [done|lia].
    + destruct (decide (vertex = vertex)) as [_|]; [|done].
      destruct (iter_pop g top below vertex result) as [Hinv' Hlt]; [done| |].
      { intros y Hy. unfold first_new in Efind.
        destruct Hsame as [_ HN]. rewrite <- HN, <- py_sort_perm in Hy.
        apply list_elem_of_In in Hy.
        pose proof (find_none _ _ Efind y Hy) as Hn.
        by apply negb_false_iff, mem_true in Hn. }
      apply IH; [done|lia].
Qed.

End IterativeDfs.

Section CountComponents.
Import Undirected.
Variable g0 : adj.
Hypothesis Hwf : wf g0.

Lemma iter_dfs_ok : dfs_ok g0 (2 * length (Dict.keys g0)) UndirectedIter.dfs.
Proof.
  intros fuel g v Hsame Hv Hfuel. unfold UndirectedIter.dfs.
  rewrite (same_graph_has g0 g v Hsame Hv). cbn [negb].
  destruct (iter_loop_spec g0 Hwf v fuel g [v] v []) as (g' & l & Hrun & Hsame' & Hnd & Hvl & Hreach & Hclosed).
  - unfold iter_inv. rewrite (visit_new [] v) by apply not_elem_of_nil. simpl.
    split; [done|]. split; [apply NoDup_singleton|].
    split; [intros x ->%list_elem_of_singleton; split; [done|constructor]|].
    split; [done|]. split; [|split; [done|]].
    + intros x y ->%list_elem_of_singleton [?|?] Hnot; [done|done].
    + intros _. exists []. by split.
  - unfold iter_measure. rewrite (visit_new [] v) by apply not_elem_of_nil. simpl.
    assert (1 <= length (Dict.keys g0))%nat; [|lia].
    destruct (Dict.keys g0); [by apply elem_of_nil in Hv|simpl; lia].
  - exists g', l. split; [done|]. split; [done|]. split; [done|].
    intros x. split; [apply Hreach|]. by apply closed_reach.
Qed.

Lemma remove_all_spec l :
  forall vertices,
    NoDup vertices -> NoDup l -> (forall x, x ∈ l -> x ∈ vertices) ->
    exists vs, remove_all vertices l = Ok vs /\ NoDup vs /\
      forall x, x ∈ vs <-> x ∈ vertices /\ x ∉ l.
Proof.
  induction l as [|c l IH]; intros vertices Hnd Hl Hsub; simpl.
  - exists vertices. split; [done|]. split; [done|]. intros x.
    split; [intros ?; split; [done|apply not_elem_of_nil]|by intros [? _]].
  - apply NoDup_cons in Hl as [Hc Hl].
    rewrite (remove_filter c vertices Hnd) by (apply Hsub; left). simpl.
    destruct (IH (filter (fun y => y <> c) vertices)) as (vs & -> & Hvs & Hiff).
    + by apply NoDup_filter.
    + done.
    + intros x Hx. apply list_elem_of_filter. split; [by intros ->|]. apply Hsub. by right.
    + exists vs. split; [done|]. split; [done|]. intros x.
      rewrite Hiff, list_elem_of_filter, not_elem_of_cons. tauto.
Qed.

Lemma isolated_reach v x : neighbors g0 v = [] -> reach g0 v x -> x = v.
Proof.
  intros Hnil. induction 1 as [|x y _ IH Hy]; [done|]. subst x.
  rewrite Hnil in Hy. by apply elem_of_nil in Hy.
Qed.

(** The invariant of the [while] loop: [vertices] is a union of whole
    components, and [count] counts the others, one vertex each. *)
Definition count_inv (g : adj) (vertices : list string) (count : Z) : Prop :=
  same_graph g0 g /\ NoDup vertices /\
  (forall x, x ∈ vertices -> x ∈ Dict.keys g0) /\
  (forall x y, x ∈ vertices -> reach g0 x y -> y ∈ vertices) /\
  exists reps,
    Z.of_nat (length reps) = count /\ NoDup reps /\
    (forall r, r ∈ reps -> r ∈ Dict.keys g0 /\ r ∉ vertices) /\
    (forall v, v ∈ Dict.keys g0 -> v ∉ vertices -> exists r, r ∈ reps /\ reach g0 r v) /\
    (forall r r', r ∈ reps -> r' ∈ reps -> reach g0 r r' -> r = r').

(** Taking the component [l] of the first vertex out of [vertices] *)
Lemma count_inv_step g g' vertex rest count (l vs : list string) :
  count_inv g (vertex :: rest) count ->
  same_graph g0 g' ->
  (forall x, x ∈ l <-> reach g0 vertex x) ->
  NoDup vs -> (forall x, x ∈ vs <-> x ∈ vertex :: rest /\ x ∉ l) ->
  count_inv g' vs (count + 1) /\ (length vs < length (vertex :: rest))%nat.
Proof.
  intros (_ & Hnd & Hkeys & Hclosed & reps & Hlen & Hndr & Hout & Hcover & Hapart)
    Hsame Hl Hvs Hiff.
  assert (vertex ∈ l) as Hvl by (apply Hl; constructor).
  assert (vertex ∉ vs) as Hvvs by (rewrite Hiff; tauto).
  split.
  - split; [done|]. split; [done|]. split; [|split].
    + intros x Hx. apply Hkeys. by apply Hiff in Hx as [? _].
    + intros x y Hx Hxy. apply Hiff in Hx as [Hx Hxl]. apply Hiff.
      split; [by eapply Hclosed|]. intros Hy. apply Hxl, Hl.
      apply Hl in Hy. eapply reach_trans; [done|]. by eapply reach_sym.
    + exists (vertex :: reps). split; [simpl length; lia|]. split; [|split; [|split]].
      * apply NoDup_cons. split; [|done]. intros Hin. apply Hout in Hin as [_ Hin].
        apply Hin. left.
      * intros r [->|Hr]%elem_of_cons; [split; [apply Hkeys; left|done]|].
        destruct (Hout r Hr) as [? Hnot]. split; [done|]. rewrite Hiff. tauto.
      * intros v Hv Hnot. destruct (decide (v ∈ l)) as [Hvl'|Hvl'].
        -- exists vertex. split; [left|by apply Hl].
        -- destruct (Hcover v Hv) as (r & Hr & Hrv).
           { intros Hin. apply Hnot, Hiff. done. }
           exists r. split; [by right|done].
      * intros r r' [->|Hr]%elem_of_cons [->|Hr']%elem_of_cons Hreach; [done| | |by apply Hapart].
        -- destruct (Hout r' Hr') as [_ Hnot]. destruct Hnot.
           eapply Hclosed; [|done]. left.
        -- destruct (Hout r Hr) as [_ Hnot]. destruct Hnot.
           eapply Hclosed; [|by eapply reach_sym]. left.
  - pose proof (NoDup_incl_length (vertex :: vs) (vertex :: rest)) as Hle.
    simpl in *. unfold lt. apply Hle.
    + by apply NoDup_cons.
    + intros x [->|Hx]%elem_of_cons; [left|]. by apply Hiff in Hx as [? _].
Qed.

Lemma count_loop_spec bound dfs :
  dfs_ok g0 bound dfs ->
  forall fuel g vertices count,
    count_inv g vertices count ->
    (length vertices + bound < fuel)%nat ->
    exists g' n, count_loop dfs fuel g vertices count = Ok (g', n) /\ component_count g0 n.
Proof.
  intros Hdfs. induction fuel as [|fuel IH]; intros g vertices count Hinv Hfuel; [lia|].
  cbn [count_loop]. destruct vertices as [|vertex rest].
  - exists g, count. split; [done|].
    destruct Hinv as (_ & _ & _ & _ & reps & Hlen & Hndr & Hout & Hcover & Hapart).
    exists reps. split; [done|]. split; [done|]. split; [intros r Hr; by apply Hout|].
    split; [|done]. intros v Hv. apply Hcover; [done|apply not_elem_of_nil].
  - pose proof Hinv as (Hsame & Hnd & Hkeys & Hclosed & _).
    assert (vertex ∈ Dict.keys g0) as Hv by (apply Hkeys; left).
    rewrite (get_neighbors g vertex) by (by eapply same_graph_has).
    cbn [mbind res_mbind res_bind].
    destruct (length (neighbors g vertex) =? 0)%nat eqn:Elen.
    + apply Nat.eqb_eq, nil_length_inv in Elen.
      assert (neighbors g0 vertex = []) as Hnil.
      { destruct Hsame as [_ HN]. apply Permutation_nil_r. by rewrite <- HN, Elen. }
      cbn [Py.remove]. rewrite decide_True by done. cbn [mbind res_mbind res_bind].
      apply NoDup_cons in Hnd as Hnd'. destruct Hnd' as [Hvr Hrest].
      destruct (count_inv_step g g vertex rest count [vertex] rest) as [Hinv' Hlt];
        try done.
      * intros x. rewrite list_elem_of_singleton. split; [intros ->; constructor|].
        by apply isolated_reach.
      * intros x. rewrite elem_of_cons, list_elem_of_singleton. split.
        -- intros Hx. split; [by right|]. by intros ->.
        -- intros [[->|Hx] Hne]; done.
      * apply IH; [done|]. simpl in *. lia.
    + destruct (Hdfs (S fuel) g vertex Hsame Hv) as (g' & l & -> & Hsame' & Hndl & Hl); [lia|].
      cbn [mbind res_mbind res_bind fst snd].
      destruct (remove_all_spec l (vertex :: rest) Hnd Hndl) as (vs & -> & Hndvs & Hiff).
      { intros x Hx. eapply Hclosed; [left|]. by apply Hl. }
      cbn [mbind res_mbind res_bind].
      destruct (count_inv_step g g' vertex rest count l vs) as [Hinv' Hlt]; try done.
      apply IH; [done|]. simpl in *. lia.
Qed.

Lemma count_inv_init : count_inv g0 (Dict.keys g0) 0.
Proof.
  split; [by split|]. split; [apply Hwf|]. split; [done|]. split.
  - intros x y Hx Hxy. by eapply reach_key.
  - exists []. split; [done|]. split; [apply NoDup_nil_2|].
    split; [by intros r ?%elem_of_nil|]. split; [done|]. by intros r r' ?%elem_of_nil.
Qed.

Lemma count_components_spec bound dfs fuel :
  dfs_ok g0 bound dfs ->
  (length (Dict.keys g0) + bound < fuel)%nat ->
  exists g' n,
    count_loop dfs fuel g0 (get_vertices g0) 0 = Ok (g', n) /\ component_count g0 n.
Proof.
  intros Hdfs Hfuel. eapply count_loop_spec; [done|apply count_inv_init|done].
Qed.
End CountComponents.

(** The count of components is a property of the graph: two families of
    representatives have the same size. *)
Section ComponentCountUnique.
Import Undirected.

Lemma matched_length (R : string -> string -> Prop) (reps : list string) :
  forall reps' : list string,
    NoDup reps ->
    (forall r, r ∈ reps -> exists r', r' ∈ reps' /\ R r r') ->
    (forall r1 r2 r', r1 ∈ reps -> r2 ∈ reps -> R r1 r' -> R r2 r' -> r1 = r2) ->
    (length reps <= length reps')%nat.
Proof.
  induction reps as [|r reps IH]; intros reps' Hnd Hall Hinj; [simpl; lia|].
  apply NoDup_cons in Hnd as [Hr Hnd].
  destruct (Hall r) as (r' & Hr' & HR); [left|].
  apply elem_of_Permutation in Hr' as [rest Hperm].
  rewrite Hperm. simpl. apply le_n_S. apply IH; [done| |].
  - intros r2 Hr2. destruct (Hall r2) as (r2' & Hr2' & HR2); [by right|].
    exists r2'. split; [|done]. rewrite Hperm in Hr2'.
    apply elem_of_cons in Hr2' as [->|?]; [|done].
    destruct Hr. rewrite (Hinj r r2 r'); try done; [left|by right].
  - intros r1 r2 r0 Hr1 Hr2. apply Hinj; by right.
Qed.

Lemma component_count_le g n m :
  wf g -> component_count g n -> component_count g m -> n <= m.
Proof.
  intros Hwf (reps & <- & Hnd & Hkeys & _ & Hapart) (reps' & <- & _ & _ & Hcover' & _).
  apply inj_le, (matched_length (fun r r' => reach g r' r)); [done| |].
  - intros r Hr. by apply Hcover', Hkeys.
  - intros r1 r2 r' Hr1 Hr2 H1 H2. apply Hapart; [done..|].
    eapply reach_trans; [|done]. by eapply reach_sym.
Qed.

Lemma component_count_unique g n m :
  wf g -> component_count g n -> component_count g m -> m = n.
Proof.
  intros Hwf Hn Hm.
  pose proof (component_count_le g n m Hwf Hn Hm).
  pose proof (component_count_le g m n Hwf Hm Hn). lia.
Qed.
End ComponentCountUnique.

(** C9. On a graph of either class (unique keys, symmetric neighbour lists
    without repetition or loop, which is what the mutators keep true),
    [count_connected_components] returns, given fuel above three times the
    number of vertices, the number of connected components: some vertices,
    as many as the count, no two of them connected, are such that every
    vertex, isolated or not, is connected to one of them. *)
Theorem C9_count_connected_components (g : Undirected.adj) (fuel : nat) :
  Undirected.wf g ->
  (3 * length (Undirected.get_vertices g) < fuel)%nat ->
  (exists g' n,
     UndirectedRec.count_connected_components fuel g = Ok (g', n) /\
     Undirected.component_count g n /\
     forall m, Undirected.component_count g m -> m = n) /\
  (exists g' n,
     UndirectedIter.count_connected_components fuel g = Ok (g', n) /\
     Undirected.component_count g n /\
     forall m, Undirected.component_count g m -> m = n).
Proof.
  intros Hwf Hfuel. unfold Undirected.get_vertices in Hfuel. split.
  - destruct (count_components_spec g Hwf (length (Dict.keys g)) UndirectedRec.dfs fuel)
      as (g' & n & Hrun & Hn); [by apply rec_dfs_ok|lia|].
    exists g', n. split; [done|]. split; [done|].
    intros m Hm. by eapply component_count_unique.
  - destruct (count_components_spec g Hwf (2 * length (Dict.keys g)) UndirectedIter.dfs fuel)
      as (g' & n & Hrun & Hn); [by apply iter_dfs_ok|lia|].
    exists g', n. split; [done|]. split; [done|].
    intros m Hm. by eapply component_count_unique.
Qed.

(** The graph with the vertices A, B and C and the single edge A-B has two
    components, and both classes count two. *)
Lemma C9_count_connected_components_witness :
  exists g,
    Undirected.run_ops Undirected.empty
      [Undirected.AddEdge "A" "B"; Undirected.AddVertex "C"] = Ok g /\
    (exists g', UndirectedRec.count_connected_components 10 g = Ok (g', 2)) /\
    (exists g', UndirectedIter.count_connected_components 10 g = Ok (g', 2)) /\
    Undirected.component_count g 2.
Proof.
  destruct (wf_run_ops [Undirected.AddEdge "A" "B"; Undirected.AddVertex "C"]
              Undirected.empty wf_empty) as (g & Hg & Hwf).
  exists g. split; [exact Hg|].
  assert (g = [("A", ["B"]); ("B", ["A"]); ("C", [])]%string) as Eg.
  { pose proof Hg as Hg'. vm_compute in Hg'. by injection Hg' as <-. }
  destruct (C9_count_connected_components g 10 Hwf) as [(g1 & n1 & H1 & Hc1 & _) (g2 & n2 & H2 & Hc2 & _)].
  { rewrite Eg. simpl. lia. }
  assert (n1 = 2) as ->.
  { pose proof H1 as H1'. rewrite Eg in H1'. vm_compute in H1'. by injection H1' as _ <-. }
  assert (n2 = 2) as ->.
  { pose proof H2 as H2'. rewrite Eg in H2'. vm_compute in H2'. by injection H2' as _ <-. }
  split; [by exists g1|]. split; [by exists g2|]. exact Hc1.
Defined.

(** * Further properties of the code *)

(** ** [DirectedGraph]: the mutators *)

Section DirectedMutators.
Import Directed.
Implicit Types (g : DirectedGraph) (a b s d : nat) (w : Z).

Lemma setitem_of_nat {A} (l : list A) i x :
  (i < length l)%nat -> Py.setitem l (Z.of_nat i) x = Ok (<[i := x]> l).
Proof.
  intros Hi. unfold Py.setitem.
  destruct (Z.of_nat i <? 0) eqn:E; [apply Z.ltb_lt in E; lia|].
  rewrite (proj2 (Z.leb_le _ _)) by lia. rewrite (proj2 (Z.ltb_lt _ _)) by lia.
  simpl. by rewrite Nat2Z.id.
Qed.

Lemma in_range_nat g v :
  in_range g v = true -> exists a, v = Z.of_nat a /\ (a < v_count g)%nat.
Proof.
  unfold in_range. intros [H0 H1]%andb_true_iff.
  apply Z.leb_le in H0. apply Z.ltb_lt in H1. exists (Z.to_nat v). lia.
Qed.

Lemma in_range_of_nat g a : in_range g (Z.of_nat a) = bool_decide (a < v_count g)%nat.
Proof.
  unfold in_range. rewrite (proj2 (Z.leb_le _ _)) by lia. simpl.
  case_bool_decide; [apply Z.ltb_lt|apply Z.ltb_ge]; lia.
Qed.

(** Outside the matrix there is no edge. *)
Lemma weight_outside g a b :
  wf_graph g -> (v_count g <= a)%nat \/ (v_count g <= b)%nat -> weight g a b = 0.
Proof.
  intros [Hlen Hrows] Hab. unfold weight.
  destruct (adj_matrix g !! a) as [row|] eqn:Ea; simpl; [|done].
  rewrite Forall_forall in Hrows. destruct (Hrows row) as [Hrow _].
  { by eapply list_elem_of_lookup_2. }
  apply lookup_lt_Some in Ea. rewrite lookup_ge_None_2; [done|lia].
Qed.

(** [self.adj_matrix[s][d] = w] changes the cell and nothing else. *)
Lemma set_cell_spec g s d w :
  wf_graph g -> (s < v_count g)%nat -> (d < v_count g)%nat -> 0 <= w ->
  exists g', set_cell g (Z.of_nat s) (Z.of_nat d) w = Ok g' /\
    wf_graph g' /\ v_count g' = v_count g /\
    forall a b, weight g' a b = if decide (a = s /\ b = d) then w else weight g a b.
Proof.
  intros Hwf Hs Hd Hw. pose proof Hwf as [Hlen Hrows].
  destruct (lookup_lt_is_Some_2 (adj_matrix g) s) as [row Hrow]; [lia|].
  assert (length row = v_count g) as Hrowlen.
  { rewrite Forall_forall in Hrows. apply Hrows. by eapply list_elem_of_lookup_2. }
  assert (set_cell g (Z.of_nat s) (Z.of_nat d) w =
          Ok (mkGraph (v_count g) (<[s := <[d := w]> row]> (adj_matrix g)))) as Hrun.
  { unfold set_cell. rewrite (index_of_nat _ _ _ Hrow). simpl.
    rewrite setitem_of_nat by lia. simpl. rewrite setitem_of_nat by lia. done. }
  eexists. split; [exact Hrun|]. split; [by eapply wf_graph_set_cell|]. split; [done|].
  intros a b. unfold weight. simpl. destruct (decide (a = s)) as [->|Hne].
  - rewrite list_lookup_insert_eq by lia. rewrite Hrow. simpl.
    destruct (decide (b = d)) as [->|Hne'].
    + rewrite decide_True by done. rewrite list_lookup_insert_eq by lia. done.
    + rewrite decide_False by tauto. by rewrite list_lookup_insert_ne.
  - rewrite decide_False by tauto. by rewrite list_lookup_insert_ne.
Qed.

(** The arguments [add_edge] and [remove_edge] accept *)
Definition edge_args_ok (g : DirectedGraph) (src dst : Z) : bool :=
  in_range g src && in_range g dst && negb (src =? dst).

Lemma add_edge_spec g src dst w :
  wf_graph g ->
  exists g', add_edge g src dst w = Ok g' /\
    wf_graph g' /\ v_count g' = v_count g /\
    forall a b,
      weight g' a b =
      if edge_args_ok g src dst && (0 <=? w)
         && bool_decide (Z.of_nat a = src /\ Z.of_nat b = dst)
      then w else weight g a b.
Proof.
  intros Hwf. unfold add_edge, edge_args_ok.
  destruct (in_range g src) eqn:Es; simpl;
    [|exists g; split; [done|]; split; [done|]; split; done].
  destruct (in_range g dst) eqn:Ed; simpl;
    [|exists g; split; [done|]; split; [done|]; split; done].
  destruct (src =? dst) eqn:Esd; simpl;
    [exists g; split; [done|]; split; [done|]; split; done|].
  destruct (w <? 0) eqn:Ew.
  - apply Z.ltb_lt in Ew. rewrite (proj2 (Z.leb_gt _ _)) by lia. simpl.
    exists g. split; [done|]. split; [done|]. split; done.
  - apply Z.ltb_ge in Ew. rewrite (proj2 (Z.leb_le _ _)) by lia. simpl.
    apply in_range_nat in Es as (s & -> & Hs). apply in_range_nat in Ed as (d & -> & Hd).
    destruct (set_cell_spec g s d w Hwf Hs Hd Ew) as (g' & -> & Hwf' & Hn & Hcell).
    exists g'. split; [done|]. split; [done|]. split; [done|].
    intros a b. rewrite Hcell. destruct (decide (a = s /\ b = d)) as [[-> ->]|Hne].
    + by rewrite bool_decide_eq_true_2.
    + rewrite bool_decide_eq_false_2; [done|]. intros [?%Nat2Z.inj ?%Nat2Z.inj]. tauto.
Qed.

Lemma remove_edge_spec g src dst :
  wf_graph g ->
  exists g', remove_edge g src dst = Ok g' /\
    wf_graph g' /\ v_count g' = v_count g /\
    forall a b,
      weight g' a b =
      if edge_args_ok g src dst && bool_decide (Z.of_nat a = src /\ Z.of_nat b = dst)
      then 0 else weight g a b.
Proof.
  intros Hwf. unfold remove_edge, edge_args_ok.
  destruct (in_range g src) eqn:Es; simpl;
    [|exists g; split; [done|]; split; [done|]; split; done].
  destruct (in_range g dst) eqn:Ed; simpl;
    [|exists g; split; [done|]; split; [done|]; split; done].
  destruct (src =? dst) eqn:Esd; simpl;
    [exists g; split; [done|]; split; [done|]; split; done|].
  apply in_range_nat in Es as (s & -> & Hs). apply in_range_nat in Ed as (d & -> & Hd).
  destruct (set_cell_spec g s d 0 Hwf Hs Hd) as (g' & -> & Hwf' & Hn & Hcell); [lia|].
  exists g'. split; [done|]. split; [done|]. split; [done|].
  intros a b. rewrite Hcell. destruct (decide (a = s /\ b = d)) as [[-> ->]|Hne].
  - by rewrite bool_decide_eq_true_2.
  - rewrite bool_decide_eq_false_2; [done|]. intros [?%Nat2Z.inj ?%Nat2Z.inj]. tauto.
Qed.
End DirectedMutators.

Section DirectedSequences.
Import Directed.

(** [add_vertex] adds a vertex without edges: no weight changes. *)
Lemma add_vertex_weight g a b :
  wf_graph g -> weight (add_vertex g) a b = weight g a b.
Proof.
  intros Hwf. pose proof Hwf as [Hlen Hrows].
  destruct (decide (a < v_count g /\ b < v_count g)%nat) as [[Ha Hb]|Hout].
  - unfold weight, add_vertex. simpl. rewrite list_lookup_fmap.
    rewrite lookup_app_l by lia.
    destruct (adj_matrix g !! a) as [row|] eqn:Ea; simpl; [|done].
    rewrite lookup_app_l; [done|].
    rewrite Forall_forall in Hrows. destruct (Hrows row) as [-> _]; [|done].
    by eapply list_elem_of_lookup_2.
  - rewrite (weight_outside g a b Hwf) by lia.
    unfold weight, add_vertex. simpl. rewrite list_lookup_fmap.
    destruct ((adj_matrix g ++ [replicate (v_count g) 0]) !! a) as [row|] eqn:Ea;
      simpl; [|done].
    destruct ((row ++ [0]) !! b) as [w|] eqn:Eb; simpl; [|done].
    apply lookup_app_Some in Ea as [Ea|[Hge Ea]].
    + rewrite Forall_forall in Hrows. destruct (Hrows row) as [Hrow _].
      { by eapply list_elem_of_lookup_2. }
      apply lookup_lt_Some in Ea.
      apply lookup_app_Some in Eb as [Eb|[_ Eb]].
      * apply lookup_lt_Some in Eb. lia.
      * apply list_lookup_singleton_Some in Eb as [_ <-]. done.
    + apply list_lookup_singleton_Some in Ea as [_ <-].
      apply lookup_app_Some in Eb as [Eb|[_ Eb]].
      * by apply lookup_replicate in Eb as [-> _].
      * apply list_lookup_singleton_Some in Eb as [_ <-]. done.
Qed.

(** A call of one of the three mutators, and a sequence of calls *)
Inductive dop : Type :=
| DAddVertex
| DAddEdge (src dst weight : Z)
| DRemoveEdge (src dst : Z).

Definition run_dop (g : DirectedGraph) (o : dop) : res DirectedGraph :=
  match o with
  | DAddVertex => Ok (add_vertex g)
  | DAddEdge src dst w => add_edge g src dst w
  | DRemoveEdge src dst => remove_edge g src dst
  end.

Fixpoint run_dops (g : DirectedGraph) (os : list dop) : res DirectedGraph :=
  match os with
  | [] => Ok g
  | o :: os' => g' ← run_dop g o; run_dops g' os'
  end.

#[global] Instance dop_eq_dec : EqDecision dop.
Proof. solve_decision. Defined.

Definition added_vertices (os : list dop) : nat :=
  length (filter (fun o => o = DAddVertex) os).

(** The shape the mutators keep: a square matrix without negative entry
    and with a zero diagonal. *)
Definition simple_graph (g : DirectedGraph) : Prop :=
  wf_graph g /\ forall v, weight g v v = 0.

Lemma simple_empty : simple_graph empty.
Proof. split; [apply wf_graph_empty|]. intros v. by destruct v. Qed.

Lemma simple_add_vertex g : simple_graph g -> simple_graph (add_vertex g).
Proof.
  intros [Hwf Hdiag]. split; [by apply wf_graph_add_vertex|].
  intros v. by rewrite add_vertex_weight.
Qed.

Lemma edge_args_diag g src dst a :
  edge_args_ok g src dst && bool_decide (Z.of_nat a = src /\ Z.of_nat a = dst) = false.
Proof.
  unfold edge_args_ok. case_bool_decide as H; [|by rewrite andb_false_r].
  destruct H as [<- <-]. rewrite Z.eqb_refl. simpl. by rewrite !andb_false_r.
Qed.

Lemma simple_add_edge g src dst w :
  simple_graph g ->
  exists g', add_edge g src dst w = Ok g' /\ simple_graph g' /\ v_count g' = v_count g.
Proof.
  intros [Hwf Hdiag]. destruct (add_edge_spec g src dst w Hwf) as (g' & Hrun & Hwf' & Hn & Hcell).
  exists g'. split; [done|]. split; [|done]. split; [done|].
  intros v. rewrite Hcell.
  rewrite <- andb_assoc, (andb_comm (0 <=? w)), andb_assoc, edge_args_diag. simpl. apply Hdiag.
Qed.

Lemma simple_remove_edge g src dst :
  simple_graph g ->
  exists g', remove_edge g src dst = Ok g' /\ simple_graph g' /\ v_count g' = v_count g.
Proof.
  intros [Hwf Hdiag]. destruct (remove_edge_spec g src dst Hwf) as (g' & Hrun & Hwf' & Hn & Hcell).
  exists g'. split; [done|]. split; [|done]. split; [done|].
  intros v. rewrite Hcell, edge_args_diag. apply Hdiag.
Qed.

Lemma simple_run_dops os :
  forall g, simple_graph g ->
    exists g', run_dops g os = Ok g' /\ simple_graph g' /\
      v_count g' = (v_count g + added_vertices os)%nat.
Proof.
  unfold added_vertices.
  induction os as [|o os IH]; intros g Hg; cbn [run_dops].
  - exists g. split; [done|]. split; [done|]. simpl. lia.
  - destruct o as [|src dst w|src dst]; cbn [run_dop mbind res_mbind res_bind].
    + destruct (IH (add_vertex g)) as (g' & -> & Hg' & Hn); [by apply simple_add_vertex|].
      exists g'. split; [done|]. split; [done|].
      rewrite filter_cons_True by done. simpl in *. lia.
    + destruct (simple_add_edge g src dst w Hg) as (g1 & -> & Hg1 & Hn1). simpl.
      destruct (IH g1 Hg1) as (g' & -> & Hg' & Hn).
      exists g'. split; [done|]. split; [done|].
      rewrite filter_cons_False by done. lia.
    + destruct (simple_remove_edge g src dst Hg) as (g1 & -> & Hg1 & Hn1). simpl.
      destruct (IH g1 Hg1) as (g' & -> & Hg' & Hn).
      exists g'. split; [done|]. split; [done|].
      rewrite filter_cons_False by done. lia.
Qed.

Lemma simple_add_edges es :
  forall g, simple_graph g ->
    exists g', add_edges g es = Ok g' /\ simple_graph g' /\ v_count g' = v_count g.
Proof.
  induction es as [|[[u v] w] es IH]; intros g Hg; simpl; [by exists g|].
  destruct (simple_add_edge g u v w Hg) as (g1 & -> & Hg1 & Hn1). simpl.
  destruct (IH g1 Hg1) as (g' & -> & Hg' & Hn). exists g'. split; [done|]. split; [done|]. lia.
Qed.

Lemma iter_add_vertex n :
  simple_graph (Nat.iter n add_vertex empty) /\ v_count (Nat.iter n add_vertex empty) = n.
Proof.
  induction n as [|n [IH Hn]]; simpl; [split; [apply simple_empty|done]|].
  split; [by apply simple_add_vertex|]. by rewrite Hn.
Qed.

(** The largest vertex id of the start edges, as [__init__] computes it *)
Definition top_id (es : list (Z * Z * Z)) : Z :=
  fold_left (fun m '(u, v, _) => Z.max (Z.max m u) v) es 0.

Lemma simple_init es :
  exists g, init es = Ok g /\ simple_graph g /\ v_count g = Z.to_nat (top_id es + 1).
Proof.
  unfold init. fold (top_id es).
  destruct (iter_add_vertex (Z.to_nat (top_id es + 1))) as [Hs Hn].
  destruct (simple_add_edges es _ Hs) as (g & Hrun & Hg & Hn').
  exists g. split; [done|]. split; [done|]. by rewrite Hn'.
Qed.
End DirectedSequences.

(** X1. Whatever the start edges and whatever calls of [add_vertex],
    [add_edge] and [remove_edge] follow, no call raises, the matrix stays
    square with one row per vertex and no negative entry, no vertex has an
    edge to itself, and the vertex count is the initial one plus the number
    of [add_vertex] calls. *)
Theorem directed_mutators_keep_shape :
  forall start_edges ops,
    exists g0 g,
      Directed.init start_edges = Ok g0 /\
      run_dops g0 ops = Ok g /\
      Directed.wf_graph g /\
      (forall v, Directed.weight g v v = 0) /\
      Directed.v_count g = (Directed.v_count g0 + added_vertices ops)%nat.
Proof.
  intros es ops. destruct (simple_init es) as (g0 & Hg0 & Hs0 & _).
  destruct (simple_run_dops ops g0 Hs0) as (g & Hg & [Hwf Hdiag] & Hn).
  by exists g0, g.
Qed.

Section DirectedWitnessGraph.
Lemma example_graph_wf : Directed.wf_graph Directed.example_graph.
Proof. apply (wf_graph_init Directed.example_edges). reflexivity. Qed.
End DirectedWitnessGraph.

(** X2. On a well-shaped graph [add_edge(src, dst, weight)] never raises and
    keeps the shape and the vertex count.  If both ids are in range and
    differ and the weight is not negative, the cell [(src, dst)] holds the
    weight afterwards, overwriting what was there; otherwise nothing changes.
    No other cell changes in either case. *)
Theorem directed_add_edge_effect (g : Directed.DirectedGraph) (src dst w : Z) :
  Directed.wf_graph g ->
  exists g',
    Directed.add_edge g src dst w = Ok g' /\
    Directed.wf_graph g' /\ Directed.v_count g' = Directed.v_count g /\
    (Directed.in_range g src = true -> Directed.in_range g dst = true ->
     src <> dst -> 0 <= w ->
     Directed.weight g' (Z.to_nat src) (Z.to_nat dst) = w) /\
    (Directed.in_range g src = false \/ Directed.in_range g dst = false \/
     src = dst \/ w < 0 -> g' = g) /\
    (forall a b, (Z.of_nat a <> src \/ Z.of_nat b <> dst) ->
       Directed.weight g' a b = Directed.weight g a b).
Proof.
  intros Hwf. destruct (add_edge_spec g src dst w Hwf) as (g' & Hrun & Hwf' & Hn & Hcell).
  exists g'. split; [done|]. split; [done|]. split; [done|]. split; [|split].
  - intros Hs Hd Hne Hw. rewrite Hcell. unfold edge_args_ok. rewrite Hs, Hd.
    rewrite (proj2 (Z.eqb_neq _ _) Hne), (proj2 (Z.leb_le _ _) Hw). simpl.
    apply in_range_nat in Hs as (s & -> & _).
    apply in_range_nat in Hd as (d & -> & _).
    rewrite !Nat2Z.id. by rewrite bool_decide_eq_true_2.
  - intros Hbad. unfold Directed.add_edge in Hrun.
    destruct Hbad as [Hb|[Hb|[Hb|Hw]]].
    + rewrite Hb in Hrun. simpl in Hrun. by injection Hrun.
    + rewrite Hb in Hrun. rewrite orb_true_r in Hrun. by injection Hrun.
    + rewrite Hb, Z.eqb_refl in Hrun. destruct (_ || _); by injection Hrun.
    + rewrite (proj2 (Z.ltb_lt _ _) Hw) in Hrun.
      destruct (_ || _); [by injection Hrun|]. destruct (src =? dst); by injection Hrun.
  - intros a b Hab. rewrite Hcell. rewrite bool_decide_eq_false_2 by tauto.
    by rewrite andb_false_r.
Qed.

Lemma directed_add_edge_effect_witness :
  exists g',
    Directed.add_edge Directed.example_graph 0 2 9 = Ok g' /\
    Directed.weight g' 0 2 = 9 /\ Directed.weight g' 0 1 = 10.
Proof.
  destruct (directed_add_edge_effect Directed.example_graph 0 2 9 example_graph_wf)
    as (g' & Hrun & _ & _ & Hset & _ & Hother).
  exists g'. split; [exact Hrun|]. split.
  - apply Hset; [reflexivity|reflexivity|lia|lia].
  - rewrite (Hother 0%nat 1%nat); [reflexivity|]. right. simpl. lia.
Defined.

(** X3. On a graph of the shape the mutators keep, [add_edge(src, dst,
    weight)] followed by [remove_edge(src, dst)] never raises, whatever the
    arguments, leaves no edge from [src] to [dst], and leaves every other
    cell as it was before the two calls. *)
Theorem directed_add_remove_round_trip (g : Directed.DirectedGraph) (src dst w : Z) :
  simple_graph g ->
  exists g1 g2,
    Directed.add_edge g src dst w = Ok g1 /\
    Directed.remove_edge g1 src dst = Ok g2 /\
    simple_graph g2 /\
    (forall a b, Z.of_nat a = src -> Z.of_nat b = dst -> Directed.weight g2 a b = 0) /\
    (forall a b, (Z.of_nat a <> src \/ Z.of_nat b <> dst) ->
       Directed.weight g2 a b = Directed.weight g a b).
Proof.
  intros Hs. pose proof Hs as [Hwf Hdiag].
  destruct (simple_add_edge g src dst w Hs) as (g1 & Hrun1 & Hs1 & Hn1).
  destruct (add_edge_spec g src dst w Hwf) as (g1' & Hrun1' & _ & _ & Hcell1).
  rewrite Hrun1 in Hrun1'. injection Hrun1' as <-.
  destruct (simple_remove_edge g1 src dst Hs1) as (g2 & Hrun2 & Hs2 & Hn2).
  destruct (remove_edge_spec g1 src dst (proj1 Hs1)) as (g2' & Hrun2' & _ & _ & Hcell2).
  rewrite Hrun2 in Hrun2'. injection Hrun2' as <-.
  exists g1, g2. split; [done|]. split; [done|]. split; [done|]. split.
  - intros a b <- <-. rewrite Hcell2, Hcell1.
    rewrite !bool_decide_eq_true_2 by done. rewrite !andb_true_r.
    assert (edge_args_ok g1 (Z.of_nat a) (Z.of_nat b) = edge_args_ok g (Z.of_nat a) (Z.of_nat b)) as ->.
    { unfold edge_args_ok, Directed.in_range. by rewrite Hn1. }
    destruct (edge_args_ok g (Z.of_nat a) (Z.of_nat b)) eqn:E; [done|]. simpl.
    unfold edge_args_ok in E. rewrite !in_range_of_nat in E.
    destruct (decide (a = b)) as [->|Hne]; [apply Hdiag|].
    rewrite (proj2 (Z.eqb_neq _ _)) in E by lia. rewrite andb_true_r in E.
    apply andb_false_iff in E. apply weight_outside; [done|].
    destruct E as [E|E]; apply bool_decide_eq_false in E; lia.
  - intros a b Hab. rewrite Hcell2, Hcell1.
    rewrite !bool_decide_eq_false_2 by tauto. by rewrite !andb_false_r.
Qed.

Lemma directed_add_remove_round_trip_witness :
  exists g1 g2,
    Directed.add_edge Directed.example_graph 0 2 9 = Ok g1 /\
    Directed.remove_edge g1 0 2 = Ok g2 /\
    Directed.weight g2 0 2 = 0 /\ Directed.weight g2 4 3 = 3.
Proof.
  destruct (directed_add_remove_round_trip Directed.example_graph 0 2 9)
    as (g1 & g2 & H1 & H2 & _ & Hgone & Hother).
  - destruct (simple_init Directed.example_edges) as (g & Hg & Hs & _).
    assert (g = Directed.example_graph) as <-; [|exact Hs].
    pose proof Hg as Hg'. vm_compute in Hg'. by injection Hg' as <-.
  - exists g1, g2. split; [exact H1|]. split; [exact H2|]. split.
    + by apply Hgone.
    + rewrite (Hother 4%nat 3%nat); [reflexivity|]. left. simpl. lia.
Defined.

(** X4. [add_vertex] on a well-shaped graph raises the vertex count by one,
    keeps the shape and every weight, and the new vertex has no edge to or
    from any vertex. *)
Theorem directed_add_vertex_isolated (g : Directed.DirectedGraph) :
  Directed.wf_graph g ->
  Directed.wf_graph (Directed.add_vertex g) /\
  Directed.v_count (Directed.add_vertex g) = S (Directed.v_count g) /\
  (forall a b, Directed.weight (Directed.add_vertex g) a b = Directed.weight g a b) /\
  (forall a,
     Directed.weight (Directed.add_vertex g) a (Directed.v_count g) = 0 /\
     Directed.weight (Directed.add_vertex g) (Directed.v_count g) a = 0).
Proof.
  intros Hwf. split; [by apply wf_graph_add_vertex|]. split; [done|]. split.
  - intros a b. by apply add_vertex_weight.
  - intros a. rewrite !add_vertex_weight by done.
    split; apply weight_outside; try done; lia.
Qed.

Lemma directed_add_vertex_isolated_witness :
  Directed.v_count (Directed.add_vertex Directed.example_graph) = 6%nat /\
  Directed.weight (Directed.add_vertex Directed.example_graph) 4 0 = 12 /\
  Directed.weight (Directed.add_vertex Directed.example_graph) 5 0 = 0.
Proof.
  destruct (directed_add_vertex_isolated Directed.example_graph example_graph_wf)
    as (_ & Hn & Hkeep & Hnew).
  split; [exact Hn|]. split.
  - rewrite Hkeep. reflexivity.
  - apply (Hnew 0%nat).
Defined.

(** ** [DirectedGraph]: [get_edges] and [is_valid_path] *)

Section DirectedQueries.
Import Directed.
Variable g : DirectedGraph.
Hypothesis Hwf : wf_graph g.

Lemma cell_weight a b :
  (a < v_count g)%nat -> (b < v_count g)%nat ->
  cell g (Z.of_nat a) (Z.of_nat b) = Ok (weight g a b).
Proof.
  intros Ha Hb. pose proof Hwf as [Hlen Hrows].
  destruct (lookup_lt_is_Some_2 (adj_matrix g) a) as [row Hrow]; [lia|].
  assert (length row = v_count g) as Hrowlen.
  { rewrite Forall_forall in Hrows. apply Hrows. by eapply list_elem_of_lookup_2. }
  destruct (lookup_lt_is_Some_2 row b) as [w Hw]; [lia|].
  unfold cell. rewrite (index_of_nat _ _ _ Hrow). simpl.
  rewrite (index_of_nat _ _ _ Hw). unfold weight. rewrite Hrow. simpl. by rewrite Hw.
Qed.

Lemma weight_in_range a b :
  weight g a b <> 0 -> (a < v_count g)%nat /\ (b < v_count g)%nat.
Proof.
  intros Hw. destruct (decide (a < v_count g /\ b < v_count g)%nat) as [?|Hout]; [done|].
  destruct Hw. apply weight_outside; [done|lia].
Qed.

(** The edges out of [s] to the vertices [ds], in the order of [ds] *)
Definition row_edges (s : nat) (ds : list nat) : list (Z * Z * Z) :=
  d ← ds;
  if weight g s d =? 0 then [] else [(Z.of_nat s, Z.of_nat d, weight g s d)].

(** All edges, row by row *)
Definition edge_list : list (Z * Z * Z) :=
  s ← seq 0 (v_count g); row_edges s (seq 0 (v_count g)).

Lemma get_edges_inner s ds r :
  (s < v_count g)%nat -> Forall (fun d => d < v_count g)%nat ds ->
  foldl (fun acc dst =>
           r ← acc; w ← cell g (Z.of_nat s) dst;
           Ok (if w =? 0 then r else r ++ [(Z.of_nat s, dst, w)]))
        (Ok r) (Z.of_nat <$> ds)
  = Ok (r ++ row_edges s ds).
Proof.
  intros Hs. revert r. induction ds as [|d ds IH]; intros r Hds.
  - unfold row_edges. simpl. by rewrite app_nil_r.
  - apply Forall_cons in Hds as [Hd Hds]. csimpl.
    rewrite (cell_weight s d Hs Hd). cbn [mbind res_mbind res_bind].
    destruct (weight g s d =? 0).
    + rewrite IH by done. done.
    + rewrite IH by done. by rewrite <- app_assoc.
Qed.

Lemma get_edges_outer ss r :
  Forall (fun s => s < v_count g)%nat ss ->
  foldl (fun acc src =>
           foldl (fun acc dst =>
                    r ← acc; w ← cell g src dst;
                    Ok (if w =? 0 then r else r ++ [(src, dst, w)]))
                 acc (Py.range (v_count g)))
        (Ok r) (Z.of_nat <$> ss)
  = Ok (r ++ (s ← ss; row_edges s (seq 0 (v_count g)))).
Proof.
  revert r. induction ss as [|s ss IH]; intros r Hss.
  - simpl. by rewrite app_nil_r.
  - apply Forall_cons in Hss as [Hs Hss]. csimpl. unfold Py.range.
    rewrite (get_edges_inner s (seq 0 (v_count g)) r Hs).
    + fold (Py.range (v_count g)). rewrite IH by done. by rewrite <- app_assoc.
    + apply Forall_forall. intros d Hd%elem_of_seq. lia.
Qed.

Lemma get_edges_list : get_edges g = Ok edge_list.
Proof.
  unfold get_edges, edge_list. unfold Py.range at 2.
  rewrite get_edges_outer; [done|].
  apply Forall_forall. intros d Hd%elem_of_seq. lia.
Qed.

Lemma row_edges_elem s ds e :
  e ∈ row_edges s ds <->
  exists d, d ∈ ds /\ weight g s d <> 0 /\ e = (Z.of_nat s, Z.of_nat d, weight g s d).
Proof.
  unfold row_edges. rewrite list_elem_of_bind. split.
  - intros (d & He & Hd). destruct (weight g s d =? 0) eqn:E; [by apply elem_of_nil in He|].
    apply Z.eqb_neq in E. apply list_elem_of_singleton in He. eauto.
  - intros (d & Hd & Hw & ->). exists d. split; [|done].
    rewrite (proj2 (Z.eqb_neq _ _) Hw). apply list_elem_of_singleton. done.
Qed.

Lemma edge_list_elem e :
  e ∈ edge_list <->
  exists s d, weight g s d <> 0 /\ e = (Z.of_nat s, Z.of_nat d, weight g s d).
Proof.
  unfold edge_list. rewrite list_elem_of_bind. split.
  - intros (s & He & Hs). apply row_edges_elem in He as (d & _ & Hw & ->). eauto.
  - intros (s & d & Hw & ->).
    destruct (weight_in_range s d Hw) as [Hs Hd].
    exists s. split; [|apply elem_of_seq; lia].
    apply row_edges_elem. exists d. split; [apply elem_of_seq; lia|done].
Qed.

Lemma row_edges_NoDup s ds : NoDup ds -> NoDup (row_edges s ds).
Proof.
  intros Hnd. unfold row_edges. apply NoDup_bind; [| |done].
  - intros d1 d2 e _ _ H1 H2.
    destruct (weight g s d1 =? 0); [by apply elem_of_nil in H1|].
    destruct (weight g s d2 =? 0); [by apply elem_of_nil in H2|].
    apply list_elem_of_singleton in H1, H2. subst e. injection H2 as ?%Nat2Z.inj _. done.
  - intros d _. destruct (weight g s d =? 0); [apply NoDup_nil_2|apply NoDup_singleton].
Qed.

Lemma edge_list_NoDup : NoDup edge_list.
Proof.
  unfold edge_list. apply NoDup_bind; [| |apply NoDup_seq].
  - intros s1 s2 e _ _ H1 H2.
    apply row_edges_elem in H1 as (d1 & _ & _ & ->).
    apply row_edges_elem in H2 as (d2 & _ & _ & [= ?%Nat2Z.inj _ _]). done.
  - intros s _. apply row_edges_NoDup, NoDup_seq.
Qed.
End DirectedQueries.

(** X5. On a well-shaped graph [get_edges] never raises and returns, row by
    row and column by column, the triples [(src, dst, weight)] of the cells
    that hold a weight other than 0: each edge once, and nothing else. *)
Theorem directed_get_edges_lists_edges (g : Directed.DirectedGraph) :
  Directed.wf_graph g ->
  exists es,
    Directed.get_edges g = Ok es /\
    es = edge_list g /\
    NoDup es /\
    forall s d w,
      (s, d, w) ∈ es <->
      exists a b, s = Z.of_nat a /\ d = Z.of_nat b /\
        w = Directed.weight g a b /\ w <> 0.
Proof.
  intros Hwf. exists (edge_list g). split; [by apply get_edges_list|]. split; [done|].
  split; [by apply edge_list_NoDup|].
  intros s d w. rewrite edge_list_elem by done. split.
  - intros (a & b & Hw & [= -> -> ->]). by exists a, b.
  - intros (a & b & -> & -> & -> & Hw). by exists a, b.
Qed.

Lemma directed_get_edges_lists_edges_witness :
  Directed.get_edges Directed.example_graph =
  Ok [(0, 1, 10); (1, 4, 15); (2, 1, 23); (3, 1, 5); (3, 2, 7); (4, 0, 12); (4, 3, 3)].
Proof.
  destruct (directed_get_edges_lists_edges Directed.example_graph example_graph_wf)
    as (es & Hrun & -> & _).
  exact Hrun.
Defined.

Section DirectedValidPath.
Import Directed.
Variable g : DirectedGraph.
Hypothesis Hwf : wf_graph g.

(** Every vertex of the path but the last has an edge to the next one. *)
Fixpoint edges_ok (path : list Z) : bool :=
  match path with
  | a :: (b :: _) as rest =>
      negb (weight g (Z.to_nat a) (Z.to_nat b) =? 0) && edges_ok rest
  | _ => true
  end.

Lemma cell_in_range a b :
  in_range g a = true -> in_range g b = true ->
  cell g a b = Ok (weight g (Z.to_nat a) (Z.to_nat b)).
Proof.
  intros (a' & -> & Ha)%in_range_nat (b' & -> & Hb)%in_range_nat.
  rewrite !Nat2Z.id. by apply cell_weight.
Qed.

Lemma valid_steps_spec rest :
  forall a b,
    in_range g a = true -> in_range g b = true ->
    Forall (fun x => in_range g x = true) rest ->
    valid_steps g a b rest = Ok (edges_ok (a :: b :: rest)).
Proof.
  induction rest as [|c rest IH]; intros a b Ha Hb Hrest.
  - cbn [valid_steps edges_ok]. rewrite (cell_in_range a b Ha Hb). simpl.
    destruct (_ =? 0); done.
  - apply Forall_cons in Hrest as [Hc Hrest].
    cbn [valid_steps]. rewrite (cell_in_range a b Ha Hb). cbn [mbind res_mbind res_bind].
    change (edges_ok (a :: b :: c :: rest))
      with (negb (weight g (Z.to_nat a) (Z.to_nat b) =? 0) && edges_ok (b :: c :: rest)).
    destruct (_ =? 0); [done|]. simpl negb. rewrite andb_true_l. by apply IH.
Qed.

Lemma edges_ok_true path :
  edges_ok path = true <->
  forall i a b, path !! i = Some a -> path !! S i = Some b ->
    weight g (Z.to_nat a) (Z.to_nat b) <> 0.
Proof.
  induction path as [|a path IH]; [split; [by intros _ i a b ?|done]|].
  destruct path as [|b rest].
  - split; [|done]. intros _ i x y _ H. by destruct i.
  - change (edges_ok (a :: b :: rest))
      with (negb (weight g (Z.to_nat a) (Z.to_nat b) =? 0) && edges_ok (b :: rest)).
    rewrite andb_true_iff, negb_true_iff, Z.eqb_neq, IH. split.
    + intros [Hab Hrest] i x y Hx Hy. destruct i as [|i].
      * simpl in Hx, Hy. by injection Hx as <-; injection Hy as <-.
      * by apply (Hrest i).
    + intros Hall. split; [by apply (Hall 0%nat)|].
      intros i x y Hx Hy. by apply (Hall (S i)).
Qed.
End DirectedValidPath.

(** X6. On a well-shaped graph and for a path whose vertices are all in
    range, [is_valid_path] never raises, and it returns [True] exactly when
    every vertex of the path but the last has an edge of weight other than 0
    to the next one (so always for a path of no or one vertex). *)
Theorem directed_is_valid_path_edges (g : Directed.DirectedGraph) (path : list Z) :
  Directed.wf_graph g ->
  Forall (fun x => Directed.in_range g x = true) path ->
  exists r,
    Directed.is_valid_path g path = Ok r /\
    (r = true <->
     forall i a b, path !! i = Some a -> path !! S i = Some b ->
       Directed.weight g (Z.to_nat a) (Z.to_nat b) <> 0).
Proof.
  intros Hwf Hpath. exists (edges_ok g path). split; [|by apply edges_ok_true].
  destruct path as [|a [|b rest]]; [done| |].
  - apply Forall_cons in Hpath as [Ha _]. simpl. f_equal.
    unfold Directed.in_range in Ha. apply andb_true_iff in Ha as [_ Ha]. done.
  - apply Forall_cons in Hpath as [Ha Hpath]. apply Forall_cons in Hpath as [Hb Hpath].
    by apply valid_steps_spec.
Qed.

Lemma directed_is_valid_path_edges_witness :
  Directed.is_valid_path Directed.example_graph [0; 1; 4; 3] = Ok true /\
  Directed.is_valid_path Directed.example_graph [1; 3; 2; 1] = Ok false.
Proof.
  split.
  - destruct (directed_is_valid_path_edges Directed.example_graph [0; 1; 4; 3]
                example_graph_wf) as (r & Hrun & Hiff).
    + repeat constructor.
    + assert (r = true) as ->; [|exact Hrun].
      pose proof Hrun as Hrun'. vm_compute in Hrun'. by injection Hrun' as <-.
  - destruct (directed_is_valid_path_edges Directed.example_graph [1; 3; 2; 1]
                example_graph_wf) as (r & Hrun & Hiff).
    + repeat constructor.
    + assert (r = false) as ->; [|exact Hrun].
      pose proof Hrun as Hrun'. vm_compute in Hrun'. by injection Hrun' as <-.
Defined.

(** X7. On a well-shaped graph, a path of two or more vertices whose first
    vertex is [v_count] or more makes [is_valid_path] raise [IndexError]:
    the vertices of a longer path are not checked against the range. *)
Theorem directed_is_valid_path_out_of_range
    (g : Directed.DirectedGraph) (a b : Z) (rest : list Z) :
  Directed.wf_graph g ->
  Z.of_nat (Directed.v_count g) <= a ->
  Directed.is_valid_path g (a :: b :: rest) = Raise IndexError.
Proof.
  intros [Hlen _] Ha. simpl.
  assert (Directed.cell g a b = Raise IndexError) as Hcell.
  { unfold Directed.cell, Py.index. rewrite Hlen.
    assert ((a <? 0) = false) as -> by (apply Z.ltb_ge; lia).
    assert ((a <? Z.of_nat (Directed.v_count g)) = false) as -> by (apply Z.ltb_ge; lia).
    by rewrite andb_false_r. }
  destruct rest; simpl; by rewrite Hcell.
Qed.

Lemma directed_is_valid_path_out_of_range_witness :
  Directed.is_valid_path Directed.example_graph [5; 0] = Raise IndexError.
Proof.
  apply (directed_is_valid_path_out_of_range Directed.example_graph 5 0 []).
  - exact example_graph_wf.
  - simpl. lia.
Defined.

(** ** [DirectedGraph]: the constructor *)

Section DirectedInit.
Import Directed.

Lemma top_id_from (m : Z) (es : list (Z * Z * Z)) :
  let top := fold_left (fun m '(u, v, _) => Z.max (Z.max m u) v) es m in
  m <= top /\
  (forall u v w, (u, v, w) ∈ es -> u <= top /\ v <= top) /\
  (top = m \/ exists u v w, (u, v, w) ∈ es /\ (top = u \/ top = v)).
Proof.
  revert m. induction es as [|[[u0 v0] w0] es IH]; intros m; simpl.
  - split; [lia|]. split; [by intros u v w ?%elem_of_nil|by left].
  - destruct (IH (Z.max (Z.max m u0) v0)) as (Hle & Hall & Hex). split; [lia|]. split.
    + intros u v w [[= -> -> ->]|Hin]%elem_of_cons; [lia|]. by apply (Hall u v w).
    + destruct Hex as [->|(u & v & w & Hin & Huv)].
      * destruct (Z.max_spec (Z.max m u0) v0) as [[_ ->]|[_ ->]].
        -- right. exists u0, v0, w0. split; [left|by right].
        -- destruct (Z.max_spec m u0) as [[_ ->]|[_ ->]]; [|by left].
           right. exists u0, v0, w0. split; [left|by left].
      * right. exists u, v, w. split; [by right|done].
Qed.

Lemma add_edges_weights es :
  forall g g', wf_graph g -> add_edges g es = Ok g' ->
    (forall a b, weight g' a b <> weight g a b ->
       (Z.of_nat a, Z.of_nat b, weight g' a b) ∈ es) /\
    (forall u v w, (u, v, w) ∈ es -> edge_args_ok g u v = true -> 0 <= w ->
       (forall w', (u, v, w') ∈ es -> w' = w) ->
       weight g' (Z.to_nat u) (Z.to_nat v) = w).
Proof.
  induction es as [|[[u0 v0] w0] es IH]; intros g g' Hwf Hrun; simpl in Hrun.
  - injection Hrun as <-. split; [done|]. by intros u v w ?%elem_of_nil.
  - destruct (add_edge_spec g u0 v0 w0 Hwf) as (g1 & Hrun1 & Hwf1 & Hn1 & Hcell1).
    rewrite Hrun1 in Hrun. simpl in Hrun.
    destruct (IH g1 g' Hwf1 Hrun) as [Hchanged Hstored].
    assert (forall a b, weight g' a b <> weight g a b ->
              (Z.of_nat a, Z.of_nat b, weight g' a b) ∈ (u0, v0, w0) :: es) as Hchanged'.
    { intros a b Hne. destruct (decide (weight g' a b = weight g1 a b)) as [Heq|Hne1].
      - rewrite Heq in *. rewrite Hcell1 in *.
        destruct (_ && _ && bool_decide _) eqn:E; [|done].
        apply andb_true_iff in E as [_ E]. apply bool_decide_eq_true in E as [-> ->]. left.
      - right. by apply Hchanged. }
    split; [done|].
    intros u v w Hin Hok Hw Huniq.
    assert (edge_args_ok g1 u v = true) as Hok1.
    { unfold edge_args_ok, in_range in *. by rewrite Hn1. }
    destruct (decide (weight g' (Z.to_nat u) (Z.to_nat v)
                      = weight g1 (Z.to_nat u) (Z.to_nat v))) as [Heq|Hne1].
    + apply elem_of_cons in Hin as [[= -> -> ->]|Hin].
      * rewrite Heq, Hcell1, Hok. rewrite (proj2 (Z.leb_le _ _) Hw). simpl.
        unfold edge_args_ok in Hok. apply andb_true_iff in Hok as [[Hu Hv]%andb_true_iff _].
        apply in_range_nat in Hu as (a & -> & _). apply in_range_nat in Hv as (b & -> & _).
        rewrite !Nat2Z.id. by rewrite bool_decide_eq_true_2.
      * apply Hstored; try done. intros w' Hw'. apply Huniq. by right.
    + apply Hchanged in Hne1.
      unfold edge_args_ok in Hok. apply andb_true_iff in Hok as [[Hu Hv]%andb_true_iff _].
      apply in_range_nat in Hu as (a & -> & _). apply in_range_nat in Hv as (b & -> & _).
      rewrite !Nat2Z.id in *. apply Huniq. by right.
Qed.
End DirectedInit.

(** X8. [DirectedGraph(start_edges)] never raises.  The graph has one vertex
    more than the largest id among the start edges (one vertex if no id is
    positive), every edge it has is one of the start edges, and every start
    edge between two different ids that are not negative, with a weight
    that is not negative, is in it with that weight, provided the list
    gives that pair of ids one weight only. *)
Theorem directed_init_stores_edges (start_edges : list (Z * Z * Z)) :
  exists g,
    Directed.init start_edges = Ok g /\
    (forall u v w, (u, v, w) ∈ start_edges ->
       u < Z.of_nat (Directed.v_count g) /\ v < Z.of_nat (Directed.v_count g)) /\
    (Directed.v_count g = 1%nat \/
     exists u v w, (u, v, w) ∈ start_edges /\
       (Z.of_nat (Directed.v_count g) = u + 1 \/ Z.of_nat (Directed.v_count g) = v + 1)) /\
    (forall a b, Directed.weight g a b <> 0 ->
       (Z.of_nat a, Z.of_nat b, Directed.weight g a b) ∈ start_edges) /\
    (forall u v w, (u, v, w) ∈ start_edges ->
       0 <= u -> 0 <= v -> u <> v -> 0 <= w ->
       (forall w', (u, v, w') ∈ start_edges -> w' = w) ->
       Directed.weight g (Z.to_nat u) (Z.to_nat v) = w).
Proof.
  destruct (simple_init start_edges) as (g & Hrun & [Hwf _] & Hn).
  pose proof (top_id_from 0 start_edges) as (Htop0 & Hall & Hex). fold (top_id start_edges) in *.
  exists g. split; [done|]. split; [|split; [|split]].
  - intros u v w Hin. destruct (Hall u v w Hin). lia.
  - destruct Hex as [Heq|(u & v & w & Hin & Huv)].
    + left. rewrite Hn, Heq. done.
    + right. exists u, v, w. split; [done|]. lia.
  - unfold Directed.init in Hrun. fold (top_id start_edges) in Hrun.
    destruct (iter_add_vertex (Z.to_nat (top_id start_edges + 1))) as [[Hwf0 Hdiag0] Hn0].
    destruct (add_edges_weights start_edges _ g Hwf0 Hrun) as [Hchanged _].
    intros a b Hw. apply Hchanged.
    assert (Directed.weight (Nat.iter (Z.to_nat (top_id start_edges + 1))
              Directed.add_vertex Directed.empty) a b = 0) as ->; [|done].
    clear. induction (Z.to_nat _) as [|n IH]; [by destruct a|]. simpl.
    rewrite add_vertex_weight; [done|]. apply (iter_add_vertex n).
  - unfold Directed.init in Hrun. fold (top_id start_edges) in Hrun.
    destruct (iter_add_vertex (Z.to_nat (top_id start_edges + 1))) as [[Hwf0 Hdiag0] Hn0].
    destruct (add_edges_weights start_edges _ g Hwf0 Hrun) as [_ Hstored].
    intros u v w Hin Hu Hv Hne Hw Huniq. apply Hstored; try done.
    destruct (Hall u v w Hin). unfold edge_args_ok, Directed.in_range. rewrite Hn0.
    rewrite (proj2 (Z.eqb_neq _ _) Hne). simpl.
    rewrite !andb_true_r. apply andb_true_iff.
    split; apply andb_true_iff; split; try apply Z.leb_le; try apply Z.ltb_lt; lia.
Qed.

(** ** [UndirectedGraph]: what the mutators change *)

Section UndirectedEffects.
Import Undirected.
Implicit Types (g : adj) (u v x y k : string).

Lemma has_add_vertex g v k :
  Dict.has (add_vertex g v) k = true <-> Dict.has g k = true \/ k = v.
Proof.
  unfold add_vertex. destruct (Dict.has g v) eqn:E.
  - split; [by left|]. intros [?| ->]; done.
  - rewrite has_set. tauto.
Qed.

Lemma neighbor_has g x y : wf g -> y ∈ neighbors g x -> Dict.has g x = true /\ Dict.has g y = true.
Proof.
  intros (_ & _ & Hsym & _) Hy.
  assert (forall a b, b ∈ neighbors g a -> Dict.has g a = true) as Hkey.
  { intros a b Hb. destruct (Dict.has g a) eqn:E; [done|].
    rewrite (neighbors_absent g a E) in Hb. by apply elem_of_nil in Hb. }
  split; [by eapply Hkey|]. eapply Hkey. by apply Hsym.
Qed.

Lemma keys_add_vertex g v :
  Dict.keys (add_vertex g v) = Dict.keys g ++ (if Dict.has g v then [] else [v]).
Proof.
  unfold add_vertex. destruct (Dict.has g v) eqn:E; [by rewrite app_nil_r|].
  by rewrite keys_set, E.
Qed.

Lemma has_ext g g' k :
  (Dict.has g' k = true <-> Dict.has g k = true) -> Dict.has g' k = Dict.has g k.
Proof. intros H. by apply eq_true_iff_eq. Qed.

(** [add_edge(u, v)] for two different names: the names that were not
    vertices are appended to the vertices, [u] first, and, when the edge is
    new, [v] is appended to the list of [u] and [u] to the list of [v]. *)
Lemma add_edge_effect g u v :
  wf g -> u <> v ->
  exists g', add_edge g u v = Ok g' /\
    Dict.keys g' =
      Dict.keys g ++ (if Dict.has g u then [] else [u]) ++ (if Dict.has g v then [] else [v]) /\
    (forall x, neighbors g' x =
       if decide (v ∈ neighbors g u) then neighbors g x
       else if decide (x = u) then neighbors g u ++ [v]
       else if decide (x = v) then neighbors g v ++ [u]
       else neighbors g x) /\
    (v ∈ neighbors g u -> g' = g).
Proof.
  intros Hwf Hne. unfold add_edge. rewrite decide_False by done.
  set (g1 := if negb (Dict.has g u) then add_vertex g u else g).
  assert (wf g1 /\ (forall k, Dict.has g1 k = true <-> Dict.has g k = true \/ k = u) /\
          (forall x, neighbors g1 x = neighbors g x) /\
          Dict.keys g1 = Dict.keys g ++ (if Dict.has g u then [] else [u]) /\
          (Dict.has g u = true -> g1 = g)) as (Hwf1 & Hhas1 & HN1 & Hk1 & Hsame1).
  { subst g1. destruct (Dict.has g u) eqn:E; simpl.
    - split; [done|]. split; [|by rewrite app_nil_r].
      intros k. split; [by left|]. intros [?| ->]; done.
    - split; [by apply wf_add_vertex|]. split; [apply has_add_vertex|]. split; [|split; [|done]].
      + apply add_vertex_spec, Hwf.
      + by rewrite keys_add_vertex, E. }
  assert (Dict.has g1 v = Dict.has g v) as Hv1.
  { apply has_ext. rewrite Hhas1. split; [|by left]. intros [?|?]; [done|by subst]. }
  set (g2 := if negb (Dict.has g1 v) then add_vertex g1 v else g1).
  assert (wf g2 /\
          (forall k, Dict.has g2 k = true <-> Dict.has g k = true \/ k = u \/ k = v) /\
          (forall x, neighbors g2 x = neighbors g x) /\
          Dict.keys g2 = Dict.keys g ++ (if Dict.has g u then [] else [u])
                           ++ (if Dict.has g v then [] else [v]) /\
          (Dict.has g u = true -> Dict.has g v = true -> g2 = g))
    as (Hwf2 & Hhas2 & HN2 & Hk2 & Hsame2).
  { subst g2. destruct (Dict.has g1 v) eqn:E; simpl.
    - split; [done|]. split; [|split; [done|split; [|by intros ? _; apply Hsame1]]].
      + intros k. rewrite Hhas1. split; [tauto|]. intros [?|[?| ->]]; [tauto..|].
        by apply Hhas1.
      + rewrite Hk1, <- Hv1. by rewrite app_nil_r.
    - split; [by apply wf_add_vertex|]. split; [|split; [|split]].
      + intros k. rewrite has_add_vertex, Hhas1. tauto.
      + intros x. destruct (add_vertex_spec g1 v (proj1 Hwf1)) as (_ & _ & _ & ->). apply HN1.
      + rewrite keys_add_vertex, E, Hk1, <- Hv1. by rewrite <- app_assoc.
      + intros Hu Hv. congruence. }
  clearbody g2. clear g1 Hwf1 Hhas1 HN1 Hsame1 Hk1 Hv1.
  assert (Dict.has g2 u = true) as Hu2 by (apply Hhas2; tauto).
  assert (Dict.has g2 v = true) as Hv2 by (apply Hhas2; tauto).
  pose proof Hwf2 as (Hkk & Hnd & Hsym & Hirr).
  rewrite (get_neighbors g2 v Hv2). simpl.
  destruct (Py.mem u (neighbors g2 v)) eqn:Euv; simpl.
  - rewrite (get_neighbors g2 u Hu2). simpl.
    apply mem_true in Euv. pose proof (Hsym _ _ Euv) as Evu.
    rewrite (proj2 (mem_true _ _) Evu). simpl.
    rewrite HN2 in Euv, Evu. destruct (neighbor_has g u v Hwf Evu) as [Hu Hv].
    exists g2. split; [done|]. split; [done|]. split.
    + intros x. rewrite decide_True by done. apply HN2.
    + intros _. by apply Hsame2.
  - apply mem_false in Euv.
    assert (v ∉ neighbors g2 u) as Evu by (intros H; by apply Hsym in H).
    rewrite get_neighbors by (apply has_set; by right).
    rewrite neighbors_set. rewrite decide_False by done. simpl.
    rewrite (proj2 (mem_false _ _) Evu). simpl.
    eexists. split; [done|]. split; [|split].
    + rewrite keys_set.
      replace (Dict.has (Dict.set g2 v (neighbors g2 v ++ [u])) u) with true
        by (symmetry; apply has_set; by right).
      by rewrite keys_set, Hv2.
    + intros x. rewrite HN2 in Evu. rewrite decide_False by done.
      rewrite !neighbors_set, !HN2. done.
    + intros Hin. rewrite <- HN2 in Hin. done.
Qed.

(** Two dictionaries with the same keys in the same order and the same
    values are the same dictionary. *)
Lemma dict_ext {V} (d d' : list (string * V)) :
  NoDup (Dict.keys d) -> Dict.keys d = Dict.keys d' ->
  (forall k, Dict.get_opt d k = Dict.get_opt d' k) -> d = d'.
Proof.
  unfold Dict.keys. revert d'. induction d as [|[k v] d IH]; intros [|[k' v'] d']; csimpl; try done.
  intros [Hk Hnd]%NoDup_cons [= <- Hkeys] Hget.
  pose proof (Hget k) as Hv. rewrite !decide_True in Hv by done. injection Hv as <-.
  f_equal. apply IH; [done..|].
  intros x. specialize (Hget x). destruct (decide (x = k)) as [->|Hx]; [|done].
  assert (Dict.get_opt d k = None) as -> by (by apply get_opt_None).
  symmetry. apply get_opt_None. unfold Dict.keys. by rewrite <- Hkeys.
Qed.

Lemma graph_ext g g' :
  NoDup (Dict.keys g) -> Dict.keys g = Dict.keys g' ->
  (forall x, neighbors g x = neighbors g' x) -> g = g'.
Proof.
  intros Hnd Hkeys HN. apply dict_ext; [done..|]. intros k.
  specialize (HN k). unfold neighbors in HN.
  destruct (Dict.get_opt g k) as [l|] eqn:E, (Dict.get_opt g' k) as [l'|] eqn:E'; simpl in HN.
  - by subst.
  - apply get_opt_Some_key in E. apply get_opt_None in E'. by rewrite Hkeys in E.
  - apply get_opt_Some_key in E'. apply get_opt_None in E. by rewrite Hkeys in E.
  - done.
Qed.


Lemma keys_del_filter {V} (d : list (string * V)) k :
  NoDup (Dict.keys d) ->
  Dict.keys (Dict.del d k) = filter (fun x => x <> k) (Dict.keys d).
Proof.
  unfold Dict.keys. induction d as [|[k0 v0] d IH]; csimpl; intros Hnd; [done|].
  apply NoDup_cons in Hnd as [Hk0 Hnd].
  destruct (decide (k = k0)) as [->|Hne]; csimpl.
  - rewrite filter_cons_False by (intros ?; done). symmetry. by apply filter_ne_id.
  - rewrite filter_cons_True by congruence. by rewrite IH.
Qed.

Lemma drop_neighbor_keys g a b g' :
  drop_neighbor g a b = Ok g' -> Dict.keys g' = Dict.keys g.
Proof.
  unfold drop_neighbor. destruct (Dict.has g a) eqn:Ea; [|by intros [= <-]].
  destruct (Dict.get g a) as [la| |]; simpl; try done.
  destruct (Py.mem b la); [|by intros [= <-]].
  destruct (Py.remove b la) as [la'| |]; simpl; try done.
  intros [= <-]. by rewrite keys_set, Ea.
Qed.

Lemma unlink_keys v edges :
  forall g g', unlink g v edges = Ok g' ->
    (forall e, e ∈ edges -> Dict.has g e = true) -> Dict.keys g' = Dict.keys g.
Proof.
  induction edges as [|e edges IH]; intros g g'; simpl; [by intros [= <-]|].
  intros Hrun Hhas.
  destruct (Dict.get g e) as [l| |]; simpl in Hrun; try done.
  destruct (Py.remove v l) as [l'| |]; simpl in Hrun; try done.
  rewrite (IH _ _ Hrun).
  - rewrite keys_set. rewrite Hhas; [done|left].
  - intros e' He'. apply has_set. right. apply Hhas. by right.
Qed.
(** [remove_edge(v, u)] never raises: it removes [v] from the list of [u]
    and [u] from the list of [v] and leaves the vertices as they are. *)
Lemma remove_edge_effect g v u :
  wf g ->
  exists g', remove_edge g v u = Ok g' /\ Dict.keys g' = Dict.keys g /\
    forall x, neighbors g' x =
      if decide (x = u) then filter (fun y => y <> v) (neighbors g u)
      else if decide (x = v) then filter (fun y => y <> u) (neighbors g v)
      else neighbors g x.
Proof.
  intros [Hk Hrel]. pose proof Hrel as (Hnd & Hsym & Hirr). rewrite remove_edge_drop.
  destruct (decide (u = v)) as [->|Hne].
  - exists g. split; [done|]. split; [done|]. intros x.
    case_decide; [|done]. subst. symmetry. apply filter_ne_id, Hirr.
  - destruct (drop_neighbor_spec g u v Hk (Hnd u)) as (g1 & Hg1 & Hk1 & HN1).
    rewrite Hg1. simpl.
    assert (NoDup (neighbors g1 v)) as Hnd1.
    { rewrite HN1. case_decide; [congruence|apply Hnd]. }
    destruct (drop_neighbor_spec g1 v u Hk1 Hnd1) as (g2 & Hg2 & Hk2 & HN2).
    rewrite Hg2. eexists. split; [done|]. split.
    + rewrite (drop_neighbor_keys _ _ _ _ Hg2). by apply drop_neighbor_keys in Hg1.
    + intros x. rewrite HN2, !HN1.
      destruct (decide (x = v)), (decide (x = u)), (decide (v = u)); subst; done.
Qed.


(** [remove_vertex(v)] never raises: [v] leaves the vertices, the others
    keep their order, and [v] leaves every list. *)
Lemma remove_vertex_effect g v :
  wf g ->
  exists g', remove_vertex g v = Ok g' /\
    Dict.keys g' = filter (fun x => x <> v) (Dict.keys g) /\
    forall x, neighbors g' x =
      if decide (x = v) then [] else filter (fun y => y <> v) (neighbors g x).
Proof.
  intros Hwf. pose proof Hwf as (Hk & Hnd & Hsym & Hirr).
  unfold remove_vertex. destruct (Dict.has g v) eqn:Ev.
  - rewrite (get_neighbors g v Ev). simpl.
    assert (forall e, e ∈ neighbors g v -> Dict.has (Dict.del g v) e = true) as Hkeys.
    { intros e He. assert (e <> v) as Hne by (intros ->; by apply Hirr in He).
      apply has_true. rewrite get_opt_del by done. rewrite decide_False by done.
      apply has_true. by apply (neighbor_has g v e). }
    destruct (unlink_spec v (neighbors g v) (Dict.del g v))
      as (g' & Hrun & Hk' & Hhas' & HN').
    + by apply keys_del_NoDup.
    + apply Hnd.
    + intros e He. assert (e <> v) as Hne by (intros ->; by apply Hirr in He).
      rewrite neighbors_del by done. rewrite decide_False by done.
      split; [by apply Hkeys|]. split; [by apply Hsym|apply Hnd].
    + rewrite Hrun. exists g'. split; [done|]. split.
      * rewrite (unlink_keys _ _ _ _ Hrun Hkeys). by apply keys_del_filter.
      * intros x. rewrite HN', neighbors_del by done.
        destruct (decide (x = v)) as [->|Hne].
        -- case_decide; done.
        -- case_decide as Hx; [done|]. rewrite filter_ne_id; [done|].
           intros Hv. by apply Hsym in Hv.
  - exists g. split; [done|]. split.
    + symmetry. apply filter_ne_id. intros Hv.
      apply not_true_iff_false in Ev. apply Ev. unfold Dict.has. by apply bool_decide_eq_true.
    + intros x. case_decide; [subst; by apply neighbors_absent|].
      symmetry. apply filter_ne_id. intros Hv. apply Hsym in Hv.
      rewrite (neighbors_absent g v Ev) in Hv. by apply elem_of_nil in Hv.
Qed.

Lemma wf_of_ops os g : run_ops empty os = Ok g -> wf g.
Proof.
  intros Hrun. destruct (wf_run_ops os empty wf_empty) as (g' & Hrun' & Hwf). congruence.
Qed.

(** The path A - B - C and the isolated vertex D *)
Definition path3 : adj :=
  [("A", ["B"]); ("B", ["A"; "C"]); ("C", ["B"]); ("D", [])]%string.

Lemma path3_wf : wf path3.
Proof. by apply (wf_of_ops [AddEdge "A" "B"; AddEdge "B" "C"; AddVertex "D"]). Qed.

End UndirectedEffects.

(** X9. [add_edge(u, v)] with two different names never raises.  The names
    that were not vertices are appended to the vertices, [u] before [v].
    When [v] was already a neighbour of [u] the graph is left as it was;
    otherwise [v] is appended to the list of [u] and [u] to the list of [v],
    and no other list changes. *)
Theorem undirected_add_edge_effect (g : Undirected.adj) (u v : string) :
  Undirected.wf g -> u <> v ->
  exists g',
    Undirected.add_edge g u v = Ok g' /\
    Undirected.get_vertices g' =
      Undirected.get_vertices g
        ++ (if Py.mem u (Undirected.get_vertices g) then [] else [u])
        ++ (if Py.mem v (Undirected.get_vertices g) then [] else [v]) /\
    (v ∈ Undirected.neighbors g u -> g' = g) /\
    (v ∉ Undirected.neighbors g u ->
     forall x, Undirected.neighbors g' x =
       if decide (x = u) then Undirected.neighbors g u ++ [v]
       else if decide (x = v) then Undirected.neighbors g v ++ [u]
       else Undirected.neighbors g x).
Proof.
  intros Hwf Hne.
  destruct (add_edge_effect g u v Hwf Hne) as (g' & Hrun & Hkeys & HN & Hsame).
  exists g'. split; [done|]. split; [done|]. split; [done|].
  intros Hnew x. rewrite HN. by rewrite decide_False.
Qed.

Lemma undirected_add_edge_effect_witness :
  exists g',
    Undirected.add_edge path3 "A" "E" = Ok g' /\
    Undirected.get_vertices g' = ["A"; "B"; "C"; "D"; "E"]%string /\
    Undirected.neighbors g' "A" = ["B"; "E"]%string /\
    Undirected.neighbors g' "E" = ["A"]%string.
Proof.
  destruct (undirected_add_edge_effect path3 "A" "E" path3_wf) as (g' & Hrun & Hkeys & _ & HN).
  - done.
  - exists g'. split; [exact Hrun|]. split; [exact Hkeys|].
    assert ("E"%string ∉ Undirected.neighbors path3 "A") as Hnew.
    { apply mem_false. reflexivity. }
    split; rewrite (HN Hnew); reflexivity.
Defined.

(** X10. After [add_edge(u, v)] on a graph in the state the mutators keep,
    a second [add_edge(u, v)] and an [add_edge(v, u)] both leave the graph
    as it is: an edge is stored once, whatever the order of its ends. *)
Theorem undirected_add_edge_idempotent (g g' : Undirected.adj) (u v : string) :
  Undirected.wf g ->
  Undirected.add_edge g u v = Ok g' ->
  Undirected.add_edge g' u v = Ok g' /\ Undirected.add_edge g' v u = Ok g'.
Proof.
  intros Hwf Hrun.
  destruct (decide (u = v)) as [->|Hne].
  { unfold Undirected.add_edge in *. rewrite decide_True in * by done.
    injection Hrun as <-. done. }
  destruct (wf_add_edge g u v Hwf) as (g1 & Hrun1 & Hwf1).
  assert (g1 = g') as -> by congruence. clear Hrun1.
  destruct (add_edge_effect g u v Hwf Hne) as (g1 & Hrun1 & _ & HN & _).
  assert (g1 = g') as -> by congruence. clear Hrun1.
  assert (v ∈ Undirected.neighbors g' u) as Hvu.
  { rewrite HN. case_decide; [done|]. rewrite decide_True by done.
    apply elem_of_app. right. by left. }
  assert (u ∈ Undirected.neighbors g' v) as Huv by (by apply Hwf1).
  split.
  - destruct (add_edge_effect g' u v Hwf1 Hne) as (g2 & -> & _ & _ & Hsame).
    by rewrite Hsame.
  - destruct (add_edge_effect g' v u Hwf1) as (g2 & -> & _ & _ & Hsame); [done|].
    by rewrite Hsame.
Qed.

Lemma undirected_add_edge_idempotent_witness :
  Undirected.add_edge path3 "C" "A" =
    Ok [("A", ["B"; "C"]); ("B", ["A"; "C"]); ("C", ["B"; "A"]); ("D", [])]%string /\
  Undirected.add_edge
    [("A", ["B"; "C"]); ("B", ["A"; "C"]); ("C", ["B"; "A"]); ("D", [])]%string "A" "C" =
    Ok [("A", ["B"; "C"]); ("B", ["A"; "C"]); ("C", ["B"; "A"]); ("D", [])]%string.
Proof.
  split; [reflexivity|].
  apply (undirected_add_edge_idempotent path3 _ "C" "A" path3_wf). reflexivity.
Defined.

(** X11. [remove_edge(v, u)] never raises, whether or not the two names are
    vertices and whether or not the edge exists.  The vertices stay as they
    are, [v] leaves the list of [u] and [u] the list of [v], and every other
    list is unchanged, so that no other edge is touched. *)
Theorem undirected_remove_edge_effect (g : Undirected.adj) (v u : string) :
  Undirected.wf g ->
  exists g',
    Undirected.remove_edge g v u = Ok g' /\
    Undirected.get_vertices g' = Undirected.get_vertices g /\
    Undirected.wf g' /\
    (forall x, Undirected.neighbors g' x =
       if decide (x = u) then filter (fun y => y <> v) (Undirected.neighbors g u)
       else if decide (x = v) then filter (fun y => y <> u) (Undirected.neighbors g v)
       else Undirected.neighbors g x) /\
    (forall x y, y ∈ Undirected.neighbors g' x <->
       y ∈ Undirected.neighbors g x /\ ~ (x = u /\ y = v) /\ ~ (x = v /\ y = u)).
Proof.
  intros Hwf.
  destruct (remove_edge_effect g v u Hwf) as (g' & Hrun & Hkeys & HN).
  destruct (wf_remove_edge g v u Hwf) as (g1 & Hrun1 & Hwf1).
  assert (g1 = g') as -> by congruence.
  exists g'. split; [done|]. split; [done|]. split; [done|]. split; [done|].
  intros x y. rewrite HN.
  destruct (decide (x = u)) as [->|Hxu]; [|destruct (decide (x = v)) as [->|Hxv]].
  - rewrite list_elem_of_filter. split.
    + intros [Hy Hin]. split; [done|]. split; [tauto|]. intros [-> ->]. done.
    + intros (Hin & H1 & _). split; [|done]. intros ->. tauto.
  - rewrite list_elem_of_filter. split.
    + intros [Hy Hin]. split; [done|]. split; [|tauto]. intros [-> ->]. done.
    + intros (Hin & _ & H2). split; [|done]. intros ->. tauto.
  - split; [|tauto]. intros Hin. split; [done|]. split; intros [? _]; done.
Qed.

Lemma undirected_remove_edge_effect_witness :
  exists g',
    Undirected.remove_edge path3 "A" "B" = Ok g' /\
    Undirected.get_vertices g' = ["A"; "B"; "C"; "D"]%string /\
    Undirected.neighbors g' "A" = [] /\
    Undirected.neighbors g' "B" = ["C"]%string.
Proof.
  destruct (undirected_remove_edge_effect path3 "A" "B" path3_wf)
    as (g' & Hrun & Hkeys & _ & HN & _).
  exists g'. split; [exact Hrun|]. split; [exact Hkeys|].
  split; rewrite HN; reflexivity.
Defined.

(** X12. [add_edge(u, v)] of an edge that is not in the graph, followed by
    [remove_edge(u, v)] or [remove_edge(v, u)], gives back the lists the
    graph had; the two names stay vertices, so that the graph itself comes
    back exactly when both were vertices before. *)
Theorem undirected_add_remove_round_trip (g : Undirected.adj) (u v : string) :
  Undirected.wf g -> u <> v -> v ∉ Undirected.neighbors g u ->
  exists g1 g2,
    Undirected.add_edge g u v = Ok g1 /\
    Undirected.remove_edge g1 u v = Ok g2 /\
    Undirected.remove_edge g1 v u = Ok g2 /\
    (forall x, Undirected.neighbors g2 x = Undirected.neighbors g x) /\
    u ∈ Undirected.get_vertices g2 /\ v ∈ Undirected.get_vertices g2 /\
    (u ∈ Undirected.get_vertices g -> v ∈ Undirected.get_vertices g -> g2 = g).
Proof.
  intros Hwf Hne Hnew. pose proof Hwf as (Hk & Hnd & Hsym & Hirr).
  assert (u ∉ Undirected.neighbors g v) as Hnew' by (intros H; by apply Hsym in H).
  destruct (add_edge_effect g u v Hwf Hne) as (g1 & Hrun1 & Hkeys1 & HN1 & _).
  destruct (wf_add_edge g u v Hwf) as (g1' & Hrun1' & Hwf1).
  assert (g1' = g1) as -> by congruence. clear Hrun1'.
  destruct (remove_edge_effect g1 u v Hwf1) as (g2 & Hrun2 & Hkeys2 & HN2).
  destruct (remove_edge_effect g1 v u Hwf1) as (g2' & Hrun2' & Hkeys2' & HN2').
  assert (forall x, Undirected.neighbors g1 x =
            if decide (x = u) then Undirected.neighbors g u ++ [v]
            else if decide (x = v) then Undirected.neighbors g v ++ [u]
            else Undirected.neighbors g x) as HN1'.
  { intros x. rewrite HN1. by rewrite decide_False. }
  assert (forall (a : string) l, a ∉ l -> filter (fun y => y <> a) (l ++ [a]) = l) as Hfilter.
  { intros a l Ha. rewrite filter_app, filter_cons_False, filter_nil, app_nil_r by (intros ?; done).
    by apply filter_ne_id. }
  assert (forall x, Undirected.neighbors g2 x = Undirected.neighbors g x) as HN.
  { intros x. rewrite HN2.
    destruct (decide (x = v)) as [->|Hxv]; [|destruct (decide (x = u)) as [->|Hxu]].
    - rewrite (HN1' v), decide_False, decide_True by congruence. by apply Hfilter.
    - rewrite (HN1' u), decide_True by done. by apply Hfilter.
    - rewrite HN1', !decide_False by done. done. }
  assert (forall x, Undirected.neighbors g2' x = Undirected.neighbors g x) as HN'.
  { intros x. rewrite HN2'.
    destruct (decide (x = u)) as [->|Hxu]; [|destruct (decide (x = v)) as [->|Hxv]].
    - rewrite (HN1' u), decide_True by done. by apply Hfilter.
    - rewrite (HN1' v), decide_False, decide_True by congruence. by apply Hfilter.
    - rewrite HN1', !decide_False by done. done. }
  assert (g2' = g2) as ->.
  { apply graph_ext; [|congruence|].
    - rewrite Hkeys2'. apply Hwf1.
    - intros x. by rewrite HN, HN'. }
  exists g1, g2. split; [done|]. split; [done|]. split; [done|]. split; [done|].
  unfold Undirected.get_vertices. rewrite Hkeys2, Hkeys1.
  assert (forall k, Dict.has g k = true <-> k ∈ Dict.keys g) as Hhas.
  { intros k. unfold Dict.has. apply bool_decide_eq_true. }
  split; [|split].
  - destruct (Dict.has g u) eqn:Eu.
    + apply elem_of_app. left. by apply Hhas.
    + apply elem_of_app. right. apply elem_of_app. left. by left.
  - destruct (Dict.has g v) eqn:Ev.
    + apply elem_of_app. left. by apply Hhas.
    + apply elem_of_app. right. apply elem_of_app. right. by left.
  - intros Hu%Hhas Hv%Hhas. symmetry. apply graph_ext; [done| |by intros x; rewrite HN].
    rewrite Hkeys2, Hkeys1, Hu, Hv. by rewrite !app_nil_r.
Qed.

Lemma undirected_add_remove_round_trip_witness :
  exists g1,
    Undirected.add_edge path3 "A" "D" = Ok g1 /\
    Undirected.remove_edge g1 "D" "A" = Ok path3.
Proof.
  destruct (undirected_add_remove_round_trip path3 "A" "D" path3_wf)
    as (g1 & g2 & H1 & _ & H2 & _ & _ & _ & Hsame).
  - done.
  - apply mem_false. reflexivity.
  - exists g1. split; [exact H1|]. rewrite H2. f_equal. apply Hsame.
    + apply mem_true. reflexivity.
    + apply mem_true. reflexivity.
Defined.

(** X13. [remove_vertex(v)] never raises.  [v] leaves the vertices, which
    keep their order, and leaves every list; the lists of the other
    vertices are otherwise unchanged, so that exactly the edges at [v]
    disappear.  For a name that is no vertex the graph is unchanged. *)
Theorem undirected_remove_vertex_effect (g : Undirected.adj) (v : string) :
  Undirected.wf g ->
  exists g',
    Undirected.remove_vertex g v = Ok g' /\
    Undirected.wf g' /\
    Undirected.get_vertices g' = filter (fun x => x <> v) (Undirected.get_vertices g) /\
    (forall x, x <> v ->
       Undirected.neighbors g' x = filter (fun y => y <> v) (Undirected.neighbors g x)) /\
    (forall x y, y ∈ Undirected.neighbors g' x <->
       y ∈ Undirected.neighbors g x /\ x <> v /\ y <> v) /\
    (v ∉ Undirected.get_vertices g -> g' = g).
Proof.
  intros Hwf. pose proof Hwf as (Hk & Hnd & Hsym & Hirr).
  destruct (remove_vertex_effect g v Hwf) as (g' & Hrun & Hkeys & HN).
  destruct (wf_remove_vertex g v Hwf) as (g1 & Hrun1 & Hwf1 & _).
  assert (g1 = g') as -> by congruence.
  exists g'. split; [done|]. split; [done|]. split; [done|]. split; [|split].
  - intros x Hx. rewrite HN. by rewrite decide_False.
  - intros x y. rewrite HN. destruct (decide (x = v)) as [->|Hx].
    + split; [by intros ?%elem_of_nil|]. intros (_ & ? & _). done.
    + rewrite list_elem_of_filter. tauto.
  - intros Hv. unfold Undirected.remove_vertex in Hrun.
    destruct (Dict.has g v) eqn:E; [|by injection Hrun].
    exfalso. apply Hv. unfold Dict.has in E. by apply bool_decide_eq_true in E.
Qed.

Lemma undirected_remove_vertex_effect_witness :
  exists g',
    Undirected.remove_vertex path3 "B" = Ok g' /\
    Undirected.get_vertices g' = ["A"; "C"; "D"]%string /\
    Undirected.neighbors g' "A" = [] /\ Undirected.neighbors g' "C" = [].
Proof.
  destruct (undirected_remove_vertex_effect path3 "B" path3_wf)
    as (g' & Hrun & _ & Hkeys & HN & _).
  exists g'. split; [exact Hrun|]. split; [exact Hkeys|].
  split; rewrite HN; done.
Defined.

(** ** [UndirectedGraph.get_edges] and [is_valid_path] *)

Section UndirectedQueries.
Import Undirected.
Variable g : adj.
Hypothesis Hwf : wf g.
Implicit Types (u v a b : string) (seen todo : list string).

(** What [get_edges] returns: going through the vertices in order, each
    vertex paired with those of its neighbours that have not come before. *)
Fixpoint edges_from (seen todo : list string) : list (string * string) :=
  match todo with
  | [] => []
  | u :: todo' =>
      ((fun v => (u, v)) <$> filter (fun v => v ∉ seen) (neighbors g u))
        ++ edges_from (seen ++ [u]) todo'
  end.

Lemma get_edges_row_spec u seen es :
  forall result,
    u ∉ es ->
    (forall e, e ∈ es -> ((e, u) ∈ result <-> e ∈ seen)) ->
    get_edges_row u es result =
      result ++ ((fun v => (u, v)) <$> filter (fun v => v ∉ seen) es).
Proof.
  unfold get_edges_row.
  induction es as [|e es IH]; intros result Hu Htest; simpl.
  - by rewrite app_nil_r.
  - apply not_elem_of_cons in Hu as [Hue Hu].
    assert (Py.mem (e, u) result = bool_decide (e ∈ seen)) as ->.
    { apply eq_true_iff_eq. rewrite mem_true, bool_decide_eq_true. apply Htest. left. }
    destruct (decide (e ∈ seen)) as [He|He].
    + rewrite bool_decide_eq_true_2 by done. simpl.
      rewrite filter_cons_False by (intros H; by apply H).
      apply IH; [done|]. intros e' He'. apply Htest. by right.
    + rewrite bool_decide_eq_false_2 by done. simpl.
      rewrite filter_cons_True by done. csimpl.
      rewrite IH; [by rewrite <- app_assoc|done|].
      intros e' He'. rewrite elem_of_app, list_elem_of_singleton.
      rewrite <- (Htest e') by (by right). split; [|tauto].
      intros [?|[= -> ->]]; [done|]. done.
Qed.

Lemma get_edges_loop todo :
  forall seen result,
    NoDup (seen ++ todo) ->
    (forall x, x ∈ todo -> Dict.has g x = true) ->
    (forall a b, (a, b) ∈ result -> a ∈ seen) ->
    (forall a b, a ∈ seen -> b ∈ neighbors g a -> b ∉ seen -> (a, b) ∈ result) ->
    foldl (fun acc vertex =>
             result ← acc; edges ← Dict.get g vertex;
             Ok (get_edges_row vertex edges result))
          (Ok result) todo
    = Ok (result ++ edges_from seen todo).
Proof.
  destruct Hwf as (Hk & Hnd & Hsym & Hirr).
  induction todo as [|u todo IH]; intros seen result Hnodup Hhas Hin Hall.
  - simpl. by rewrite app_nil_r.
  - cbn [foldl edges_from]. cbn [mbind res_mbind res_bind].
    rewrite (get_neighbors g u) by (apply Hhas; left).
    cbn [mbind res_mbind res_bind].
    assert (u ∉ seen) as Hu.
    { apply NoDup_app in Hnodup as (_ & Hdis & _). intros Hs. apply (Hdis u Hs). left. }
    rewrite (get_edges_row_spec u seen).
    + rewrite (IH (seen ++ [u])); [by rewrite <- app_assoc| | | |].
      * by rewrite <- app_assoc.
      * intros x Hx. apply Hhas. by right.
      * intros a b [Hab|Hab]%elem_of_app; apply elem_of_app.
        -- left. by eapply Hin.
        -- right. apply list_elem_of_fmap in Hab as (v & [= -> ->] & _). by left.
      * intros a b [Ha|Ha%list_elem_of_singleton]%elem_of_app Hb Hnb; apply elem_of_app.
        -- left. apply Hall; [done..|]. intros Hs. apply Hnb, elem_of_app. by left.
        -- subst a. right. apply list_elem_of_fmap. exists b. split; [done|].
           apply list_elem_of_filter. split; [|done].
           intros Hs. apply Hnb, elem_of_app. by left.
    + apply Hirr.
    + intros e He. split; [by apply Hin|].
      intros Hs. apply Hall; [done|by apply Hsym|done].
Qed.

Lemma undirected_edges_list : get_edges g = Ok (edges_from [] (Dict.keys g)).
Proof.
  unfold get_edges. rewrite (get_edges_loop (Dict.keys g) [] []); [done|..].
  - apply Hwf.
  - intros x Hx. unfold Dict.has. by apply bool_decide_eq_true.
  - by intros a b ?%elem_of_nil.
  - by intros a b ?%elem_of_nil.
Qed.

Lemma edges_from_elem todo :
  forall seen a b,
    (a, b) ∈ edges_from seen todo -> a ∈ todo /\ b ∈ neighbors g a /\ b ∉ seen.
Proof.
  induction todo as [|u todo IH]; intros seen a b; simpl; [by intros ?%elem_of_nil|].
  intros [Hab|Hab]%elem_of_app.
  - apply list_elem_of_fmap in Hab as (v & [= -> ->] & [Hv Hin]%list_elem_of_filter).
    split; [by left|done].
  - apply IH in Hab as (Ha & Hb & Hs). split; [by right|]. split; [done|].
    intros Hs'. apply Hs, elem_of_app. by left.
Qed.

Lemma edges_from_one_way todo :
  forall seen a b,
    (a, b) ∈ edges_from seen todo -> (b, a) ∉ edges_from seen todo.
Proof.
  destruct Hwf as (Hk & Hnd & Hsym & Hirr).
  induction todo as [|u todo IH]; intros seen a b; simpl; [by intros ?%elem_of_nil|].
  intros [Hab|Hab]%elem_of_app [Hba|Hba]%elem_of_app.
  - apply list_elem_of_fmap in Hab as (v & [= -> ->] & [Hv Hin]%list_elem_of_filter).
    apply list_elem_of_fmap in Hba as (v' & [= -> _] & _). by apply Hirr in Hin.
  - apply list_elem_of_fmap in Hab as (v & [= -> ->] & _).
    apply edges_from_elem in Hba as (_ & _ & Hs). apply Hs, elem_of_app. right. by left.
  - apply list_elem_of_fmap in Hba as (v & [= -> ->] & _).
    apply edges_from_elem in Hab as (_ & _ & Hs). apply Hs, elem_of_app. right. by left.
  - by apply IH in Hab.
Qed.

Lemma edges_from_covers todo :
  forall seen a b,
    a ∈ todo -> b ∈ todo -> a ∉ seen -> b ∉ seen -> b ∈ neighbors g a ->
    (a, b) ∈ edges_from seen todo \/ (b, a) ∈ edges_from seen todo.
Proof.
  destruct Hwf as (Hk & Hnd & Hsym & Hirr).
  induction todo as [|u todo IH]; intros seen a b Ha Hb Hsa Hsb Hab; simpl;
    [by apply elem_of_nil in Ha|].
  assert (forall x y, y ∈ neighbors g x -> y ∉ seen ->
            (x, y) ∈ ((fun v => (x, v)) <$> filter (fun v => v ∉ seen) (neighbors g x))) as Hhead.
  { intros x y Hy Hs. apply list_elem_of_fmap. exists y. split; [done|].
    by apply list_elem_of_filter. }
  rewrite !elem_of_app.
  destruct (decide (a = u)) as [->|Hau]; [left; left; by apply Hhead|].
  destruct (decide (b = u)) as [->|Hbu]; [right; left; apply Hhead; [by apply Hsym|done]|].
  apply elem_of_cons in Ha as [?|Ha]; [done|]. apply elem_of_cons in Hb as [?|Hb]; [done|].
  destruct (IH (seen ++ [u]) a b) as [H|H]; try done.
  - rewrite elem_of_app, list_elem_of_singleton. tauto.
  - rewrite elem_of_app, list_elem_of_singleton. tauto.
  - left. by right.
  - right. by right.
Qed.

Lemma edges_from_NoDup todo :
  forall seen, NoDup todo -> NoDup (edges_from seen todo).
Proof.
  destruct Hwf as (Hk & Hnd & Hsym & Hirr).
  induction todo as [|u todo IH]; intros seen Htodo; simpl; [apply NoDup_nil_2|].
  apply NoDup_cons in Htodo as [Hu Htodo].
  apply NoDup_app. split; [|split; [|by apply IH]].
  - apply NoDup_fmap_2; [by intros x y [= ->]|]. apply NoDup_filter, Hnd.
  - intros [a b] Hab Hab'.
    apply list_elem_of_fmap in Hab as (v & [= -> ->] & _).
    apply edges_from_elem in Hab' as (? & _). done.
Qed.

(** The steps of a path are edges *)
Fixpoint steps_ok (path : list string) : Prop :=
  match path with
  | a :: ((b :: _) as rest) => b ∈ neighbors g a /\ steps_ok rest
  | _ => True
  end.

Lemma valid_loop_spec path :
  forall result,
    exists r, valid_loop g path result = Ok r /\
      (r = true <-> result = true /\ steps_ok path).
Proof.
  induction path as [|a [|b rest] IH]; intros result.
  - exists result. split; [done|]. simpl. tauto.
  - exists result. split; [done|]. simpl. tauto.
  - cbn [valid_loop steps_ok]. destruct (Dict.has g a) eqn:Ea; cbn [negb].
    + rewrite (get_neighbors g a Ea). cbn [mbind res_mbind res_bind].
      destruct (IH (if negb (Py.mem b (neighbors g a)) then false else result))
        as (r & Hr & Hiff).
      exists r. split; [done|]. rewrite Hiff.
      destruct (Py.mem b (neighbors g a)) eqn:Eb; cbn [negb].
      * apply mem_true in Eb. tauto.
      * apply mem_false in Eb. split; [by intros [? _]|tauto].
    + exists false. split; [done|]. split; [done|]. intros (_ & Hb & _).
      rewrite (neighbors_absent g a Ea) in Hb. by apply elem_of_nil in Hb.
Qed.
End UndirectedQueries.

(** X14. [get_edges] never raises and reports every edge exactly once: the
    list has no repetition, holds only pairs of neighbours, never holds a
    pair together with its reverse, and holds every pair of neighbours one
    way round or the other. *)
Theorem undirected_get_edges_once (g : Undirected.adj) :
  Undirected.wf g ->
  exists es,
    Undirected.get_edges g = Ok es /\ NoDup es /\
    (forall u v, (u, v) ∈ es -> v ∈ Undirected.neighbors g u /\ (v, u) ∉ es) /\
    (forall u v, v ∈ Undirected.neighbors g u -> (u, v) ∈ es \/ (v, u) ∈ es).
Proof.
  intros Hwf. exists (edges_from g [] (Dict.keys g)).
  split; [by apply undirected_edges_list|]. split; [|split].
  - apply edges_from_NoDup; [done|apply Hwf].
  - intros u v Huv. split.
    + by apply edges_from_elem in Huv as (_ & ? & _).
    + by apply edges_from_one_way.
  - intros u v Huv. destruct (neighbor_has g u v Hwf Huv) as [Hu Hv].
    unfold Dict.has in Hu, Hv. apply bool_decide_eq_true in Hu, Hv.
    apply edges_from_covers; try done; apply not_elem_of_nil.
Qed.

Lemma undirected_get_edges_once_witness :
  exists es,
    Undirected.get_edges path3 = Ok es /\
    (("B"%string, "A"%string) ∉ es) /\ (("A"%string, "B"%string) ∈ es).
Proof.
  destruct (undirected_get_edges_once path3 path3_wf) as (es & Hrun & _ & Hone & Hall).
  exists es. split; [exact Hrun|].
  assert (("A"%string, "B"%string) ∈ es) as Hab.
  { pose proof Hrun as Hrun'. vm_compute in Hrun'. injection Hrun' as <-. left. }
  split; [|exact Hab]. by apply Hone.
Defined.

(** X15. [is_valid_path] never raises, whatever the graph and the path.  It
    returns [True] for the empty path, for a path of one name exactly when
    the name is a vertex, and for a longer path exactly when every name but
    the last has the next one in its list. *)
Theorem undirected_is_valid_path_steps (g : Undirected.adj) (path : list string) :
  exists r,
    Undirected.is_valid_path g path = Ok r /\
    (r = true <->
     match path with
     | [p] => p ∈ Undirected.get_vertices g
     | _ => steps_ok g path
     end).
Proof.
  destruct path as [|p [|q rest]].
  - exists true. by split.
  - exists (Dict.has g p). split.
    + unfold Undirected.is_valid_path. simpl. by destruct (Dict.has g p).
    + unfold Dict.has. apply bool_decide_eq_true.
  - unfold Undirected.is_valid_path.
    replace ((length (p :: q :: rest) =? 1)%nat) with false by done. cbn [andb].
    destruct (valid_loop_spec g (p :: q :: rest) true) as (r & Hr & Hiff).
    exists r. split; [done|]. rewrite Hiff. tauto.
Qed.

(** ** [dfs] of the two undirected classes, without [v_end] *)

Section UndirectedDfs.
Import Undirected.

Lemma rec_dfs_loop_prefix (rec : adj -> list string -> string -> res (adj * list string)) adjs :
  (forall g visited a g' l, rec g visited a = Ok (g', l) -> exists new, l = visited ++ new) ->
  forall g visited g' l,
    UndirectedRec.rec_dfs_loop rec None adjs g visited = Ok (g', l) ->
    exists new, l = visited ++ new.
Proof.
  intros Hrec. induction adjs as [|a adjs IH]; intros g visited g' l; cbn.
  - intros [= <- <-]. exists []. by rewrite app_nil_r.
  - destruct (Py.mem a visited); cbn; [apply IH|].
    destruct (rec g visited a) as [[g1 l1]| |] eqn:E; cbn; try done.
    intros (new & ->)%IH. apply Hrec in E as (new1 & ->).
    exists (new1 ++ new). by rewrite app_assoc.
Qed.

Lemma rec_dfs_prefix fuel :
  forall g visited v g' l,
    UndirectedRec.rec_dfs fuel g visited v None = Ok (g', l) ->
    exists new, l = visited ++ v :: new.
Proof.
  induction fuel as [|fuel IH]; intros g visited v g' l; [done|].
  cbn [UndirectedRec.rec_dfs truthy]. destruct (Dict.get g v) as [lv| |]; cbn; try done.
  intros (new & ->)%rec_dfs_loop_prefix.
  - exists new. by rewrite <- app_assoc.
  - intros g1 visited1 a g2 l2 (new1 & ->)%IH. by eexists.
Qed.

Lemma iter_dfs_prefix fuel :
  forall g stack vertex result g' l,
    UndirectedIter.dfs_loop fuel g None stack vertex result = Ok (g', l) ->
    exists new, l = result ++ new.
Proof.
  induction fuel as [|fuel IH]; intros g stack vertex result g' l; [done|].
  cbn [UndirectedIter.dfs_loop]. destruct stack as [|top below].
  { intros [= <- <-]. exists []. by rewrite app_nil_r. }
  destruct (Dict.get g vertex) as [edges| |]; cbn [mbind res_mbind res_bind]; try done.
  rewrite bool_decide_eq_false_2 by done.
  set (result1 := if negb (Py.mem vertex result) then result ++ [vertex] else result).
  assert (forall l, (exists new, l = result1 ++ new) -> exists new, l = result ++ new) as Hext.
  { intros l0 (new & ->). subst result1. destruct (Py.mem vertex result); cbn; [by eexists|].
    rewrite <- app_assoc. by eexists. }
  destruct (UndirectedIter.first_new (py_sort edges) result1) as [edge|].
  - destruct (decide (edge = vertex)); intros H%IH; by apply Hext.
  - rewrite decide_True by done. intros H%IH. by apply Hext.
Qed.
End UndirectedDfs.

(** X16. The recursive [dfs(v_start)], called without [v_end] on a vertex
    of a graph in the state the mutators keep, returns: with fuel for one
    call per vertex, the result is a list without repetition that begins
    with [v_start] and holds exactly the vertices that a path of edges
    joins to [v_start].  The graph keeps its vertices, and its lists up to
    their order, which the search sorts in place. *)
Theorem undirected_rec_dfs_reachable (g : Undirected.adj) (v : string) (fuel : nat) :
  Undirected.wf g -> v ∈ Undirected.get_vertices g ->
  (length (Undirected.get_vertices g) <= fuel)%nat ->
  exists g' rest,
    UndirectedRec.dfs fuel g v None = Ok (g', v :: rest) /\
    NoDup (v :: rest) /\
    (forall x, x ∈ v :: rest <-> Undirected.reach g v x) /\
    Undirected.get_vertices g' = Undirected.get_vertices g /\
    (forall x, Undirected.neighbors g' x ≡ₚ Undirected.neighbors g x).
Proof.
  intros Hwf Hv Hfuel.
  destruct (rec_dfs_ok g Hwf fuel g v) as (g' & l & Hrun & [Hk HN] & Hnd & Hreach);
    [apply same_graph_refl|done|done|].
  assert (exists rest, l = v :: rest) as (rest & ->).
  { unfold UndirectedRec.dfs in Hrun.
    rewrite (proj2 (mem_true _ _) Hv) in Hrun. cbn [negb] in Hrun.
    by apply rec_dfs_prefix in Hrun. }
  by exists g', rest.
Qed.

Lemma undirected_rec_dfs_reachable_witness :
  exists g' rest,
    UndirectedRec.dfs 4 path3 "B" None = Ok (g', "B"%string :: rest) /\
    ("C"%string ∈ "B"%string :: rest) /\ ~ Undirected.reach path3 "B" "D".
Proof.
  destruct (undirected_rec_dfs_reachable path3 "B" 4 path3_wf)
    as (g' & rest & Hrun & _ & Hreach & _).
  - apply mem_true. reflexivity.
  - simpl. lia.
  - exists g', rest. split; [exact Hrun|].
    pose proof Hrun as Hrun'. vm_compute in Hrun'. injection Hrun' as _ Hrest.
    split.
    + rewrite <- Hrest. apply mem_true. reflexivity.
    + rewrite <- Hreach, <- Hrest. apply mem_false. reflexivity.
Defined.

(** X17. The [dfs(v_start)] of [ud_graph.py], which keeps its own stack,
    called without [v_end] on a vertex of a graph in the state the mutators
    keep, never pops its empty stack and returns: with fuel for two rounds
    of the loop per vertex, the result is a list without repetition that
    begins with [v_start] and holds exactly the vertices that a path of
    edges joins to [v_start]. *)
Theorem undirected_iter_dfs_reachable (g : Undirected.adj) (v : string) (fuel : nat) :
  Undirected.wf g -> v ∈ Undirected.get_vertices g ->
  (2 * length (Undirected.get_vertices g) <= fuel)%nat ->
  exists g' rest,
    UndirectedIter.dfs fuel g v None = Ok (g', v :: rest) /\
    NoDup (v :: rest) /\
    (forall x, x ∈ v :: rest <-> Undirected.reach g v x) /\
    Undirected.get_vertices g' = Undirected.get_vertices g /\
    (forall x, Undirected.neighbors g' x ≡ₚ Undirected.neighbors g x).
Proof.
  intros Hwf Hv Hfuel.
  destruct (iter_dfs_ok g Hwf fuel g v) as (g' & l & Hrun & [Hk HN] & Hnd & Hreach);
    [apply same_graph_refl|done|done|].
  assert (exists rest, l = v :: rest) as (rest & ->).
  { unfold UndirectedIter.dfs in Hrun.
    assert (Dict.has g v = true) as Hhas by (unfold Dict.has; by apply bool_decide_eq_true).
    rewrite Hhas in Hrun. cbn [negb] in Hrun.
    destruct fuel as [|fuel]; [done|]. cbn [UndirectedIter.dfs_loop] in Hrun.
    destruct (Dict.get g v) as [edges| |]; cbn [mbind res_mbind res_bind] in Hrun; try done.
    rewrite bool_decide_eq_false_2 in Hrun by done.
    replace (Py.mem v []) with false in Hrun by done. cbn [negb app] in Hrun.
    destruct (UndirectedIter.first_new (py_sort edges) [v]) as [edge|].
    - destruct (decide (edge = v)); apply iter_dfs_prefix in Hrun as (new & ->); by eexists.
    - rewrite decide_True in Hrun by done.
      apply iter_dfs_prefix in Hrun as (new & ->). by eexists. }
  by exists g', rest.
Qed.

Lemma undirected_iter_dfs_reachable_witness :
  exists g' rest,
    UndirectedIter.dfs 8 path3 "B" None = Ok (g', "B"%string :: rest) /\
    ("C"%string ∈ "B"%string :: rest) /\ ~ Undirected.reach path3 "B" "D".
Proof.
  destruct (undirected_iter_dfs_reachable path3 "B" 8 path3_wf)
    as (g' & rest & Hrun & _ & Hreach & _).
  - apply mem_true. reflexivity.
  - simpl. lia.
  - exists g', rest. split; [exact Hrun|].
    pose proof Hrun as Hrun'. vm_compute in Hrun'. injection Hrun' as _ Hrest.
    split.
    + rewrite <- Hrest. apply mem_true. reflexivity.
    + rewrite <- Hreach, <- Hrest. apply mem_false. reflexivity.
Defined.

(** ** [solve_puzzle]: a destination that is not an open cell *)

Lemma route_end_open board src c p : Maze.route board src c p -> Maze.is_open board c.
Proof. by destruct 1. Qed.

(** A board with a wall in its first row *)
Definition walled : list (list string) := [ ["-"; "#"]; ["-"; "-"] ]%string.

(** X18. On a rectangular board with an open source, [solve_puzzle] with a
    destination other than the source that is a wall, or that lies outside
    the board, does not raise: it returns [None] once the fuel exceeds the
    number of cells by two. *)
Theorem solve_puzzle_closed_destination
    (board : list (list string)) (source destination : Maze.cell) (fuel : nat) :
  Maze.rectangular board ->
  Maze.is_open board source ->
  source <> destination ->
  ~ Maze.is_open board destination ->
  (length board * Maze.width board + 2 <= fuel)%nat ->
  Maze.solve_puzzle fuel board source destination = Ok None.
Proof.
  intros Hrect Hsrc Hne Hclosed Hfuel.
  destruct (solve_puzzle_any_destination board source destination Hrect Hsrc fuel Hfuel)
    as (r & -> & Hshort).
  destruct r as [p|]; [|done].
  destruct Hshort as [Hroute _]. by apply route_end_open in Hroute.
Qed.

Lemma solve_puzzle_closed_destination_witness :
  Maze.solve_puzzle 6 walled (0, 0) (0, 1) = Ok None /\
  Maze.solve_puzzle 6 walled (0, 0) (2, 0) = Ok None.
Proof.
  assert (Maze.rectangular walled) as Hrect by repeat constructor.
  assert (Maze.is_open walled (0, 0)) as Hsrc.
  { split; [unfold Maze.in_bounds, Maze.width, walled; simpl; lia|].
    exists "-"%string. by split. }
  split; apply solve_puzzle_closed_destination; try done.
  - intros [_ (s & Hs & Hwall)]. vm_compute in Hs. injection Hs as <-. done.
  - intros [[Hx _] _]. simpl in Hx. lia.
Defined.

(** ** [DirectedGraph.dfs] without [v_end] *)

(** [dreach g u v]: a path of edges leads from [u] to [v]. *)
Inductive dreach (g : Directed.DirectedGraph) (u : nat) : nat -> Prop :=
| dreach_here : dreach g u u
| dreach_step x y : dreach g u x -> Directed.weight g x y <> 0 -> dreach g u y.

Section DirectedDfs.
Import Directed.
Variable g : DirectedGraph.
Hypothesis Hwf : wf_graph g.
Implicit Types (vis new ds : list nat) (a v x y : nat).

Lemma dreach_trans u v x : dreach g u v -> dreach g v x -> dreach g u x.
Proof. intros Huv. induction 1; [done|]. by eapply dreach_step. Qed.

Lemma mem_of_nat a vis : Py.mem (Z.of_nat a) (Z.of_nat <$> vis) = bool_decide (a ∈ vis).
Proof.
  unfold Py.mem. apply bool_decide_ext. rewrite list_elem_of_fmap. split.
  - intros (b & Hb & Hin). by apply Nat2Z.inj in Hb as ->.
  - intros Ha. by exists a.
Qed.

Lemma NoDup_bounded_length vis n :
  NoDup vis -> (forall x, x ∈ vis -> (x < n)%nat) -> (length vis <= n)%nat.
Proof.
  intros Hnd Hsub. rewrite <- (length_seq n 0). apply submseteq_length.
  apply NoDup_submseteq; [done|]. intros x Hx. apply elem_of_seq. specialize (Hsub x Hx). lia.
Qed.

Lemma row_index a :
  (a < v_count g)%nat ->
  exists row, Py.index (adj_matrix g) (Z.of_nat a) = Ok row /\ length row = v_count g.
Proof.
  intros Ha. destruct Hwf as [Hlen Hrows].
  destruct (lookup_lt_is_Some_2 (adj_matrix g) a) as [row Hrow]; [lia|].
  exists row. split; [by apply index_of_nat|].
  rewrite Forall_forall in Hrows. apply Hrows. by eapply list_elem_of_lookup_2.
Qed.

(** The [for adj in range(len(row))] loop of [rec_dfs] without [v_end],
    [rec] being the recursive call *)
Fixpoint dfs_adjs (rec : list Z -> Z -> res (list Z)) (v : Z) (adjs : list Z)
    (visited : list Z) : res (list Z) :=
  match adjs with
  | [] => Ok visited
  | adj :: adjs' =>
      w ← cell g v adj;
      if negb (w =? 0) && negb (Py.mem adj visited)
      then visited' ← rec visited adj; dfs_adjs rec v adjs' visited'
      else dfs_adjs rec v adjs' visited
  end.

Lemma rec_dfs_unfold fuel visited (v : Z) :
  rec_dfs (S fuel) g visited v None =
  row ← Py.index (adj_matrix g) v;
  dfs_adjs (fun visited (a : Z) => rec_dfs fuel g visited a None) v
    (Py.range (length row)) (visited ++ [v]).
Proof.
  cbn [rec_dfs truthy]. destruct (Py.index (adj_matrix g) v) as [row| |]; [|done..].
  cbn [mbind res_mbind res_bind].
  generalize (visited ++ [v]). induction (Py.range (length row)) as [|adj adjs IH]; intros vis.
  - done.
  - cbn [dfs_adjs andb]. destruct (cell g v adj) as [w| |]; [|done..].
    cbn [mbind res_mbind res_bind].
    destruct (negb (w =? 0) && negb (Py.mem adj vis)); [|apply IH].
    destruct (rec_dfs fuel g vis adj None) as [vis'| |]; [|done..].
    cbn [mbind res_mbind res_bind]. apply IH.
Qed.

(** What a search from [v] adds to the vertices [vis]: vertices reachable
    from [v], each with all its successors in the list in the end. *)
Definition grown (v : nat) (vis new : list nat) : Prop :=
  NoDup (vis ++ new) /\
  (forall x, x ∈ new -> (x < v_count g)%nat) /\
  (forall x, x ∈ new -> dreach g v x) /\
  (forall x y, x ∈ new -> weight g x y <> 0 -> y ∈ vis ++ new).

Definition drec_ok (fuel : nat) (rec : list Z -> Z -> res (list Z)) : Prop :=
  forall vis a,
    NoDup vis -> (forall x, x ∈ vis -> (x < v_count g)%nat) ->
    (a < v_count g)%nat -> a ∉ vis ->
    (v_count g <= fuel + length vis)%nat ->
    exists new,
      rec (Z.of_nat <$> vis) (Z.of_nat a) = Ok (Z.of_nat <$> (vis ++ a :: new)) /\
      grown a vis (a :: new).

Lemma dfs_adjs_spec fuel rec v ds :
  drec_ok fuel rec -> (v < v_count g)%nat ->
  (forall a, a ∈ ds -> (a < v_count g)%nat) ->
  forall vis,
    NoDup vis -> (forall x, x ∈ vis -> (x < v_count g)%nat) ->
    (v_count g <= fuel + length vis)%nat ->
    exists new,
      dfs_adjs rec (Z.of_nat v) (Z.of_nat <$> ds) (Z.of_nat <$> vis)
        = Ok (Z.of_nat <$> (vis ++ new)) /\
      grown v vis new /\
      (forall a, a ∈ ds -> weight g v a <> 0 -> a ∈ vis ++ new).
Proof.
  intros Hrec Hv. induction ds as [|a ds IH]; intros Hds vis Hnd Hsub Hfuel.
  - exists []. rewrite app_nil_r. split; [done|]. split.
    + split; [by rewrite app_nil_r|].
      split; [|split]; [intros x Hx|intros x Hx|intros x y Hx]; by apply elem_of_nil in Hx.
    + by intros a ?%elem_of_nil.
  - assert (a < v_count g)%nat as Ha by (apply Hds; left).
    assert (forall a', a' ∈ ds -> (a' < v_count g)%nat) as Hds' by (intros a' ?; apply Hds; by right).
    cbn [fmap list_fmap dfs_adjs]. rewrite (cell_weight g Hwf v a Hv Ha).
    cbn [mbind res_mbind res_bind]. rewrite mem_of_nat.
    destruct (decide (weight g v a <> 0 /\ a ∉ vis)) as [[Hw Hnew]|Hskip].
    + rewrite (proj2 (Z.eqb_neq _ _) Hw), bool_decide_eq_false_2 by done. cbn [negb andb].
      destruct (Hrec vis a) as (new1 & -> & Hnd1 & Hsub1 & Hreach1 & Hclosed1); try done.
      cbn [mbind res_mbind res_bind].
      destruct (IH Hds' (vis ++ a :: new1)) as (new2 & Hrun & Hgrow2 & Hall); try done.
      { intros x [Hx|Hx]%elem_of_app; auto. }
      { rewrite length_app. simpl. lia. }
      destruct Hgrow2 as (Hnd2 & Hsub2 & Hreach2 & Hclosed2).
      exists ((a :: new1) ++ new2). rewrite Hrun. unfold grown. rewrite !app_assoc.
      split; [done|]. split; [split; [done|split; [|split]]|].
      * intros x [Hx|Hx]%elem_of_app; auto.
      * intros x [Hx|Hx]%elem_of_app; [|by apply Hreach2].
        eapply dreach_trans; [|by apply Hreach1].
        eapply dreach_step; [constructor|done].
      * intros x y [Hx|Hx]%elem_of_app Hy; [|by eapply Hclosed2].
        apply elem_of_app. left. by eapply Hclosed1.
      * intros a' [->|Ha']%elem_of_cons Hw'; [|by apply Hall].
        apply elem_of_app. left. apply elem_of_app. right. left.
    + assert (negb (weight g v a =? 0) && negb (bool_decide (a ∈ vis)) = false) as ->.
      { destruct (weight g v a =? 0) eqn:E; [done|]. apply Z.eqb_neq in E. cbn.
        rewrite bool_decide_eq_true_2; [done|].
        destruct (decide (a ∈ vis)); [done|]. destruct Hskip. done. }
      destruct (IH Hds' vis) as (new & Hrun & Hgrow & Hall); try done.
      exists new. split; [done|]. split; [done|].
      intros a' [->|Ha']%elem_of_cons Hw'; [|by apply Hall].
      apply elem_of_app. left. destruct (decide (a ∈ vis)); [done|]. destruct Hskip. done.
Qed.

Lemma directed_rec_dfs_spec fuel :
  drec_ok fuel (fun visited (a : Z) => rec_dfs fuel g visited a None).
Proof.
  induction fuel as [|fuel IH]; intros vis v Hnd Hsub Hv Hnv Hfuel.
  - pose proof (NoDup_bounded_length (vis ++ [v]) (v_count g)) as Hlen.
    rewrite length_app in Hlen. simpl in Hlen, Hfuel.
    assert (length vis + 1 <= v_count g)%nat; [|lia].
    apply Hlen.
    + apply NoDup_app. split; [done|]. split; [|apply NoDup_singleton].
      intros x Hx ->%list_elem_of_singleton. done.
    + intros x [Hx|Hx%list_elem_of_singleton]%elem_of_app; subst; auto.
  - rewrite rec_dfs_unfold. destruct (row_index v Hv) as (row & -> & Hlen).
    cbn [mbind res_mbind res_bind]. rewrite Hlen. unfold Py.range.
    change [Z.of_nat v] with (Z.of_nat <$> [v]). rewrite <- fmap_app.
    destruct (dfs_adjs_spec fuel _ v (seq 0 (v_count g)) IH Hv) with (vis := vis ++ [v])
      as (new & -> & Hgrow & Hall).
    + intros a Ha%elem_of_seq. lia.
    + apply NoDup_app. split; [done|]. split; [|apply NoDup_singleton].
      intros x Hx ->%list_elem_of_singleton. done.
    + intros x [Hx|Hx%list_elem_of_singleton]%elem_of_app; subst; auto.
    + rewrite length_app. simpl. lia.
    + destruct Hgrow as (Hnd' & Hsub' & Hreach & Hclosed).
      exists new. rewrite <- app_assoc in *. cbn [app] in *.
      split; [done|]. split; [done|]. split; [|split].
      * intros x [->|Hx]%elem_of_cons; auto.
      * intros x [->|Hx]%elem_of_cons; [constructor|by apply Hreach].
      * intros x y [->|Hx]%elem_of_cons Hy; [|by eapply Hclosed].
        apply Hall; [|done]. apply elem_of_seq.
        destruct (weight_in_range g Hwf v y Hy). lia.
Qed.

Lemma closed_dreach (l : list nat) v x :
  v ∈ l -> (forall a b, a ∈ l -> weight g a b <> 0 -> b ∈ l) -> dreach g v x -> x ∈ l.
Proof. intros Hv Hclosed. induction 1; eauto. Qed.
End DirectedDfs.

(** X19. [DirectedGraph.dfs(v_start)], called without [v_end] on a vertex
    of a well-shaped graph, returns: with a recursion depth of at most the
    number of vertices, the result is a list without repetition that begins
    with [v_start] and holds exactly the vertices that a directed path
    leads to from [v_start]. *)
Theorem directed_dfs_reachable (g : Directed.DirectedGraph) (v fuel : nat) :
  Directed.wf_graph g -> (v < Directed.v_count g)%nat ->
  (Directed.v_count g <= fuel)%nat ->
  exists rest,
    Directed.dfs fuel g (Z.of_nat v) None = Ok (Z.of_nat <$> v :: rest) /\
    NoDup (v :: rest) /\
    (forall x, x ∈ v :: rest <-> dreach g v x).
Proof.
  intros Hwf Hv Hfuel. unfold Directed.dfs.
  rewrite mem_get_vertices, in_range_of_nat, bool_decide_eq_true_2 by done. cbn [negb].
  destruct (directed_rec_dfs_spec g Hwf fuel [] v) as (rest & Hrun & Hnd & _ & Hreach & Hclosed).
  - apply NoDup_nil_2.
  - by intros x ?%elem_of_nil.
  - done.
  - apply not_elem_of_nil.
  - simpl. lia.
  - exists rest. split; [done|]. split; [done|].
    intros x. split; [apply Hreach|].
    apply closed_dreach; [left|]. intros a b. apply Hclosed.
Qed.

Lemma directed_dfs_reachable_witness :
  exists rest,
    Directed.dfs 5 Directed.example_graph 1 None = Ok (Z.of_nat <$> 1%nat :: rest) /\
    NoDup (1%nat :: rest) /\ dreach Directed.example_graph 1 2.
Proof.
  destruct (directed_dfs_reachable Directed.example_graph 1 5 example_graph_wf)
    as (rest & Hrun & Hnd & Hreach).
  - simpl. lia.
  - simpl. lia.
  - exists rest. split; [exact Hrun|]. split; [exact Hnd|].
    apply Hreach. pose proof Hrun as Hrun'. vm_compute in Hrun'.
    injection Hrun' as Hrest.
    assert (Z.of_nat <$> rest = Z.of_nat <$> [4; 0; 3; 2]%nat) as Heq by (symmetry; exact Hrest).
    apply (inj (fmap Z.of_nat)) in Heq. rewrite Heq. apply mem_true. reflexivity.
Defined.

(** ** [DirectedGraph.has_cycle] *)

(** Some edge lies on a directed cycle. *)
Definition on_cycle (g : Directed.DirectedGraph) : Prop :=
  exists x y, Directed.weight g x y <> 0 /\ dreach g y x.

(** The vertices a search has left, in the order it left them: each has
    its successors among the vertices left before it. *)
Inductive finished (g : Directed.DirectedGraph) : list nat -> Prop :=
| finished_nil : finished g []
| finished_snoc l x :
    finished g l -> x ∉ l -> (forall y, Directed.weight g x y <> 0 -> y ∈ l) ->
    finished g (l ++ [x]).

(** The number of flags set in a list of flags *)
Fixpoint trues (l : list bool) : nat :=
  match l with
  | [] => 0
  | b :: l' => ((if b then 1 else 0) + trues l')%nat
  end.

Section DirectedCycle.
Import Directed.
Variable g : DirectedGraph.
Hypothesis Hwf : wf_graph g.
Implicit Types (fin new ds : list nat) (a v x y : nat) (visited path : list bool).

Lemma trues_insert path v :
  path !! v = Some false -> trues (<[v := true]> path) = S (trues path).
Proof.
  revert v. induction path as [|b path IH]; intros [|v]; simpl; try done.
  - by intros [= ->].
  - intros Hv. rewrite (IH v Hv). lia.
Qed.

Lemma trues_lt path v : path !! v = Some false -> (trues path < length path)%nat.
Proof.
  assert (forall l, (trues l <= length l)%nat) as Hle.
  { induction l as [|[] l IH]; simpl; lia. }
  revert v. induction path as [|b path IH]; intros [|v]; simpl; try done.
  - intros [= ->]. specialize (Hle path). lia.
  - intros Hv. specialize (IH v Hv). destruct b; lia.
Qed.

Lemma trues_replicate n : trues (replicate n false) = 0%nat.
Proof. induction n; simpl; lia. Qed.

Lemma finished_closed l x y : finished g l -> x ∈ l -> weight g x y <> 0 -> y ∈ l.
Proof.
  induction 1 as [|l x0 Hl IH Hx0 Hsucc]; [by intros ?%elem_of_nil|].
  intros [Hx|Hx%list_elem_of_singleton]%elem_of_app Hy; apply elem_of_app; left.
  - by apply IH.
  - subst. by apply Hsucc.
Qed.

Lemma finished_reach l x y : finished g l -> x ∈ l -> dreach g x y -> y ∈ l.
Proof. intros Hl Hx. induction 1; [done|]. by eapply finished_closed. Qed.

Lemma finished_acyclic l x y :
  finished g l -> x ∈ l -> weight g x y <> 0 -> dreach g y x -> False.
Proof.
  induction 1 as [|l x0 Hl IH Hx0 Hsucc]; [by intros ?%elem_of_nil|].
  intros [Hx|Hx%list_elem_of_singleton]%elem_of_app Hy Hback.
  - by apply IH.
  - subst. apply Hx0. eapply finished_reach; [done| |done]. by apply Hsucc.
Qed.

(** The [for adj in range(len(self.adj_matrix[v]))] loop of the inner
    [rec_dfs] and the two lines after it, [rec] being the recursive call *)
Fixpoint cycle_adjs (rec : list bool -> list bool -> Z -> res (bool * (list bool * list bool)))
    (v : Z) (adjs : list Z) (visited path : list bool)
    : res (bool * (list bool * list bool)) :=
  match adjs with
  | [] => path ← Py.setitem path v false; Ok (false, (visited, path))
  | adj :: adjs' =>
      w ← cell g v adj;
      if negb (w =? 0) then
        seen ← Py.index visited adj;
        if negb seen then
          r ← rec visited path adj;
          let '(found, (visited', path')) := (r : bool * (list bool * list bool)) in
          if found then Ok (true, (visited', path')) else cycle_adjs rec v adjs' visited' path'
        else
          on_path ← Py.index path adj;
          if (on_path : bool) then Ok (true, (visited, path))
          else cycle_adjs rec v adjs' visited path
      else cycle_adjs rec v adjs' visited path
  end.

Lemma cycle_dfs_unfold fuel visited path (v : Z) :
  cycle_dfs (S fuel) g visited path v =
  visited ← Py.setitem visited v true;
  path ← Py.setitem path v true;
  row ← Py.index (adj_matrix g) v;
  cycle_adjs (fun visited path (a : Z) => cycle_dfs fuel g visited path a) v
    (Py.range (length row)) visited path.
Proof.
  cbn [cycle_dfs]. destruct (Py.setitem visited v true) as [visited1| |]; [|done..].
  cbn [mbind res_mbind res_bind].
  destruct (Py.setitem path v true) as [path1| |]; [|done..].
  cbn [mbind res_mbind res_bind].
  destruct (Py.index (adj_matrix g) v) as [row| |]; [|done..].
  cbn [mbind res_mbind res_bind].
  generalize visited1 path1.
  induction (Py.range (length row)) as [|adj adjs IH]; intros vi pa; [done|].
  cbn [cycle_adjs]. destruct (cell g v adj) as [w| |]; [|done..].
  cbn [mbind res_mbind res_bind].
  destruct (negb (w =? 0)); [|apply IH].
  destruct (Py.index vi adj) as [seen| |]; [|done..].
  cbn [mbind res_mbind res_bind]. destruct (negb seen).
  - destruct (cycle_dfs fuel g vi pa adj) as [[found [vi' pa']]| |]; [|done..].
    cbn [mbind res_mbind res_bind]. destruct found; [done|apply IH].
  - destruct (Py.index pa adj) as [on_path| |]; [|done..].
    cbn [mbind res_mbind res_bind]. destruct on_path; [done|apply IH].
Qed.

(** The two lists of flags and the vertices the search has left: the
    vertices on the current path are flagged in both lists, the vertices
    left are flagged in [visited] only, and no other vertex is flagged. *)
Definition flags_inv (visited path : list bool) (fin : list nat) : Prop :=
  length visited = v_count g /\ length path = v_count g /\ finished g fin /\
  (forall x, x ∈ fin -> visited !! x = Some true /\ path !! x = Some false) /\
  (forall x, visited !! x = Some true -> x ∈ fin \/ path !! x = Some true) /\
  (forall x, path !! x = Some true -> visited !! x = Some true).

Definition crec_ok (fuel : nat)
    (rec : list bool -> list bool -> Z -> res (bool * (list bool * list bool))) : Prop :=
  forall visited path fin v,
    flags_inv visited path fin -> (v < v_count g)%nat ->
    visited !! v = Some false ->
    (forall x, path !! x = Some true -> dreach g x v) ->
    (v_count g <= fuel + trues path)%nat ->
    exists found visited' path',
      rec visited path (Z.of_nat v) = Ok (found, (visited', path')) /\
      if (found : bool) then on_cycle g
      else path' = path /\
           exists new, flags_inv visited' path (fin ++ new) /\ v ∈ fin ++ new.

Lemma flag_index (l : list bool) a :
  (a < length l)%nat -> exists b, l !! a = Some b /\ Py.index l (Z.of_nat a) = Ok b.
Proof.
  intros Ha. destruct (lookup_lt_is_Some_2 l a Ha) as [b Hb].
  exists b. split; [done|]. by apply index_of_nat.
Qed.

Lemma cycle_adjs_spec fuel rec v path ds :
  crec_ok fuel rec -> (v < v_count g)%nat ->
  path !! v = Some true ->
  (forall x, path !! x = Some true -> dreach g x v) ->
  (v_count g <= fuel + trues path)%nat ->
  (forall a, a ∈ ds -> (a < v_count g)%nat) ->
  forall visited fin,
    flags_inv visited path fin ->
    (forall a, weight g v a <> 0 -> a ∈ fin \/ a ∈ ds) ->
    exists found visited' path',
      cycle_adjs rec (Z.of_nat v) (Z.of_nat <$> ds) visited path
        = Ok (found, (visited', path')) /\
      if (found : bool) then on_cycle g
      else path' = <[v := false]> path /\
           exists new, flags_inv visited' path' (fin ++ new) /\ v ∈ fin ++ new.
Proof.
  intros Hrec Hv Hgrey Hreach Hfuel.
  induction ds as [|a ds IH]; intros Hds visited fin Hinv Hsucc.
  - destruct Hinv as (Hlv & Hlp & Hfin & Hblack & Hseen & Hpath).
    cbn [fmap list_fmap cycle_adjs]. rewrite setitem_of_nat by lia.
    cbn [mbind res_mbind res_bind].
    exists false, visited, (<[v := false]> path). split; [done|]. split; [done|].
    exists [v]. split; [|apply elem_of_app; right; left].
    assert (v ∉ fin) as Hvfin.
    { intros Hin. apply Hblack in Hin as [_ Hin]. congruence. }
    split; [done|]. split; [by rewrite length_insert|]. split; [|split; [|split]].
    + apply finished_snoc; [done..|]. intros y Hy.
      destruct (Hsucc y Hy) as [?|Hin]; [done|]. by apply elem_of_nil in Hin.
    + intros x [Hx|Hx%list_elem_of_singleton]%elem_of_app.
      * destruct (Hblack x Hx) as [Hvx Hpx]. split; [done|].
        rewrite list_lookup_insert_ne; [done|]. intros <-. done.
      * subst x. split; [by apply Hpath|]. apply list_lookup_insert_eq. lia.
    + intros x Hx. destruct (decide (x = v)) as [->|Hne].
      * left. apply elem_of_app. right. left.
      * rewrite list_lookup_insert_ne by done.
        destruct (Hseen x Hx) as [?|?]; [left; apply elem_of_app; by left|by right].
    + intros x. destruct (decide (x = v)) as [->|Hne].
      * rewrite list_lookup_insert_eq by lia. done.
      * rewrite list_lookup_insert_ne by done. apply Hpath.
  - assert (a < v_count g)%nat as Ha by (apply Hds; left).
    assert (forall a', a' ∈ ds -> (a' < v_count g)%nat) as Hds' by (intros a' ?; apply Hds; by right).
    pose proof Hinv as (Hlv & Hlp & Hfin & Hblack & Hseen & Hpath).
    cbn [fmap list_fmap cycle_adjs]. rewrite (cell_weight g Hwf v a Hv Ha).
    cbn [mbind res_mbind res_bind].
    destruct (weight g v a =? 0) eqn:Ew; cbn [negb].
    { apply Z.eqb_eq in Ew. apply IH; [done..|].
      intros a' Ha'. destruct (Hsucc a' Ha') as [?|[->|?]%elem_of_cons]; auto. done. }
    apply Z.eqb_neq in Ew.
    destruct (flag_index visited a) as (seen & Hseen_a & ->); [lia|].
    cbn [mbind res_mbind res_bind]. destruct seen; cbn [negb].
    + destruct (flag_index path a) as (on_path & Hpath_a & ->); [lia|].
      cbn [mbind res_mbind res_bind]. destruct on_path.
      * exists true, visited, path. split; [done|].
        exists v, a. split; [done|]. by apply Hreach.
      * apply IH; [done..|].
        intros a' Ha'. destruct (Hsucc a' Ha') as [?|[->|?]%elem_of_cons]; auto.
        destruct (Hseen a Hseen_a) as [?|?]; [by left|congruence].
    + destruct (Hrec visited path fin a) as (found & visited1 & path1 & -> & Hres); try done.
      { intros x Hx. eapply dreach_step; [by apply Hreach|done]. }
      cbn [mbind res_mbind res_bind]. destruct found.
      * exists true, visited1, path1. by split.
      * destruct Hres as (-> & new1 & Hinv1 & Ha1).
        destruct (IH Hds' visited1 (fin ++ new1) Hinv1) as (found & visited2 & path2 & Hrun & Hres).
        { intros a' Ha'. destruct (Hsucc a' Ha') as [?|[->|?]%elem_of_cons]; auto.
          left. apply elem_of_app. by left. }
        exists found, visited2, path2. split; [done|].
        destruct found; [done|]. destruct Hres as (-> & new2 & Hinv2 & Hv2).
        split; [done|]. exists (new1 ++ new2). by rewrite app_assoc.
Qed.

Lemma cycle_dfs_spec fuel :
  crec_ok fuel (fun visited path (a : Z) => cycle_dfs fuel g visited path a).
Proof.
  induction fuel as [|fuel IH]; intros visited path fin v Hinv Hv Hwhite Hreach Hfuel;
    pose proof Hinv as (Hlv & Hlp & Hfin & Hblack & Hseen & Hpath).
  - assert (path !! v = Some false) as Hpv.
    { destruct (lookup_lt_is_Some_2 path v) as [[|] Hb]; [lia| |done].
      apply Hpath in Hb. congruence. }
    apply trues_lt in Hpv. simpl in Hfuel. lia.
  - assert (path !! v = Some false) as Hpv.
    { destruct (lookup_lt_is_Some_2 path v) as [[|] Hb]; [lia| |done].
      apply Hpath in Hb. congruence. }
    rewrite cycle_dfs_unfold. rewrite !setitem_of_nat by lia.
    cbn [mbind res_mbind res_bind].
    destruct (row_index g Hwf v Hv) as (row & -> & Hlen).
    cbn [mbind res_mbind res_bind]. rewrite Hlen. unfold Py.range.
    destruct (cycle_adjs_spec fuel _ v (<[v := true]> path) (seq 0 (v_count g)) IH Hv)
      with (visited := <[v := true]> visited) (fin := fin)
      as (found & visited' & path' & -> & Hres).
    + apply list_lookup_insert_eq. lia.
    + intros x. destruct (decide (x = v)) as [->|Hne]; [constructor|].
      rewrite list_lookup_insert_ne by done. apply Hreach.
    + rewrite (trues_insert _ _ Hpv). lia.
    + intros a Ha%elem_of_seq. lia.
    + split; [by rewrite length_insert|]. split; [by rewrite length_insert|].
      split; [done|]. split; [|split].
      * intros x Hx. destruct (Hblack x Hx) as [Hvx Hpx].
        assert (x <> v) as Hne by (intros ->; congruence).
        by rewrite !list_lookup_insert_ne.
      * intros x. destruct (decide (x = v)) as [->|Hne].
        -- intros _. right. apply list_lookup_insert_eq. lia.
        -- rewrite !list_lookup_insert_ne by done. apply Hseen.
      * intros x. destruct (decide (x = v)) as [->|Hne].
        -- intros _. apply list_lookup_insert_eq. lia.
        -- rewrite !list_lookup_insert_ne by done. apply Hpath.
    + intros a Ha. right. apply elem_of_seq.
      destruct (weight_in_range g Hwf v a Ha). lia.
    + exists found, visited', path'. split; [done|]. destruct found; [done|].
      destruct Hres as (-> & new & Hinv' & Hvin).
      rewrite list_insert_insert_eq, list_insert_id in * by done. eauto.
Qed.

Lemma cycle_roots_spec fuel ds :
  (v_count g <= fuel)%nat ->
  (forall a, a ∈ ds -> (a < v_count g)%nat) ->
  forall visited fin,
    flags_inv visited (replicate (v_count g) false) fin ->
    (forall x, (x < v_count g)%nat -> x ∈ fin \/ x ∈ ds) ->
    exists b,
      cycle_roots fuel g visited (replicate (v_count g) false) (Z.of_nat <$> ds) = Ok b /\
      (b = true <-> on_cycle g).
Proof.
  intros Hfuel. set (path0 := replicate (v_count g) false).
  assert (forall x, path0 !! x <> Some true) as Hnone.
  { intros x Hx. apply lookup_replicate in Hx as [? _]. done. }
  induction ds as [|a ds IH]; intros Hds visited fin Hinv Hall.
  - exists false. split; [done|]. split; [done|].
    intros (x & y & Hxy & Hback). exfalso.
    destruct Hinv as (_ & _ & Hfin & _).
    destruct (weight_in_range g Hwf x y Hxy) as [Hx _].
    destruct (Hall x Hx) as [Hin|Hin]; [|by apply elem_of_nil in Hin].
    by eapply finished_acyclic.
  - assert (a < v_count g)%nat as Ha by (apply Hds; left).
    assert (forall a', a' ∈ ds -> (a' < v_count g)%nat) as Hds' by (intros a' ?; apply Hds; by right).
    pose proof Hinv as (Hlv & Hlp & Hfin & Hblack & Hseen & Hpath).
    cbn [fmap list_fmap cycle_roots].
    destruct (flag_index visited a) as (seen & Hseen_a & ->); [lia|].
    cbn [mbind res_mbind res_bind]. destruct seen.
    + apply (IH Hds' visited fin Hinv).
      intros x Hx. destruct (Hall x Hx) as [?|[->|?]%elem_of_cons]; auto.
      destruct (Hseen a Hseen_a) as [?|?]; [by left|]. by destruct (Hnone a).
    + destruct (row_index g Hwf a Ha) as (row & -> & _).
      cbn [mbind res_mbind res_bind].
      destruct (cycle_dfs_spec fuel visited path0 fin a) as (found & visited1 & path1 & -> & Hres);
        try done.
      { intros x Hx. by destruct (Hnone x). }
      { lia. }
      cbn [mbind res_mbind res_bind]. destruct found.
      * exists true. by split.
      * destruct Hres as (-> & new & Hinv1 & Ha1).
        apply (IH Hds' visited1 (fin ++ new) Hinv1).
        intros x Hx. destruct (Hall x Hx) as [?|[->|?]%elem_of_cons]; auto.
        left. apply elem_of_app. by left.
Qed.
End DirectedCycle.

(** X20. [DirectedGraph.has_cycle] on a well-shaped graph returns, with a
    recursion depth of at most the number of vertices, and returns [True]
    exactly when the graph has a directed cycle: an edge from some vertex
    [x] to a vertex [y] from which a directed path leads back to [x]. *)
Theorem directed_has_cycle_correct (g : Directed.DirectedGraph) (fuel : nat) :
  Directed.wf_graph g -> (Directed.v_count g <= fuel)%nat ->
  exists b, Directed.has_cycle fuel g = Ok b /\ (b = true <-> on_cycle g).
Proof.
  intros Hwf Hfuel. unfold Directed.has_cycle, Directed.get_vertices, Py.range.
  rewrite length_fmap, length_seq.
  apply (cycle_roots_spec g Hwf fuel (seq 0 (Directed.v_count g)) Hfuel) with (fin := []).
  - intros a Ha%elem_of_seq. lia.
  - split; [by rewrite length_replicate|]. split; [by rewrite length_replicate|].
    split; [constructor|]. split; [by intros x ?%elem_of_nil|]. split; [|done].
    intros x Hx. apply lookup_replicate in Hx as [? _]. done.
  - intros x Hx. right. apply elem_of_seq. lia.
Qed.

Lemma directed_has_cycle_correct_witness :
  Directed.has_cycle 5 Directed.example_graph = Ok true /\ on_cycle Directed.example_graph.
Proof.
  destruct (directed_has_cycle_correct Directed.example_graph 5 example_graph_wf)
    as (b & Hrun & Hiff).
  - simpl. lia.
  - pose proof Hrun as Hrun'. vm_compute in Hrun'. injection Hrun' as <-.
    split; [exact Hrun|]. by apply Hiff.
Defined.

(** ** [UndirectedGraph(start_edges)] *)

Section UndirectedInit.
Import Undirected.
Implicit Types (g : adj) (u v x y k : string) (es : list (string * string)).

(** [add_edge(u, v)] in terms of membership, the two names equal or not *)
Lemma add_edge_elem g u v :
  wf g ->
  exists g', add_edge g u v = Ok g' /\ wf g' /\
    (forall x y, y ∈ neighbors g' x <->
       y ∈ neighbors g x \/ (u <> v /\ ((x = u /\ y = v) \/ (x = v /\ y = u)))) /\
    (forall k, k ∈ Dict.keys g' <-> k ∈ Dict.keys g \/ (u <> v /\ (k = u \/ k = v))).
Proof.
  intros Hwf. destruct (decide (u = v)) as [->|Hne].
  { exists g. unfold add_edge. rewrite decide_True by done.
    split; [done|]. split; [done|]. split; intros; tauto. }
  destruct (wf_add_edge g u v Hwf) as (g' & Hrun & Hwf').
  destruct (add_edge_effect g u v Hwf Hne) as (g1 & Hrun1 & Hkeys & HN & _).
  assert (g1 = g') as -> by congruence.
  pose proof Hwf as (_ & _ & Hsym & _).
  assert (forall k, Dict.has g k = true <-> k ∈ Dict.keys g) as Hhas.
  { intros k. unfold Dict.has. apply bool_decide_eq_true. }
  exists g'. split; [done|]. split; [done|]. split.
  - intros x y. rewrite HN. destruct (decide (v ∈ neighbors g u)) as [Hin|Hout].
    + split; [tauto|]. intros [?|(_ & [[-> ->]|[-> ->]])]; [done..|]. by apply Hsym.
    + destruct (decide (x = u)) as [->|Hxu]; [|destruct (decide (x = v)) as [->|Hxv]].
      * rewrite elem_of_app, list_elem_of_singleton. split; [tauto|].
        intros [?|(_ & [[_ ->]|[-> _]])]; tauto.
      * rewrite elem_of_app, list_elem_of_singleton. split; [tauto|].
        intros [?|(_ & [[? _]|[_ ->]])]; tauto.
      * split; [tauto|]. intros [?|(_ & [[? _]|[? _]])]; tauto.
  - intros k. rewrite Hkeys, !elem_of_app.
    destruct (Dict.has g u) eqn:Eu, (Dict.has g v) eqn:Ev;
      rewrite ?elem_of_nil, ?list_elem_of_singleton.
    + apply Hhas in Eu, Ev. split; [tauto|]. intros [?|(_ & [->| ->])]; tauto.
    + apply Hhas in Eu. split; [tauto|]. intros [?|(_ & [->| ->])]; tauto.
    + apply Hhas in Ev. split; [tauto|]. intros [?|(_ & [->| ->])]; tauto.
    + tauto.
Qed.

Lemma init_effect es :
  forall g, wf g ->
  exists g', init g es = Ok g' /\ wf g' /\
    (forall x y, y ∈ neighbors g' x <->
       y ∈ neighbors g x \/ (x <> y /\ ((x, y) ∈ es \/ (y, x) ∈ es))) /\
    (forall k, k ∈ Dict.keys g' <->
       k ∈ Dict.keys g \/ exists u v, (u, v) ∈ es /\ u <> v /\ (k = u \/ k = v)).
Proof.
  induction es as [|[u v] es IH]; intros g Hwf.
  - exists g. split; [done|]. split; [done|]. split.
    + intros x y. split; [by left|]. intros [?|(_ & [?%elem_of_nil|?%elem_of_nil])]; done.
    + intros k. split; [by left|]. intros [?|(? & ? & ?%elem_of_nil & _)]; done.
  - cbn [init]. destruct (add_edge_elem g u v Hwf) as (g1 & -> & Hwf1 & HN1 & Hk1).
    cbn [mbind res_mbind res_bind].
    destruct (IH g1 Hwf1) as (g' & -> & Hwf' & HN & Hk).
    exists g'. split; [done|]. split; [done|]. split.
    + intros x y. rewrite HN, HN1, !elem_of_cons. split.
      * intros [[?|(Hne & [[-> ->]|[-> ->]])]|(? & [?|?])]; eauto 6.
      * intros [?|(Hne & [[[= -> ->]|?]|[[= -> ->]|?]])]; eauto 8.
    + intros k. rewrite Hk, Hk1. split.
      * intros [[?|(Hne & Hor)]|(a & b & Hin & Hab & Hor)]; [by left| |].
        -- right. exists u, v. split; [left|done].
        -- right. exists a, b. split; [by right|done].
      * intros [?|(a & b & [[= -> ->]|Hin]%elem_of_cons & Hab & Hor)]; [by left; left| |].
        -- left. right. done.
        -- right. eauto.
Qed.
End UndirectedInit.

(** X21. [UndirectedGraph(start_edges)] never raises.  In the graph it
    builds two names are neighbours exactly when they differ and the list
    pairs them, in either order; the vertices are exactly the names that
    the list pairs with a different name, so that a pair of one name with
    itself adds neither an edge nor a vertex. *)
Theorem undirected_init_edges (start_edges : list (string * string)) :
  exists g,
    Undirected.init Undirected.empty start_edges = Ok g /\
    Undirected.wf g /\
    (forall x y, y ∈ Undirected.neighbors g x <->
       x <> y /\ ((x, y) ∈ start_edges \/ (y, x) ∈ start_edges)) /\
    (forall k, k ∈ Undirected.get_vertices g <->
       exists u v, (u, v) ∈ start_edges /\ u <> v /\ (k = u \/ k = v)).
Proof.
  destruct (init_effect start_edges Undirected.empty wf_empty) as (g & Hrun & Hwf & HN & Hk).
  exists g. split; [done|]. split; [done|]. split.
  - intros x y. rewrite HN. split; [|by right].
    intros [Hin|?]; [|done]. by apply elem_of_nil in Hin.
  - intros k. unfold Undirected.get_vertices. rewrite Hk. split; [|by right].
    intros [Hin|?]; [|done]. by apply elem_of_nil in Hin.
Qed.

(** ** Breadth-first order, for any graph *)

Section BfsOrder.
Context {V : Type} `{EqDecision V}.
Variable edge : V -> V -> Prop.
Variable s : V.
Implicit Types (q vis new seen : list V) (x y z w : V) (d k : nat).

(** [hops x k]: some path of [k] edges leads from the start to [x]. *)
Inductive hops : V -> nat -> Prop :=
| hops_here : hops s 0
| hops_step x y k : hops x k -> edge x y -> hops y (S k).

(** [hop_dist x d]: the shortest path from the start to [x] has [d] edges. *)
Definition hop_dist (x : V) (d : nat) : Prop :=
  hops x d /\ forall k, hops x k -> (d <= k)%nat.

Lemma hop_dist_unique x d d' : hop_dist x d -> hop_dist x d' -> d = d'.
Proof. intros [H1 M1] [H2 M2]. specialize (M1 _ H2). specialize (M2 _ H1). lia. Qed.

(** The queue without the entries that are visited or that repeat an
    earlier entry *)
Fixpoint eff (seen q : list V) : list V :=
  match q with
  | [] => []
  | x :: q' => if decide (x ∈ seen) then eff seen q' else x :: eff (x :: seen) q'
  end.

Lemma eff_elem q : forall seen z, z ∈ eff seen q <-> z ∈ q /\ z ∉ seen.
Proof.
  induction q as [|x q IH]; intros seen z; simpl.
  - split; [by intros ?%elem_of_nil|by intros [?%elem_of_nil _]].
  - destruct (decide (x ∈ seen)) as [Hx|Hx].
    + rewrite IH, elem_of_cons. split; [tauto|]. intros [[->|?] ?]; tauto.
    + rewrite !elem_of_cons, IH, not_elem_of_cons. split.
      * intros [->|(? & ? & ?)]; tauto.
      * intros [[->|?] ?]; [by left|]. destruct (decide (z = x)); tauto.
Qed.

Lemma eff_ext q : forall seen seen', (forall z, z ∈ seen <-> z ∈ seen') -> eff seen q = eff seen' q.
Proof.
  induction q as [|x q IH]; intros seen seen' Hext; simpl; [done|].
  destruct (decide (x ∈ seen)) as [Hx|Hx].
  - rewrite decide_True by (by apply Hext). by apply IH.
  - rewrite decide_False by (by rewrite <- Hext). f_equal. apply IH.
    intros z. rewrite !elem_of_cons, Hext. done.
Qed.

Lemma eff_app q1 : forall seen q2, eff seen (q1 ++ q2) = eff seen q1 ++ eff (q1 ++ seen) q2.
Proof.
  induction q1 as [|x q1 IH]; intros seen q2; simpl; [done|].
  destruct (decide (x ∈ seen)) as [Hx|Hx].
  - rewrite IH. f_equal. apply eff_ext. intros z.
    rewrite elem_of_cons, !elem_of_app. split; [tauto|]. intros [->|?]; tauto.
  - simpl. f_equal. rewrite IH. f_equal. apply eff_ext. intros z.
    rewrite !elem_of_cons, !elem_of_app, !elem_of_cons. tauto.
Qed.

Lemma eff_nil q seen : (forall z, z ∈ q -> z ∈ seen) -> eff seen q = [].
Proof.
  intros Hall. destruct (eff seen q) as [|z l] eqn:E; [done|].
  assert (z ∈ eff seen q) as Hz by (rewrite E; left).
  apply eff_elem in Hz as [Hz Hn]. by apply Hall in Hz.
Qed.

(** The levels of the search: the entries of the queue that count are at
    distance [d] and then [d + 1], the visited vertices are in the order of
    their distances, none above [d], and no vertex at distance [d] or less
    is missing. *)
Definition levels (q vis : list V) (d : nat) (E1 E2 : list V) : Prop :=
  eff vis q = E1 ++ E2 /\
  (forall y, y ∈ E1 -> hop_dist y d) /\
  (forall y, y ∈ E2 -> hop_dist y (S d)) /\
  (forall y, y ∈ vis -> exists dy, hop_dist y dy /\ (dy <= d)%nat) /\
  (forall i j x y dx dy,
     vis !! i = Some x -> vis !! j = Some y -> (i <= j)%nat ->
     hop_dist x dx -> hop_dist y dy -> (dx <= dy)%nat) /\
  (forall w j, hops w j -> (j <= d)%nat -> w ∈ vis \/ w ∈ E1).

Definition closed_in (q vis : list V) : Prop :=
  forall y z, y ∈ vis -> edge y z -> z ∈ vis \/ z ∈ q.

Definition ord_inv (q vis : list V) : Prop :=
  closed_in q vis /\ exists d E1 E2, levels q vis d E1 E2.

Lemma ord_inv_init : ord_inv [s] [].
Proof.
  split; [by intros y z ?%elem_of_nil|]. exists 0%nat, [s], [].
  assert (hop_dist s 0) as Hs by (split; [constructor|intros; lia]).
  split; [unfold eff; destruct (decide (s ∈ [])) as [Hc|]; [by apply elem_of_nil in Hc|done]|].
  split; [by intros y ->%list_elem_of_singleton|].
  split; [by intros y ?%elem_of_nil|]. split; [by intros y ?%elem_of_nil|].
  split; [by intros i j x y dx dy ?|].
  intros w j Hw Hj. right. destruct Hw; [left|lia].
Qed.

(** When the entries at distance [d] are used up, the search is at
    distance [d + 1]. *)
Lemma levels_up q vis d E2 :
  closed_in q vis -> levels q vis d [] E2 -> levels q vis (S d) E2 [].
Proof.
  intros Hclosed (Heff & _ & H2 & Hvis & Hsorted & Hall). simpl in Heff.
  split; [by rewrite app_nil_r|]. split; [done|]. split; [by intros y ?%elem_of_nil|].
  split; [|split; [done|]].
  - intros y Hy. destruct (Hvis y Hy) as (dy & ? & ?). exists dy. split; [done|lia].
  - intros w j Hw Hj.
    destruct (decide (w ∈ vis)) as [?|Hout]; [by left|]. right.
    destruct Hw as [|u w k Hu Huw].
    + destruct (Hall s 0%nat) as [?|Hin]; [constructor|lia|done|by apply elem_of_nil in Hin].
    + destruct (Hall u k Hu) as [Hin|Hin]; [lia| |by apply elem_of_nil in Hin].
      destruct (Hclosed u w Hin Huw) as [?|Hq]; [done|].
      rewrite <- Heff. by apply eff_elem.
Qed.

(** A round that takes a visited vertex from the queue *)
Lemma ord_inv_stale x q vis new :
  x ∈ vis ->
  (forall z, z ∈ new <-> edge x z /\ z ∉ vis) ->
  ord_inv (x :: q) vis -> ord_inv (q ++ new) vis.
Proof.
  intros Hx Hnew [Hclosed (d & E1 & E2 & Heff & Hrest)].
  assert (forall z, z ∈ new -> z ∈ q) as Hold.
  { intros z [Hxz Hz]%Hnew. destruct (Hclosed x z Hx Hxz) as [?|[->|?]%elem_of_cons]; done. }
  split.
  - intros y z Hy Hyz. destruct (Hclosed y z Hy Hyz) as [?|[->|?]%elem_of_cons]; [by left..|].
    right. apply elem_of_app. by left.
  - exists d, E1, E2. split; [|done].
    rewrite eff_app, (eff_nil new), app_nil_r.
    + simpl in Heff. by rewrite decide_True in Heff.
    + intros z Hz. apply elem_of_app. left. by apply Hold.
Qed.

(** A round that takes a vertex not yet visited from the queue *)
Lemma ord_inv_fresh x q vis new :
  x ∉ vis ->
  (forall z, z ∈ new <-> edge x z /\ z ∉ vis ++ [x]) ->
  ord_inv (x :: q) vis -> ord_inv (q ++ new) (vis ++ [x]).
Proof.
  intros Hx Hnew [Hclosed (d0 & E10 & E20 & Hlev0)].
  assert (exists d E1 E2, levels (x :: q) vis d (x :: E1) E2) as (d & E1 & E2 & Hlev).
  { pose proof Hlev0 as (Heff & _). simpl in Heff. rewrite decide_False in Heff by done.
    destruct E10 as [|x' E1].
    - apply levels_up in Hlev0; [|done]. destruct E20 as [|x' E2]; [done|].
      simpl in Heff. injection Heff as <- _. by exists (S d0), E2, [].
    - simpl in Heff. injection Heff as <- _. by exists d0, E1, E20. }
  clear d0 E10 E20 Hlev0.
  destruct Hlev as (Heff & H1 & H2 & Hvis & Hsorted & Hall).
  simpl in Heff. rewrite decide_False in Heff by done. injection Heff as Heff.
  assert (hop_dist x d) as Hdx by (apply H1; left).
  assert (forall z, z ∈ vis ++ [x] <-> z ∈ vis \/ z = x) as Hvis'.
  { intros z. by rewrite elem_of_app, list_elem_of_singleton. }
  split.
  - intros y z [Hy| ->]%Hvis' Hyz.
    + destruct (Hclosed y z Hy Hyz) as [?|[->|?]%elem_of_cons].
      * left. apply Hvis'. by left.
      * left. apply Hvis'. by right.
      * right. apply elem_of_app. by left.
    + destruct (decide (z ∈ vis ++ [x])) as [?|Hout]; [by left|].
      right. apply elem_of_app. right. by apply Hnew.
  - exists d, E1, (E2 ++ eff (q ++ vis ++ [x]) new).
    split; [|split; [|split; [|split; [|split]]]].
    + rewrite eff_app, (app_assoc E1 E2). f_equal. rewrite <- Heff. apply eff_ext.
      intros z. rewrite Hvis', elem_of_cons. tauto.
    + intros y Hy. apply H1. by right.
    + intros y [Hy|Hy]%elem_of_app; [by apply H2|].
      apply eff_elem in Hy as [[Hxy Hnv]%Hnew Hnq].
      split; [by eapply hops_step; [apply Hdx|]|].
      intros k Hk. destruct (decide (k <= d)%nat) as [Hle|?]; [|lia]. exfalso.
      destruct (Hall y k Hk Hle) as [Hin|[->|Hin]%elem_of_cons].
      * apply Hnv, Hvis'. by left.
      * apply Hnv, Hvis'. by right.
      * apply Hnq, elem_of_app. left.
        assert (y ∈ eff (x :: vis) q) as Hy by (rewrite Heff; apply elem_of_app; by left).
        by apply eff_elem in Hy as [? _].
    + intros y [Hy| ->]%Hvis'; [by apply Hvis|]. by exists d.
    + intros i j a b da db Hi Hj Hij Ha Hb.
      destruct (decide (j < length vis)%nat) as [Hlt|Hge].
      * rewrite lookup_app_l in Hi by lia. rewrite lookup_app_l in Hj by lia.
        exact (Hsorted i j a b da db Hi Hj Hij Ha Hb).
      * assert (b = x) as ->.
        { rewrite lookup_app_r in Hj by lia.
          apply list_lookup_singleton_Some in Hj as [_ ?]. done. }
        rewrite (hop_dist_unique x db d Hb Hdx).
        assert (a ∈ vis ++ [x]) as [Hin| ->]%Hvis' by (by eapply list_elem_of_lookup_2).
        -- destruct (Hvis a Hin) as (da' & Hda' & ?).
           by rewrite (hop_dist_unique a da da' Ha Hda').
        -- by rewrite (hop_dist_unique x da d Ha Hdx).
    + intros w j Hw Hj. destruct (Hall w j Hw Hj) as [?|[->|?]%elem_of_cons].
      * left. apply Hvis'. by left.
      * left. apply Hvis'. by right.
      * by right.
Qed.

(** What the order of the result is in the end: a vertex never comes
    before one that is nearer to the start. *)
Lemma ord_inv_sorted q vis :
  ord_inv q vis ->
  forall i j x y k,
    vis !! i = Some x -> vis !! j = Some y -> (i <= j)%nat ->
    hops y k -> exists k', (k' <= k)%nat /\ hops x k'.
Proof.
  intros [_ (d & E1 & E2 & _ & _ & _ & Hvis & Hsorted & _)] i j x y k Hi Hj Hij Hk.
  destruct (Hvis x) as (dx & Hdx & _); [by eapply list_elem_of_lookup_2|].
  destruct (Hvis y) as (dy & Hdy & _); [by eapply list_elem_of_lookup_2|].
  exists dx. split; [|apply Hdx].
  pose proof (Hsorted i j x y dx dy Hi Hj Hij Hdx Hdy). destruct Hdy as [_ Hmin].
  specialize (Hmin k Hk). lia.
Qed.
End BfsOrder.

(** ** [DirectedGraph.bfs] without [v_end] *)

Section DirectedBfs.
Import Directed.
Variable g : DirectedGraph.
Hypothesis Hwf : wf_graph g.
Variable s : nat.
Implicit Types (q vis new ds : list nat) (a v x y : nat).

Lemma bfs_enqueue_spec v vis ds :
  (v < v_count g)%nat -> (forall d, d ∈ ds -> (d < v_count g)%nat) ->
  forall q,
    bfs_enqueue g (Z.of_nat v) (Z.of_nat <$> vis) (Z.of_nat <$> ds) (Z.of_nat <$> q)
    = Ok (Z.of_nat <$> q ++ filter (fun d => weight g v d <> 0 /\ d ∉ vis) ds).
Proof.
  intros Hv. induction ds as [|d ds IH]; intros Hds q.
  - cbn. by rewrite app_nil_r.
  - assert (d < v_count g)%nat as Hd by (apply Hds; left).
    cbn [fmap list_fmap bfs_enqueue]. rewrite (cell_weight g Hwf v d Hv Hd).
    cbn [mbind res_mbind res_bind]. rewrite mem_of_nat.
    destruct (decide (weight g v d <> 0 /\ d ∉ vis)) as [[Hw Hnew]|Hskip].
    + rewrite (proj2 (Z.eqb_neq _ _) Hw), bool_decide_eq_false_2 by done. cbn [negb andb].
      change [Z.of_nat d] with (Z.of_nat <$> [d]). rewrite <- fmap_app.
      rewrite IH by (intros d' ?; apply Hds; by right).
      rewrite filter_cons_True by done. by rewrite <- app_assoc.
    + assert (negb (weight g v d =? 0) && negb (bool_decide (d ∈ vis)) = false) as ->.
      { destruct (weight g v d =? 0) eqn:E; [done|]. apply Z.eqb_neq in E. cbn.
        rewrite bool_decide_eq_true_2; [done|].
        destruct (decide (d ∈ vis)); [done|]. destruct Hskip. done. }
      rewrite IH by (intros d' ?; apply Hds; by right).
      by rewrite filter_cons_False.
Qed.

(** The invariant of the loop: the vertices in the queue and in [visited]
    can be reached from the start, and the successors of a visited vertex
    are visited or in the queue. *)
Definition bfs_inv (q vis : list nat) : Prop :=
  NoDup vis /\
  (forall x, x ∈ vis -> (x < v_count g)%nat /\ dreach g s x) /\
  (forall x, x ∈ q -> (x < v_count g)%nat /\ dreach g s x) /\
  (forall x y, x ∈ vis -> weight g x y <> 0 -> y ∈ vis \/ y ∈ q) /\
  ((vis = [] /\ q = [s]) \/ exists rest, vis = s :: rest).

Definition bfs_next (x : nat) (vis : list nat) : list nat :=
  if bool_decide (x ∈ vis) then vis else vis ++ [x].

Definition bfs_new (x : nat) (vis : list nat) : list nat :=
  filter (fun d => weight g x d <> 0 /\ d ∉ bfs_next x vis) (seq 0 (v_count g)).

Lemma bfs_loop_step fuel x q vis :
  (x < v_count g)%nat ->
  bfs_loop (S fuel) g None (Z.of_nat <$> x :: q) (Z.of_nat <$> vis) =
  bfs_loop fuel g None (Z.of_nat <$> q ++ bfs_new x vis) (Z.of_nat <$> bfs_next x vis).
Proof.
  intros Hx. cbn [fmap list_fmap bfs_loop].
  destruct (row_index g Hwf x Hx) as (row & -> & Hlen).
  cbn [mbind res_mbind res_bind]. rewrite bool_decide_eq_false_2 by done.
  rewrite mem_of_nat.
  assert ((if bool_decide (x ∈ vis) then Z.of_nat <$> vis
           else (Z.of_nat <$> vis) ++ [Z.of_nat x]) = Z.of_nat <$> bfs_next x vis) as ->.
  { unfold bfs_next. destruct (bool_decide (x ∈ vis)); [done|]. by rewrite fmap_app. }
  rewrite Hlen. unfold Py.range.
  rewrite (bfs_enqueue_spec x (bfs_next x vis) (seq 0 (v_count g)) Hx).
  - done.
  - intros d Hd%elem_of_seq. lia.
Qed.

Lemma bfs_inv_step x q vis :
  bfs_inv (x :: q) vis -> bfs_inv (q ++ bfs_new x vis) (bfs_next x vis).
Proof.
  intros (Hnd & Hvis & Hq & Hclosed & Hhead).
  destruct (Hq x) as [Hx Hsx]; [left|].
  assert (forall y, y ∈ bfs_next x vis <-> y ∈ vis \/ y = x) as Hnext.
  { intros y. unfold bfs_next. case_bool_decide as Hin.
    - split; [by left|]. intros [?| ->]; done.
    - by rewrite elem_of_app, list_elem_of_singleton. }
  assert (forall y, y ∈ bfs_new x vis <-> weight g x y <> 0 /\ y ∉ bfs_next x vis) as Hnew.
  { intros y. unfold bfs_new. rewrite list_elem_of_filter, elem_of_seq. split; [tauto|].
    intros [Hw Hy]. split; [done|]. destruct (weight_in_range g Hwf x y Hw). lia. }
  split; [|split; [|split; [|split]]].
  - unfold bfs_next. case_bool_decide as Hin; [done|].
    apply NoDup_app. split; [done|]. split; [|apply NoDup_singleton].
    intros y Hy ->%list_elem_of_singleton. done.
  - intros y [Hy| ->]%Hnext; auto.
  - intros y [Hy|Hy]%elem_of_app; [apply Hq; by right|].
    apply Hnew in Hy as [Hw _]. split.
    + by destruct (weight_in_range g Hwf x y Hw).
    + by eapply dreach_step.
  - intros a y [Ha| ->]%Hnext Hw.
    + destruct (Hclosed a y Ha Hw) as [Hy|[->|Hy]%elem_of_cons].
      * left. apply Hnext. by left.
      * left. apply Hnext. by right.
      * right. apply elem_of_app. by left.
    + destruct (decide (y ∈ bfs_next x vis)) as [?|Hout]; [by left|].
      right. apply elem_of_app. right. by apply Hnew.
  - right. unfold bfs_next. destruct Hhead as [[-> [= -> ->]]|(rest & ->)].
    + exists []. rewrite bool_decide_eq_false_2; [done|]. apply not_elem_of_nil.
    + case_bool_decide; eauto.
Qed.

(** There is an edge from [x] to [y]. *)
Definition dedge (x y : nat) : Prop := weight g x y <> 0.

Lemma bfs_ord_step x q vis :
  ord_inv dedge s (x :: q) vis -> ord_inv dedge s (q ++ bfs_new x vis) (bfs_next x vis).
Proof.
  intros Hord.
  assert (forall y, y ∈ bfs_new x vis <-> dedge x y /\ y ∉ bfs_next x vis) as Hnew.
  { intros y. unfold bfs_new, dedge. rewrite list_elem_of_filter, elem_of_seq. split; [tauto|].
    intros [Hw Hy]. split; [done|]. destruct (weight_in_range g Hwf x y Hw). lia. }
  unfold bfs_next in *. case_bool_decide as Hin.
  - by apply (ord_inv_stale dedge s x q vis).
  - by apply (ord_inv_fresh dedge s x q vis).
Qed.

Lemma bfs_loop_terminates :
  forall U c q vis,
    bfs_inv q vis -> ord_inv dedge s q vis ->
    (v_count g - length vis)%nat = U ->
    length (filter (fun x => x ∈ vis) q) = c ->
    exists fuel0 l,
      (forall fuel, (fuel0 <= fuel)%nat ->
         bfs_loop fuel g None (Z.of_nat <$> q) (Z.of_nat <$> vis) = Ok (Z.of_nat <$> l)) /\
      bfs_inv [] l /\ ord_inv dedge s [] l.
Proof.
  induction U as [U IHU] using lt_wf_ind.
  induction c as [c IHc] using lt_wf_ind.
  intros [|x q] vis Hinv Hord HU Hc.
  - exists 1%nat, vis. split; [|done]. intros [|fuel] Hfuel; [lia|done].
  - pose proof (bfs_inv_step x q vis Hinv) as Hinv'.
    pose proof (bfs_ord_step x q vis Hord) as Hord'.
    destruct Hinv as (Hnd & Hvis & Hq & _).
    destruct (Hq x) as [Hx _]; [left|].
    assert (exists fuel0 l,
      (forall fuel, (fuel0 <= fuel)%nat ->
         bfs_loop fuel g None (Z.of_nat <$> q ++ bfs_new x vis)
           (Z.of_nat <$> bfs_next x vis) = Ok (Z.of_nat <$> l)) /\
      bfs_inv [] l /\ ord_inv dedge s [] l) as (fuel0 & l & Hrun & Hfinal).
    { destruct (decide (x ∈ vis)) as [Hin|Hout].
      - assert (bfs_next x vis = vis) as Hsame.
        { unfold bfs_next. by rewrite bool_decide_eq_true_2. }
        rewrite Hsame in *.
        apply (IHc (length (filter (fun y => y ∈ vis) (q ++ bfs_new x vis)))); [|done..].
        rewrite <- Hc, filter_app, length_app, filter_cons_True by done.
        assert (filter (fun y => y ∈ vis) (bfs_new x vis) = []) as ->; [|simpl; lia].
        assert (forall l : list nat, (forall y, y ∈ l -> y ∉ vis) ->
                  filter (fun y => y ∈ vis) l = []) as Hnil.
        { induction l as [|y l IH]; intros Hl; [done|].
          rewrite filter_cons_False by (apply Hl; left).
          apply IH. intros z ?. apply Hl. by right. }
        apply Hnil. intros y Hy.
        unfold bfs_new in Hy. rewrite Hsame in Hy.
        apply list_elem_of_filter in Hy as [[_ ?] _]. done.
      - assert (bfs_next x vis = vis ++ [x]) as Hnext.
        { unfold bfs_next. by rewrite bool_decide_eq_false_2. }
        rewrite Hnext in *.
        apply (IHU (v_count g - length (vis ++ [x]))%nat) with (c := length
          (filter (fun y => y ∈ vis ++ [x]) (q ++ bfs_new x vis))); [|done..].
        pose proof (NoDup_bounded_length (vis ++ [x]) (v_count g)) as Hlen.
        rewrite length_app in *. simpl in *.
        assert (length vis + 1 <= v_count g)%nat; [|lia].
        destruct Hinv' as (Hnd' & Hvis' & _).
        apply Hlen; [done|]. intros y Hy. by apply Hvis'. }
    exists (S fuel0), l. split; [|done].
    intros [|fuel] Hfuel; [lia|]. rewrite bfs_loop_step by done. apply Hrun. lia.
Qed.
End DirectedBfs.

(** X22. [DirectedGraph.bfs(v_start)], called without [v_end] on a vertex
    of a well-shaped graph, returns: there is a number of rounds of its
    loop after which it has returned a list without repetition that begins
    with [v_start] and holds exactly the vertices that a directed path
    leads to from [v_start], nearest first: a vertex never comes before one
    that a path of fewer edges reaches.  (The queue may hold a vertex many
    times, so that the rounds are not bounded by the number of vertices.) *)
Theorem directed_bfs_reachable (g : Directed.DirectedGraph) (v : nat) :
  Directed.wf_graph g -> (v < Directed.v_count g)%nat ->
  exists fuel0 rest,
    (forall fuel, (fuel0 <= fuel)%nat ->
       Directed.bfs fuel g (Z.of_nat v) None = Ok (Z.of_nat <$> v :: rest)) /\
    NoDup (v :: rest) /\
    (forall x, x ∈ v :: rest <-> dreach g v x) /\
    (forall i j x y k,
       (v :: rest) !! i = Some x -> (v :: rest) !! j = Some y -> (i <= j)%nat ->
       hops (dedge g) v y k -> exists k', (k' <= k)%nat /\ hops (dedge g) v x k').
Proof.
  intros Hwf Hv.
  assert (bfs_inv g v [v] []) as Hinit.
  { split; [apply NoDup_nil_2|]. split; [by intros x ?%elem_of_nil|]. split; [|split].
    - intros x ->%list_elem_of_singleton. split; [done|constructor].
    - by intros x y ?%elem_of_nil.
    - by left. }
  destruct (bfs_loop_terminates g Hwf v _ _ [v] [] Hinit (ord_inv_init _ _) eq_refl eq_refl)
    as (fuel0 & l & Hrun & (Hnd & Hvis & _ & Hclosed & Hhead) & Hord).
  destruct Hhead as [[_ [=]]|(rest & ->)].
  exists fuel0, rest. split; [|split; [done|split]].
  - intros fuel Hfuel. unfold Directed.bfs.
    rewrite mem_get_vertices, in_range_of_nat, bool_decide_eq_true_2 by done. cbn [negb].
    by apply Hrun.
  - intros x. split; [apply Hvis|].
    apply closed_dreach; [left|]. intros a b Ha Hw.
    destruct (Hclosed a b Ha Hw) as [?|Hin]; [done|]. by apply elem_of_nil in Hin.
  - by apply (ord_inv_sorted _ _ _ _ Hord).
Qed.

Lemma directed_bfs_reachable_witness :
  exists fuel0 rest,
    (forall fuel, (fuel0 <= fuel)%nat ->
       Directed.bfs fuel Directed.example_graph 1 None = Ok (Z.of_nat <$> 1%nat :: rest)) /\
    NoDup (1%nat :: rest).
Proof.
  destruct (directed_bfs_reachable Directed.example_graph 1 example_graph_wf)
    as (fuel0 & rest & Hrun & Hnd & _).
  - simpl. lia.
  - by exists fuel0, rest.
Defined.

(** ** [bfs] of the undirected classes, without [v_end] *)

Section UndirectedBfs.
Import Undirected.
Variable g0 : adj.
Hypothesis Hwf : wf g0.
Variable s : string.
Implicit Types (g : adj) (q vis : list string) (x y a : string).

(** The invariant of the loop *)
Definition ubfs_inv (g : adj) (q vis : list string) : Prop :=
  same_graph g0 g /\ NoDup vis /\
  (forall x, x ∈ vis -> x ∈ Dict.keys g0 /\ reach g0 s x) /\
  (forall x, x ∈ q -> x ∈ Dict.keys g0 /\ reach g0 s x) /\
  (forall x y, x ∈ vis -> y ∈ neighbors g0 x -> y ∈ vis \/ y ∈ q) /\
  ((vis = [] /\ q = [s]) \/ exists rest, vis = s :: rest).

Definition ubfs_graph (g : adj) (x : string) : adj :=
  Dict.set g x (py_sort (neighbors g x)).

Definition ubfs_new (g : adj) (x : string) (vis : list string) : list string :=
  filter (fun item => item ∉ visit vis x) (py_sort (neighbors g x)).

Lemma ubfs_loop_step fuel g x q vis :
  Dict.has g x = true ->
  bfs_loop (S fuel) g None (x :: q) vis =
  bfs_loop fuel (ubfs_graph g x) None (q ++ ubfs_new g x vis) (visit vis x).
Proof.
  intros Hx. cbn [bfs_loop]. rewrite (get_neighbors g x Hx).
  cbn [mbind res_mbind res_bind]. by rewrite bool_decide_eq_false_2.
Qed.

Lemma ubfs_inv_step g x q vis :
  ubfs_inv g (x :: q) vis -> ubfs_inv (ubfs_graph g x) (q ++ ubfs_new g x vis) (visit vis x).
Proof.
  intros (Hsame & Hnd & Hvis & Hq & Hclosed & Hhead).
  destruct (Hq x) as [Hx Hsx]; [left|].
  assert (forall y, y ∈ ubfs_new g x vis <-> y ∈ neighbors g0 x /\ y ∉ visit vis x) as Hnew.
  { intros y. unfold ubfs_new. rewrite list_elem_of_filter, py_sort_perm.
    destruct Hsame as [_ HN]. rewrite HN. tauto. }
  split; [by apply same_graph_sorted|]. split; [|split; [|split; [|split]]].
  - destruct (decide (x ∈ vis)) as [Hin|Hout].
    + by rewrite visit_seen.
    + rewrite visit_new by done. apply NoDup_app. split; [done|].
      split; [|apply NoDup_singleton]. intros y Hy ->%list_elem_of_singleton. done.
  - intros y [Hy| ->]%visit_elem; auto.
  - intros y [Hy|Hy]%elem_of_app; [apply Hq; by right|].
    apply Hnew in Hy as [Hy _]. split.
    + by eapply neighbor_key.
    + by eapply reach_step.
  - intros a y [Ha| ->]%visit_elem Hy.
    + destruct (Hclosed a y Ha Hy) as [Hin|[->|Hin]%elem_of_cons].
      * left. apply visit_elem. by left.
      * left. apply visit_elem. by right.
      * right. apply elem_of_app. by left.
    + destruct (decide (y ∈ visit vis x)) as [?|Hout]; [by left|].
      right. apply elem_of_app. right. by apply Hnew.
  - right. destruct Hhead as [[-> [= -> ->]]|(rest & ->)].
    + exists []. by rewrite visit_new by apply not_elem_of_nil.
    + destruct (decide (x ∈ s :: rest)) as [Hin|Hout].
      * rewrite visit_seen by done. eauto.
      * rewrite visit_new by done. eauto.
Qed.

(** [y] is a neighbour of [x]. *)
Definition uedge (x y : string) : Prop := y ∈ neighbors g0 x.

Lemma ubfs_ord_step g x q vis :
  same_graph g0 g ->
  ord_inv uedge s (x :: q) vis ->
  ord_inv uedge s (q ++ ubfs_new g x vis) (visit vis x).
Proof.
  intros Hsame Hord.
  assert (forall y, y ∈ ubfs_new g x vis <-> uedge x y /\ y ∉ visit vis x) as Hnew.
  { intros y. unfold ubfs_new, uedge. rewrite list_elem_of_filter, py_sort_perm.
    destruct Hsame as [_ HN]. rewrite HN. tauto. }
  destruct (decide (x ∈ vis)) as [Hin|Hout].
  - rewrite visit_seen in * by done. by apply (ord_inv_stale uedge s x q vis).
  - rewrite visit_new in * by done. by apply (ord_inv_fresh uedge s x q vis).
Qed.

Lemma ubfs_loop_terminates :
  forall U c g q vis,
    ubfs_inv g q vis -> ord_inv uedge s q vis ->
    (length (Dict.keys g0) - length vis)%nat = U ->
    length (filter (fun x => x ∈ vis) q) = c ->
    exists fuel0 g' l,
      (forall fuel, (fuel0 <= fuel)%nat -> bfs_loop fuel g None q vis = Ok (g', l)) /\
      ubfs_inv g' [] l /\ ord_inv uedge s [] l.
Proof.
  induction U as [U IHU] using lt_wf_ind.
  induction c as [c IHc] using lt_wf_ind.
  intros g [|x q] vis Hinv Hord HU Hc.
  - exists 1%nat, g, vis. split; [|done]. intros [|fuel] Hfuel; [lia|done].
  - pose proof (ubfs_inv_step g x q vis Hinv) as Hinv'.
    pose proof (ubfs_ord_step g x q vis (proj1 Hinv) Hord) as Hord'.
    destruct Hinv as (Hsame & Hnd & Hvis & Hq & _).
    destruct (Hq x) as [Hx _]; [left|].
    assert (exists fuel0 g' l,
      (forall fuel, (fuel0 <= fuel)%nat ->
         bfs_loop fuel (ubfs_graph g x) None (q ++ ubfs_new g x vis) (visit vis x)
           = Ok (g', l)) /\
      ubfs_inv g' [] l /\ ord_inv uedge s [] l) as (fuel0 & g' & l & Hrun & Hfinal).
    { destruct (decide (x ∈ vis)) as [Hin|Hout].
      - assert (forall l : list string, (forall y, y ∈ l -> y ∉ vis) ->
                  filter (fun y => y ∈ vis) l = []) as Hnil.
        { induction l as [|y l IH]; intros Hl; [done|].
          rewrite filter_cons_False by (apply Hl; left).
          apply IH. intros z ?. apply Hl. by right. }
        assert (filter (fun y => y ∈ vis) (ubfs_new g x vis) = []) as Hnone.
        { apply Hnil. intros y Hy. unfold ubfs_new in Hy.
          rewrite visit_seen in Hy by done.
          by apply list_elem_of_filter in Hy as [? _]. }
        rewrite visit_seen in * by done.
        apply (IHc (length (filter (fun y => y ∈ vis) (q ++ ubfs_new g x vis)))); [|done..].
        rewrite <- Hc, filter_app, length_app, filter_cons_True, Hnone by done.
        simpl. lia.
      - rewrite visit_new in * by done.
        apply (IHU (length (Dict.keys g0) - length (vis ++ [x]))%nat) with (c := length
          (filter (fun y => y ∈ vis ++ [x]) (q ++ ubfs_new g x vis))); [|done..].
        destruct Hinv' as (_ & Hnd' & Hvis' & _).
        pose proof (NoDup_incl_length (vis ++ [x]) (Dict.keys g0) Hnd') as Hlen.
        rewrite length_app in *. simpl in *.
        assert (length vis + 1 <= length (Dict.keys g0))%nat; [|lia].
        apply Hlen. intros y Hy. by apply Hvis'. }
    exists (S fuel0), g', l. split; [|done].
    intros [|fuel] Hfuel; [lia|]. rewrite ubfs_loop_step.
    + apply Hrun. lia.
    + by eapply same_graph_has.
Qed.
End UndirectedBfs.

(** X23. The [bfs(v_start)] of the two undirected classes, called without
    [v_end] on a vertex of a graph in the state the mutators keep, returns:
    there is a number of rounds of its loop after which it has returned a
    list without repetition that begins with [v_start] and holds exactly
    the vertices that a path of edges joins to [v_start], nearest first: a
    vertex never comes before one that a path of fewer edges reaches.  The
    graph keeps its vertices, and its lists up to the order the search
    sorts them into. *)
Theorem undirected_bfs_reachable (g : Undirected.adj) (v : string) :
  Undirected.wf g -> v ∈ Undirected.get_vertices g ->
  exists fuel0 g' rest,
    (forall fuel, (fuel0 <= fuel)%nat ->
       Undirected.bfs fuel g v None = Ok (g', v :: rest)) /\
    NoDup (v :: rest) /\
    (forall x, x ∈ v :: rest <-> Undirected.reach g v x) /\
    (forall i j x y k,
       (v :: rest) !! i = Some x -> (v :: rest) !! j = Some y -> (i <= j)%nat ->
       hops (uedge g) v y k -> exists k', (k' <= k)%nat /\ hops (uedge g) v x k') /\
    Undirected.get_vertices g' = Undirected.get_vertices g /\
    (forall x, Undirected.neighbors g' x ≡ₚ Undirected.neighbors g x).
Proof.
  intros Hwf Hv.
  assert (ubfs_inv g v g [v] []) as Hinit.
  { split; [apply same_graph_refl|]. split; [apply NoDup_nil_2|].
    split; [by intros x ?%elem_of_nil|]. split; [|split].
    - intros x ->%list_elem_of_singleton. split; [done|constructor].
    - by intros x y ?%elem_of_nil.
    - by left. }
  destruct (ubfs_loop_terminates g Hwf v _ _ g [v] [] Hinit (ord_inv_init _ _) eq_refl eq_refl)
    as (fuel0 & g' & l & Hrun & ([Hk HN] & Hnd & Hvis & _ & Hclosed & Hhead) & Hord).
  destruct Hhead as [[_ [=]]|(rest & ->)].
  exists fuel0, g', rest. split; [|split; [done|split; [|split; [|done]]]].
  - intros fuel Hfuel. unfold Undirected.bfs.
    assert (Dict.has g v = true) as -> by (unfold Dict.has; by apply bool_decide_eq_true).
    cbn [negb]. by apply Hrun.
  - intros x. split; [apply Hvis|].
    apply closed_reach; [left|]. intros a b Ha Hb.
    destruct (Hclosed a b Ha Hb) as [?|Hin]; [done|]. by apply elem_of_nil in Hin.
  - by apply (ord_inv_sorted _ _ _ _ Hord).
Qed.

Lemma undirected_bfs_reachable_witness :
  exists fuel0 g' rest,
    (forall fuel, (fuel0 <= fuel)%nat ->
       Undirected.bfs fuel path3 "A" None = Ok (g', "A"%string :: rest)) /\
    NoDup ("A"%string :: rest).
Proof.
  destruct (undirected_bfs_reachable path3 "A" path3_wf)
    as (fuel0 & g' & rest & Hrun & Hnd & _).
  - apply mem_true. reflexivity.
  - by exists fuel0, g', rest.
Defined.

(** ** [bfs] with [v_end] *)

Section DirectedBfsEnd.
Import Directed.
Variable g : DirectedGraph.
Variable e : Z.

Lemma bfs_loop_extends fuel v_end :
  forall queue visited l,
    bfs_loop fuel g v_end queue visited = Ok l -> exists post, l = visited ++ post.
Proof.
  induction fuel as [|fuel IH]; intros queue visited l; [done|].
  cbn [bfs_loop]. destruct queue as [|vertex queue].
  { intros [= <-]. exists []. by rewrite app_nil_r. }
  destruct (Py.index (adj_matrix g) vertex) as [edges| |]; cbn [mbind res_mbind res_bind];
    [|done..].
  set (visited' := if Py.mem vertex visited then visited else visited ++ [vertex]).
  assert (exists post, visited' = visited ++ post) as (post0 & Hpost0).
  { subst visited'. destruct (Py.mem vertex visited); [exists []; by rewrite app_nil_r|by eexists]. }
  case_bool_decide.
  - intros [= <-]. by eexists.
  - destruct (bfs_enqueue g vertex visited' (Py.range (length edges)) queue) as [queue'| |];
      cbn [mbind res_mbind res_bind]; [|done..].
    intros (post & ->)%IH. rewrite Hpost0, <- app_assoc. by eexists.
Qed.

(** The search for [e] does what the search without [v_end] does, up to
    the round that takes [e] from the queue. *)
Lemma bfs_loop_end fuel :
  forall queue visited full,
    e ∉ visited ->
    bfs_loop fuel g None queue visited = Ok full ->
    exists l,
      bfs_loop fuel g (Some e) queue visited = Ok l /\
      ((l = full /\ e ∉ full) \/
       (exists pre post, l = pre ++ [e] /\ full = l ++ post /\ e ∉ pre)).
Proof.
  induction fuel as [|fuel IH]; intros queue visited full He; [done|].
  cbn [bfs_loop]. destruct queue as [|vertex queue].
  { intros [= <-]. exists visited. split; [done|]. by left. }
  destruct (Py.index (adj_matrix g) vertex) as [edges| |]; cbn [mbind res_mbind res_bind];
    [|done..].
  rewrite (bool_decide_eq_false_2 (Some vertex = None)) by done.
  set (visited' := if Py.mem vertex visited then visited else visited ++ [vertex]).
  destruct (decide (vertex = e)) as [->|Hne].
  - rewrite bool_decide_eq_true_2 by done.
    assert (visited' = visited ++ [e]) as Hv'.
    { subst visited'. by rewrite (proj2 (mem_false _ _) He). }
    destruct (bfs_enqueue g e visited' (Py.range (length edges)) queue) as [queue'| |];
      cbn [mbind res_mbind res_bind]; [|done..].
    intros (post & ->)%bfs_loop_extends.
    exists visited'. split; [done|]. right. exists visited, post. by rewrite Hv'.
  - rewrite bool_decide_eq_false_2 by congruence.
    destruct (bfs_enqueue g vertex visited' (Py.range (length edges)) queue) as [queue'| |];
      cbn [mbind res_mbind res_bind]; [|done..].
    apply IH. subst visited'. destruct (Py.mem vertex visited); [done|].
    rewrite elem_of_app, list_elem_of_singleton. intros [?|?]; congruence.
Qed.
End DirectedBfsEnd.

Lemma directed_bfs_returns (g : Directed.DirectedGraph) (v : nat) :
  Directed.wf_graph g -> (v < Directed.v_count g)%nat ->
  exists fuel0 full,
    forall fuel, (fuel0 <= fuel)%nat ->
      Directed.bfs_loop fuel g None [Z.of_nat v] [] = Ok full.
Proof.
  intros Hwf Hv.
  assert (bfs_inv g v [v] []) as Hinit.
  { split; [apply NoDup_nil_2|]. split; [by intros x ?%elem_of_nil|]. split; [|split].
    - intros x ->%list_elem_of_singleton. split; [done|constructor].
    - by intros x y ?%elem_of_nil.
    - by left. }
  destruct (bfs_loop_terminates g Hwf v _ _ [v] [] Hinit (ord_inv_init _ _) eq_refl eq_refl)
    as (fuel0 & l & Hrun & _).
  by exists fuel0, (Z.of_nat <$> l).
Qed.

(** X24. [DirectedGraph.bfs(v_start, v_end)] on a vertex of a well-shaped
    graph returns what [bfs(v_start)] returns, cut after [v_end] when that
    list holds [v_end], and whole when it does not; [v_end = 0] is a
    vertex like any other here. *)
Theorem directed_bfs_end (g : Directed.DirectedGraph) (v : nat) (e : Z) :
  Directed.wf_graph g -> (v < Directed.v_count g)%nat ->
  exists fuel0 full l,
    (forall fuel, (fuel0 <= fuel)%nat ->
       Directed.bfs fuel g (Z.of_nat v) None = Ok full /\
       Directed.bfs fuel g (Z.of_nat v) (Some e) = Ok l) /\
    ((l = full /\ e ∉ full) \/
     (exists pre post, l = pre ++ [e] /\ full = l ++ post /\ e ∉ pre)).
Proof.
  intros Hwf Hv.
  destruct (directed_bfs_returns g v Hwf Hv) as (fuel0 & full & Hrun).
  pose proof (Hrun fuel0 (le_n _)) as Hrun0.
  destruct (bfs_loop_end g e fuel0 _ _ full (not_elem_of_nil _) Hrun0) as (l & Hl & Hcut).
  exists fuel0, full, l. split; [|done].
  intros fuel Hfuel. unfold Directed.bfs.
  rewrite mem_get_vertices, in_range_of_nat, bool_decide_eq_true_2 by done.
  cbn [negb]. split; [by apply Hrun|].
  pose proof (Hrun fuel Hfuel) as Hfull.
  destruct (bfs_loop_end g e fuel _ _ full (not_elem_of_nil _) Hfull) as (l' & Hl' & Hcut').
  rewrite Hl'. f_equal.
  destruct Hcut as [[-> Hout]|(pre & post & -> & Hfull1 & Hpre)],
           Hcut' as [[-> Hout']|(pre' & post' & -> & Hfull2 & Hpre')]; try done.
  - destruct Hout. rewrite Hfull2, !elem_of_app, list_elem_of_singleton. tauto.
  - destruct Hout'. rewrite Hfull1, !elem_of_app, list_elem_of_singleton. tauto.
  - f_equal. rewrite Hfull1 in Hfull2. rewrite <- !app_assoc in Hfull2.
    by apply not_elem_of_app_cons_inv_l in Hfull2 as [? _].
Qed.

Lemma directed_bfs_end_witness :
  exists fuel0 full l,
    (forall fuel, (fuel0 <= fuel)%nat ->
       Directed.bfs fuel Directed.example_graph 4 None = Ok full /\
       Directed.bfs fuel Directed.example_graph 4 (Some 0) = Ok l) /\
    ((l = full /\ 0 ∉ full) \/
     (exists pre post, l = pre ++ [0] /\ full = l ++ post /\ 0 ∉ pre)).
Proof.
  apply (directed_bfs_end Directed.example_graph 4 0 example_graph_wf).
  simpl. lia.
Defined.

Section UndirectedBfsEnd.
Import Undirected.
Variable e : string.

Lemma ubfs_loop_extends fuel v_end :
  forall g queue visited g' l,
    bfs_loop fuel g v_end queue visited = Ok (g', l) -> exists post, l = visited ++ post.
Proof.
  induction fuel as [|fuel IH]; intros g queue visited g' l; [done|].
  cbn [bfs_loop]. destruct queue as [|vertex queue].
  { intros [= <- <-]. exists []. by rewrite app_nil_r. }
  destruct (Dict.get g vertex) as [edges| |]; cbn [mbind res_mbind res_bind]; [|done..].
  set (visited' := if negb (Py.mem vertex visited) then visited ++ [vertex] else visited).
  assert (exists post, visited' = visited ++ post) as (post0 & Hpost0).
  { subst visited'. destruct (Py.mem vertex visited); cbn [negb];
      [exists []; by rewrite app_nil_r|by eexists]. }
  case_bool_decide.
  - intros [= <- <-]. by eexists.
  - intros (post & ->)%IH. rewrite Hpost0, <- app_assoc. by eexists.
Qed.

Lemma ubfs_loop_end fuel :
  forall g queue visited g' full,
    e ∉ visited ->
    bfs_loop fuel g None queue visited = Ok (g', full) ->
    exists g'' l,
      bfs_loop fuel g (Some e) queue visited = Ok (g'', l) /\
      ((l = full /\ g'' = g' /\ e ∉ full) \/
       (exists pre post, l = pre ++ [e] /\ full = l ++ post /\ e ∉ pre)).
Proof.
  induction fuel as [|fuel IH]; intros g queue visited g' full He; [done|].
  cbn [bfs_loop]. destruct queue as [|vertex queue].
  { intros [= <- <-]. exists g, visited. split; [done|]. by left. }
  destruct (Dict.get g vertex) as [edges| |]; cbn [mbind res_mbind res_bind]; [|done..].
  rewrite (bool_decide_eq_false_2 (Some vertex = None)) by done.
  set (visited' := if negb (Py.mem vertex visited) then visited ++ [vertex] else visited).
  destruct (decide (vertex = e)) as [->|Hne].
  - rewrite bool_decide_eq_true_2 by done.
    assert (visited' = visited ++ [e]) as Hv'.
    { subst visited'. by rewrite (proj2 (mem_false _ _) He). }
    intros (post & ->)%ubfs_loop_extends.
    exists g, visited'. split; [done|]. right. exists visited, post. by rewrite Hv'.
  - rewrite bool_decide_eq_false_2 by congruence.
    apply IH. subst visited'. destruct (Py.mem vertex visited); cbn [negb]; [done|].
    rewrite elem_of_app, list_elem_of_singleton. intros [?|?]; congruence.
Qed.
End UndirectedBfsEnd.

Lemma undirected_bfs_returns (g : Undirected.adj) (v : string) :
  Undirected.wf g -> v ∈ Undirected.get_vertices g ->
  exists fuel0 g' full,
    forall fuel, (fuel0 <= fuel)%nat ->
      Undirected.bfs_loop fuel g None [v] [] = Ok (g', full).
Proof.
  intros Hwf Hv.
  assert (ubfs_inv g v g [v] []) as Hinit.
  { split; [apply same_graph_refl|]. split; [apply NoDup_nil_2|].
    split; [by intros x ?%elem_of_nil|]. split; [|split].
    - intros x ->%list_elem_of_singleton. split; [done|constructor].
    - by intros x y ?%elem_of_nil.
    - by left. }
  destruct (ubfs_loop_terminates g Hwf v _ _ g [v] [] Hinit (ord_inv_init _ _) eq_refl eq_refl)
    as (fuel0 & g' & l & Hrun & _).
  by exists fuel0, g', l.
Qed.

(** X25. The [bfs(v_start, v_end)] of the two undirected classes, on a
    vertex of a graph in the state the mutators keep, returns what
    [bfs(v_start)] returns, cut after [v_end] when that list holds [v_end]
    and whole when it does not. *)
Theorem undirected_bfs_end (g : Undirected.adj) (v e : string) :
  Undirected.wf g -> v ∈ Undirected.get_vertices g ->
  exists fuel0 full l,
    (forall fuel, (fuel0 <= fuel)%nat ->
       (exists g', Undirected.bfs fuel g v None = Ok (g', full)) /\
       (exists g', Undirected.bfs fuel g v (Some e) = Ok (g', l))) /\
    ((l = full /\ e ∉ full) \/
     (exists pre post, l = pre ++ [e] /\ full = l ++ post /\ e ∉ pre)).
Proof.
  intros Hwf Hv.
  destruct (undirected_bfs_returns g v Hwf Hv) as (fuel0 & g1 & full & Hrun).
  pose proof (Hrun fuel0 (le_n _)) as Hrun0.
  destruct (ubfs_loop_end e fuel0 _ _ _ g1 full (not_elem_of_nil _) Hrun0)
    as (g2 & l & Hl & Hcut).
  assert ((l = full /\ e ∉ full) \/
          (exists pre post, l = pre ++ [e] /\ full = l ++ post /\ e ∉ pre)) as Hcut0.
  { destruct Hcut as [(? & _ & ?)|?]; [by left|by right]. }
  exists fuel0, full, l. split; [|done].
  intros fuel Hfuel. unfold Undirected.bfs.
  assert (Dict.has g v = true) as -> by (unfold Dict.has; by apply bool_decide_eq_true).
  cbn [negb]. split; [exists g1; by apply Hrun|].
  pose proof (Hrun fuel Hfuel) as Hfull.
  destruct (ubfs_loop_end e fuel _ _ _ g1 full (not_elem_of_nil _) Hfull)
    as (g3 & l' & Hl' & Hcut').
  exists g3. rewrite Hl'. do 2 f_equal.
  destruct Hcut0 as [[-> Hout]|(pre & post & -> & Hfull1 & Hpre)],
           Hcut' as [(-> & _ & Hout')|(pre' & post' & -> & Hfull2 & Hpre')]; try done.
  - destruct Hout. rewrite Hfull2, !elem_of_app, list_elem_of_singleton. tauto.
  - destruct Hout'. rewrite Hfull1, !elem_of_app, list_elem_of_singleton. tauto.
  - f_equal. rewrite Hfull1 in Hfull2. rewrite <- !app_assoc in Hfull2.
    by apply not_elem_of_app_cons_inv_l in Hfull2 as [? _].
Qed.

Lemma undirected_bfs_end_witness :
  exists fuel0 full l,
    (forall fuel, (fuel0 <= fuel)%nat ->
       (exists g', Undirected.bfs fuel path3 "A" None = Ok (g', full)) /\
       (exists g', Undirected.bfs fuel path3 "A" (Some "B"%string) = Ok (g', l))) /\
    ((l = full /\ "B"%string ∉ full) \/
     (exists pre post, l = pre ++ ["B"%string] /\ full = l ++ post /\ "B"%string ∉ pre)).
Proof.
  apply (undirected_bfs_end path3 "A" "B" path3_wf).
  apply mem_true. reflexivity.
Defined.

(** ** [dfs] with [v_end] *)

(** [l] is [full] cut after [e], or [full] itself if [e] is not in it. *)
Definition cut_after {A} (e : A) (full l : list A) : Prop :=
  (l = full /\ e ∉ full) \/
  (exists pre post, l = pre ++ [e] /\ full = l ++ post /\ e ∉ pre).

Section UndirectedDfsEnd.
Import Undirected.
Variable e : string.

Lemma iter_dfs_extends fuel v_end :
  forall g stack vertex result g' l,
    UndirectedIter.dfs_loop fuel g v_end stack vertex result = Ok (g', l) ->
    exists post, l = result ++ post.
Proof.
  induction fuel as [|fuel IH]; intros g stack vertex result g' l; [done|].
  cbn [UndirectedIter.dfs_loop]. destruct stack as [|top below].
  { intros [= <- <-]. exists []. by rewrite app_nil_r. }
  destruct (Dict.get g vertex) as [edges| |]; cbn [mbind res_mbind res_bind]; try done.
  set (result1 := if negb (Py.mem vertex result) then result ++ [vertex] else result).
  assert (forall l, (exists new, l = result1 ++ new) -> exists new, l = result ++ new) as Hext.
  { intros l0 (new & ->). subst result1. destruct (Py.mem vertex result); cbn; [by eexists|].
    rewrite <- app_assoc. by eexists. }
  case_bool_decide.
  { intros [= <- <-]. apply Hext. exists []. by rewrite app_nil_r. }
  destruct (UndirectedIter.first_new (py_sort edges) result1) as [edge|].
  - destruct (decide (edge = vertex)); intros H'%IH; by apply Hext.
  - rewrite decide_True by done. intros H'%IH. by apply Hext.
Qed.

Lemma iter_dfs_end fuel :
  forall g stack vertex result g' full,
    e ∉ result ->
    UndirectedIter.dfs_loop fuel g None stack vertex result = Ok (g', full) ->
    exists g'' l,
      UndirectedIter.dfs_loop fuel g (Some e) stack vertex result = Ok (g'', l) /\
      cut_after e full l.
Proof.
  induction fuel as [|fuel IH]; intros g stack vertex result g' full He; [done|].
  cbn [UndirectedIter.dfs_loop]. destruct stack as [|top below].
  { intros [= <- <-]. exists g, result. split; [done|]. by left. }
  destruct (Dict.get g vertex) as [edges| |]; cbn [mbind res_mbind res_bind]; try done.
  rewrite (bool_decide_eq_false_2 (Some vertex = None)) by done.
  set (result1 := if negb (Py.mem vertex result) then result ++ [vertex] else result).
  destruct (decide (vertex = e)) as [->|Hne].
  - rewrite bool_decide_eq_true_2 by done.
    assert (result1 = result ++ [e]) as Hr1.
    { subst result1. by rewrite (proj2 (mem_false _ _) He). }
    intros Hrun. exists g, result1. split; [done|]. right.
    assert (exists post, full = result1 ++ post) as (post & ->).
    { destruct (UndirectedIter.first_new (py_sort edges) result1) as [edge|].
      - destruct (decide (edge = e)); by apply iter_dfs_extends in Hrun.
      - rewrite decide_True in Hrun by done. by apply iter_dfs_extends in Hrun. }
    exists result, post. by rewrite Hr1.
  - rewrite bool_decide_eq_false_2 by congruence.
    assert (e ∉ result1) as He1.
    { subst result1. destruct (Py.mem vertex result); cbn [negb]; [done|].
      rewrite elem_of_app, list_elem_of_singleton. intros [?|?]; congruence. }
    destruct (UndirectedIter.first_new (py_sort edges) result1) as [edge|];
      cbv beta iota zeta.
    + destruct (decide (edge = vertex)); intros Hrun; apply (IH _ _ _ _ _ _ He1 Hrun).
    + rewrite !decide_True by done. intros Hrun. apply (IH _ _ _ _ _ _ He1 Hrun).
Qed.
End UndirectedDfsEnd.

(** X26. The stack-based [dfs(v_start, v_end)] of [ud_graph.py], on a
    vertex of a graph in the state the mutators keep, returns what
    [dfs(v_start)] returns, cut after [v_end] when that list holds [v_end]
    and whole when it does not. *)
Theorem undirected_iter_dfs_end (g : Undirected.adj) (v e : string) (fuel : nat) :
  Undirected.wf g -> v ∈ Undirected.get_vertices g ->
  (2 * length (Undirected.get_vertices g) <= fuel)%nat ->
  exists g1 g2 full l,
    UndirectedIter.dfs fuel g v None = Ok (g1, full) /\
    UndirectedIter.dfs fuel g v (Some e) = Ok (g2, l) /\
    cut_after e full l.
Proof.
  intros Hwf Hv Hfuel.
  destruct (iter_dfs_ok g Hwf fuel g v) as (g1 & full & Hrun & _);
    [apply same_graph_refl|done|done|].
  unfold UndirectedIter.dfs in *.
  assert (Dict.has g v = true) as Hhas by (unfold Dict.has; by apply bool_decide_eq_true).
  rewrite Hhas in *. cbn [negb] in *.
  destruct (iter_dfs_end e fuel _ _ _ _ g1 full (not_elem_of_nil _) Hrun) as (g2 & l & Hl & Hcut).
  by exists g1, g2, full, l.
Qed.

Lemma undirected_iter_dfs_end_witness :
  exists g1 g2 full l,
    UndirectedIter.dfs 8 path3 "A" None = Ok (g1, full) /\
    UndirectedIter.dfs 8 path3 "A" (Some "B"%string) = Ok (g2, l) /\
    cut_after "B"%string full l.
Proof.
  apply (undirected_iter_dfs_end path3 "A" "B" 8 path3_wf).
  - apply mem_true. reflexivity.
  - simpl. lia.
Defined.

Section UndirectedRecDfsEnd.
Import Undirected.
Variable e : string.
Hypothesis He : e <> ""%string.

Lemma truthy_end : truthy (Some e) = true.
Proof. cbn. by rewrite bool_decide_eq_false_2. Qed.

(** Once [v_end] is in [visited] the loop stops at once. *)
Lemma rec_dfs_loop_frozen rec adjs g visited :
  e ∈ visited ->
  UndirectedRec.rec_dfs_loop rec (Some e) adjs g visited = Ok (g, visited).
Proof.
  intros Hin. destruct adjs as [|a adjs]; [done|].
  cbn [UndirectedRec.rec_dfs_loop]. rewrite truthy_end. cbn [end_seen andb].
  by rewrite (proj2 (mem_true _ _) Hin).
Qed.

Definition rec_end_ok
    (recN recE : adj -> list string -> string -> res (adj * list string)) : Prop :=
  (forall g visited a g' l, recN g visited a = Ok (g', l) -> exists new, l = visited ++ new) /\
  forall g visited a g1 full,
    e ∉ visited -> recN g visited a = Ok (g1, full) ->
    exists g2 l,
      recE g visited a = Ok (g2, l) /\
      ((l = full /\ g2 = g1 /\ e ∉ full) \/
       (exists pre post, l = pre ++ [e] /\ full = l ++ post /\ e ∉ pre)).

Lemma rec_dfs_loop_end recN recE adjs :
  rec_end_ok recN recE ->
  forall g visited g1 full,
    e ∉ visited ->
    UndirectedRec.rec_dfs_loop recN None adjs g visited = Ok (g1, full) ->
    exists g2 l,
      UndirectedRec.rec_dfs_loop recE (Some e) adjs g visited = Ok (g2, l) /\
      ((l = full /\ g2 = g1 /\ e ∉ full) \/
       (exists pre post, l = pre ++ [e] /\ full = l ++ post /\ e ∉ pre)).
Proof.
  intros [Hext Hsim]. induction adjs as [|a adjs IH]; intros g visited g1 full Hout.
  - intros [= <- <-]. exists g, visited. split; [done|]. by left.
  - cbn [UndirectedRec.rec_dfs_loop]. rewrite truthy_end. cbn [truthy end_seen andb].
    rewrite (proj2 (mem_false _ _) Hout).
    destruct (Py.mem a visited); cbn [negb]; [by apply IH|].
    destruct (recN g visited a) as [[gN lN]| |] eqn:EN; cbn [mbind res_mbind res_bind]; [|done..].
    destruct (Hsim _ _ _ _ _ Hout EN) as (gE & lE & -> & Hcase).
    cbn [mbind res_mbind res_bind fst snd].
    destruct Hcase as [(-> & -> & Hout')|(pre & post & -> & -> & Hpre)].
    + by apply IH.
    + intros (post' & ->)%(rec_dfs_loop_prefix recN adjs Hext).
      rewrite rec_dfs_loop_frozen by (apply elem_of_app; right; left).
      eexists _, _. split; [done|]. right. exists pre, (post ++ post').
      by rewrite !app_assoc.
Qed.

Lemma rec_dfs_end fuel :
  rec_end_ok (fun g visited a => UndirectedRec.rec_dfs fuel g visited a None)
             (fun g visited a => UndirectedRec.rec_dfs fuel g visited a (Some e)).
Proof.
  induction fuel as [|fuel IH].
  { split; [|done]. intros g visited a g' l. done. }
  split.
  { intros g visited a g' l (new & ->)%rec_dfs_prefix. by eexists. }
  intros g visited v g1 full Hout.
  cbn [UndirectedRec.rec_dfs]. rewrite truthy_end. cbn [truthy end_seen].
  rewrite (proj2 (mem_false _ _) Hout).
  destruct (Dict.get g v) as [lv| |]; cbn [mbind res_mbind res_bind]; [|done..].
  destruct (decide (v = e)) as [->|Hne].
  - intros (post & ->)%(rec_dfs_loop_prefix _ _ (proj1 IH)).
    rewrite rec_dfs_loop_frozen by (apply elem_of_app; right; left).
    eexists _, _. split; [done|]. right. by exists visited, post.
  - apply (rec_dfs_loop_end _ _ _ IH).
    rewrite elem_of_app, list_elem_of_singleton. intros [?|?]; congruence.
Qed.
End UndirectedRecDfsEnd.

(** X27. The recursive [dfs(v_start, v_end)] of
    [undirected_graph_search_algos.py], for a [v_end] other than the empty
    string and on a vertex of a graph in the state the mutators keep,
    returns what [dfs(v_start)] returns, cut after [v_end] when that list
    holds [v_end] and whole when it does not. *)
Theorem undirected_rec_dfs_end (g : Undirected.adj) (v e : string) (fuel : nat) :
  Undirected.wf g -> v ∈ Undirected.get_vertices g -> e <> ""%string ->
  (length (Undirected.get_vertices g) <= fuel)%nat ->
  exists g1 g2 full l,
    UndirectedRec.dfs fuel g v None = Ok (g1, full) /\
    UndirectedRec.dfs fuel g v (Some e) = Ok (g2, l) /\
    cut_after e full l.
Proof.
  intros Hwf Hv He Hfuel.
  destruct (rec_dfs_ok g Hwf fuel g v) as (g1 & full & Hrun & _);
    [apply same_graph_refl|done|done|].
  unfold UndirectedRec.dfs in *.
  rewrite (proj2 (mem_true _ _) Hv) in *. cbn [negb] in *.
  destruct (proj2 (rec_dfs_end e He fuel) _ _ _ g1 full (not_elem_of_nil _) Hrun)
    as (g2 & l & Hl & Hcut).
  exists g1, g2, full, l. split; [done|]. split; [done|].
  destruct Hcut as [(? & _ & ?)|?]; [by left|by right].
Qed.

Lemma undirected_rec_dfs_end_witness :
  exists g1 g2 full l,
    UndirectedRec.dfs 4 path3 "A" None = Ok (g1, full) /\
    UndirectedRec.dfs 4 path3 "A" (Some "B"%string) = Ok (g2, l) /\
    cut_after "B"%string full l.
Proof.
  apply (undirected_rec_dfs_end path3 "A" "B" 4 path3_wf).
  - apply mem_true. reflexivity.
  - done.
  - simpl. lia.
Defined.

Section DirectedDfsEnd.
Import Directed.
Variable g : DirectedGraph.
Variable e : Z.
Hypothesis He : e <> 0.

(** The [for adj in range(len(row))] loop of [rec_dfs], [rec] being the
    recursive call *)
Fixpoint dfs_adjs_end (rec : list Z -> Z -> res (list Z)) (v_end : option Z) (v : Z)
    (adjs : list Z) (visited : list Z) : res (list Z) :=
  match adjs with
  | [] => Ok visited
  | adj :: adjs' =>
      if truthy v_end && end_seen v_end visited then Ok visited
      else
        w ← cell g v adj;
        if negb (w =? 0) && negb (Py.mem adj visited)
        then visited' ← rec visited adj; dfs_adjs_end rec v_end v adjs' visited'
        else dfs_adjs_end rec v_end v adjs' visited
  end.

Lemma rec_dfs_unfold_end fuel visited (v : Z) v_end :
  rec_dfs (S fuel) g visited v v_end =
  row ← Py.index (adj_matrix g) v;
  dfs_adjs_end (fun visited (a : Z) => rec_dfs fuel g visited a v_end) v_end v
    (Py.range (length row))
    (if truthy v_end then
       (if end_seen v_end visited then visited else visited ++ [v])
     else match v_end with
          | None => visited ++ [v]
          | Some _ => visited
          end).
Proof.
  cbn [rec_dfs]. destruct (Py.index (adj_matrix g) v) as [row| |]; [|done..].
  cbn [mbind res_mbind res_bind].
  generalize (if truthy v_end then
       (if end_seen v_end visited then visited else visited ++ [v])
     else match v_end with
          | None => visited ++ [v]
          | Some _ => visited
          end).
  induction (Py.range (length row)) as [|adj adjs IH]; intros vis; [done|].
  cbn [dfs_adjs_end]. destruct (truthy v_end && end_seen v_end vis); [done|].
  destruct (cell g v adj) as [w| |]; [|done..].
  cbn [mbind res_mbind res_bind].
  destruct (negb (w =? 0) && negb (Py.mem adj vis)); [|apply IH].
  destruct (rec_dfs fuel g vis adj v_end) as [vis'| |]; [|done..].
  cbn [mbind res_mbind res_bind]. apply IH.
Qed.

Lemma directed_truthy_end : truthy (Some e) = true.
Proof. cbn. by rewrite (proj2 (Z.eqb_neq _ _) He). Qed.

Lemma dfs_adjs_frozen rec v adjs visited :
  e ∈ visited -> dfs_adjs_end rec (Some e) v adjs visited = Ok visited.
Proof.
  intros Hin. destruct adjs as [|a adjs]; [done|].
  cbn [dfs_adjs_end]. rewrite directed_truthy_end. cbn [end_seen andb].
  by rewrite (proj2 (mem_true _ _) Hin).
Qed.

Definition drec_end_ok (recN recE : list Z -> Z -> res (list Z)) : Prop :=
  (forall visited a l, recN visited a = Ok l -> exists new, l = visited ++ new) /\
  forall visited a full,
    e ∉ visited -> recN visited a = Ok full ->
    exists l, recE visited a = Ok l /\ cut_after e full l.

Lemma dfs_adjs_extends recN v adjs :
  (forall visited a l, recN visited a = Ok l -> exists new, l = visited ++ new) ->
  forall visited l,
    dfs_adjs_end recN None v adjs visited = Ok l -> exists new, l = visited ++ new.
Proof.
  intros Hext. induction adjs as [|a adjs IH]; intros visited l.
  - intros [= <-]. exists []. by rewrite app_nil_r.
  - cbn [dfs_adjs_end truthy andb].
    destruct (cell g v a) as [w| |]; cbn [mbind res_mbind res_bind]; [|done..].
    destruct (negb (w =? 0) && negb (Py.mem a visited)); [|apply IH].
    destruct (recN visited a) as [l1| |] eqn:E1; cbn [mbind res_mbind res_bind]; [|done..].
    intros (new & ->)%IH. apply Hext in E1 as (new1 & ->).
    exists (new1 ++ new). by rewrite app_assoc.
Qed.

Lemma dfs_adjs_sim recN recE v adjs :
  drec_end_ok recN recE ->
  forall visited full,
    e ∉ visited ->
    dfs_adjs_end recN None v adjs visited = Ok full ->
    exists l, dfs_adjs_end recE (Some e) v adjs visited = Ok l /\ cut_after e full l.
Proof.
  intros [Hext Hsim]. induction adjs as [|a adjs IH]; intros visited full Hout.
  - intros [= <-]. exists visited. split; [done|]. by left.
  - cbn [dfs_adjs_end]. rewrite directed_truthy_end. cbn [truthy end_seen andb].
    rewrite (proj2 (mem_false _ _) Hout).
    destruct (cell g v a) as [w| |]; cbn [mbind res_mbind res_bind]; [|done..].
    destruct (negb (w =? 0) && negb (Py.mem a visited)); [|by apply IH].
    destruct (recN visited a) as [lN| |] eqn:EN; cbn [mbind res_mbind res_bind]; [|done..].
    destruct (Hsim _ _ _ Hout EN) as (lE & -> & Hcase).
    cbn [mbind res_mbind res_bind].
    destruct Hcase as [(-> & Hout')|(pre & post & -> & -> & Hpre)].
    + by apply IH.
    + intros (post' & ->)%(dfs_adjs_extends recN v adjs Hext).
      rewrite dfs_adjs_frozen by (apply elem_of_app; right; left).
      eexists. split; [done|]. right. exists pre, (post ++ post').
      by rewrite !app_assoc.
Qed.

Lemma directed_rec_dfs_end fuel :
  drec_end_ok (fun visited (a : Z) => rec_dfs fuel g visited a None)
              (fun visited (a : Z) => rec_dfs fuel g visited a (Some e)).
Proof.
  induction fuel as [|fuel IH].
  { split; [|done]. intros visited a l. done. }
  split.
  { intros visited a l. rewrite rec_dfs_unfold_end. cbn [truthy].
    destruct (Py.index (adj_matrix g) a) as [row| |]; cbn [mbind res_mbind res_bind]; [|done..].
    intros (new & ->)%(dfs_adjs_extends _ _ _ (proj1 IH)).
    rewrite <- app_assoc. by eexists. }
  intros visited v full Hout. rewrite !rec_dfs_unfold_end.
  rewrite directed_truthy_end. cbn [truthy end_seen].
  rewrite (proj2 (mem_false _ _) Hout).
  destruct (Py.index (adj_matrix g) v) as [row| |]; cbn [mbind res_mbind res_bind]; [|done..].
  destruct (decide (v = e)) as [->|Hne].
  - intros (post & ->)%(dfs_adjs_extends _ _ _ (proj1 IH)).
    rewrite dfs_adjs_frozen by (apply elem_of_app; right; left).
    eexists. split; [done|]. right. by exists visited, post.
  - apply (dfs_adjs_sim _ _ _ _ IH).
    rewrite elem_of_app, list_elem_of_singleton. intros [?|?]; congruence.
Qed.
End DirectedDfsEnd.

(** X28. [DirectedGraph.dfs(v_start, v_end)], for a [v_end] other than 0
    and on a vertex of a well-shaped graph, returns what [dfs(v_start)]
    returns, cut after [v_end] when that list holds [v_end] and whole when
    it does not. *)
Theorem directed_dfs_end (g : Directed.DirectedGraph) (v : nat) (e : Z) (fuel : nat) :
  Directed.wf_graph g -> (v < Directed.v_count g)%nat -> e <> 0 ->
  (Directed.v_count g <= fuel)%nat ->
  exists full l,
    Directed.dfs fuel g (Z.of_nat v) None = Ok full /\
    Directed.dfs fuel g (Z.of_nat v) (Some e) = Ok l /\
    cut_after e full l.
Proof.
  intros Hwf Hv He Hfuel. unfold Directed.dfs.
  rewrite mem_get_vertices, in_range_of_nat, bool_decide_eq_true_2 by done. cbn [negb].
  destruct (directed_rec_dfs_spec g Hwf fuel [] v) as (rest & Hrun & _).
  - apply NoDup_nil_2.
  - by intros x ?%elem_of_nil.
  - done.
  - apply not_elem_of_nil.
  - simpl. lia.
  - cbn [fmap list_fmap] in Hrun.
    destruct (proj2 (directed_rec_dfs_end g e He fuel) _ _ _ (not_elem_of_nil _) Hrun)
      as (l & Hl & Hcut).
    eexists _, l. split; [exact Hrun|]. by split.
Qed.

Lemma directed_dfs_end_witness :
  exists full l,
    Directed.dfs 5 Directed.example_graph 1 None = Ok full /\
    Directed.dfs 5 Directed.example_graph 1 (Some 3) = Ok l /\
    cut_after 3 full l.
Proof.
  apply (directed_dfs_end Directed.example_graph 1 3 5 example_graph_wf).
  - simpl. lia.
  - done.
  - simpl. lia.
Defined.

(** ** The recursive [has_cycle] of [undirected_graph_search_algos.py] *)

(** The step from [x] to [y] goes along the edge between [a] and [b]. *)
Definition is_edge (x y a b : string) : Prop :=
  (x = a /\ y = b) \/ (x = b /\ y = a).

(** An undirected graph has a cycle when the two ends of some edge are
    still joined by a path once that edge is taken away. *)
Definition ucycle (g : Undirected.adj) : Prop :=
  exists a b,
    b ∈ Undirected.neighbors g a /\
    rtc (fun x y => y ∈ Undirected.neighbors g x /\ ~ is_edge x y a b) a b.

(** The edges along which the search has gone down, as unordered pairs *)
Definition in_T (T : list (string * string)) (x y : string) : Prop :=
  (x, y) ∈ T \/ (y, x) ∈ T.

(** Each edge of [T] leads to a name no earlier edge touches. *)
Inductive forest : list (string * string) -> Prop :=
| forest_nil : forest []
| forest_snoc T p c :
    forest T -> p <> c -> (forall x, ~ in_T T c x) -> forest (T ++ [(p, c)]).

Section Forest.
Implicit Types (T : list (string * string)) (a b c p x y : string).

Lemma in_T_sym T x y : in_T T x y -> in_T T y x.
Proof. unfold in_T. tauto. Qed.

Lemma is_edge_sym x y a b : is_edge x y a b -> is_edge y x a b.
Proof. unfold is_edge. tauto. Qed.

Lemma in_T_snoc T p c x y : in_T (T ++ [(p, c)]) x y <-> in_T T x y \/ is_edge x y p c.
Proof.
  unfold in_T, is_edge. rewrite !elem_of_app, !list_elem_of_singleton. split.
  - intros [[?|[= -> ->]]|[?|[= -> ->]]]; tauto.
  - intros [[?|?]|[[-> ->]|[-> ->]]]; tauto.
Qed.

Lemma in_T_app T T' x y : in_T T x y -> in_T (T ++ T') x y.
Proof. unfold in_T. rewrite !elem_of_app. tauto. Qed.

Lemma forest_acyclic T :
  forest T ->
  forall a b, in_T T a b ->
    rtc (fun x y => in_T T x y /\ ~ is_edge x y a b) a b -> False.
Proof.
  induction 1 as [|T p c Hforest IH Hpc Hfresh]; intros a b Hab Hpath.
  { destruct Hab as [Hab|Hab]; by apply elem_of_nil in Hab. }
  apply in_T_snoc in Hab as [Hab|Hab].
  - (* an older edge: the walk projects to the older edges *)
    set (f := fun x => if decide (x = c) then p else x).
    assert (forall x y,
      rtc (fun x y => in_T (T ++ [(p, c)]) x y /\ ~ is_edge x y a b) x y ->
      rtc (fun x y => in_T T x y /\ ~ is_edge x y a b) (f x) (f y)) as Hproj.
    { intros x y. induction 1 as [x|x y z [Hxy Hne] _ IHrtc]; [done|].
      apply in_T_snoc in Hxy as [Hxy|Hxy].
      - assert (x <> c) by (intros ->; by apply Hfresh in Hxy).
        assert (y <> c) by (intros ->; by apply in_T_sym, Hfresh in Hxy).
        eapply rtc_l; [|exact IHrtc]. unfold f. by rewrite !decide_False by done.
      - assert (f x = f y) as ->; [|done].
        unfold f. destruct Hxy as [[-> ->]|[-> ->]].
        + rewrite decide_False by done. by rewrite decide_True.
        + rewrite decide_True by done. by rewrite decide_False. }
    assert (a <> c) by (intros ->; by apply Hfresh in Hab).
    assert (b <> c) by (intros ->; by apply in_T_sym, Hfresh in Hab).
    apply Hproj in Hpath. unfold f in Hpath. rewrite !decide_False in Hpath by done.
    by eapply IH.
  - (* the last edge: its end [c] has no other edge *)
    assert (forall x y, in_T (T ++ [(p, c)]) x y /\ ~ is_edge x y a b -> in_T T x y) as Hold.
    { intros x y [Hxy Hne]. apply in_T_snoc in Hxy as [?|Hxy]; [done|].
      destruct Hne. unfold is_edge in *. destruct Hab as [[-> ->]|[-> ->]]; tauto. }
    destruct Hab as [[-> ->]|[-> ->]].
    + apply rtc_inv_r in Hpath as [?|(x & _ & Hx)]; [done|].
      apply Hold, in_T_sym, Hfresh in Hx. done.
    + apply rtc_inv in Hpath as [?|(x & Hx & _)]; [done|].
      apply Hold, Hfresh in Hx. done.
Qed.
End Forest.

Section UndirectedCycle.
Import Undirected.
Variable g0 : adj.
Hypothesis Hwf : wf g0.
Implicit Types (D : list (string * bool)) (T : list (string * string)).
Implicit Types (a c p v x y : string) (parent : option string).

(** [visited[x]] is [True] *)
Definition vis D x : Prop := Dict.get_opt D x = Some true.

Definition dtrues D : nat := trues D.*2.

Lemma dtrues_set D v :
  Dict.get_opt D v = Some false -> dtrues (Dict.set D v true) = S (dtrues D).
Proof.
  unfold dtrues. induction D as [|[k b] D IH]; csimpl; [done|].
  destruct (decide (v = k)) as [->|Hne]; csimpl.
  - by intros [= ->].
  - intros Hv. rewrite (IH Hv). lia.
Qed.

Lemma dtrues_lt D v : Dict.get_opt D v = Some false -> (dtrues D < length D)%nat.
Proof.
  unfold dtrues.
  assert (forall l : list (string * bool), (trues l.*2 <= length l)%nat) as Hle.
  { induction l as [|[k []] l IH]; csimpl; lia. }
  induction D as [|[k b] D IH]; csimpl; [done|].
  destruct (decide (v = k)) as [->|Hne].
  - intros [= ->]. specialize (Hle D). lia.
  - intros Hv. specialize (IH Hv). destruct b; lia.
Qed.

Lemma vis_set D v x : vis (Dict.set D v true) x <-> x = v \/ vis D x.
Proof.
  unfold vis. rewrite get_opt_set. destruct (decide (x = v)) as [->|Hne].
  - split; [by left|done].
  - split; [by right|]. intros [?|?]; done.
Qed.

Lemma flag_get D a :
  a ∈ Dict.keys D -> exists b, Dict.get_opt D a = Some b /\ Dict.get D a = Ok b.
Proof.
  intros Ha. destruct (Dict.get_opt D a) as [b|] eqn:E.
  - exists b. split; [done|]. by apply get_Some.
  - apply get_opt_None in E. done.
Qed.

Lemma not_vis D v : v ∈ Dict.keys D -> ~ vis D v -> Dict.get_opt D v = Some false.
Proof.
  intros Hv Hn. destruct (flag_get D v Hv) as ([|] & Hb & _); [|done]. by destruct Hn.
Qed.

(** The [for adj in self.adj_list[v]] loop of the inner [rec_dfs] and the
    line after it, [rec] being the recursive call *)
Fixpoint ucycle_adjs (rec : list (string * bool) -> string -> res (bool * list (string * bool)))
    (parent : option string) (adjs : list string) (visited : list (string * bool))
    : res (bool * list (string * bool)) :=
  match adjs with
  | [] => Ok (false, visited)
  | a :: adjs' =>
      seen ← Dict.get visited a;
      if negb seen then
        r ← rec visited a;
        if (r : bool * list (string * bool)).1 then Ok (true, r.2)
        else ucycle_adjs rec parent adjs' r.2
      else if negb (bool_decide (Some a = parent)) then Ok (true, visited)
      else ucycle_adjs rec parent adjs' visited
  end.

Lemma ucycle_dfs_unfold fuel g visited parent v :
  UndirectedRec.cycle_dfs (S fuel) g visited parent v =
  lv ← Dict.get g v;
  ucycle_adjs (fun visited a => UndirectedRec.cycle_dfs fuel g visited (Some v) a)
    parent lv (Dict.set visited v true).
Proof.
  cbn [UndirectedRec.cycle_dfs]. destruct (Dict.get g v) as [lv| |]; [|done..].
  cbn [mbind res_mbind res_bind]. generalize (Dict.set visited v true).
  induction lv as [|a adjs IH]; intros vi; [done|].
  cbn [ucycle_adjs]. destruct (Dict.get vi a) as [seen| |]; [|done..].
  cbn [mbind res_mbind res_bind]. destruct (negb seen).
  - destruct (UndirectedRec.cycle_dfs fuel g vi (Some v) a) as [[found vi']| |]; [|done..].
    cbn [mbind res_mbind res_bind fst snd]. destruct found; [done|apply IH].
  - destruct (negb (bool_decide (Some a = parent))); [done|apply IH].
Qed.

(** The flags and the edges gone down: every vertex has a flag, the edges
    form a forest, and they are edges of the graph between flagged
    vertices. *)
Definition cinv D T : Prop :=
  Dict.keys D = Dict.keys g0 /\ forest T /\
  forall x y, (x, y) ∈ T -> vis D x /\ vis D y /\ y ∈ neighbors g0 x.

Lemma cinv_edge D T x y : cinv D T -> in_T T x y -> vis D x /\ vis D y /\ y ∈ neighbors g0 x.
Proof.
  intros (_ & _ & Hedges) [Hxy|Hyx].
  - by apply Hedges.
  - destruct (Hedges _ _ Hyx) as (? & ? & ?). split; [done|]. split; [done|]. by apply Hwf.
Qed.

Lemma tree_mono T T' x y :
  (forall x y, in_T T x y -> in_T T' x y) -> rtc (in_T T) x y -> rtc (in_T T') x y.
Proof. intros Hsub. by apply rtc_subrel. Qed.

(** A visited neighbour that the edges gone down join to [v], without the
    edge to [v] being one of them, closes a cycle. *)
Lemma tree_cycle D T a v :
  cinv D T -> a ∈ neighbors g0 v -> rtc (in_T T) a v -> ~ in_T T v a -> ucycle g0.
Proof.
  intros Hinv Hav Hpath Hnew. exists a, v. split; [by apply Hwf|].
  eapply rtc_subrel; [|exact Hpath]. intros x y Hxy. split.
  - by destruct (cinv_edge D T x y Hinv Hxy) as (_ & _ & ?).
  - intros [[-> ->]|[-> ->]]; [by apply in_T_sym in Hxy|done].
Qed.

(** What a call that finds no cycle leaves behind *)
Definition cpost D T parent v D' T' : Prop :=
  cinv D' T' /\
  (forall x y, in_T T x y -> in_T T' x y) /\
  (forall x, vis D x -> vis D' x) /\
  vis D' v /\
  (dtrues D <= dtrues D')%nat /\
  (forall x y, in_T T' x y ->
     in_T T x y \/
     match parent with Some p => is_edge x y p v | None => False end \/
     (~ vis D x /\ ~ vis D y)) /\
  (forall x, vis D' x -> ~ vis D x -> rtc (in_T T') x v) /\
  (forall x y, vis D' x -> ~ vis D x -> y ∈ neighbors g0 x -> in_T T' x y).

Definition ucrec_ok (fuel : nat)
    (rec : list (string * bool) -> option string -> string
           -> res (bool * list (string * bool))) : Prop :=
  forall D T parent v,
    cinv D T -> v ∈ Dict.keys g0 -> ~ vis D v ->
    match parent with Some p => vis D p /\ v ∈ neighbors g0 p | None => True end ->
    (forall x, vis D x ->
       x ∈ neighbors g0 v \/ (exists y, y ∈ neighbors g0 x /\ ~ vis D y) ->
       match parent with Some p => rtc (in_T T) x p | None => False end) ->
    (length (Dict.keys g0) <= fuel + dtrues D)%nat ->
    exists found D',
      rec D parent v = Ok (found, D') /\
      if (found : bool) then ucycle g0 else exists T', cpost D T parent v D' T'.

(** What the loop of [v] leaves behind when it finds no cycle *)
Definition lpost D T parent v (adjs : list string) D' T' : Prop :=
  cinv D' T' /\
  (forall x y, in_T T x y -> in_T T' x y) /\
  (forall x, vis D x -> vis D' x) /\
  (dtrues D <= dtrues D')%nat /\
  (forall x y, in_T T' x y ->
     in_T T x y \/ (~ vis D x /\ ~ vis D y) \/
     exists c, c ∈ adjs /\ ~ vis D c /\ is_edge x y v c) /\
  (forall x, vis D' x -> ~ vis D x -> rtc (in_T T') x v) /\
  (forall x y, vis D' x -> ~ vis D x -> y ∈ neighbors g0 x -> in_T T' x y) /\
  (forall a, a ∈ adjs -> in_T T' v a \/ Some a = parent).

Lemma vis_dec D x : vis D x \/ ~ vis D x.
Proof. unfold vis. destruct (Dict.get_opt D x) as [[|]|]; [by left|by right..]. Qed.

Lemma ucycle_adjs_spec fuel rec3 parent v adjs :
  ucrec_ok fuel rec3 -> v ∈ Dict.keys g0 -> NoDup adjs ->
  (forall a, a ∈ adjs -> a ∈ neighbors g0 v) ->
  forall D T,
    cinv D T -> vis D v ->
    (forall a, a ∈ adjs -> Some a <> parent -> ~ in_T T v a) ->
    (forall x, vis D x ->
       x ∈ neighbors g0 v \/ (exists y, y ∈ neighbors g0 x /\ ~ vis D y) ->
       rtc (in_T T) x v) ->
    (length (Dict.keys g0) <= fuel + dtrues D)%nat ->
    exists found D',
      ucycle_adjs (fun D a => rec3 D (Some v) a) parent adjs D = Ok (found, D') /\
      if (found : bool) then ucycle g0 else exists T', lpost D T parent v adjs D' T'.
Proof.
  intros Hrec Hv. induction adjs as [|a adjs IH];
    intros Hnd Hadj D T Hinv Hvis HL2 HL34 Hfuel.
  - exists false, D. split; [done|]. exists T.
    split; [done|]. split; [done|]. split; [done|]. split; [done|].
    split; [by left|]. split; [by intros x ? ?|]. split; [by intros x y ? ?|].
    by intros a ?%elem_of_nil.
  - apply NoDup_cons in Hnd as [Ha Hnd].
    assert (a ∈ neighbors g0 v) as Hav by (apply Hadj; left).
    assert (forall a', a' ∈ adjs -> a' ∈ neighbors g0 v) as Hadj'
      by (intros a' ?; apply Hadj; by right).
    assert (a ∈ Dict.keys D) as HaD.
    { destruct Hinv as (-> & _). by eapply neighbor_key. }
    cbn [ucycle_adjs]. destruct (flag_get D a HaD) as (seen & Hseen & ->).
    cbn [mbind res_mbind res_bind]. destruct seen; cbn [negb].
    + case_bool_decide as Hpar; cbn [negb].
      * destruct (IH Hnd Hadj' D T) as (found & D' & Hrun & Hres); try done.
        { intros a' ? ?. apply HL2; [by right|done]. }
        exists found, D'. split; [done|]. destruct found; [done|].
        destruct Hres as (T' & H1 & H2 & H3 & H4 & H5 & H6 & H7 & H8).
        exists T'. split; [done|]. split; [done|]. split; [done|]. split; [done|].
        split; [|split; [done|split; [done|]]].
        -- intros x y Hin. destruct (H5 x y Hin) as [?|[?|(c & ? & ? & ?)]]; [by left|by right; left|].
           right; right. exists c. split; [by right|done].
        -- intros a' [->|?]%elem_of_cons; [by right|by apply H8].
      * exists true, D. split; [done|].
        eapply tree_cycle; [done|done| |].
        -- apply HL34; [done|by left].
        -- apply HL2; [left|done].
    + assert (~ vis D a) as Hna by (unfold vis; rewrite Hseen; done).
      destruct (Hrec D T (Some v) a) as (found & D1 & Hrun1 & Hres1); try done.
      { by eapply neighbor_key. }
      { intros x Hx [Hxa|Hex]; apply HL34; try done; [|by right].
        right. exists a. split; [by apply Hwf|done]. }
      rewrite Hrun1. cbn [mbind res_mbind res_bind fst snd]. destruct found.
      { exists true, D1. done. }
      destruct Hres1 as (T1 & Hinv1 & Hsub1 & Hmono1 & Hva1 & Htr1 & Hshape1 & Hconn1 & Hcov1).
      assert (in_T T1 v a) as Hva.
      { apply in_T_sym, Hcov1; [done..|]. by apply Hwf. }
      destruct (IH Hnd Hadj' D1 T1) as (found & D' & Hrun & Hres).
      { done. }
      { by apply Hmono1. }
      { intros a' Ha' Hpar Hin. apply Hshape1 in Hin as [Hold|[Hedge|[Hnv _]]].
        - by apply (HL2 a'); [right|..].
        - destruct Hedge as [[_ ->]|[-> _]]; done.
        - done. }
      { intros x Hx Hcase. destruct (vis_dec D x) as [Hold|Hnew].
        - apply (tree_mono T T1); [done|]. apply HL34; [done|].
          destruct Hcase as [?|(y & Hy & Hny)]; [by left|]. right. exists y. split; [done|].
          intros ?. by apply Hny, Hmono1.
        - eapply rtc_r; [by apply Hconn1|]. by apply in_T_sym. }
      { lia. }
      exists found, D'. split; [done|]. destruct found; [done|].
      destruct Hres as (T' & Hinv' & Hsub' & Hmono' & Htr' & Hshape' & Hconn' & Hcov' & Hadjs').
      exists T'. split; [done|]. split; [by eauto|]. split; [by eauto|]. split; [lia|].
      split; [|split; [|split]].
      * intros x y Hin. apply Hshape' in Hin as [Hin1|[[Hnx Hny]|(c & Hc & Hnc & Hedge)]].
        -- apply Hshape1 in Hin1 as [?|[Hedge|?]]; [by left| |by right; left].
           right; right. exists a. split; [left|done].
        -- right; left. split; intros ?; [apply Hnx|apply Hny]; by apply Hmono1.
        -- right; right. exists c. split; [by right|]. split; [|done].
           intros ?. by apply Hnc, Hmono1.
      * intros x Hx Hnx. destruct (vis_dec D1 x) as [Hold|Hnew].
        -- apply (tree_mono T1 T'); [done|].
           eapply rtc_r; [by apply Hconn1|]. by apply in_T_sym.
        -- by apply Hconn'.
      * intros x y Hx Hnx Hy. destruct (vis_dec D1 x) as [Hold|Hnew].
        -- apply Hsub'. by apply Hcov1.
        -- by apply Hcov'.
      * intros a' [->|Ha']%elem_of_cons; [left; by apply Hsub'|by apply Hadjs'].
Qed.

Lemma ucycle_dfs_spec fuel :
  ucrec_ok fuel (fun D parent v => UndirectedRec.cycle_dfs fuel g0 D parent v).
Proof.
  induction fuel as [|fuel IH]; intros D T parent v Hinv Hv Hnv Hpar HS1 Hfuel;
    pose proof Hinv as (Hk & Hforest & Hedges);
    assert (Dict.get_opt D v = Some false) as Hf by (apply not_vis; [by rewrite Hk|done]).
  - exfalso. apply dtrues_lt in Hf.
    assert (length D = length (Dict.keys g0)) as Hlen.
    { rewrite <- Hk. unfold Dict.keys. by rewrite length_fmap. }
    simpl in Hfuel. lia.
  - rewrite ucycle_dfs_unfold.
    rewrite (get_neighbors g0 v) by (unfold Dict.has; by apply bool_decide_eq_true).
    cbn [mbind res_mbind res_bind].
    set (D1 := Dict.set D v true).
    set (T1 := match parent with Some p => T ++ [(p, v)] | None => T end).
    assert (forall x, vis D1 x <-> x = v \/ vis D x) as Hvis1 by apply vis_set.
    assert (forall x y, in_T T1 x y <->
              in_T T x y \/ match parent with Some p => is_edge x y p v | None => False end)
      as HT1.
    { intros x y. subst T1. destruct parent as [p|]; [apply in_T_snoc|tauto]. }
    assert (forall x, ~ in_T T v x) as Hfresh.
    { intros x Hin. by destruct (cinv_edge D T v x Hinv Hin) as (? & _). }
    assert (cinv D1 T1) as Hinv1.
    { split; [|split].
      - subst D1. rewrite keys_set.
        assert (Dict.has D v = true) as ->; [|done].
        unfold Dict.has. apply bool_decide_eq_true. unfold Dict.keys in Hk. by rewrite Hk.
      - subst T1. destruct parent as [p|]; [|done]. destruct Hpar as [Hp Hvp].
        apply forest_snoc; [done| |done]. intros ->. by apply Hwf in Hvp.
      - intros x y Hxy. assert (in_T T1 x y) as Hin by (by left).
        apply HT1 in Hin as [Hin|Hin].
        + destruct (cinv_edge D T x y Hinv Hin) as (? & ? & ?).
          split; [apply Hvis1; by right|]. split; [apply Hvis1; by right|done].
        + destruct parent as [p|]; [|done]. destruct Hpar as [Hp Hvp].
          destruct Hin as [[-> ->]|[-> ->]].
          * split; [apply Hvis1; by right|]. split; [apply Hvis1; by left|done].
          * split; [apply Hvis1; by left|]. split; [apply Hvis1; by right|by apply Hwf]. }
    destruct (ucycle_adjs_spec fuel _ parent v (neighbors g0 v) IH Hv) with (D := D1) (T := T1)
      as (found & D' & Hrun & Hres).
    + apply Hwf.
    + done.
    + done.
    + apply Hvis1. by left.
    + intros a Ha Hne Hin. apply HT1 in Hin as [Hin|Hin]; [by apply Hfresh in Hin|].
      destruct parent as [p|]; [|done]. destruct Hpar as [Hp _].
      destruct Hin as [[-> _]|[_ ->]]; done.
    + intros x Hx Hcase. apply Hvis1 in Hx as [->|Hx]; [done|].
      assert (match parent with Some p => rtc (in_T T) x p | None => False end) as Hjoin.
      { apply HS1; [done|]. destruct Hcase as [?|(y & Hy & Hny)]; [by left|].
        right. exists y. split; [done|]. intros ?. apply Hny, Hvis1. by right. }
      destruct parent as [p|]; [|done].
      eapply rtc_r.
      * eapply tree_mono; [|exact Hjoin]. intros a b ?. apply HT1. by left.
      * apply HT1. right. by left.
    + subst D1. rewrite dtrues_set by done. lia.
    + rewrite Hrun. exists found, D'. split; [done|]. destruct found; [done|].
      destruct Hres as (T' & Hinv' & Hsub' & Hmono' & Htr' & Hshape' & Hconn' & Hcov' & Hadjs').
      exists T'. split; [done|]. split; [|split; [|split; [|split; [|split; [|split]]]]].
      * intros x y Hin. apply Hsub', HT1. by left.
      * intros x Hx. apply Hmono', Hvis1. by right.
      * apply Hmono', Hvis1. by left.
      * subst D1. rewrite dtrues_set in Htr' by done. lia.
      * intros x y Hin. apply Hshape' in Hin as [Hin|[[Hnx Hny]|(c & Hc & Hnc & Hedge)]].
        -- apply HT1 in Hin as [?|?]; [by left|right; by left].
        -- right; right. split; intros ?; [apply Hnx|apply Hny]; apply Hvis1; by right.
        -- right; right.
           assert (~ vis D c) by (intros ?; apply Hnc, Hvis1; by right).
           destruct Hedge as [[-> ->]|[-> ->]]; done.
      * intros x Hx Hnx. destruct (decide (x = v)) as [->|Hne]; [done|].
        apply Hconn'; [done|]. intros [?|?]%Hvis1; done.
      * intros x y Hx Hnx Hy. destruct (decide (x = v)) as [->|Hne].
        -- destruct (Hadjs' y Hy) as [?|Hp]; [done|].
           apply Hsub', HT1. right. rewrite <- Hp. by right.
        -- apply Hcov'; [done| |done]. intros [?|?]%Hvis1; done.
Qed.

Lemma ucycle_roots_spec fuel vertices :
  (length (Dict.keys g0) <= fuel)%nat ->
  (forall x, x ∈ vertices -> x ∈ Dict.keys g0) ->
  forall D T,
    cinv D T ->
    (forall x y, vis D x -> y ∈ neighbors g0 x -> in_T T x y) ->
    (forall x, x ∈ Dict.keys g0 -> x ∈ vertices \/ neighbors g0 x = [] \/ vis D x) ->
    exists r,
      UndirectedRec.cycle_roots fuel g0 D vertices = Ok r /\ (r = true <-> ucycle g0).
Proof.
  intros Hfuel. induction vertices as [|v vs IH]; intros Hsub D T Hinv HG Hdone.
  - exists false. split; [done|]. split; [done|]. intros (a & b & Hab & Hpath). exfalso.
    assert (forall x y, y ∈ neighbors g0 x -> in_T T x y) as Hall.
    { intros x y Hy. apply HG; [|done].
      destruct (neighbor_has g0 x y Hwf Hy) as [Hx _].
      unfold Dict.has in Hx. apply bool_decide_eq_true in Hx.
      destruct (Hdone x Hx) as [Hin|[Hnil|?]]; [by apply elem_of_nil in Hin| |done].
      rewrite Hnil in Hy. by apply elem_of_nil in Hy. }
    eapply (forest_acyclic T); [apply Hinv|by apply Hall|].
    eapply rtc_subrel; [|exact Hpath]. intros x y [Hy Hne]. split; [by apply Hall|done].
  - assert (v ∈ Dict.keys g0) as Hv by (apply Hsub; left).
    assert (forall x, x ∈ vs -> x ∈ Dict.keys g0) as Hsub' by (intros x ?; apply Hsub; by right).
    pose proof Hinv as (Hk & _).
    cbn [UndirectedRec.cycle_roots].
    rewrite (get_neighbors g0 v) by (unfold Dict.has; by apply bool_decide_eq_true).
    cbn [mbind res_mbind res_bind].
    destruct (length (neighbors g0 v) =? 0)%nat eqn:Elen.
    { apply (IH Hsub' D T Hinv HG). intros x Hx.
      destruct (Hdone x Hx) as [[->|?]%elem_of_cons|?]; [|by left|by right].
      right. left. apply Nat.eqb_eq in Elen. by apply nil_length_inv. }
    destruct (flag_get D v) as (seen & Hseen & ->); [by rewrite Hk|].
    cbn [mbind res_mbind res_bind]. destruct seen.
    { apply (IH Hsub' D T Hinv HG). intros x Hx.
      destruct (Hdone x Hx) as [[->|?]%elem_of_cons|?]; [|by left|by right].
      right. by right. }
    assert (~ vis D v) as Hnv by (unfold vis; rewrite Hseen; done).
    destruct (ucycle_dfs_spec fuel D T None v) as (found & D' & -> & Hres); try done.
    { intros x Hx [Hxv|(y & Hy & Hny)].
      - apply Hnv. apply Hwf in Hxv.
        by destruct (cinv_edge D T x v Hinv (HG x v Hx Hxv)) as (_ & ? & _).
      - apply Hny. by destruct (cinv_edge D T x y Hinv (HG x y Hx Hy)) as (_ & ? & _). }
    { lia. }
    cbn [mbind res_mbind res_bind fst snd]. destruct found.
    { exists true. by split. }
    destruct Hres as (T' & Hinv' & Hsub1 & Hmono & Hv' & _ & _ & _ & Hcov).
    apply (IH Hsub' D' T' Hinv').
    + intros x y Hx Hy. destruct (vis_dec D x) as [Hold|Hnew].
      * apply Hsub1. by apply HG.
      * by apply Hcov.
    + intros x Hx. destruct (Hdone x Hx) as [[->|?]%elem_of_cons|[?|?]].
      * right. by right.
      * by left.
      * right. by left.
      * right. right. by apply Hmono.
Qed.
End UndirectedCycle.

(** X29. The recursive [has_cycle] of [undirected_graph_search_algos.py],
    on a graph in the state the mutators keep, returns, with a recursion
    depth of at most the number of vertices, and returns [True] exactly
    when the graph has a cycle: an edge whose two ends are still joined by
    a path of edges when that edge is left out. *)
Theorem undirected_rec_has_cycle_correct (g : Undirected.adj) (fuel : nat) :
  Undirected.wf g -> (length (Undirected.get_vertices g) <= fuel)%nat ->
  exists r, UndirectedRec.has_cycle fuel g = Ok r /\ (r = true <-> ucycle g).
Proof.
  intros Hwf Hfuel. unfold UndirectedRec.has_cycle, Undirected.get_vertices.
  assert (forall l x, Dict.get_opt ((fun v : string => (v, false)) <$> l) x <> Some true) as Hnone.
  { induction l as [|k l IH]; intros x; csimpl; [done|]. by destruct (decide (x = k)). }
  apply (ucycle_roots_spec g Hwf fuel (Dict.keys g) Hfuel) with (T := []).
  - done.
  - split; [|split].
    + unfold Dict.keys. rewrite <- list_fmap_compose. apply list_fmap_id.
    + constructor.
    + by intros x y ?%elem_of_nil.
  - intros x y Hx. by apply Hnone in Hx.
  - intros x Hx. by left.
Qed.

Lemma undirected_rec_has_cycle_correct_witness :
  UndirectedRec.has_cycle 4 path3 = Ok false /\ ~ ucycle path3.
Proof.
  destruct (undirected_rec_has_cycle_correct path3 4 path3_wf) as (r & Hrun & Hiff).
  - simpl. lia.
  - pose proof Hrun as Hrun'. vm_compute in Hrun'. injection Hrun' as <-.
    split; [exact Hrun|]. intros Hc. by apply Hiff in Hc.
Defined.

(** ** [DirectedGraph.remove_edge] *)

(** X30. On a well-shaped graph [remove_edge(src, dst)] never raises and
    keeps the shape and the vertex count.  Afterwards there is no edge from
    [src] to [dst], unless the two are the same vertex, whose cell is left
    alone; every other cell, the one from [dst] to [src] among them, is as
    it was, and with an id out of range the graph is unchanged. *)
Theorem directed_remove_edge_effect (g : Directed.DirectedGraph) (src dst : Z) :
  Directed.wf_graph g ->
  exists g',
    Directed.remove_edge g src dst = Ok g' /\
    Directed.wf_graph g' /\ Directed.v_count g' = Directed.v_count g /\
    (forall a b, Z.of_nat a = src -> Z.of_nat b = dst -> a <> b ->
       Directed.weight g' a b = 0) /\
    (forall a b, Z.of_nat a <> src \/ Z.of_nat b <> dst \/ a = b ->
       Directed.weight g' a b = Directed.weight g a b) /\
    (Directed.in_range g src = false \/ Directed.in_range g dst = false -> g' = g).
Proof.
  intros Hwf. destruct (remove_edge_spec g src dst Hwf) as (g' & Hrun & Hwf' & Hn & Hcell).
  exists g'. split; [done|]. split; [done|]. split; [done|]. split; [|split].
  - intros a b <- <- Hne. rewrite Hcell. rewrite bool_decide_eq_true_2 by done.
    rewrite andb_true_r.
    destruct (edge_args_ok g (Z.of_nat a) (Z.of_nat b)) eqn:E; [done|].
    unfold edge_args_ok in E. rewrite !in_range_of_nat in E.
    rewrite (proj2 (Z.eqb_neq _ _)) in E by lia. rewrite andb_true_r in E.
    apply andb_false_iff in E. apply weight_outside; [done|].
    destruct E as [E|E]; apply bool_decide_eq_false in E; lia.
  - intros a b Hab. rewrite Hcell.
    destruct (decide (Z.of_nat a = src /\ Z.of_nat b = dst)) as [[<- <-]|Hne].
    + destruct Hab as [?|[?| ->]]; [done..|].
      unfold edge_args_ok. rewrite Z.eqb_refl. by rewrite andb_false_r.
    + rewrite bool_decide_eq_false_2 by done. by rewrite andb_false_r.
  - intros Hout. unfold Directed.remove_edge in Hrun.
    destruct Hout as [Hs|Hd].
    + rewrite Hs in Hrun. by injection Hrun.
    + rewrite Hd in Hrun. rewrite orb_true_r in Hrun. by injection Hrun.
Qed.

Lemma directed_remove_edge_effect_witness :
  exists g',
    Directed.remove_edge Directed.example_graph 4 0 = Ok g' /\
    Directed.weight g' 4 0 = 0 /\ Directed.weight g' 4 3 = 3.
Proof.
  destruct (directed_remove_edge_effect Directed.example_graph 4 0 example_graph_wf)
    as (g' & Hrun & _ & _ & Hgone & Hother & _).
  exists g'. split; [exact Hrun|]. split.
  - apply Hgone; [reflexivity|reflexivity|lia].
  - rewrite (Hother 4%nat 3%nat); [reflexivity|]. right. left. simpl. lia.
Defined.
